(** * A shallow embedding of the gbbs core: the block-amortized byte codec
      (src/encodings/byte_pd_amortized.h), the block allocator
      (pbbslib/block_allocator.h) and the BFS / wBFS drivers (benchmark/).

    Part I holds the definitions, translated function by function from the
    C++ sources; Part II holds the lemmas and theorems about them. *)

From stdpp Require Import base tactics option list strings.
From Stdlib Require Import ZArith List Lia Bool Zdiv Setoid Morphisms.
Import ListNotations.
Local Open Scope Z_scope.

(* ===================================================================== *)
(** * Part I: definitions                                                 *)
(* ===================================================================== *)

(** ** Machine integers

    [uintE] is an unsigned 32-bit integer, [intE] a signed 32-bit integer,
    [uchar] an octet and [size_t] an unsigned 64-bit integer.  All are
    carried by [Z]; the conversions below write the wrap-around out. *)

Definition wrap32 (z : Z) : Z := z mod 2 ^ 32.
Definition wrap64 (z : Z) : Z := z mod 2 ^ 64.
Definition sint32 (z : Z) : Z := (z + 2 ^ 31) mod 2 ^ 32 - 2 ^ 31.

Definition UINT_E_MAX : Z := 2 ^ 32 - 1.
Definition INT_E_MAX : Z := 2 ^ 31 - 1.

Definition is_uintE (z : Z) : Prop := 0 <= z < 2 ^ 32.
Definition is_intE (z : Z) : Prop := - 2 ^ 31 <= z < 2 ^ 31.

(** ** Byte-addressed memory

    The adjacency region is a [uchar*]; memory is a total map from addresses
    to octets.  [load32]/[store32] are the [*((uintE* )p)] accesses of the
    source (little-endian, unaligned). *)

Definition mem : Type := Z -> Z.

Definition load (m : mem) (p : Z) : Z := Z.land (m p) 0xff.

Definition store (m : mem) (p v : Z) : mem :=
  fun q => if q =? p then Z.land v 0xff else m q.

Definition load32 (m : mem) (p : Z) : Z :=
  load m p + 2 ^ 8 * load m (p + 1) + 2 ^ 16 * load m (p + 2)
  + 2 ^ 24 * load m (p + 3).

Definition store32 (m : mem) (p v : Z) : mem :=
  store (store (store (store m p v) (p + 1) (Z.shiftr v 8))
               (p + 2) (Z.shiftr v 16)) (p + 3) (Z.shiftr v 24).

Definition zero_mem : mem := fun _ => 0.

(** ** Arrays and outcomes

    An array outside the adjacency regions is a total map from indices;
    [upd a i v] is the assignment [a[i] = v]. *)

Definition upd {A : Type} (a : Z -> A) (i : Z) (v : A) : Z -> A :=
  fun j => if j =? i then v else a j.

(** A call returns, or it ends the process: [exit(status)] after a
    diagnostic on stderr, or [abort()] from a failed [assert]. *)
Inductive outcome (A : Type) : Type :=
| Returns (a : A)
| Exits (status : Z) (diagnostic : string)
| Aborts (diagnostic : string).
Arguments Returns {A} a.
Arguments Exits {A} status diagnostic.
Arguments Aborts {A} diagnostic.

#[export] Instance outcome_bind : MBind outcome := fun A B f x =>
  match x with
  | Returns a => f a
  | Exits status diagnostic => Exits status diagnostic
  | Aborts diagnostic => Aborts diagnostic
  end.

#[export] Instance outcome_ret : MRet outcome := fun A a => Returns a.

Module bytepd_amortized.

(** Modelled from the spec: the macros of bridge.h / macros.h, which are not
    under src/.  The spec gives [P = 1000 (PARALLEL_DEGREE)] and "7 bits per
    byte + continuation bit". *)
Definition PARALLEL_DEGREE : Z := 1000.
Definition EDGE_SIZE_PER_BYTE : Z := 7.
Definition LAST_BIT_SET (b : Z) : bool := negb (Z.land b 0x80 =? 0).

(** [sizeof(uintE)] *)
Definition sizeof_uintE : Z := 4.

(** [get_virtual_degree] *)
Definition get_virtual_degree (m : mem) (d ngh_arr : Z) : Z :=
  if 0 <? d then load32 m ngh_arr else 0.

(** The [while (1)] loop shared by [eatFirstEdge] and [eatWeight]:
    [edgeRead |= ((b & 0x7f) << shiftAmount)].  The shift amounts 6, 13, 20
    and 27 are the ones a 32-bit [int] defines; a further continuation byte
    would shift by 34, which is undefined: [None]. *)
Fixpoint eat_or_loop (shifts : nat) (m : mem) (start edgeRead shiftAmount : Z)
  : option (Z * Z) :=
  match shifts with
  | O => None
  | S shifts' =>
      let b := load m start in
      let edgeRead :=
        Z.lor edgeRead (wrap32 (Z.shiftl (Z.land b 0x7f) shiftAmount)) in
      let start := start + 1 in
      if LAST_BIT_SET b
      then eat_or_loop shifts' m start edgeRead (shiftAmount + EDGE_SIZE_PER_BYTE)
      else Some (edgeRead, start)
  end.

(** [eatFirstEdge]: returns the neighbour and the advanced [start]. *)
Definition eatFirstEdge (m : mem) (start source : Z) : option (Z * Z) :=
  let fb := load m start in
  let start := start + 1 in
  let edgeRead := Z.land fb 0x3f in
  '(edgeRead, start) ←
    (if LAST_BIT_SET fb then eat_or_loop 4 m start edgeRead 6
     else Some (edgeRead, start));
  Some (if negb (Z.land fb 0x40 =? 0) then wrap32 (source - edgeRead)
        else wrap32 (source + edgeRead), start).

(** The [while (1)] loop of [eatEdge]:
    [edgeRead += ((b & 0x7f) << shiftAmount)], shift amounts 0 .. 28. *)
Fixpoint eat_add_loop (shifts : nat) (m : mem) (start edgeRead shiftAmount : Z)
  : option (Z * Z) :=
  match shifts with
  | O => None
  | S shifts' =>
      let b := load m start in
      let edgeRead :=
        wrap32 (edgeRead + wrap32 (Z.shiftl (Z.land b 0x7f) shiftAmount)) in
      let start := start + 1 in
      if LAST_BIT_SET b
      then eat_add_loop shifts' m start edgeRead (shiftAmount + EDGE_SIZE_PER_BYTE)
      else Some (edgeRead, start)
  end.

(** [eatEdge]: reads any edge after the first one of a block. *)
Definition eatEdge (m : mem) (start : Z) : option (Z * Z) :=
  eat_add_loop 5 m start 0 0.

(** [eatWeight<intE>] *)
Definition eatWeight_intE (m : mem) (start : Z) : option (Z * Z) :=
  let fb := load m start in
  let start := start + 1 in
  let edgeRead := Z.land fb 0x3f in
  '(edgeRead, start) ←
    (if LAST_BIT_SET fb then eat_or_loop 4 m start edgeRead 6
     else Some (edgeRead, start));
  Some (if negb (Z.land fb 0x40 =? 0) then sint32 (- sint32 edgeRead)
        else sint32 edgeRead, start).

(** The [while ((curByte > 0) || (toCompress > 0))] loop shared by
    [compressFirstEdge] and [compressEdge].  [toCompress] is a [uintE], so
    five rounds of [>> 7] exhaust it: the loop always leaves by its own
    condition (lemma [compress_loop_fuel] in Part II). *)
Fixpoint compress_loop (fuel : nat) (m : mem) (start offset curByte toCompress : Z)
  : mem * Z :=
  match fuel with
  | O => (m, offset)
  | S fuel' =>
      if (0 <? curByte) || (0 <? toCompress) then
        let toWrite := curByte in
        let toCompress := Z.shiftr toCompress 7 in
        let curByte := Z.land toCompress 0x7f in
        let toWrite := if 0 <? toCompress then Z.lor toWrite 0x80 else toWrite in
        let m := store m (start + offset) toWrite in
        compress_loop fuel' m start (offset + 1) curByte toCompress
      else (m, offset)
  end.

(** [compressFirstEdge]: writes [target - source] with a sign bit; returns the
    memory and the new offset. *)
Definition compressFirstEdge (m : mem) (start offset source target : Z)
  : mem * Z :=
  let diff := target - source in
  let preCompress := diff in
  let toCompress := wrap32 (Z.abs preCompress) in
  let firstByte := Z.land toCompress 0x3f in
  let firstByte := if preCompress <? 0 then Z.lor firstByte 0x40 else firstByte in
  let toCompress := Z.shiftr toCompress 6 in
  let firstByte := if 0 <? toCompress then Z.lor firstByte 0x80 else firstByte in
  let m := store m (start + offset) firstByte in
  let offset := offset + 1 in
  let curByte := Z.land toCompress 0x7f in
  compress_loop 5 m start offset curByte toCompress.

(** [compressEdge]: the difference between this edge and the previous one. *)
Definition compressEdge (m : mem) (start curOffset e : Z) : mem * Z :=
  let e := wrap32 e in
  let curByte := Z.land e 0x7f in
  compress_loop 5 m start curOffset curByte e.

(** The weight type [W] of the templates: [eatWeight<W>] and
    [compressWeight<W>] are selected by [std::enable_if] on
    [std::is_same<W, intE>]; here by instance resolution. *)
Class Weight (W : Type) := {
  eatWeight : mem -> Z -> option (W * Z);
  compressWeight : mem -> Z -> Z -> W -> mem * Z;
  default_weight : W
}.

(** [W = pbbslib::empty]: zero bytes. *)
#[export] Instance empty_Weight : Weight unit := {|
  eatWeight := fun _ start => Some (tt, start);
  compressWeight := fun m _ offset _ => (m, offset);
  default_weight := tt
|}.

(** [W = intE]: the signed encoding of a first edge from source 0. *)
#[export] Instance intE_Weight : Weight Z := {|
  eatWeight := eatWeight_intE;
  compressWeight := fun m start offset weight =>
                      compressFirstEdge m start offset 0 weight;
  default_weight := 0
|}.


(** *** Block geometry

    Every function of the codec starts with the same four lines
    ([virtual_degree], [num_blocks], [block_offsets], [nghs_start]) and
    finds block [i] and its edge range by the same three expressions. *)

(** [1 + (virtual_degree - 1) / PARALLEL_DEGREE], in [uintE] arithmetic. *)
Definition num_blocks_of (virtual_degree : Z) : Z :=
  1 + wrap32 (virtual_degree - 1) / PARALLEL_DEGREE.

(** [block_offsets[j]] with [block_offsets = (uintE* )(edge_start + sizeof(uintE))] *)
Definition block_offsets_at (m : mem) (edge_start j : Z) : Z :=
  load32 m (edge_start + sizeof_uintE + sizeof_uintE * j).

Definition set_block_offset (m : mem) (edge_start j v : Z) : mem :=
  store32 m (edge_start + sizeof_uintE + sizeof_uintE * j) v.

(** [edge_start + (num_blocks - 1) * sizeof(uintE) + sizeof(uintE)] *)
Definition nghs_start_of (edge_start num_blocks : Z) : Z :=
  edge_start + (num_blocks - 1) * sizeof_uintE + sizeof_uintE.

(** [(i > 0) ? (edge_start + block_offsets[i - 1]) : nghs_start] *)
Definition block_finger (m : mem) (edge_start num_blocks i : Z) : Z :=
  if 0 <? i then edge_start + block_offsets_at m edge_start (i - 1)
  else nghs_start_of edge_start num_blocks.

(** [(i == (num_blocks - 1)) ? degree : *((uintE* )(edge_start + block_offsets[i]))] *)
Definition block_end (m : mem) (edge_start num_blocks degree i : Z) : Z :=
  if i =? num_blocks - 1 then wrap32 degree
  else load32 m (edge_start + block_offsets_at m edge_start i).

(** *** decode, unweighted ([W = pbbs::empty])

    The callback [t(source, ngh, wgh, edgeID)] is a closure over the caller's
    state: it is modelled as a state transformer that also returns the
    [bool].  The result of the loops is [(true, s)] when the loop ran to its
    end and [(false, s)] when the callback returned [false]. *)

Section decode_unweighted.
Context {S : Type}.
Variable t : Z -> Z -> unit -> Z -> S -> bool * S.

(** [for (edgeID = ...; edgeID < end_offset; edgeID++)
       { ngh += eatEdge(finger); if (!t(source, ngh, wgh, edgeID)) ... }] *)
Fixpoint decode_rest_unweighted (n : nat) (m : mem) (source finger ngh edgeID : Z)
    (s : S) : option (bool * S) :=
  match n with
  | O => Some (true, s)
  | Datatypes.S n' =>
      '(d, finger) ← eatEdge m finger;
      let ngh := wrap32 (ngh + d) in
      let '(go, s) := t source ngh tt edgeID s in
      if go then decode_rest_unweighted n' m source finger ngh (edgeID + 1) s
      else Some (false, s)
  end.

(** The body shared by the first chunk and the later chunks: decode block
    [i] until its end or until the callback says stop. *)
Definition decode_chunk_unweighted (m : mem) (edge_start source degree num_blocks i : Z)
    (s : S) : option (bool * S) :=
  let finger := block_finger m edge_start num_blocks i in
  let start_offset := load32 m finger in
  let end_offset := block_end m edge_start num_blocks degree i in
  let finger := finger + sizeof_uintE in
  if start_offset <? end_offset then
    '(ngh, finger) ← eatFirstEdge m finger source;
    let '(go, s) := t source ngh tt start_offset s in
    if go then
      decode_rest_unweighted (Z.to_nat (end_offset - wrap32 (start_offset + 1)))
        m source finger ngh (wrap32 (start_offset + 1)) s
    else Some (false, s)
  else Some (true, s).

(** [parallel_for(1, num_blocks, ...)] and [for(size_t i=1; i<num_blocks; i++)]:
    the two branches of the source have the same body, in which a [false]
    from the callback sets [end_offset = 0] or [break]s, that is, leaves
    this block only.  The parallel loop is modelled by its in-order
    schedule. *)
Fixpoint decode_later_chunks (n : nat) (m : mem) (edge_start source degree num_blocks i : Z)
    (s : S) : option S :=
  match n with
  | O => Some s
  | Datatypes.S n' =>
      r ← decode_chunk_unweighted m edge_start source degree num_blocks i s;
      decode_later_chunks n' m edge_start source degree num_blocks (i + 1) (snd r)
  end.

(** [decode<W, T>] for [W = pbbs::empty]. *)
Definition decode_unweighted (m : mem) (edge_start source degree : Z) (parallel : bool)
    (s : S) : option S :=
  if 0 <? degree then
    let virtual_degree := load32 m edge_start in
    let num_blocks := num_blocks_of virtual_degree in
    (* do first chunk: a [false] from the callback is [return] *)
    '(go, s) ← decode_chunk_unweighted m edge_start source degree num_blocks 0 s;
    if (go : bool) then
      if (2 <? num_blocks) && parallel then
        decode_later_chunks (Z.to_nat (num_blocks - 1)) m edge_start source degree
          num_blocks 1 s
      else
        decode_later_chunks (Z.to_nat (num_blocks - 1)) m edge_start source degree
          num_blocks 1 s
    else Some s
  else Some s.

End decode_unweighted.

(** *** The templates over the weight type *)

Section weighted.
Context {W : Type} `{Weight W}.

Local Abbreviation edge := (Z * W)%type.

Section decode.
Context {S : Type}.
Variable t : Z -> Z -> W -> Z -> S -> bool * S.

(** [for (edgeID = start_offset + 1; edgeID < end_offset; edgeID++)
       { ngh += eatEdge(finger); wgh = eatWeight<W>(finger);
         if (!t(source, ngh, wgh, edgeID)) return; }] *)
Fixpoint decode_rest (n : nat) (m : mem) (source finger ngh edgeID : Z) (s : S)
  : option (bool * S) :=
  match n with
  | O => Some (true, s)
  | Datatypes.S n' =>
      '(d, finger) ← eatEdge m finger;
      let ngh := wrap32 (ngh + d) in
      '(wgh, finger) ← eatWeight m finger;
      let '(go, s) := t source ngh wgh edgeID s in
      if go then decode_rest n' m source finger ngh (edgeID + 1) s
      else Some (false, s)
  end.

Definition decode_chunk (m : mem) (edge_start source degree num_blocks i : Z) (s : S)
  : option (bool * S) :=
  let finger := block_finger m edge_start num_blocks i in
  let start_offset := load32 m finger in
  let end_offset := block_end m edge_start num_blocks degree i in
  let finger := finger + sizeof_uintE in
  if start_offset <? end_offset then
    '(ngh, finger) ← eatFirstEdge m finger source;
    '(wgh, finger) ← eatWeight m finger;
    let '(go, s) := t source ngh wgh start_offset s in
    if go then
      decode_rest (Z.to_nat (end_offset - wrap32 (start_offset + 1)))
        m source finger ngh (wrap32 (start_offset + 1)) s
    else Some (false, s)
  else Some (true, s).

(** [for(size_t i=0; i<num_blocks; i++)]: a [false] from the callback is
    [return], which leaves the whole function. *)
Fixpoint decode_chunks (n : nat) (m : mem) (edge_start source degree num_blocks i : Z)
    (s : S) : option S :=
  match n with
  | O => Some s
  | Datatypes.S n' =>
      '(go, s) ← decode_chunk m edge_start source degree num_blocks i s;
      if (go : bool) then decode_chunks n' m edge_start source degree num_blocks (i + 1) s
      else Some s
  end.

(** [decode<W, T>] for [W] other than [pbbslib::empty]. *)
Definition decode (m : mem) (edge_start source degree : Z) (par : bool) (s : S)
  : option S :=
  if 0 <? degree then
    let virtual_degree := load32 m edge_start in
    let num_blocks := num_blocks_of virtual_degree in
    decode_chunks (Z.to_nat num_blocks) m edge_start source degree num_blocks 0 s
  else Some s.

End decode.

(** *** map_reduce

    [m] is the map [M& m], [identity] and [f] are the two fields of the
    [Monoid& reduce]. *)

Section map_reduce.
Context {E : Type}.
Variable fm : Z -> Z -> W -> E.
Variable identity : E.
Variable f : E -> E -> E.

(** Modelled from the spec: [pbbslib::reduce] of pbbslib, which is not
    under src/.  The spec has [map_reduce] "fold m(src, ngh, w) over all
    edges using an associative reduction": the elements are combined from
    left to right, and the empty sequence gives the identity. *)
Definition reduce (im : list E) : E :=
  match im with
  | [] => identity
  | x :: im' => fold_left f im' x
  end.

(** [for (size_t j = start_offset + 1; j < end_offset; j++)] *)
Fixpoint map_reduce_rest (n : nat) (m : mem) (source finger ngh : Z) (cur : E)
  : option E :=
  match n with
  | O => Some cur
  | S n' =>
      '(d, finger) ← eatEdge m finger;
      let ngh := wrap32 (ngh + d) in
      '(wgh, finger) ← eatWeight m finger;
      map_reduce_rest n' m source finger ngh (f cur (fm source ngh wgh))
  end.

(** the body of the [par_for] for block [i]: [block_outputs[i]] *)
Definition map_reduce_block (m : mem) (edge_start source degree num_blocks i : Z)
  : option E :=
  let cur := identity in
  let finger := block_finger m edge_start num_blocks i in
  let start_offset := load32 m finger in
  let end_offset := block_end m edge_start num_blocks degree i in
  let finger := finger + sizeof_uintE in
  if start_offset <? end_offset then
    (* Eat first edge, which is compressed specially *)
    '(ngh, finger) ← eatFirstEdge m finger source;
    '(wgh, finger) ← eatWeight m finger;
    let cur := f cur (fm source ngh wgh) in
    map_reduce_rest (Z.to_nat (end_offset - wrap32 (start_offset + 1)))
      m source finger ngh cur
  else Some cur.

(** [par_for(0, num_blocks, 1, ...)], in the order of the indices *)
Fixpoint map_reduce_blocks (n : nat) (m : mem) (edge_start source degree num_blocks i : Z)
    (block_outputs : list E) : option (list E) :=
  match n with
  | O => Some block_outputs
  | S n' =>
      cur ← map_reduce_block m edge_start source degree num_blocks i;
      map_reduce_blocks n' m edge_start source degree num_blocks (i + 1)
        (block_outputs ++ [cur])
  end.

Definition map_reduce (m : mem) (edge_start source degree : Z) (par : bool) : option E :=
  if 0 <? degree then
    let virtual_degree := load32 m edge_start in
    let num_blocks := num_blocks_of virtual_degree in
    block_outputs ←
      map_reduce_blocks (Z.to_nat num_blocks) m edge_start source degree num_blocks 0 [];
    let im := block_outputs in
    Some (reduce im)
  else Some identity.

End map_reduce.

(** *** sequentialCompressEdgeSet

    The iterator [I& it] yields the edges of the vertex: [it.cur()] is the
    current edge, [it.next()] advances and returns the new current edge.
    It is modelled by the list of the edges from the current one on. *)

Definition it_cur (it : list edge) : edge := hd (0, default_weight) it.
Definition it_next (it : list edge) : list edge * edge :=
  (tl it, hd (0, default_weight) (tl it)).

(** [for (size_t edgeI = 1; edgeI < end; edgeI++)] *)
Fixpoint compress_block_rest (n : nat) (m : mem) (edgeArray current_offset last_ngh : Z)
    (it : list edge) : mem * Z * list edge :=
  match n with
  | O => (m, current_offset, it)
  | Datatypes.S n' =>
      let '(it, nxt) := it_next it in
      let difference := wrap32 (fst nxt - last_ngh) in
      let '(m, current_offset) := compressEdge m edgeArray current_offset difference in
      let '(m, current_offset) := compressWeight m edgeArray current_offset (snd nxt) in
      compress_block_rest n' m edgeArray current_offset (fst nxt) it
  end.

(** [for (size_t i = 0; i < num_blocks; i++)].  The source decodes each edge
    back right after writing it and prints a line to [std::cout] when the
    two differ; the print does not touch the region and is left out. *)
Fixpoint compress_blocks (n : nat) (m : mem)
    (edgeArray start_offset current_offset degree source i : Z) (it : list edge)
  : mem * Z :=
  match n with
  | O => (m, current_offset)
  | Datatypes.S n' =>
      let o := i * PARALLEL_DEGREE in
      let end_ := Z.min PARALLEL_DEGREE (degree - o) in
      let m := if 0 <? i
               then set_block_offset m edgeArray (i - 1) (current_offset - start_offset)
               else m in
      let m := store32 m (edgeArray + current_offset) o in
      let current_offset := current_offset + sizeof_uintE in
      let '(it, lst) := if i =? 0 then (it, it_cur it) else it_next it in
      let last_ngh := fst lst in
      let '(m, current_offset) :=
        compressFirstEdge m edgeArray current_offset source last_ngh in
      let '(m, current_offset) :=
        compressWeight m edgeArray current_offset (snd lst) in
      let '(m, current_offset, it) :=
        compress_block_rest (Z.to_nat (end_ - 1)) m edgeArray current_offset last_ngh it in
      compress_blocks n' m edgeArray start_offset current_offset degree source (i + 1) it
  end.

Definition sequentialCompressEdgeSet (m : mem) (edgeArray current_offset degree source : Z)
    (it : list edge) : mem * Z :=
  if 0 <? degree then
    let start_offset := current_offset in
    let num_blocks := 1 + (degree - 1) / PARALLEL_DEGREE in
    let m := store32 m edgeArray degree in
    let current_offset :=
      current_offset + (sizeof_uintE + (num_blocks - 1) * sizeof_uintE) in
    compress_blocks (Z.to_nat num_blocks) m edgeArray start_offset current_offset
      degree source 0 it
  else (m, current_offset).


(** *** iter

    [num_blocks], [cur_chunk], [cur_chunk_degree], [read_in_block] and
    [read_total] are [uintE] fields.  The constructor returns at once when
    [degree == 0] and leaves the other fields unset (here: zero). *)

Record iter : Type := {
  i_base : Z;
  i_finger : Z;
  i_src : Z;
  i_degree : Z;
  i_num_blocks : Z;
  i_cur_chunk : Z;
  i_cur_chunk_degree : Z;
  i_last_edge : edge;
  i_read_in_block : Z;
  i_read_total : Z
}.

(** [for (cur_chunk = 1; cur_chunk < num_blocks; cur_chunk++)] of the
    constructor: the blocks after the first, up to the first one that holds
    an edge.  The result is [cur_chunk], [finger], [cur_chunk_degree] and
    [last_edge] as the loop leaves them. *)
Fixpoint iter_first_chunk (n : nat) (m : mem) (base src degree num_blocks cur_chunk : Z)
    (finger cur_chunk_degree : Z) (last_edge : edge) : option (Z * Z * Z * edge) :=
  match n with
  | O => Some (cur_chunk, finger, cur_chunk_degree, last_edge)
  | S n' =>
      let finger := base + block_offsets_at m base (cur_chunk - 1) in
      let start_offset := load32 m finger in
      let end_offset := block_end m base num_blocks degree cur_chunk in
      let cur_chunk_degree := wrap32 (end_offset - start_offset) in
      let finger := finger + sizeof_uintE in
      if start_offset <? end_offset then
        '(ngh, finger) ← eatFirstEdge m finger src;
        '(wgh, finger) ← eatWeight m finger;
        Some (cur_chunk, finger, cur_chunk_degree, (ngh, wgh))
      else
        iter_first_chunk n' m base src degree num_blocks (wrap32 (cur_chunk + 1))
          finger cur_chunk_degree last_edge
  end.

Definition iter_new (m : mem) (_base _degree _src : Z) : option iter :=
  if _degree =? 0 then
    Some {| i_base := _base; i_finger := 0; i_src := _src; i_degree := _degree;
            i_num_blocks := 0; i_cur_chunk := 0; i_cur_chunk_degree := 0;
            i_last_edge := (0, default_weight);
            i_read_in_block := 0; i_read_total := 0 |}
  else
    let virtual_degree := load32 m _base in
    let num_blocks := num_blocks_of virtual_degree in
    let finger := nghs_start_of _base num_blocks in
    let start_offset := load32 m finger in
    let end_offset := block_end m _base num_blocks _degree 0 in
    let cur_chunk_degree := wrap32 (end_offset - start_offset) in
    let finger := finger + sizeof_uintE in
    '(cur_chunk, finger, cur_chunk_degree, last_edge) ←
      (if start_offset <? end_offset then
         '(ngh, finger) ← eatFirstEdge m finger _src;
         '(wgh, finger) ← eatWeight m finger;
         Some (0, finger, cur_chunk_degree, (ngh, wgh))
       else
         iter_first_chunk (Z.to_nat (num_blocks - 1)) m _base _src _degree num_blocks 1
           finger cur_chunk_degree (0, default_weight));
    Some {| i_base := _base; i_finger := finger; i_src := _src; i_degree := _degree;
            i_num_blocks := num_blocks; i_cur_chunk := cur_chunk;
            i_cur_chunk_degree := cur_chunk_degree; i_last_edge := last_edge;
            i_read_in_block := 1; i_read_total := 1 |}.

Definition iter_cur (it : iter) : edge := i_last_edge it.

(** [while (cur_chunk_degree == 0)] of [next()]: the loop has no bound of
    its own; [fuel] rounds are run and the answer is [None] should the
    condition still hold after them.  The result is [cur_chunk], [finger]
    and [cur_chunk_degree]. *)
Fixpoint iter_next_chunk (fuel : nat) (m : mem) (base degree num_blocks cur_chunk : Z)
  : option (Z * Z * Z) :=
  match fuel with
  | O => None
  | S fuel' =>
      let cur_chunk := wrap32 (cur_chunk + 1) in
      let finger := base + block_offsets_at m base (cur_chunk - 1) in
      let start_offset := load32 m finger in
      let end_offset := block_end m base num_blocks degree cur_chunk in
      let finger := finger + sizeof_uintE in
      let cur_chunk_degree := wrap32 (end_offset - start_offset) in
      if cur_chunk_degree =? 0
      then iter_next_chunk fuel' m base degree num_blocks cur_chunk
      else Some (cur_chunk, finger, cur_chunk_degree)
  end.

(** [next()]: the iterator after the call; the edge it returns is
    [iter_cur] of the result. *)
Definition iter_next (fuel : nat) (m : mem) (it : iter) : option iter :=
  if i_read_in_block it =? i_cur_chunk_degree it then
    '(cur_chunk, finger, cur_chunk_degree) ←
      iter_next_chunk fuel m (i_base it) (i_degree it) (i_num_blocks it) (i_cur_chunk it);
    '(ngh, finger) ← eatFirstEdge m finger (i_src it);
    '(wgh, finger) ← eatWeight m finger;
    Some {| i_base := i_base it; i_finger := finger; i_src := i_src it;
            i_degree := i_degree it; i_num_blocks := i_num_blocks it;
            i_cur_chunk := cur_chunk; i_cur_chunk_degree := cur_chunk_degree;
            i_last_edge := (ngh, wgh); i_read_in_block := 1;
            i_read_total := wrap32 (i_read_total it + 1) |}
  else
    '(d, finger) ← eatEdge m (i_finger it);
    '(wgh, finger) ← eatWeight m finger;
    Some {| i_base := i_base it; i_finger := finger; i_src := i_src it;
            i_degree := i_degree it; i_num_blocks := i_num_blocks it;
            i_cur_chunk := i_cur_chunk it;
            i_cur_chunk_degree := i_cur_chunk_degree it;
            i_last_edge := (wrap32 (fst (i_last_edge it) + d), wgh);
            i_read_in_block := wrap32 (i_read_in_block it + 1);
            i_read_total := wrap32 (i_read_total it + 1) |}.

Definition iter_has_next (it : iter) : bool := i_read_total it <? i_degree it.

(** [k] calls of [next()] *)
Fixpoint iter_nexts (fuel : nat) (m : mem) (k : nat) (it : iter) : option iter :=
  match k with
  | O => Some it
  | S k' => it ← iter_next fuel m it; iter_nexts fuel m k' it
  end.

(** *** simple_iter *)

Record simple_iter : Type := {
  si_base : Z;
  si_finger : Z;
  si_src : Z;
  si_degree : Z;
  si_cur_chunk : Z;
  si_last_edge : edge;
  si_proc : Z
}.

(** The constructor.  With [degree == 0] it returns at once and leaves
    [finger], [last_edge] and [proc] unset (here: zero). *)
Definition simple_iter_new (m : mem) (_base _degree _src : Z) : option simple_iter :=
  if _degree =? 0 then
    Some {| si_base := _base; si_finger := 0; si_src := _src; si_degree := _degree;
            si_cur_chunk := 0; si_last_edge := (0, default_weight); si_proc := 0 |}
  else
    let num_blocks := 1 + (_degree - 1) / PARALLEL_DEGREE in
    let finger := _base + (num_blocks - 1) * sizeof_uintE + 2 * sizeof_uintE in
    '(ngh, finger) ← eatFirstEdge m finger _src;
    '(wgh, finger) ← eatWeight m finger;
    Some {| si_base := _base; si_finger := finger; si_src := _src;
            si_degree := _degree; si_cur_chunk := 0;
            si_last_edge := (ngh, wgh); si_proc := 1 |}.

Definition si_cur (it : simple_iter) : edge := si_last_edge it.

(** [next()]: the iterator after the call; the edge it returns is [si_cur]
    of the result. *)
Definition si_next (m : mem) (it : simple_iter) : option simple_iter :=
  if si_proc it =? PARALLEL_DEGREE then
    let finger := si_finger it + sizeof_uintE in   (* skip block start *)
    '(ngh, finger) ← eatFirstEdge m finger (si_src it);
    '(wgh, finger) ← eatWeight m finger;
    Some {| si_base := si_base it; si_finger := finger; si_src := si_src it;
            si_degree := si_degree it; si_cur_chunk := si_cur_chunk it + 1;
            si_last_edge := (ngh, wgh); si_proc := 1 |}
  else
    '(d, finger) ← eatEdge m (si_finger it);
    '(wgh, finger) ← eatWeight m finger;
    Some {| si_base := si_base it; si_finger := finger; si_src := si_src it;
            si_degree := si_degree it; si_cur_chunk := si_cur_chunk it;
            si_last_edge := (wrap32 (fst (si_last_edge it) + d), wgh);
            si_proc := wrap32 (si_proc it + 1) |}.

Definition si_has_next (it : simple_iter) : bool :=
  si_cur_chunk it * PARALLEL_DEGREE + si_proc it <? si_degree it.

(** [k] calls of [next()] *)
Fixpoint si_nexts (m : mem) (k : nat) (it : simple_iter) : option simple_iter :=
  match k with
  | O => Some it
  | S k' => it ← si_next m it; si_nexts m k' it
  end.

(** *** intersect, intersect_f

    [while (i < l1_size && j < l2_size)]: every round increments [i] or [j],
    so [l1_size + l2_size] rounds are enough; the loop is given exactly that
    many and answers [None] should the condition still hold after them. *)

Section intersect.
Context {S : Type}.
(** the callback [f(l1_src, l2_src, e1)], a closure over the caller's state *)
Variable f : Z -> Z -> Z -> S -> S.

Fixpoint intersect_f_loop (fuel : nat) (m : mem) (it_1 it_2 : simple_iter)
    (l1_size l2_size l1_src l2_src i j ct : Z) (s : S) : option (Z * S) :=
  if (i <? l1_size) && (j <? l2_size) then
    match fuel with
    | O => None
    | Datatypes.S fuel' =>
        let e1 := fst (si_cur it_1) in
        let e2 := fst (si_cur it_2) in
        if e1 =? e2 then
          let s := f l1_src l2_src e1 s in
          it_1 ← si_next m it_1;
          it_2 ← si_next m it_2;
          intersect_f_loop fuel' m it_1 it_2 l1_size l2_size l1_src l2_src
            (i + 1) (j + 1) (ct + 1) s
        else if e1 <? e2 then
          it_1 ← si_next m it_1;
          intersect_f_loop fuel' m it_1 it_2 l1_size l2_size l1_src l2_src
            (i + 1) j ct s
        else
          it_2 ← si_next m it_2;
          intersect_f_loop fuel' m it_1 it_2 l1_size l2_size l1_src l2_src
            i (j + 1) ct s
    end
  else Some (ct, s).

Definition intersect_f (m : mem) (l1 l2 l1_size l2_size l1_src l2_src : Z) (s : S)
  : option (Z * S) :=
  if (l1_size =? 0) || (l2_size =? 0) then Some (0, s) else
  it_1 ← simple_iter_new m l1 l1_size l1_src;
  it_2 ← simple_iter_new m l2 l2_size l2_src;
  intersect_f_loop (Z.to_nat (l1_size + l2_size)) m it_1 it_2
    l1_size l2_size l1_src l2_src 0 0 0 s.

End intersect.

Fixpoint intersect_loop (fuel : nat) (m : mem) (it_1 it_2 : simple_iter)
    (l1_size l2_size i j ct : Z) : option Z :=
  if (i <? l1_size) && (j <? l2_size) then
    match fuel with
    | O => None
    | Datatypes.S fuel' =>
        let e1 := fst (si_cur it_1) in
        let e2 := fst (si_cur it_2) in
        if e1 =? e2 then
          it_1 ← si_next m it_1;
          it_2 ← si_next m it_2;
          intersect_loop fuel' m it_1 it_2 l1_size l2_size (i + 1) (j + 1) (ct + 1)
        else if e1 <? e2 then
          it_1 ← si_next m it_1;
          intersect_loop fuel' m it_1 it_2 l1_size l2_size (i + 1) j ct
        else
          it_2 ← si_next m it_2;
          intersect_loop fuel' m it_1 it_2 l1_size l2_size i (j + 1) ct
    end
  else Some ct.

Definition intersect (m : mem) (l1 l2 l1_size l2_size l1_src l2_src : Z) : option Z :=
  if (l1_size =? 0) || (l2_size =? 0) then Some 0 else
  it_1 ← simple_iter_new m l1 l1_size l1_src;
  it_2 ← simple_iter_new m l2 l2_size l2_src;
  intersect_loop (Z.to_nat (l1_size + l2_size)) m it_1 it_2 l1_size l2_size 0 0 0.

(** *** get_ith_neighbor *)

(** Modelled from the spec: [pbbslib::binary_search(I, v, less)] of
    pbbslib/binary_search.h, which is not under src/.  The spec describes
    [get_ith] as "random access via binary search over block-start cumulative
    counts"; on the non-decreasing sequence of the block ends the search
    answers the first position whose element is not [less] than ([lte]: not
    at most) [v], or the length when there is none. *)
Fixpoint binary_search_from (n : nat) (I : Z -> Z) (j v : Z) (less : Z -> Z -> bool) : Z :=
  match n with
  | O => j
  | Datatypes.S n' =>
      if less (I j) v then binary_search_from n' I (j + 1) v less else j
  end.

Definition binary_search (I : Z -> Z) (size v : Z) (less : Z -> Z -> bool) : Z :=
  binary_search_from (Z.to_nat size) I 0 v less.

(** [for (size_t edgeID = start + 1; edgeID < i; edgeID++)] *)
Fixpoint get_ith_rest (n : nat) (m : mem) (finger ngh : Z) (wgh : W) : option edge :=
  match n with
  | O => Some (ngh, wgh)
  | Datatypes.S n' =>
      '(d, finger) ← eatEdge m finger;
      let ngh := wrap32 (ngh + d) in
      '(wgh, finger) ← eatWeight m finger;
      get_ith_rest n' m finger ngh wgh
  end.

(** [None] also stands for the failure of [assert(block < num_blocks)]. *)
Definition get_ith_neighbor (m : mem) (edge_start source degree i : Z) : option edge :=
  let virtual_degree := load32 m edge_start in
  let num_blocks := num_blocks_of virtual_degree in
  let blocks_f := fun j => block_end m edge_start num_blocks degree j in
  let lte := fun l r => l <=? r in
  let block := binary_search blocks_f num_blocks i lte in
  if negb (block <? num_blocks) then None else
  let finger := block_finger m edge_start num_blocks block in
  let start := load32 m finger in
  let finger := finger + sizeof_uintE in
  '(ngh, finger) ← eatFirstEdge m finger source;
  '(wgh, finger) ← eatWeight m finger;
  if i =? start then Some (ngh, wgh)
  else get_ith_rest (Z.to_nat (i - wrap32 (start + 1))) m finger ngh wgh.


(** *** repack, pack

    [par_for] runs its body once for every index; the bodies of the loops
    below touch disjoint blocks, and the loops are modelled by their in-order
    schedule.  The arrays [U], [offs], [block_cts] and [tmp] live outside the
    region: [U] is a map from positions, the others are lists. *)

(** Modelled from the spec: [pbbslib::scan_add_inplace] of pbbslib, which is
    not under src/.  The source comments its calls "Scan to compute offset
    for each block" and "Scan block_cts to get offsets within blocks": the
    sequence is replaced by its exclusive prefix sums and the total is
    returned.  [wrap] is the arithmetic of the element type. *)
Fixpoint scan_add_inplace_from (wrap : Z -> Z) (acc : Z) (l : list Z) : list Z * Z :=
  match l with
  | [] => ([], acc)
  | x :: l' =>
      let '(r, total) := scan_add_inplace_from wrap (wrap (acc + x)) l' in
      (acc :: r, total)
  end.

Definition scan_add_inplace (wrap : Z -> Z) (l : list Z) : list Z * Z :=
  scan_add_inplace_from wrap 0 l.

(** the local [uchar tmp[16]] that the size computations compress into *)
Definition scratch : mem := zero_mem.

(** 1. Copy all live edges into U *)
Fixpoint repack_copy_rest (n : nat) (m : mem) (finger ngh edgeID : Z) (U : Z -> edge)
  : option (Z -> edge) :=
  match n with
  | O => Some U
  | Datatypes.S n' =>
      '(d, finger) ← eatEdge m finger;
      let ngh := wrap32 (ngh + d) in
      '(wgh, finger) ← eatWeight m finger;
      repack_copy_rest n' m finger ngh (edgeID + 1) (upd U edgeID (ngh, wgh))
  end.

Definition repack_copy_chunk (m : mem) (edge_start source degree num_blocks i : Z)
    (U : Z -> edge) : option (Z -> edge) :=
  let finger := block_finger m edge_start num_blocks i in
  let start_offset := load32 m finger in
  let end_offset := block_end m edge_start num_blocks degree i in
  let finger := finger + sizeof_uintE in
  if start_offset <? end_offset then
    '(ngh, finger) ← eatFirstEdge m finger source;
    '(wgh, finger) ← eatWeight m finger;
    let U := upd U start_offset (ngh, wgh) in
    repack_copy_rest (Z.to_nat (end_offset - wrap32 (start_offset + 1)))
      m finger ngh (wrap32 (start_offset + 1)) U
  else Some U.

Fixpoint repack_copy_chunks (n : nat) (m : mem) (edge_start source degree num_blocks i : Z)
    (U : Z -> edge) : option (Z -> edge) :=
  match n with
  | O => Some U
  | Datatypes.S n' =>
      U ← repack_copy_chunk m edge_start source degree num_blocks i U;
      repack_copy_chunks n' m edge_start source degree num_blocks (i + 1) U
  end.

(** 3. Compute #bytes per new block *)
Fixpoint repack_bytes_rest (n : nat) (U : Z -> edge) (edgeI bytes : Z) : Z :=
  match n with
  | O => bytes
  | Datatypes.S n' =>
      let difference := wrap32 (fst (U edgeI) - fst (U (edgeI - 1))) in
      let off := snd (compressEdge scratch 0 0 difference) in
      let bytes := bytes + off in
      let off := snd (compressWeight scratch 0 0 (snd (U edgeI))) in
      let bytes := bytes + off in
      repack_bytes_rest n' U (edgeI + 1) bytes
  end.

Definition repack_block_bytes (U : Z -> edge) (source degree i : Z) : Z :=
  let start := i * PARALLEL_DEGREE in
  let end_ := start + Z.min PARALLEL_DEGREE (degree - start) in
  let bytes := 0 in
  let bytes := bytes + sizeof_uintE in   (* block_deg *)
  let nw := U start in
  let off := snd (compressFirstEdge scratch 0 0 source (fst nw)) in
  let bytes := bytes + off in
  let off := snd (compressWeight scratch 0 0 (snd nw)) in
  let bytes := bytes + off in
  repack_bytes_rest (Z.to_nat (end_ - (start + 1))) U (start + 1) bytes.

(** 5. Repack each block *)
Fixpoint repack_write_rest (n : nat) (m : mem) (finger current_offset : Z)
    (U : Z -> edge) (j last_ngh : Z) : mem * Z :=
  match n with
  | O => (m, current_offset)
  | Datatypes.S n' =>
      let nw := U j in
      let difference := wrap32 (fst nw - last_ngh) in
      let '(m, current_offset) := compressEdge m finger current_offset difference in
      let '(m, current_offset) := compressWeight m finger current_offset (snd nw) in
      repack_write_rest n' m finger current_offset U (j + 1) (fst nw)
  end.

Definition repack_write_block (m : mem) (edge_start nghs_start : Z) (bytes_imap : list Z)
    (U : Z -> edge) (source degree i : Z) : mem :=
  let start := i * PARALLEL_DEGREE in
  let end_ := start + Z.min PARALLEL_DEGREE (degree - start) in
  let finger := nghs_start + nth (Z.to_nat i) bytes_imap 0 in
  (* update block offsets with the distance from the start *)
  let m := if 0 <? i then set_block_offset m edge_start (i - 1) (finger - edge_start)
           else m in
  (* write the edge offset for this block *)
  let m := store32 m finger start in
  let current_offset := sizeof_uintE in
  let nw := U start in
  let '(m, current_offset) := compressFirstEdge m finger current_offset source (fst nw) in
  let '(m, current_offset) := compressWeight m finger current_offset (snd nw) in
  fst (repack_write_rest (Z.to_nat (end_ - (start + 1))) m finger current_offset
         U (start + 1) (fst nw)).

Fixpoint repack_write_blocks (n : nat) (m : mem) (edge_start nghs_start : Z)
    (bytes_imap : list Z) (U : Z -> edge) (source degree i : Z) : mem :=
  match n with
  | O => m
  | Datatypes.S n' =>
      let m := repack_write_block m edge_start nghs_start bytes_imap U source degree i in
      repack_write_blocks n' m edge_start nghs_start bytes_imap U source degree (i + 1)
  end.

Definition repack (m : mem) (source degree edge_start : Z) (par : bool) : option mem :=
  (* No need to repack if degree == 0 *)
  if 0 <? degree then
    let virtual_degree := load32 m edge_start in
    let num_blocks := num_blocks_of virtual_degree in
    (* 1. Copy all live edges into U *)
    U ← repack_copy_chunks (Z.to_nat num_blocks) m edge_start source degree num_blocks 0
          (fun _ => (0, default_weight));
    (* 2. Repack from edge_start *)
    let new_blocks := 1 + wrap32 (degree - 1) / PARALLEL_DEGREE in
    (* 3. Compute #bytes per new block *)
    let offs := map (repack_block_bytes U source degree) (seqZ 0 new_blocks) in
    (* 4. Scan to compute offset for each block *)
    let offs := offs ++ [0] in
    let bytes_imap := fst (scan_add_inplace wrap32 offs) in
    (* 5. Repack each block *)
    let m := store32 m edge_start degree in   (* update the virtual degree *)
    let nghs_start := nghs_start_of edge_start new_blocks in
    Some (repack_write_blocks (Z.to_nat new_blocks) m edge_start nghs_start bytes_imap
            U source degree 0)
  else Some m.

Section pack.
Variable pred : Z -> Z -> W -> bool.

(** [for (size_t i = 1; i < block_deg; i++)]: [tmp[ct++] = ...] appends. *)
Fixpoint pack_filter_rest (n : nat) (m : mem) (source finger ngh : Z) (tmp : list edge)
  : option (list edge) :=
  match n with
  | O => Some tmp
  | Datatypes.S n' =>
      '(d, finger) ← eatEdge m finger;
      let ngh := wrap32 (ngh + d) in
      '(wgh, finger) ← eatWeight m finger;
      let tmp := if pred source ngh wgh then tmp ++ [(ngh, wgh)] else tmp in
      pack_filter_rest n' m source finger ngh tmp
  end.

(** [for (size_t i = 1; i < ct; i++) { const auto& e = tmp[i]; ... }] *)
Fixpoint pack_write_rest (tmp : list edge) (m : mem) (write_finger offset last_ngh : Z)
  : mem * Z :=
  match tmp with
  | [] => (m, offset)
  | e :: tmp' =>
      let difference := wrap32 (fst e - last_ngh) in
      let '(m, offset) := compressEdge m write_finger offset difference in
      let '(m, offset) := compressWeight m write_finger offset (snd e) in
      pack_write_rest tmp' m write_finger offset (fst e)
  end.

(** The body of the first [par_for] of [pack] for block [i]: the memory
    after it and [block_cts[i]].  [tmp] is [uintEW tmp[PARALLEL_DEGREE]]:
    more than [PARALLEL_DEGREE] live edges overrun it ([None]).  The
    [assert(offset <= final_off)] compares against a variable that only
    exists in debug builds and is left out. *)
Definition pack_block (m : mem) (edge_start source degree num_blocks i : Z)
  : option (mem * Z) :=
  let finger := block_finger m edge_start num_blocks i in
  let start_offset := load32 m finger in
  let end_offset := block_end m edge_start num_blocks degree i in
  let block_deg := wrap32 (end_offset - start_offset) in
  let finger := finger + sizeof_uintE in
  (* A) Uncompress and filter edges into tmp *)
  tmp ← (if 0 <? block_deg then
           '(ngh, finger) ← eatFirstEdge m finger source;
           '(wgh, finger) ← eatWeight m finger;
           let tmp := if pred source ngh wgh then [(ngh, wgh)] else [] in
           pack_filter_rest (Z.to_nat (block_deg - 1)) m source finger ngh tmp
         else Some []);
  let ct := Z.of_nat (length tmp) in
  if PARALLEL_DEGREE <? ct then None else
  (* C) Recompress inside this block *)
  let offset := 0 in
  let m :=
    if (0 <? ct) && (ct <? block_deg) then
      let finger := block_finger m edge_start num_blocks i in
      let write_finger := finger + sizeof_uintE in
      let e0 := hd (0, default_weight) tmp in
      let '(m, offset) := compressFirstEdge m write_finger offset source (fst e0) in
      let '(m, offset) := compressWeight m write_finger offset (snd e0) in
      fst (pack_write_rest (tl tmp) m write_finger offset (fst e0))
    else m in
  Some (m, ct).

Fixpoint pack_blocks (n : nat) (m : mem) (edge_start source degree num_blocks i : Z)
    (block_cts : list Z) : option (mem * list Z) :=
  match n with
  | O => Some (m, block_cts)
  | Datatypes.S n' =>
      '(m, ct) ← pack_block m edge_start source degree num_blocks i;
      pack_blocks n' m edge_start source degree num_blocks (i + 1) (block_cts ++ [ct])
  end.

(** [size_t block_cts_stack[100]] is taken for [block_cts] unless
    [num_blocks > 100], and [pack] writes and scans the [num_blocks + 1]
    entries [block_cts[0 .. num_blocks]]: with exactly 100 blocks the last of
    them lies past the end of the array, and [pack] is undefined ([None]). *)
Definition block_cts_stack_size : Z := 100.

(** the second [par_for]: [*block_deg_ptr = scan_cts[i]] *)
Fixpoint pack_write_starts (n : nat) (m : mem) (edge_start num_blocks i : Z)
    (scan_cts : list Z) : mem :=
  match n with
  | O => m
  | Datatypes.S n' =>
      let finger := block_finger m edge_start num_blocks i in
      let m := store32 m finger (nth (Z.to_nat i) scan_cts 0) in
      pack_write_starts n' m edge_start num_blocks (i + 1) scan_cts
  end.

Definition pack (m : mem) (edge_start source degree : Z) (par : bool)
  : option (mem * Z) :=
  let virtual_degree := load32 m edge_start in
  let num_blocks := num_blocks_of virtual_degree in
  '(m, block_cts) ←
    pack_blocks (Z.to_nat num_blocks) m edge_start source degree num_blocks 0 [];
  (* 2. Scan block_cts to get offsets within blocks *)
  if num_blocks =? block_cts_stack_size then None else
  let block_cts := block_cts ++ [0] in
  let '(scan_cts, deg_remaining) := scan_add_inplace wrap64 block_cts in
  let m := pack_write_starts (Z.to_nat num_blocks) m edge_start num_blocks 0 scan_cts in
  m ← (if deg_remaining <? virtual_degree / 10
       then repack m source (wrap32 deg_remaining) edge_start par
       else Some m);
  Some (m, deg_remaining).

End pack.

(** *** decode_block

    [out] is the array [std::tuple<uintE, W>* out]; [start] and [end] are
    [size_t]. *)

(** [for (size_t i = start + 1; i < end; i++)] *)
Fixpoint decode_block_rest (n : nat) (m : mem) (finger ngh i : Z) (out : Z -> edge)
  : option (Z -> edge) :=
  match n with
  | O => Some out
  | S n' =>
      (* Eat the next 'edge', which is a difference, and reconstruct edge. *)
      '(d, finger) ← eatEdge m finger;
      let ngh := wrap32 (ngh + d) in
      '(wgh, finger) ← eatWeight m finger;
      decode_block_rest n' m finger ngh (i + 1) (upd out i (ngh, wgh))
  end.

Definition decode_block (m : mem) (finger : Z) (out : Z -> edge) (start end_ source : Z)
  : option (Z -> edge) :=
  if 0 <? wrap64 (end_ - start) then
    '(ngh, finger) ← eatFirstEdge m finger source;
    '(wgh, finger) ← eatWeight m finger;
    let out := upd out start (ngh, wgh) in
    decode_block_rest (Z.to_nat (end_ - wrap64 (start + 1))) m finger ngh
      (wrap64 (start + 1)) out
  else Some out.

(** *** filter_sequential *)

Section filter_sequential.
Context {S : Type}.
Variable pred : Z -> Z -> W -> bool.
(** the output [out(k, (ngh, wgh))], a closure over the caller's state *)
Variable out : Z -> edge -> S -> S.

(** [if (pred(source, ngh, wgh)) { out(k++, std::make_tuple(ngh, wgh)); }] *)
Definition filter_sequential_edge (source ngh : Z) (wgh : W) (k : Z) (s : S) : Z * S :=
  if pred source ngh wgh then (wrap64 (k + 1), out k (ngh, wgh) s) else (k, s).

Fixpoint filter_sequential_rest (n : nat) (m : mem) (source finger ngh k : Z) (s : S)
  : option (Z * S) :=
  match n with
  | O => Some (k, s)
  | Datatypes.S n' =>
      '(d, finger) ← eatEdge m finger;
      let ngh := wrap32 (ngh + d) in
      '(wgh, finger) ← eatWeight m finger;
      let '(k, s) := filter_sequential_edge source ngh wgh k s in
      filter_sequential_rest n' m source finger ngh k s
  end.

(** [for (size_t i = 0; i < num_blocks; i++)] *)
Fixpoint filter_sequential_blocks (n : nat) (m : mem)
    (edge_start source degree num_blocks i k : Z) (s : S) : option (Z * S) :=
  match n with
  | O => Some (k, s)
  | Datatypes.S n' =>
      let finger := block_finger m edge_start num_blocks i in
      let start_offset := load32 m finger in
      let end_offset := block_end m edge_start num_blocks degree i in
      let finger := finger + sizeof_uintE in
      '(k, s) ←
        (if start_offset <? end_offset then
           '(ngh, finger) ← eatFirstEdge m finger source;
           '(wgh, finger) ← eatWeight m finger;
           let '(k, s) := filter_sequential_edge source ngh wgh k s in
           filter_sequential_rest (Z.to_nat (end_offset - wrap32 (start_offset + 1)))
             m source finger ngh k s
         else Some (k, s));
      filter_sequential_blocks n' m edge_start source degree num_blocks (i + 1) k s
  end.

Definition filter_sequential (m : mem) (edge_start source degree : Z) (s : S)
  : option S :=
  let virtual_degree := load32 m edge_start in
  let num_blocks := num_blocks_of virtual_degree in
  let k := 0 in
  r ← filter_sequential_blocks (Z.to_nat num_blocks) m edge_start source degree
         num_blocks 0 k s;
  Some (snd r).

End filter_sequential.

End weighted.

End bytepd_amortized.

(** ** The byte layout, as lists

    The definitions of this section are not functions of the source: they
    describe, as plain lists of octets, what the compress functions leave in
    memory.  Part II proves that the compress functions write exactly these
    lists and that the eat functions read them back; the statements about
    regions are phrased with them. *)

Module layout.
Import bytepd_amortized.

Fixpoint write_bytes (m : mem) (p : Z) (bs : list Z) : mem :=
  match bs with
  | [] => m
  | b :: bs' => write_bytes (store m p b) (p + 1) bs'
  end.

Definition bytes_at (m : mem) (p : Z) (bs : list Z) : Prop :=
  forall i : nat, (i < length bs)%nat -> load m (p + Z.of_nat i) = nth i bs 0.

(** agreement of two memories on an address range *)
Definition same_on (m m' : mem) (lo hi : Z) : Prop :=
  forall q, lo <= q < hi -> load m' q = load m q.

Definition is_byte (b : Z) : Prop := 0 <= b < 256.

(** groups of seven bits, low group first, bit 7 set on all but the last *)
Fixpoint varint (n : nat) (x : Z) : list Z :=
  match n with
  | O => []
  | S n' =>
      if x / 128 =? 0 then [x mod 128]
      else (x mod 128 + 128) :: varint n' (x / 128)
  end.

(** what [compressEdge] writes for the difference [e] *)
Definition edge_bytes (e : Z) : list Z :=
  if e =? 0 then [] else varint 5 e.

(** a sign and a magnitude: six bits, the sign bit and the continuation bit
    in the first octet, the remaining bits in groups of seven *)
Definition sign_mag_bytes (neg : bool) (d : Z) : list Z :=
  (d mod 64 + (if neg then 64 else 0) + (if d / 64 =? 0 then 0 else 128))
    :: (if d / 64 =? 0 then [] else varint 5 (d / 64)).

(** what [compressFirstEdge] writes for [target - source] *)
Definition first_bytes (source target : Z) : list Z :=
  sign_mag_bytes (target - source <? 0) (Z.abs (target - source)).

(** the number of octets of [edge_bytes e] and of [sign_mag_bytes _ d] *)
Definition edge_len (e : Z) : Z :=
  if e <=? 0 then 0 else if e <? 2 ^ 7 then 1 else if e <? 2 ^ 14 then 2
  else if e <? 2 ^ 21 then 3 else if e <? 2 ^ 28 then 4 else 5.

Definition first_len (d : Z) : Z :=
  if d <? 2 ^ 6 then 1 else if d <? 2 ^ 13 then 2
  else if d <? 2 ^ 20 then 3 else if d <? 2 ^ 27 then 4 else 5.

(** A weight type whose two functions agree: [weight_bytes w] is what
    [compressWeight] writes for a weight [w] of the type's range
    ([weight_ok]), and [eatWeight] reads it back. *)
Class WeightOk (W : Type) `{Weight W} := {
  weight_ok : W -> Prop;
  weight_bytes : W -> list Z;
  weight_bytes_byte : forall w, Forall is_byte (weight_bytes w);
  weight_bytes_length : forall w, weight_ok w -> (length (weight_bytes w) <= 5)%nat;
  compressWeight_bytes : forall m start offset w,
    weight_ok w ->
    compressWeight m start offset w =
      (write_bytes m (start + offset) (weight_bytes w),
       offset + Z.of_nat (length (weight_bytes w)));
  eatWeight_bytes : forall m p w,
    weight_ok w -> bytes_at m p (weight_bytes w) ->
    eatWeight m p = Some (w, p + Z.of_nat (length (weight_bytes w)))
}.

Section chunks.
Context {W : Type} `{WeightOk W}.

(** the edges of a block after its first one, each as the difference to its
    predecessor followed by its weight *)
Fixpoint rest_bytes (last : Z) (es : list (Z * W)) : list Z :=
  match es with
  | [] => []
  | (n, w) :: es' => edge_bytes (n - last) ++ weight_bytes w ++ rest_bytes n es'
  end.

(** the octets of a block after its 4-octet start index *)
Definition chunk_bytes (source : Z) (es : list (Z * W)) : list Z :=
  match es with
  | [] => []
  | (n, w) :: es' => first_bytes source n ++ weight_bytes w ++ rest_bytes n es'
  end.


(** *** Valid neighbour lists

    [increasing_from last es]: the neighbours of [es] are [uintE]s, strictly
    increasing and all above [last]; the weights are in the range of their
    type.  [edges_ok es] is the invariant of the data model: "decoding
    yields pairs in strictly increasing order of the neighbour". *)
Fixpoint increasing_from (last : Z) (es : list (Z * W)) : Prop :=
  match es with
  | [] => True
  | (n, w) :: es' => last < n < 2 ^ 32 /\ weight_ok w /\ increasing_from n es'
  end.

Definition edges_ok (es : list (Z * W)) : Prop := increasing_from (-1) es.

(** the neighbour of the last edge of [es], or [last] when there is none *)
Fixpoint last_ngh (last : Z) (es : list (Z * W)) : Z :=
  match es with
  | [] => last
  | (n, _) :: es' => last_ngh n es'
  end.

(** *** Blocks

    A region of [B] blocks holds the lists [E 0], ..., [E (B-1)]; together
    they are the neighbour list [flat E B]. *)
Fixpoint flat (E : Z -> list (Z * W)) (n : nat) : list (Z * W) :=
  match n with
  | O => []
  | S n' => flat E n' ++ E (Z.of_nat n')
  end.

(** block [i] of the layout the encoder and [repack] produce: the edges
    [i * P .. min ((i + 1) * P, d)) *)
Definition chunk_of (es : list (Z * W)) (i : Z) : list (Z * W) :=
  firstn (Z.to_nat PARALLEL_DEGREE) (skipn (Z.to_nat (i * PARALLEL_DEGREE)) es).

(** the number of blocks of a region with virtual degree [vd], as a [nat] *)
Definition nblocks (vd : Z) : nat := Z.to_nat (num_blocks_of vd).

(** the neighbour list a region with virtual degree [vd] and blocks [E] holds *)
Definition edges_of (vd : Z) (E : Z -> list (Z * W)) : list (Z * W) :=
  flat E (nblocks vd).

(** the index of the first edge of block [i] *)
Definition start_of (E : Z -> list (Z * W)) (i : Z) : Z :=
  Z.of_nat (length (flat E (Z.to_nat i))).

(** *** What a decode does with a callback

    [run_block] feeds the edges of one block to the callback until it answers
    [false]; the flag says whether the block was run to its end. *)
Section run.
Context {S : Type}.
Variable t : Z -> Z -> W -> Z -> S -> bool * S.

Fixpoint run_block (source : Z) (es : list (Z * W)) (edgeID : Z) (s : S) : bool * S :=
  match es with
  | [] => (true, s)
  | (n, w) :: es' =>
      let '(go, s) := t source n w edgeID s in
      if go then run_block source es' (edgeID + 1) s else (false, s)
  end.

(** every block is run, whatever the callback answered in the blocks before *)
Fixpoint run_each_block (source : Z) (E : Z -> list (Z * W)) (n : nat) (i : Z) (s : S) : S :=
  match n with
  | O => s
  | Datatypes.S n' =>
      let s := snd (run_block source (E i) (start_of E i) s) in
      run_each_block source E n' (i + 1) s
  end.

(** the first [false] ends the run *)
Fixpoint run_until_false (source : Z) (E : Z -> list (Z * W)) (n : nat) (i : Z) (s : S) : S :=
  match n with
  | O => s
  | Datatypes.S n' =>
      let '(go, s) := run_block source (E i) (start_of E i) s in
      if go then run_until_false source E n' (i + 1) s else s
  end.

(** the unweighted decode: a [false] in block 0 ends the run, a [false] in a
    later block ends that block *)
Definition run_first_then_each (source : Z) (E : Z -> list (Z * W)) (n : nat) (s : S) : S :=
  match n with
  | O => s
  | Datatypes.S n' =>
      let '(go, s) := run_block source (E 0) 0 s in
      if go then run_each_block source E n' 1 s else s
  end.

End run.

(** the callback that records its arguments and never stops the decode *)
Definition collect (source ngh : Z) (wgh : W) (edgeID : Z)
    (s : list (Z * Z * W * Z)) : bool * list (Z * Z * W * Z) :=
  (true, s ++ [(source, ngh, wgh, edgeID)]).

(** the calls [(src, nghs[i], weights[i], i)], [i] counting from [edgeID] *)
Fixpoint calls_of (source : Z) (es : list (Z * W)) (edgeID : Z) : list (Z * Z * W * Z) :=
  match es with
  | [] => []
  | (n, w) :: es' => (source, n, w, edgeID) :: calls_of source es' (edgeID + 1)
  end.

(** the edges a predicate of [pack] keeps *)
Definition keep (pred : Z -> Z -> W -> bool) (source : Z) (es : list (Z * W))
  : list (Z * W) :=
  List.filter (fun e => pred source (fst e) (snd e)) es.

(** *** Encoded neighbour lists

    [Encoded m edge_start src vd E]: in memory [m] the region at [edge_start]
    is the encoded neighbour list of vertex [src], obtained from
    [sequentialCompressEdgeSet] on a non-empty valid list whose code fits the
    32-bit block offsets, and then any number of calls of [pack].  The
    indices [vd] and [E] follow the history: [vd] is the degree the block
    layout was sized for and [E i] the edges block [i] holds now. *)
Inductive Encoded : mem -> Z -> Z -> Z -> (Z -> list (Z * W)) -> Prop :=
| Encoded_fresh (m0 : mem) (edgeArray src : Z) (es : list (Z * W)) (m : mem) (off : Z) :
    is_uintE src -> edges_ok es -> es <> [] ->
    sequentialCompressEdgeSet m0 edgeArray 0 (Z.of_nat (length es)) src es = (m, off) ->
    off < 2 ^ 32 ->
    Encoded m edgeArray src (Z.of_nat (length es)) (chunk_of es)
| Encoded_pack (m : mem) (edge_start src vd : Z) (E : Z -> list (Z * W))
    (pred : Z -> Z -> W -> bool) (par : bool) (m' : mem) (k : Z) :
    Encoded m edge_start src vd E ->
    pack pred m edge_start src (Z.of_nat (length (edges_of vd E))) par = Some (m', k) ->
    Encoded m' edge_start src
      (if (0 <? k) && (k <? vd / 10) then k else vd)
      (if (0 <? k) && (k <? vd / 10)
       then chunk_of (keep pred src (edges_of vd E))
       else fun i => keep pred src (E i)).

(** *** The invariant of a region, used by the proofs *)

(** block [i] sits at [addr i]: its start index, then its edges, all before
    [addr (i + 1)] *)
Definition block_at (m : mem) (src : Z) (addr start : Z -> Z)
    (E : Z -> list (Z * W)) (i : Z) : Prop :=
  load32 m (addr i) = start i /\
  bytes_at m (addr i + 4) (chunk_bytes src (E i)) /\
  addr i + 4 + Z.of_nat (length (chunk_bytes src (E i))) <= addr (i + 1) /\
  Z.of_nat (length (E i)) <= PARALLEL_DEGREE.

Definition region_gen (ok : Prop) (m : mem) (base src vd : Z) (addr start : Z -> Z)
    (E : Z -> list (Z * W)) : Prop :=
  let B := num_blocks_of vd in
  is_uintE src /\ 1 <= vd < 2 ^ 32 /\ load32 m base = vd /\
  addr 0 = base + 4 * B /\
  addr B - base <= 2 ^ 32 /\
  (forall i, 0 <= i < B -> addr i + 4 <= addr (i + 1)) /\
  (forall i, 0 < i < B -> block_offsets_at m base (i - 1) = addr i - base) /\
  (forall i, 0 <= i < B -> block_at m src addr start E i) /\
  ok.

(** a region whose blocks together hold a valid neighbour list *)
Definition region_at (m : mem) (base src vd : Z) (addr start : Z -> Z)
    (E : Z -> list (Z * W)) : Prop :=
  region_gen (edges_ok (edges_of vd E)) m base src vd addr start E.

(** a region while [pack] is at work: each block holds a valid list, and
    the start indices [start] need not be those of [E] *)
Definition frame_at (m : mem) (base src vd : Z) (addr start : Z -> Z)
    (E : Z -> list (Z * W)) : Prop :=
  region_gen (forall i, 0 <= i < num_blocks_of vd -> edges_ok (E i))
    m base src vd addr start E.

Definition region (m : mem) (base src vd : Z) (E : Z -> list (Z * W)) : Prop :=
  exists addr, region_at m base src vd addr (start_of E) E.

(** where the encoder and [repack] put block [n]: the blocks follow one
    another from [first] on, each with its 4-octet start index *)
Fixpoint layout_addr (src : Z) (E : Z -> list (Z * W)) (first : Z) (n : nat) : Z :=
  match n with
  | O => first
  | S n' =>
      layout_addr src E first n' + 4
      + Z.of_nat (length (chunk_bytes src (E (Z.of_nat n'))))
  end.

Definition addr_of (src : Z) (E : Z -> list (Z * W)) (first i : Z) : Z :=
  layout_addr src E first (Z.to_nat i).

(** the state of a region while the encoder (or [repack]) is writing it:
    the virtual degree [vd] and the blocks [0 .. k) with their offsets are
    in place *)
Definition written (m : mem) (base src vd : Z) (addr : Z -> Z)
    (E : Z -> list (Z * W)) (k : Z) : Prop :=
  load32 m base = vd /\
  (forall i, 0 < i < k -> block_offsets_at m base (i - 1) = addr i - base) /\
  (forall i, 0 <= i < k ->
     load32 m (addr i) = i * PARALLEL_DEGREE /\
     bytes_at m (addr i + 4) (chunk_bytes src (E i))).

(** the array [U] of [repack] holds the list [es] at the positions
    [from], [from + 1], ... *)
Definition holds (U : Z -> Z * W) (from : Z) (es : list (Z * W)) : Prop :=
  forall j : nat, (j < length es)%nat ->
    U (from + Z.of_nat j) = nth j es (0, default_weight).

(** what [filter_sequential] does with its output: [out(k, e)] for the
    edges [e] of a list, [k] counting from the given index *)
Fixpoint feed {S : Type} (out : Z -> Z * W -> S -> S) (es : list (Z * W)) (k : Z) (s : S) : S :=
  match es with
  | [] => s
  | e :: es' => feed out es' (k + 1) (out k e s)
  end.

(** the cursor [it] of an [iter] over the region of [E] stands at edge [j]
    of block [b], which is edge [k] of the list *)
Definition iter_at (m : mem) (base src vd : Z) (E : Z -> list (Z * W))
    (it : iter) (k : nat) : Prop :=
  i_base it = base /\ i_src it = src /\
  i_degree it = start_of E (num_blocks_of vd) /\
  i_num_blocks it = num_blocks_of vd /\
  exists (b : Z) (j : nat),
    0 <= b < num_blocks_of vd /\ (j < length (E b))%nat /\
    Z.of_nat k = start_of E b + Z.of_nat j /\
    i_cur_chunk it = b /\ i_cur_chunk_degree it = Z.of_nat (length (E b)) /\
    i_read_in_block it = Z.of_nat j + 1 /\ i_read_total it = Z.of_nat k + 1 /\
    i_last_edge it = nth j (E b) (0, default_weight) /\
    bytes_at m (i_finger it)
      (rest_bytes (fst (nth j (E b) (0, default_weight))) (skipn (S j) (E b))).

(** the cursor [it] of a [simple_iter] over the list [es], freshly encoded
    at [base], stands at edge [k]: edge [j] of block [b] *)
Definition simple_iter_at (m : mem) (base src : Z) (es : list (Z * W))
    (it : @simple_iter W) (k : nat) : Prop :=
  let d := Z.of_nat (length es) in
  let B := 1 + (d - 1) / PARALLEL_DEGREE in
  let addr := addr_of src (chunk_of es) (base + 4 * B) in
  si_base it = base /\ si_src it = src /\ si_degree it = d /\
  exists (b : Z) (j : nat),
    0 <= b < B /\ (j < length (chunk_of es b))%nat /\
    Z.of_nat k = b * PARALLEL_DEGREE + Z.of_nat j /\
    si_cur_chunk it = b /\ si_proc it = Z.of_nat j + 1 /\
    si_last_edge it = nth j (chunk_of es b) (0, default_weight) /\
    bytes_at m (si_finger it)
      (rest_bytes (fst (nth j (chunk_of es b) (0, default_weight)))
         (skipn (S j) (chunk_of es b))) /\
    si_finger it
    + Z.of_nat (length (rest_bytes (fst (nth j (chunk_of es b) (0, default_weight)))
                          (skipn (S j) (chunk_of es b))))
    = addr (b + 1).

(** the edges of [es1] whose neighbour is a neighbour in [es2] too *)
Definition common (es1 es2 : list (Z * W)) : list (Z * W) :=
  List.filter (fun e => existsb (Z.eqb (fst e)) (map fst es2)) es1.

(** a sequence of [pack]s of one list, each with its predicate and its
    [par] flag, and with the degree that the [pack] before it returned *)
Fixpoint packs (ps : list ((Z -> Z -> W -> bool) * bool)) (m : mem)
    (edge_start source degree : Z) : option (mem * Z) :=
  match ps with
  | [] => Some (m, degree)
  | (pred, par) :: ps' =>
      '(m, k) ← pack pred m edge_start source degree par;
      packs ps' m edge_start source k
  end.

End chunks.

End layout.

(** ** Inputs of the scenarios *)

Module examples.

(** the unweighted neighbours [a], [a + 1], ..., [a + n - 1] *)
Definition unit_edges (a : Z) (n : nat) : list (Z * unit) :=
  map (fun x => (x, tt)) (seqZ a (Z.of_nat n)).

(** the same neighbours, each with the weight 1 *)
Definition int_edges (a : Z) (n : nat) : list (Z * Z) :=
  map (fun x => (x, 1)) (seqZ a (Z.of_nat n)).

(** S5: the neighbours of vertex 0 *)
Definition S5_edges : list (Z * unit) :=
  [(3, tt); (7, tt); (7 + 2 ^ 15, tt); (7 + 2 ^ 15 + 1, tt)].

(** S6: the predicate that removes every even neighbour *)
Definition odd_ngh (source ngh : Z) (wgh : unit) : bool := Z.odd ngh.

(** a predicate that keeps the neighbours below [bound] *)
Definition below (bound : Z) (source ngh : Z) (wgh : unit) : bool := ngh <? bound.

(** a predicate that removes the neighbour [x] *)
Definition all_but (x : Z) (source ngh : Z) (wgh : unit) : bool := negb (ngh =? x).

(** a predicate that removes every edge *)
Definition none {W : Type} (source ngh : Z) (wgh : W) : bool := false.

(** a callback that counts its calls and answers [false] every time *)
Definition count_and_stop {W : Type} (source ngh : Z) (wgh : W) (edgeID : Z) (s : Z)
  : bool * Z := (false, s + 1).

(** S2: the star with centre 0 and the leaves 1, 2, 3 *)
Definition star_nghs (v : Z) : list Z :=
  if v =? 0 then [1; 2; 3] else if (0 <? v) && (v <? 4) then [0] else [].

(** the region [sequentialCompressEdgeSet] writes for [es] at address
    [edgeArray] of the memory [m] *)
Definition encode {W : Type} `{bytepd_amortized.Weight W} (m : mem) (edgeArray src : Z)
    (es : list (Z * W)) : mem :=
  fst (bytepd_amortized.sequentialCompressEdgeSet m edgeArray 0
         (Z.of_nat (length es)) src es).

End examples.

(** ** The block allocator (pbbslib/block_allocator.h) *)

Module block_allocator.

Definition default_alloc_size : Z := 1000000.
Definition default_list_size : Z := 2 ^ 16.
Definition pad_size : Z := 256.
Definition NULL : Z := 0.

(** [struct thread_list]: [block_p] is an address.  The constructor sets
    [sz] and [head] and leaves [mid] unset (here: [NULL]). *)
Record thread_list : Type := {
  sz : Z;
  head : Z;
  mid : Z
}.

(** Modelled from the spec: [concurrent_stack] of concurrent_stack.h, which
    is not under src/.  The spec has "a global concurrent stack of lists"
    and "a separate concurrent stack [that] holds pool roots": a stack with
    [push], [pop] (which answers nothing on the empty stack) and [size],
    each of them atomic. *)
Definition concurrent_stack (A : Type) : Type := list A.

Definition push {A : Type} (x : A) (s : concurrent_stack A) : concurrent_stack A :=
  x :: s.

Definition pop {A : Type} (s : concurrent_stack A) : option A * concurrent_stack A :=
  match s with
  | [] => (None, [])
  | x :: s' => (Some x, s')
  end.

Definition size {A : Type} (s : concurrent_stack A) : Z :=
  wrap64 (Z.of_nat (length s)).

Section environment.

(** What the allocator takes from its surroundings: the process allocator
    ([aligned_alloc] of stdlib.h answers the address of the new space, or
    [NULL]), [getMemorySize()] of memory_size.h, [num_workers()], and the
    double-precision value of [thread_count + ceil(n / (double)list_length)]
    converted to [size_t]. *)
Variable heap : Type.
Variable aligned_alloc : heap -> Z -> Z -> Z * heap.
Variable getMemorySize : Z.
Variable thread_count : Z.
Variable num_lists_of : Z -> Z -> Z -> Z.

(** [struct block_allocator], with the [next] fields of the blocks and the
    state of the process allocator *)
Record t : Type := {
  pool_roots : concurrent_stack Z;
  global_stack : concurrent_stack Z;
  local_lists : Z -> thread_list;
  list_length : Z;
  max_blocks : Z;
  block_size_ : Z;
  blocks_allocated : Z;
  next : Z -> Z;
  process_heap : heap
}.

Definition set_pool_roots (a : t) (v : concurrent_stack Z) : t :=
  {| pool_roots := v; global_stack := global_stack a; local_lists := local_lists a;
     list_length := list_length a; max_blocks := max_blocks a;
     block_size_ := block_size_ a; blocks_allocated := blocks_allocated a;
     next := next a; process_heap := process_heap a |}.

Definition set_global_stack (a : t) (v : concurrent_stack Z) : t :=
  {| pool_roots := pool_roots a; global_stack := v; local_lists := local_lists a;
     list_length := list_length a; max_blocks := max_blocks a;
     block_size_ := block_size_ a; blocks_allocated := blocks_allocated a;
     next := next a; process_heap := process_heap a |}.

Definition set_local_lists (a : t) (v : Z -> thread_list) : t :=
  {| pool_roots := pool_roots a; global_stack := global_stack a; local_lists := v;
     list_length := list_length a; max_blocks := max_blocks a;
     block_size_ := block_size_ a; blocks_allocated := blocks_allocated a;
     next := next a; process_heap := process_heap a |}.

Definition set_blocks_allocated (a : t) (v : Z) : t :=
  {| pool_roots := pool_roots a; global_stack := global_stack a;
     local_lists := local_lists a;
     list_length := list_length a; max_blocks := max_blocks a;
     block_size_ := block_size_ a; blocks_allocated := v;
     next := next a; process_heap := process_heap a |}.

Definition set_next (a : t) (v : Z -> Z) : t :=
  {| pool_roots := pool_roots a; global_stack := global_stack a;
     local_lists := local_lists a;
     list_length := list_length a; max_blocks := max_blocks a;
     block_size_ := block_size_ a; blocks_allocated := blocks_allocated a;
     next := v; process_heap := process_heap a |}.

Definition set_process_heap (a : t) (v : heap) : t :=
  {| pool_roots := pool_roots a; global_stack := global_stack a;
     local_lists := local_lists a;
     list_length := list_length a; max_blocks := max_blocks a;
     block_size_ := block_size_ a; blocks_allocated := blocks_allocated a;
     next := next a; process_heap := v |}.

(** [for (size_t i = 0; i < list_length - 1; i++)]: [p->next = nxt; p = nxt] *)
Fixpoint initialize_list_loop (n : nat) (block_size : Z) (nx : Z -> Z) (p : Z)
  : (Z -> Z) * Z :=
  match n with
  | O => (nx, p)
  | S n' =>
      let nxt := p + block_size in
      initialize_list_loop n' block_size (upd nx p nxt) nxt
  end.

(** Allocate a new list of list_length elements *)
Definition initialize_list (a : t) (start : Z) : t * Z :=
  let '(nx, p) :=
    initialize_list_loop (Z.to_nat (wrap64 (list_length a - 1))) (block_size_ a)
      (next a) start in
  (set_next a (upd nx p NULL), start).

(** [for (int i = 0; i < thread_count; ++i) free_blocks += local_lists[i].sz] *)
Fixpoint add_local_sizes (n : nat) (a : t) (i free_blocks : Z) : Z :=
  match n with
  | O => free_blocks
  | S n' => add_local_sizes n' a (i + 1) (wrap64 (free_blocks + sz (local_lists a i)))
  end.

Definition num_used_blocks (a : t) : Z :=
  let free_blocks := wrap64 (size (global_stack a) * list_length a) in
  let free_blocks := add_local_sizes (Z.to_nat thread_count) a 0 free_blocks in
  wrap64 (blocks_allocated a - free_blocks).

Definition num_allocated_blocks (a : t) : Z := blocks_allocated a.

Definition allocate_blocks (a : t) (num_blocks : Z) : outcome (Z * t) :=
  let '(start, h) :=
    aligned_alloc (process_heap a) pad_size
      (wrap64 (num_blocks * block_size_ a + pad_size)) in
  let a := set_process_heap a h in
  if start =? NULL then
    Exits 1 "Cannot allocate space in block_allocator"
  else
    let a := set_blocks_allocated a (wrap64 (blocks_allocated a + num_blocks)) in
    if max_blocks a <? blocks_allocated a then
      Exits 1 "Too many blocks in block_allocator, change max_blocks"
    else
      (* keep track so can free later *)
      Returns (start, set_pool_roots a (push start (pool_roots a))).

(** Either grab a list from the global pool, or if there is none
    then allocate a new list *)
Definition get_list (a : t) : outcome (Z * t) :=
  match pop (global_stack a) with
  | (Some rem, s) => Returns (rem, set_global_stack a s)
  | (None, _) =>
      r ← allocate_blocks a (list_length a);
      let '(a, start) := initialize_list (snd r) (fst r) in
      Returns (start, a)
  end.

(** the [parallel_for] of [reserve], in the order of the indices *)
Fixpoint reserve_loop (n : nat) (a : t) (start i : Z) : t :=
  match n with
  | O => a
  | S n' =>
      let offset := start + i * list_length a * block_size_ a in
      let '(a, l) := initialize_list a offset in
      reserve_loop n' (set_global_stack a (push l (global_stack a))) start (i + 1)
  end.

(** Allocate n elements across however many lists are needed (rounded up) *)
Definition reserve (a : t) (n : Z) : outcome t :=
  let num_lists := num_lists_of thread_count n (list_length a) in
  r ← allocate_blocks a (wrap64 (list_length a * num_lists));
  Returns (reserve_loop (Z.to_nat num_lists) (snd r) (fst r) 0).

(** The constructor, in the process-allocator state [h] and with the
    [next] fields [nx]. *)
Definition new (block_size blocks_count list_length_ max_blocks_ : Z)
    (h : heap) (nx : Z -> Z) : outcome t :=
  let a :=
    {| pool_roots := []; global_stack := [];
       local_lists := fun _ => {| sz := 0; head := NULL; mid := NULL |};
       list_length := list_length_;
       max_blocks := if max_blocks_ =? 0
                     then wrap64 (3 * getMemorySize) / block_size / 4
                     else max_blocks_;
       block_size_ := block_size; blocks_allocated := 0;
       next := nx; process_heap := h |} in
  a ← reserve a blocks_count;
  (* all local lists start out empty *)
  Returns (set_local_lists a (fun _ => {| sz := 0; head := NULL; mid := NULL |})).

Definition free (a : t) (ptr : Z) (id : Z) : t :=
  let new_node := ptr in
  let l := local_lists a id in
  let a :=
    if sz l =? wrap64 (list_length a + 1) then
      set_local_lists a
        (upd (local_lists a) id {| sz := sz l; head := head l; mid := head l |})
    else if sz l =? wrap64 (2 * list_length a) then
      let a := set_global_stack a (push (next a (mid l)) (global_stack a)) in
      let a := set_next a (upd (next a) (mid l) NULL) in
      set_local_lists a
        (upd (local_lists a) id {| sz := list_length a; head := head l; mid := mid l |})
    else a in
  let l := local_lists a id in
  let a := set_next a (upd (next a) new_node (head l)) in
  set_local_lists a
    (upd (local_lists a) id
       {| sz := wrap64 (sz l + 1); head := new_node; mid := mid l |}).

Definition alloc (a : t) (id : Z) : outcome (Z * t) :=
  r ← (if sz (local_lists a id) =? 0 then
         r ← get_list a;
         let a := snd r in
         Returns
           (set_local_lists a
              (upd (local_lists a) id
                 {| sz := list_length a; head := fst r;
                    mid := mid (local_lists a id) |}))
       else Returns a);
  let a := r in
  let l := local_lists a id in
  let p := head l in
  Returns (p, set_local_lists a
                (upd (local_lists a) id
                   {| sz := wrap64 (sz l - 1); head := next a (head l);
                      mid := mid l |})).

(** *** Sequences of calls

    The calls of the workers, in the order of a linearisation: every call
    touches the local list of its worker and the two stacks and the counter,
    whose operations are atomic.  [runs a live ops a' live']: from the
    allocator [a] with the blocks [live] handed out, the calls [ops] all
    return and leave the allocator [a'] with the blocks [live'] handed out;
    every call is made by a worker with an id in [0, thread_count), and every
    [free] passes a block that an [alloc] returned and that has not been
    freed since. *)
Inductive op : Type :=
| Alloc (id : Z)
| Free (id : Z) (ptr : Z).

Fixpoint remove_one (p : Z) (l : list Z) : list Z :=
  match l with
  | [] => []
  | x :: l' => if x =? p then l' else x :: remove_one p l'
  end.

Inductive runs : t -> list Z -> list op -> t -> list Z -> Prop :=
| runs_nil (a : t) (live : list Z) : runs a live [] a live
| runs_alloc (a : t) (live : list Z) (id p : Z) (a1 : t) (ops : list op)
    (a' : t) (live' : list Z) :
    0 <= id < thread_count ->
    alloc a id = Returns (p, a1) ->
    runs a1 (p :: live) ops a' live' ->
    runs a live (Alloc id :: ops) a' live'
| runs_free (a : t) (live : list Z) (id p : Z) (ops : list op)
    (a' : t) (live' : list Z) :
    0 <= id < thread_count ->
    In p live ->
    runs (free a p id) (remove_one p live) ops a' live' ->
    runs a live (Free id p :: ops) a' live'.

End environment.

Arguments pool_roots {heap} _.
Arguments global_stack {heap} _.
Arguments local_lists {heap} _ _.
Arguments list_length {heap} _.
Arguments max_blocks {heap} _.
Arguments block_size_ {heap} _.
Arguments blocks_allocated {heap} _.
Arguments next {heap} _ _.
Arguments process_heap {heap} _.
Arguments set_pool_roots {heap} a v.
Arguments set_global_stack {heap} a v.
Arguments set_local_lists {heap} a v.
Arguments set_blocks_allocated {heap} a v.
Arguments set_next {heap} a v.
Arguments set_process_heap {heap} a v.
Arguments initialize_list {heap} a start.
Arguments add_local_sizes {heap} n a i free_blocks.
Arguments num_used_blocks {heap} thread_count a.
Arguments num_allocated_blocks {heap} a.
Arguments allocate_blocks {heap} aligned_alloc a num_blocks.
Arguments get_list {heap} aligned_alloc a.
Arguments reserve_loop {heap} n a start i.
Arguments reserve {heap} aligned_alloc thread_count num_lists_of a n.
Arguments new {heap} aligned_alloc getMemorySize thread_count num_lists_of
  block_size blocks_count list_length_ max_blocks_ h nx.
Arguments free {heap} a ptr id.
Arguments alloc {heap} aligned_alloc a id.
Arguments runs {heap} aligned_alloc thread_count _ _ _ _ _.

(** *** Counting, used by the proofs *)

(** the sum of the [sz] of the local lists [i], ..., [i + n - 1] *)
Fixpoint sum_sizes (f : Z -> thread_list) (n : nat) (i : Z) : Z :=
  match n with
  | O => 0
  | S n' => sz (f i) + sum_sizes f n' (i + 1)
  end.

(** [blocks_allocated] less the blocks of the global stack and of the local
    lists, before the wrap-around *)
Definition used {heap : Type} (thread_count : Z) (a : t heap) : Z :=
  blocks_allocated a
  - Z.of_nat (length (global_stack a)) * list_length a
  - sum_sizes (local_lists a) (Z.to_nat thread_count) 0.

(** *** The free blocks and the invariant of the lists, used by the proofs *)

(** the blocks of the list of [n] blocks that starts at [p] *)
Fixpoint chain (nx : Z -> Z) (p : Z) (n : nat) : list Z :=
  match n with
  | O => []
  | S n' => p :: chain nx (nx p) n'
  end.

(** the blocks of the local list of worker [i] *)
Definition local_blocks (nx : Z -> Z) (ll : Z -> thread_list) (i : Z) : list Z :=
  chain nx (head (ll i)) (Z.to_nat (sz (ll i))).

(** the blocks of the local lists of the workers other than [id] *)
Definition other_blocks (thread_count : Z) (nx : Z -> Z) (ll : Z -> thread_list)
    (id : Z) : list Z :=
  flat_map (local_blocks nx ll) (seqZ 0 id ++ seqZ (id + 1) (thread_count - id - 1)).

(** the blocks of the lists of the global stack, each of [L] blocks *)
Definition global_blocks (nx : Z -> Z) (L : Z) (gs : list Z) : list Z :=
  flat_map (fun g => chain nx g (Z.to_nat L)) gs.

(** the free blocks of an allocator *)
Definition free_blocks {heap : Type} (thread_count : Z) (a : t heap) : list Z :=
  flat_map (local_blocks (next a) (local_lists a)) (seqZ 0 thread_count)
  ++ global_blocks (next a) (list_length a) (global_stack a).

(** the [L] blocks of [bs] octets from [start] on *)
Definition blocks_from (bs L start : Z) : list Z :=
  map (fun k => start + k * bs) (seqZ 0 L).

(** What the proofs ask of the process allocator: [owned h q] says that the
    octet [q] lies in space that the process allocator has handed out in
    the state [h]; space that [aligned_alloc] returns was not handed out
    before and is handed out afterwards, and nothing is taken back (the
    allocator frees its pools in its destructor only). *)
Definition fresh {heap : Type} (aligned_alloc : heap -> Z -> Z -> Z * heap)
    (owned : heap -> Z -> Prop) : Prop :=
  forall h alignment size p h',
    0 < alignment -> 0 <= size ->
    aligned_alloc h alignment size = (p, h') -> p <> NULL ->
    (forall q, p <= q < p + size -> ~ owned h q) /\
    (forall q, owned h q \/ p <= q < p + size -> owned h' q).

(** any two different blocks of [l] are [bs] octets apart: they do not
    overlap *)
Definition apart (bs : Z) (l : list Z) : Prop :=
  forall x y, In x l -> In y l -> x <> y -> x + bs <= y \/ y + bs <= x.

(** the blocks [T] are different and do not overlap, their space comes
    from the process allocator, and the counter [ba] counts them *)
Definition tidy {heap : Type} (owned : heap -> Z -> Prop) (bs MB L : Z)
    (h : heap) (ba : Z) (T : list Z) : Prop :=
  NoDup T /\ apart bs T /\
  (forall x q, In x T -> x <= q < x + bs -> owned h q) /\
  ba = Z.of_nat (length T) /\ ba <= MB /\ (0 < ba -> L <= MB).

(** the invariant of an allocator with the blocks [live] handed out: the
    blocks handed out and the free blocks are [tidy], and a local list of
    [list_length + 2] blocks or more has [mid] at the block that is
    followed by [list_length] blocks *)
Definition safe {heap : Type} (owned : heap -> Z -> Prop)
    (thread_count L bs MB : Z) (a : t heap) (live : list Z) : Prop :=
  list_length a = L /\ block_size_ a = bs /\ max_blocks a = MB /\
  tidy owned bs MB L (process_heap a) (blocks_allocated a)
    (live ++ free_blocks thread_count a) /\
  forall i, 0 <= i < thread_count ->
    0 <= sz (local_lists a i) /\
    (L + 2 <= sz (local_lists a i) ->
     mid (local_lists a i)
       = Nat.iter (Z.to_nat (sz (local_lists a i) - L - 1)) (next a)
           (head (local_lists a i))).

(** *** An instance of the surroundings, for the scenarios: a process
    allocator that hands out consecutive addresses, 16 GiB of memory, two
    workers, and the exact value of [thread_count + ceil (n / list_length)] *)
Definition bump_alloc (h : Z) (alignment size : Z) : Z * Z :=
  let start := (h + alignment - 1) / alignment * alignment in
  (start, start + size).

Definition exact_num_lists (thread_count n list_length : Z) : Z :=
  thread_count + (n + list_length - 1) / list_length.

(** an allocator of 8-octet blocks in lists of 2, with 4 blocks reserved
    and the default cap *)
Definition scenario : outcome (t Z) :=
  new bump_alloc (2 ^ 34) 2 exact_num_lists 8 4 2 0 256 (fun _ => NULL).

(** an allocator at its cap of 8 blocks, all of them handed out *)
Definition exhausted : t Z :=
  {| pool_roots := [256]; global_stack := [];
     local_lists := fun _ => {| sz := 0; head := NULL; mid := NULL |};
     list_length := 2; max_blocks := 8; block_size_ := 8; blocks_allocated := 8;
     next := fun _ => NULL; process_heap := 576 |}.

Definition scenario_allocator : t Z :=
  match scenario with
  | Returns a => a
  | _ => exhausted
  end.

End block_allocator.

(** ** Weighted BFS (benchmark/wBFS.h): the two overloads *)

Module wbfs.

(** [assert(c)] of <cassert>: nothing when [NDEBUG] is defined, and
    otherwise [abort()] after a diagnostic when [c] is false. *)
Definition assert (NDEBUG : bool) (c : bool) : outcome unit :=
  if NDEBUG then Returns tt
  else if c then Returns tt
  else Aborts "Assertion `false' failed.".

(** the weight type [W] of the graph *)
Inductive weight_type : Type :=
| int32_t
| pbbs_empty
| other_weight (name : string).

Definition is_int32_t (W : weight_type) : bool :=
  match W with
  | int32_t => true
  | _ => false
  end.

(** a graph, as far as the overloads look at it: [G.n] *)
Record graph : Type := { n : Z }.

Section overloads.

Variable NDEBUG : bool.

(** the overload for [W = int32_t]; its body runs on bucket.h and ligra.h,
    which are not under src/ *)
Variable wBFS_int32_t : graph -> Z -> Z -> bool -> bool -> outcome (list Z).

(** [sequence<uintE>(G.n, [&](size_t i) { return INT_E_MAX; })] *)
Definition all_INT_E_MAX (G : graph) : list Z :=
  replicate (Z.to_nat (n G)) INT_E_MAX.

(** the overload for every other [W] *)
Definition wBFS_other (G : graph) (src num_buckets : Z) (largemem no_blocked : bool)
  : outcome (list Z) :=
  (* Unimplemented for unweighted graphs; use a regular BFS. *)
  _ ← assert NDEBUG false;
  let dists := all_INT_E_MAX G in
  Returns dists.

(** overload resolution: the two [enable_if] conditions *)
Definition wBFS (W : weight_type) (G : graph) (src num_buckets : Z)
    (largemem no_blocked : bool) : outcome (list Z) :=
  if is_int32_t W then wBFS_int32_t G src num_buckets largemem no_blocked
  else wBFS_other G src num_buckets largemem no_blocked.

End overloads.

End wbfs.

(** ** BFS (benchmark/BFS.h) *)

Module bfs.

(** Modelled from the spec: [pbbslib::atomic_compare_and_swap] of pbbslib,
    which is not under src/; the spec asks that "the user's update_atomic
    must be linearizable".  One atomic step: when [a[i]] is [oldv] it becomes
    [newv] and the answer is [true]. *)
Definition atomic_compare_and_swap (a : Z -> Z) (i oldv newv : Z) : bool * (Z -> Z) :=
  if a i =? oldv then (true, upd a i newv) else (false, a).

(** *** struct BFS_F: the weight [w] is not looked at *)

Definition update (Parents : Z -> Z) (s d : Z) : bool * (Z -> Z) :=
  if Parents d =? UINT_E_MAX then (true, upd Parents d s)
  else (false, Parents).

Definition updateAtomic (Parents : Z -> Z) (s d : Z) : bool * (Z -> Z) :=
  atomic_compare_and_swap Parents d UINT_E_MAX s.

Definition cond (Parents : Z -> Z) (d : Z) : bool := Parents d =? UINT_E_MAX.

(** a graph: [GA.n] and the out-neighbours of every vertex *)
Record graph : Type := {
  n : Z;
  out_nghs : Z -> list Z
}.

(** Modelled from the spec: [edgeMap] of ligra.h, which is not under src/.
    The spec (4.5): in sparse mode "for each v in S, iterate v's
    out-neighbors.  If cond(d) holds, call update_atomic(v, d, w)"; in dense
    mode "for each d, if cond(d) holds, iterate d's in-neighbors s; if s in
    S, call update(s, d, w)"; the output is "{d : F applied to d accepted
    it}".  Either way the round is a number of calls [(s, d)] along edges
    out of the frontier, each guarded by [cond] and each an [update] or an
    [updateAtomic]; they are taken here one after the other, in the order of
    a linearisation [sched] that the scheduler chooses. *)
Record call : Type := {
  c_s : Z;
  c_d : Z;
  c_atomic : bool
}.

Definition member (x : Z) (l : list Z) : bool := existsb (Z.eqb x) l.

(** the state of a BFS run: the array, the frontier of the round, the calls
    of the round that are still to come, the vertices accepted so far in the
    round, the schedules of the later rounds and the counter *)
Record state : Type := {
  Parents : Z -> Z;
  Frontier : list Z;
  sched : list call;
  output : list Z;
  later : list (list call);
  reachable : Z
}.

(** one call of [edgeMap]'s round *)
Definition edgeMap_call (GA : graph) (st : state) (c : call) (rest : list call) : state :=
  let s := c_s c in
  let d := c_d c in
  if member s (Frontier st) && member d (out_nghs GA s) && cond (Parents st) d then
    let '(accepted, P) :=
      if c_atomic c then updateAtomic (Parents st) s d else update (Parents st) s d in
    {| Parents := P; Frontier := Frontier st; sched := rest;
       output := if accepted then output st ++ [d] else output st;
       later := later st; reachable := reachable st |}
  else
    {| Parents := Parents st; Frontier := Frontier st; sched := rest;
       output := output st; later := later st; reachable := reachable st |}.

(** One step of [BFS]: the next call of the running [edgeMap], or, at its
    end, [Frontier = output] and the test of the [while]; [None] when the
    loop is left (or no schedule is left for a further round). *)
Definition step (GA : graph) (st : state) : option state :=
  match sched st with
  | c :: rest => Some (edgeMap_call GA st c rest)
  | [] =>
      match output st, later st with
      | [], _ => None
      | _ :: _, [] => None
      | _ :: _, sc :: scs =>
          Some {| Parents := Parents st; Frontier := output st; sched := sc;
                  output := []; later := scs;
                  reachable := reachable st + Z.of_nat (length (output st)) |}
      end
  end.

(** the vertices are [0 .. n), fewer than [UINT_E_MAX] of them, so that
    [UINT_E_MAX] is the id of no vertex *)
Definition vertices_ok (GA : graph) (src : Z) : Prop :=
  0 <= src < n GA /\ n GA <= UINT_E_MAX /\
  forall s d, In d (out_nghs GA s) -> 0 <= d < n GA.

(** the state in which [BFS] enters its first round: [Parents] is all
    [UINT_E_MAX] except for [src], the frontier is [src] *)
Definition start (src : Z) (rounds : list (list call)) : state :=
  {| Parents := upd (fun _ => UINT_E_MAX) src src;
     Frontier := [src];
     sched := hd [] rounds;
     output := [];
     later := tl rounds;
     reachable := 1 |}.

(** the state after [k] steps of the run *)
Fixpoint run (GA : graph) (k : nat) (st : state) : state :=
  match k with
  | O => st
  | S k' =>
      match step GA st with
      | Some st' => run GA k' st'
      | None => st
      end
  end.

(** [BFS] returns [Parents] when the loop is left *)
Definition BFS (GA : graph) (src : Z) (rounds : list (list call)) (fuel : nat)
  : Z -> Z :=
  Parents (run GA fuel (start src rounds)).

(** *** The invariant of a run, used by the proofs *)

(** the vertices of the frontier and of the output are vertices of the
    graph, and [src] keeps its parent *)
Definition bfs_inv (GA : graph) (src : Z) (st : state) : Prop :=
  (forall x, In x (Frontier st) -> 0 <= x < n GA) /\
  (forall x, In x (output st) -> 0 <= x < n GA) /\
  Parents st src = src.

(** what one step does to an entry of [Parents] *)
Definition assigns_once (st st' : state) : Prop :=
  forall d,
    Parents st' d = Parents st d \/
    (Parents st d = UINT_E_MAX /\ Parents st' d <> UINT_E_MAX /\
     In (Parents st' d) (Frontier st) /\ In d (output st')).

(** the number of the vertices that have a parent *)
Definition visited (GA : graph) (P : Z -> Z) : Z :=
  Z.of_nat (length (List.filter (fun d => negb (P d =? UINT_E_MAX)) (seqZ 0 (n GA)))).

(** *** Reachability and complete rounds, used by the statements *)

(** [d] can be reached from [src] along edges of the graph *)
Inductive reach (GA : graph) (src : Z) : Z -> Prop :=
| reach_src : reach GA src src
| reach_edge (s d : Z) :
    reach GA src s -> In d (out_nghs GA s) -> reach GA src d.

(** the schedule [sc] of a round has a call for every edge of the graph;
    [edgeMap] makes a call for every edge out of the frontier whose target
    still satisfies [cond], and a call along another edge, or to a target
    that [cond] rejects, does nothing *)
Definition covers (GA : graph) (sc : list call) : Prop :=
  forall s d, 0 <= s < n GA -> In d (out_nghs GA s) ->
    exists c, In c sc /\ c_s c = s /\ c_d c = d.

(** the number of steps the schedules [rounds] allow: every call, and the
    end of every round *)
Fixpoint steps (rounds : list (list call)) : nat :=
  match rounds with
  | [] => O
  | sc :: rounds' => (S (length sc) + steps rounds')%nat
  end.

(** the invariant of a run with complete rounds: a vertex with a parent is
    in the output of the running round, or every edge out of it leads to a
    vertex with a parent or is still to be called in this round *)
Definition closed_inv (GA : graph) (src : Z) (st : state) : Prop :=
  (forall sc, In sc (later st) -> covers GA sc) /\
  (forall x, In x (Frontier st) \/ In x (output st) ->
     Parents st x <> UINT_E_MAX) /\
  (forall x, Parents st x <> UINT_E_MAX -> reach GA src x /\ 0 <= x < n GA) /\
  (forall s, Parents st s <> UINT_E_MAX ->
     In s (output st) \/
     forall d, In d (out_nghs GA s) ->
       Parents st d <> UINT_E_MAX \/
       (In s (Frontier st) /\
        exists c, In c (sched st) /\ c_s c = s /\ c_d c = d)) /\
  n GA <= reachable st + Z.of_nat (length (later st)).

(** *** Distances, used by the statements *)

(** there is a path of [k] edges from [src] to [d] *)
Inductive path (GA : graph) (src : Z) : nat -> Z -> Prop :=
| path_nil : path GA src O src
| path_edge (k : nat) (s d : Z) :
    path GA src k s -> In d (out_nghs GA s) -> path GA src (S k) d.

(** [d] is [k] edges away from [src]: there is a path of [k] edges, and
    none of fewer *)
Definition dist (GA : graph) (src d : Z) (k : nat) : Prop :=
  path GA src k d /\ forall j, path GA src j d -> (k <= j)%nat.

(** the invariant of round [i] (from 0) with complete schedules, used by
    the proofs: the frontier is the vertices [i] edges away, the vertices
    with a parent are those up to [i] edges away and the output, which is
    [i + 1] edges away; a parent is one edge closer than its child; and an
    edge out of the frontier leads to a vertex with a parent or has its call
    still to come *)
Definition level_inv (GA : graph) (src : Z) (i : nat) (st : state) : Prop :=
  (forall x, In x (Frontier st) -> dist GA src x i) /\
  (forall x, Parents st x <> UINT_E_MAX ->
     (exists k, (k <= i)%nat /\ dist GA src x k) \/
     (dist GA src x (S i) /\ In x (output st))) /\
  (forall x j, path GA src j x -> (j <= i)%nat -> Parents st x <> UINT_E_MAX) /\
  (forall x, dist GA src x i -> In x (Frontier st)) /\
  (forall x, In x (output st) -> dist GA src x (S i)) /\
  (forall x, Parents st x <> UINT_E_MAX -> x <> src ->
     exists k, dist GA src (Parents st x) k /\ dist GA src x (S k)) /\
  (forall s d, In s (Frontier st) -> In d (out_nghs GA s) ->
     Parents st d <> UINT_E_MAX \/
     exists c, In c (sched st) /\ c_s c = s /\ c_d c = d) /\
  (forall sc, In sc (later st) -> covers GA sc).

End bfs.

(** ** wbfs::Visit_F (benchmark/wBFS.h) *)

Module Visit_F.

(** [constexpr uintE TOP_BIT = ((uintE)INT_E_MAX) + 1] and
    [constexpr uintE VAL_MASK = INT_E_MAX] *)
Definition TOP_BIT : Z := wrap32 (wrap32 INT_E_MAX + 1).
Definition VAL_MASK : Z := wrap32 INT_E_MAX.

(** Modelled from the spec: [pbbslib::write_min] of pbbslib, which is not
    under src/.  The spec has "per-destination state updated in sparse push
    mode uses CAS or write_min": one atomic step, after which [a[i]] is the
    smaller of [a[i]] and [v]; the answer is whether [a[i]] was written. *)
Definition write_min (a : Z -> Z) (i v : Z) : bool * (Z -> Z) :=
  if v <? a i then (true, upd a i v) else (false, a).

(** [Maybe<uintE>] is [option]; [dists] is the sequence the struct refers
    to.  [(dists[s] | TOP_BIT) + w] is [uintE] arithmetic. *)
Definition update (dists : Z -> Z) (s d w : Z) : option Z * (Z -> Z) :=
  let oval := dists d in
  let dist := Z.lor oval TOP_BIT in
  let n_dist := wrap32 (Z.lor (dists s) TOP_BIT + w) in
  if n_dist <? dist then
    if Z.land oval TOP_BIT =? 0 then   (* First visitor *)
      (Some oval, upd dists d n_dist)
    else (None, upd dists d n_dist)
  else (None, dists).

(** [updateAtomic] reads [dists[d]] and [dists[s]], then makes a
    compare-and-swap, then a [write_min]; the last two are atomic steps of
    their own, and other workers may write to the sequence before each of
    them: [dists] is the sequence at the reads, [before_cas] and
    [before_min] are what the other workers do to it in between. *)
Definition updateAtomic (dists : Z -> Z) (s d w : Z)
    (before_cas before_min : (Z -> Z) -> Z -> Z) : option Z * (Z -> Z) :=
  let oval := dists d in
  let dist := Z.lor oval TOP_BIT in
  let n_dist := wrap32 (Z.lor (dists s) TOP_BIT + w) in
  if n_dist <? dist then
    let '(swapped, dists) :=
      if Z.land oval TOP_BIT =? 0
      then bfs.atomic_compare_and_swap (before_cas dists) d oval n_dist
      else (false, dists) in
    if swapped then (Some oval, dists)   (* First visitor *)
    else (None, snd (write_min (before_min dists) d n_dist))
  else (None, dists).

Definition cond (d : Z) : bool := true.

End Visit_F.

(* ===================================================================== *)
(** * Part II: lemmas and theorems                                        *)
(* ===================================================================== *)

Import bytepd_amortized layout.

(** closes [b = (x <? y)] and the like, whichever side the constant is on *)
Ltac bool_lia :=
  lazymatch goal with
  | |- true = _ => symmetry
  | |- false = _ => symmetry
  | |- _ => idtac
  end;
  first [ apply Z.ltb_lt; lia | apply Z.ltb_ge; lia
        | apply Z.leb_le; lia | apply Z.leb_gt; lia
        | apply Z.eqb_eq; lia | apply Z.eqb_neq; lia | lia ].

(** closes an equation between two terms that differ in the way their
    addresses and offsets are added up *)
Ltac addr_eq := first [ reflexivity | lia | (f_equal; addr_eq) ].

(** case analysis on every comparison of the goal, then linear arithmetic,
    with the quotients spelled out where that is needed *)
Ltac cases_lia :=
  repeat match goal with
         | |- context [?x <? ?y] => destruct (Z.ltb_spec x y)
         | |- context [?x <=? ?y] => destruct (Z.leb_spec x y)
         | |- context [?x =? ?y] => destruct (Z.eqb_spec x y)
         end;
  first [ lia | (exfalso; Z.to_euclidean_division_equations; lia)
        | (Z.to_euclidean_division_equations; lia) ].

(** ** Machine integers and octets *)

Lemma wrap32_id z : 0 <= z < 2 ^ 32 -> wrap32 z = z.
Proof. intros. unfold wrap32. by rewrite Z.mod_small. Qed.

Lemma wrap32_range z : 0 <= wrap32 z < 2 ^ 32.
Proof. unfold wrap32. apply Z.mod_pos_bound. lia. Qed.

Lemma sint32_id z : - 2 ^ 31 <= z < 2 ^ 31 -> sint32 z = z.
Proof. intros. unfold sint32. rewrite Z.mod_small; lia. Qed.

Lemma land_ff x : Z.land x 0xff = x mod 256.
Proof. exact (Z.land_ones x 8 ltac:(lia)). Qed.

Lemma land_7f x : Z.land x 0x7f = x mod 128.
Proof. exact (Z.land_ones x 7 ltac:(lia)). Qed.

Lemma land_3f x : Z.land x 0x3f = x mod 64.
Proof. exact (Z.land_ones x 6 ltac:(lia)). Qed.

Lemma shiftr_7 x : Z.shiftr x 7 = x / 128.
Proof. exact (Z.shiftr_div_pow2 x 7 ltac:(lia)). Qed.

Lemma shiftr_6 x : Z.shiftr x 6 = x / 64.
Proof. exact (Z.shiftr_div_pow2 x 6 ltac:(lia)). Qed.

(** A property of octets that computes is checked on the 256 octets. *)
Lemma byte_forall (P : Z -> bool) :
  forallb P (seqZ 0 256) = true -> forall b, 0 <= b < 256 -> P b = true.
Proof.
  intros HP b Hb. rewrite forallb_forall in HP. apply HP.
  apply list_elem_of_In, elem_of_seqZ. lia.
Qed.

Lemma LAST_BIT_SET_byte b : 0 <= b < 256 -> LAST_BIT_SET b = (128 <=? b).
Proof.
  intros Hb.
  apply (byte_forall (fun b => Bool.eqb (LAST_BIT_SET b) (128 <=? b))) in Hb;
    [by apply eqb_prop | by vm_compute].
Qed.

Lemma sign_bit_byte b : 0 <= b < 256 -> negb (Z.land b 0x40 =? 0) = (64 <=? b mod 128).
Proof.
  intros Hb.
  apply (byte_forall (fun b => Bool.eqb (negb (Z.land b 0x40 =? 0)) (64 <=? b mod 128)))
    in Hb; [by apply eqb_prop | by vm_compute].
Qed.

Lemma lor_80 b : 0 <= b < 128 -> Z.lor b 0x80 = b + 128.
Proof.
  intros Hb.
  assert (0 <= b < 256) as Hb' by lia.
  apply (byte_forall (fun b => (128 <=? b) || (Z.lor b 0x80 =? b + 128))) in Hb';
    [| by vm_compute].
  apply orb_prop in Hb' as [?|?]; lia.
Qed.

Lemma lor_40 b : 0 <= b < 64 -> Z.lor b 0x40 = b + 64.
Proof.
  intros Hb.
  assert (0 <= b < 256) as Hb' by lia.
  apply (byte_forall (fun b => (64 <=? b) || (Z.lor b 0x40 =? b + 64))) in Hb';
    [| by vm_compute].
  apply orb_prop in Hb' as [?|?]; lia.
Qed.

(** [a | (b << k)] is [a + b * 2^k] when [a] fits below bit [k]. *)
Lemma testbit_small a k n : 0 <= a < 2 ^ k -> k <= n -> Z.testbit a n = false.
Proof.
  intros Ha Hn.
  destruct (Z.eq_dec a 0) as [->|Hne]; [by rewrite Z.bits_0|].
  apply Z.bits_above_log2; [lia|].
  apply Z.log2_lt_pow2; [lia|].
  pose proof (Z.pow_le_mono_r 2 k n); lia.
Qed.

Lemma land_shiftl_disjoint a b k :
  0 <= k -> 0 <= a < 2 ^ k -> Z.land a (Z.shiftl b k) = 0.
Proof.
  intros Hk Ha. apply Z.bits_inj'; intros n Hn.
  rewrite Z.land_spec, Z.bits_0.
  destruct (Z.lt_ge_cases n k) as [Hlt|Hge].
  - by rewrite (Z.shiftl_spec_low b k n Hlt), andb_false_r.
  - by rewrite (testbit_small a k n).
Qed.

(** [a | (b << k)] is [a + b * 2^k] when [a] fits below bit [k]. *)
Lemma lor_shiftl_add a b k :
  0 <= k -> 0 <= a < 2 ^ k -> Z.lor a (Z.shiftl b k) = a + b * 2 ^ k.
Proof.
  intros Hk Ha.
  rewrite <- Z.shiftl_mul_pow2 by done.
  rewrite <- Z.lxor_lor by (by apply land_shiftl_disjoint).
  symmetry. apply Z.add_nocarry_lxor. by apply land_shiftl_disjoint.
Qed.

(** ** Memory *)

Lemma load_store_eq m p v : load (store m p v) p = v mod 256.
Proof.
  unfold load, store. rewrite Z.eqb_refl, !land_ff. apply Z.mod_mod. lia.
Qed.

Lemma load_store_ne m p q v : q <> p -> load (store m p v) q = load m q.
Proof. intros. unfold load, store. destruct (Z.eqb_spec q p); [done|done]. Qed.

Lemma load_byte m p : 0 <= load m p < 256.
Proof. unfold load. rewrite land_ff. apply Z.mod_pos_bound. lia. Qed.

Lemma load_store m p v q :
  load (store m p v) q = if q =? p then v mod 256 else load m q.
Proof.
  destruct (Z.eqb_spec q p) as [->|Hne];
    [apply load_store_eq | by apply load_store_ne].
Qed.

Lemma load_write_bytes_out bs : forall m p q,
  q < p \/ p + Z.of_nat (length bs) <= q -> load (write_bytes m p bs) q = load m q.
Proof.
  induction bs as [|b bs IH]; intros m p q Hq; simpl in *; [done|].
  rewrite IH by lia. apply load_store_ne. lia.
Qed.

Lemma load_write_bytes_in bs : forall m p (i : nat),
  Forall is_byte bs -> (i < length bs)%nat ->
  load (write_bytes m p bs) (p + Z.of_nat i) = nth i bs 0.
Proof.
  induction bs as [|b bs IH]; intros m p i Hb Hi; simpl in *; [lia|].
  inversion Hb as [|? ? Hb1 Hb2]; subst.
  destruct i as [|i].
  - rewrite load_write_bytes_out by lia.
    replace (p + Z.of_nat 0) with p by lia.
    rewrite load_store_eq. apply Z.mod_small. exact Hb1.
  - replace (p + Z.of_nat (S i)) with (p + 1 + Z.of_nat i) by lia.
    apply IH; [done | lia].
Qed.

Lemma bytes_at_write m p bs : Forall is_byte bs -> bytes_at (write_bytes m p bs) p bs.
Proof. intros Hb i Hi. by apply load_write_bytes_in. Qed.

Lemma write_bytes_app a : forall m p b,
  write_bytes m p (a ++ b) =
  write_bytes (write_bytes m p a) (p + Z.of_nat (length a)) b.
Proof.
  induction a as [|x a IH]; intros m p b; simpl.
  - by rewrite Z.add_0_r.
  - rewrite IH. f_equal. lia.
Qed.

Lemma bytes_at_app m p a b :
  bytes_at m p (a ++ b) <->
  bytes_at m p a /\ bytes_at m (p + Z.of_nat (length a)) b.
Proof.
  unfold bytes_at. split.
  - intros Hab. split.
    + intros i Hi. rewrite Hab by (rewrite length_app; lia).
      by rewrite app_nth1.
    + intros i Hi.
      replace (p + Z.of_nat (length a) + Z.of_nat i)
        with (p + Z.of_nat (length a + i)) by lia.
      rewrite Hab by (rewrite length_app; lia).
      rewrite app_nth2 by lia. f_equal. lia.
  - intros [Ha Hb] i Hi. rewrite length_app in Hi.
    destruct (Nat.lt_ge_cases i (length a)) as [Hlt|Hge].
    + rewrite app_nth1 by done. by apply Ha.
    + rewrite app_nth2 by done.
      replace (p + Z.of_nat i)
        with (p + Z.of_nat (length a) + Z.of_nat (i - length a)) by lia.
      apply Hb. lia.
Qed.

Lemma bytes_at_nil m p : bytes_at m p [].
Proof. intros i Hi. simpl in Hi. lia. Qed.

Lemma bytes_at_cons m p b bs :
  bytes_at m p (b :: bs) <-> load m p = b /\ bytes_at m (p + 1) bs.
Proof.
  change (b :: bs) with ([b] ++ bs). rewrite bytes_at_app. simpl.
  split; intros [H1 H2]; split; try done.
  - specialize (H1 0%nat ltac:(simpl; lia)). simpl in H1.
    by rewrite Z.add_0_r in H1.
  - intros [|i] Hi; simpl in *; [|lia]. by rewrite Z.add_0_r.
Qed.

Lemma bytes_at_frame m m' p bs :
  same_on m m' p (p + Z.of_nat (length bs)) -> bytes_at m p bs -> bytes_at m' p bs.
Proof. intros Hs Hb i Hi. rewrite Hs by lia. by apply Hb. Qed.

Lemma load32_frame m m' p : same_on m m' p (p + 4) -> load32 m' p = load32 m p.
Proof. intros Hs. unfold load32. rewrite !Hs by lia. done. Qed.

Lemma same_on_sub m m' lo hi lo' hi' :
  same_on m m' lo hi -> lo <= lo' -> hi' <= hi -> same_on m m' lo' hi'.
Proof. intros Hs ? ? q Hq. apply Hs. lia. Qed.

Lemma same_on_refl m lo hi : same_on m m lo hi.
Proof. by intros q Hq. Qed.

Lemma same_on_trans m1 m2 m3 lo hi :
  same_on m1 m2 lo hi -> same_on m2 m3 lo hi -> same_on m1 m3 lo hi.
Proof. intros H12 H23 q Hq. rewrite H23, H12; done. Qed.

Lemma same_on_write_bytes m p bs lo hi :
  hi <= p \/ p + Z.of_nat (length bs) <= lo -> same_on m (write_bytes m p bs) lo hi.
Proof. intros Hd q Hq. apply load_write_bytes_out. lia. Qed.

Lemma load_store32_out m p v q :
  q < p \/ p + 4 <= q -> load (store32 m p v) q = load m q.
Proof.
  intros Hq. unfold store32. rewrite !load_store_ne by lia. done.
Qed.

Lemma same_on_store32 m p v lo hi :
  hi <= p \/ p + 4 <= lo -> same_on m (store32 m p v) lo hi.
Proof. intros Hd q Hq. apply load_store32_out. lia. Qed.

Lemma load32_store32 m p v : load32 (store32 m p v) p = wrap32 v.
Proof.
  unfold load32, store32.
  rewrite load_store_eq.
  rewrite (load_store_ne _ (p + 3) (p + 2)) by lia. rewrite load_store_eq.
  rewrite !(load_store_ne _ _ (p + 1)) by lia. rewrite load_store_eq.
  rewrite !(load_store_ne _ _ p) by lia. rewrite load_store_eq.
  rewrite !Z.shiftr_div_pow2 by lia. unfold wrap32.
  change (2 ^ 8) with 256. change (2 ^ 16) with 65536.
  change (2 ^ 24) with 16777216. change (2 ^ 32) with 4294967296.
  Z.to_euclidean_division_equations. lia.
Qed.

Lemma load32_range m p : 0 <= load32 m p < 2 ^ 32.
Proof.
  unfold load32.
  pose proof (load_byte m p). pose proof (load_byte m (p + 1)).
  pose proof (load_byte m (p + 2)). pose proof (load_byte m (p + 3)). lia.
Qed.

(** ** Variable-length integers *)

Lemma varint_byte n : forall x, 0 <= x -> Forall is_byte (varint n x).
Proof.
  induction n as [|n IH]; intros x Hx; simpl; [constructor|].
  pose proof (Z.mod_pos_bound x 128 ltac:(lia)).
  destruct (Z.eqb_spec (x / 128) 0).
  - repeat constructor; unfold is_byte; lia.
  - constructor; [unfold is_byte; lia|]. apply IH. apply Z.div_pos; lia.
Qed.

Lemma varint_length n : forall x, (length (varint n x) <= n)%nat.
Proof.
  induction n as [|n IH]; intros x; simpl; [lia|].
  destruct (x / 128 =? 0); simpl; [lia|]. specialize (IH (x / 128)). lia.
Qed.

Lemma varint_fuel n : forall n' x,
  (0 < n)%nat -> 0 <= x < 128 ^ Z.of_nat n -> (n <= n')%nat ->
  varint n' x = varint n x.
Proof.
  induction n as [|n IH]; intros n' x Hpos Hx Hn; [lia|].
  destruct n' as [|n']; [lia|]. simpl.
  destruct (Z.eqb_spec (x / 128) 0) as [|Hne]; [done|]. f_equal.
  rewrite Nat2Z.inj_succ, Z.pow_succ_r in Hx by lia.
  assert (0 <= x / 128 < 128 ^ Z.of_nat n) as Hx'.
  { split; [apply Z.div_pos; lia|]. apply Z.div_lt_upper_bound; lia. }
  destruct n as [|n]; [simpl in Hx'; lia|].
  apply IH; [lia | done | lia].
Qed.

Lemma div128_bound n x :
  0 <= x < 128 ^ Z.of_nat (S n) -> 0 <= x / 128 < 128 ^ Z.of_nat n.
Proof.
  intros Hx. rewrite Nat2Z.inj_succ, Z.pow_succ_r in Hx by lia.
  split; [apply Z.div_pos; lia|]. apply Z.div_lt_upper_bound; lia.
Qed.

(** The compress loop writes the groups of [x]; on [x = 0] it writes nothing. *)
Lemma compress_loop_zero fuel m start offset :
  compress_loop fuel m start offset 0 0 = (m, offset).
Proof. by destruct fuel. Qed.

Lemma compress_loop_varint n : forall m start offset x,
  0 < x < 128 ^ Z.of_nat n ->
  compress_loop n m start offset (Z.land x 0x7f) x =
    (write_bytes m (start + offset) (varint n x),
     offset + Z.of_nat (length (varint n x))).
Proof.
  induction n as [|n IH]; intros m start offset x Hx; [simpl in Hx; lia|].
  pose proof (div128_bound n x ltac:(lia)) as Hx'.
  cbn [compress_loop varint].
  replace ((0 <? Z.land x 0x7f) || (0 <? x)) with true
    by (symmetry; apply orb_true_iff; right; lia).
  rewrite shiftr_7, (land_7f x).
  pose proof (Z.mod_pos_bound x 128 ltac:(lia)).
  destruct (Z.eqb_spec (x / 128) 0) as [H0|Hne].
  - rewrite H0. change (0 <? 0) with false. cbv iota.
    change (Z.land 0 0x7f) with 0. rewrite compress_loop_zero.
    simpl. done.
  - replace (0 <? x / 128) with true by lia.
    rewrite lor_80 by lia.
    rewrite IH by lia. cbn [write_bytes length].
    replace (start + (offset + 1)) with (start + offset + 1) by lia.
    f_equal. lia.
Qed.

(** Five rounds are all the loop can use on a [uintE]: more fuel changes
    nothing. *)
Lemma compress_loop_fuel fuel m start offset x :
  0 <= x < 2 ^ 32 -> (5 <= fuel)%nat ->
  compress_loop fuel m start offset (Z.land x 0x7f) x =
  compress_loop 5 m start offset (Z.land x 0x7f) x.
Proof.
  intros Hx Hf. destruct (Z.eq_dec x 0) as [->|Hne].
  - change (Z.land 0 0x7f) with 0. by rewrite !compress_loop_zero.
  - assert (0 < x < 128 ^ Z.of_nat 5) as H5 by (change (128 ^ Z.of_nat 5) with (2 ^ 35); lia).
    assert (0 < x < 128 ^ Z.of_nat fuel) as Hfl.
    { split; [lia|]. eapply Z.lt_le_trans; [apply H5|].
      apply Z.pow_le_mono_r; lia. }
    rewrite !compress_loop_varint by done.
    by rewrite (varint_fuel 5 fuel) by lia.
Qed.

(** The add loop of [eatEdge] reads the groups back. *)
Lemma eat_add_loop_varint n : forall m p acc s x,
  0 <= x < 128 ^ Z.of_nat n -> (0 < n)%nat -> 0 <= acc -> 0 <= s ->
  acc + x * 2 ^ s < 2 ^ 32 ->
  bytes_at m p (varint n x) ->
  eat_add_loop n m p acc s = Some (acc + x * 2 ^ s, p + Z.of_nat (length (varint n x))).
Proof.
  induction n as [|n IH]; intros m p acc s x Hx Hn Hacc Hs Hfit Hb; [lia|].
  pose proof (div128_bound n x Hx) as Hx'.
  pose proof (Z.mod_pos_bound x 128 ltac:(lia)) as Hm.
  assert (0 < 2 ^ s) as Hp by (apply Z.pow_pos_nonneg; lia).
  assert (x = 128 * (x / 128) + x mod 128) as Hdm by (apply Z.div_mod; lia).
  cbn [eat_add_loop varint] in *.
  destruct (Z.eqb_spec (x / 128) 0) as [H0|Hne].
  - apply bytes_at_cons in Hb as [Hb _]. rewrite Hb.
    rewrite LAST_BIT_SET_byte by lia.
    replace (128 <=? x mod 128) with false by lia.
    rewrite land_7f, Z.mod_mod, Z.shiftl_mul_pow2 by lia.
    assert (x mod 128 = x) as -> by lia.
    rewrite (wrap32_id (x * 2 ^ s)) by nia. rewrite wrap32_id by nia.
    simpl. do 2 f_equal.
  - apply bytes_at_cons in Hb as [Hb Hb']. rewrite Hb.
    rewrite LAST_BIT_SET_byte by lia.
    replace (128 <=? x mod 128 + 128) with true by lia.
    rewrite land_7f, Z.shiftl_mul_pow2 by lia.
    replace ((x mod 128 + 128) mod 128) with (x mod 128)
      by (clear; Z.to_euclidean_division_equations; lia).
    assert (2 ^ (s + EDGE_SIZE_PER_BYTE) = 128 * 2 ^ s) as Hpow
      by (unfold EDGE_SIZE_PER_BYTE; rewrite Z.pow_add_r by lia; lia).
    assert (x * 2 ^ s = (x / 128) * (128 * 2 ^ s) + (x mod 128) * 2 ^ s) as Hsplit by nia.
    assert (0 <= (x / 128) * (128 * 2 ^ s)) by nia.
    assert (0 <= (x mod 128) * 2 ^ s) by nia.
    rewrite (wrap32_id (x mod 128 * 2 ^ s)) by lia. rewrite wrap32_id by lia.
    destruct n as [|n]; [simpl in Hx'; lia|].
    rewrite (IH m (p + 1) _ (s + EDGE_SIZE_PER_BYTE) (x / 128));
      [| done | lia | lia | unfold EDGE_SIZE_PER_BYTE; lia | rewrite Hpow; lia | done].
    rewrite Hpow. cbn [length]. f_equal. f_equal; lia.
Qed.

(** The or loop of [eatFirstEdge] and [eatWeight] reads the groups back. *)
Lemma eat_or_loop_varint n : forall m p acc s x,
  0 <= x < 128 ^ Z.of_nat n -> (0 < n)%nat -> 0 <= acc < 2 ^ s -> 0 <= s ->
  acc + x * 2 ^ s < 2 ^ 32 ->
  bytes_at m p (varint n x) ->
  eat_or_loop n m p acc s = Some (acc + x * 2 ^ s, p + Z.of_nat (length (varint n x))).
Proof.
  induction n as [|n IH]; intros m p acc s x Hx Hn Hacc Hs Hfit Hb; [lia|].
  pose proof (div128_bound n x Hx) as Hx'.
  pose proof (Z.mod_pos_bound x 128 ltac:(lia)) as Hm.
  assert (0 < 2 ^ s) as Hp by (apply Z.pow_pos_nonneg; lia).
  assert (x = 128 * (x / 128) + x mod 128) as Hdm by (apply Z.div_mod; lia).
  cbn [eat_or_loop varint] in *.
  destruct (Z.eqb_spec (x / 128) 0) as [H0|Hne].
  - apply bytes_at_cons in Hb as [Hb _]. rewrite Hb.
    rewrite LAST_BIT_SET_byte by lia.
    replace (128 <=? x mod 128) with false by lia.
    rewrite land_7f, Z.mod_mod by lia.
    assert (x mod 128 = x) as -> by lia.
    rewrite (wrap32_id (Z.shiftl x s)) by (rewrite Z.shiftl_mul_pow2 by lia; nia).
    rewrite lor_shiftl_add by lia.
    simpl. do 2 f_equal.
  - apply bytes_at_cons in Hb as [Hb Hb']. rewrite Hb.
    rewrite LAST_BIT_SET_byte by lia.
    replace (128 <=? x mod 128 + 128) with true by lia.
    rewrite land_7f.
    replace ((x mod 128 + 128) mod 128) with (x mod 128)
      by (clear; Z.to_euclidean_division_equations; lia).
    assert (2 ^ (s + EDGE_SIZE_PER_BYTE) = 128 * 2 ^ s) as Hpow
      by (unfold EDGE_SIZE_PER_BYTE; rewrite Z.pow_add_r by lia; lia).
    assert (x * 2 ^ s = (x / 128) * (128 * 2 ^ s) + (x mod 128) * 2 ^ s) as Hsplit by nia.
    assert (0 <= (x / 128) * (128 * 2 ^ s)) by nia.
    assert (0 <= (x mod 128) * 2 ^ s) by nia.
    rewrite (wrap32_id (Z.shiftl (x mod 128) s))
      by (rewrite Z.shiftl_mul_pow2 by lia; lia).
    rewrite lor_shiftl_add by lia.
    destruct n as [|n]; [simpl in Hx'; lia|].
    rewrite (IH m (p + 1) _ (s + EDGE_SIZE_PER_BYTE) (x / 128));
      [| done | lia | | unfold EDGE_SIZE_PER_BYTE; lia | rewrite Hpow; lia | done].
    + rewrite Hpow. cbn [length]. f_equal. f_equal; lia.
    + rewrite Hpow. nia.
Qed.

(** ** Single edges and weights *)

Lemma edge_bytes_byte e : 0 <= e -> Forall is_byte (edge_bytes e).
Proof.
  intros He. unfold edge_bytes. destruct (e =? 0); [constructor|].
  by apply varint_byte.
Qed.

Lemma edge_bytes_length e : (length (edge_bytes e) <= 5)%nat.
Proof.
  unfold edge_bytes. destruct (e =? 0); [simpl; lia|]. apply varint_length.
Qed.

Lemma varint_nonempty n x : (0 < n)%nat -> (0 < length (varint n x))%nat.
Proof. destruct n; [lia|]. simpl. destruct (x / 128 =? 0); simpl; lia. Qed.

Lemma edge_bytes_nonempty e : 0 < e -> (0 < length (edge_bytes e))%nat.
Proof.
  intros He. unfold edge_bytes. replace (e =? 0) with false by lia.
  apply varint_nonempty. lia.
Qed.

Lemma compressEdge_bytes m start offset e :
  0 <= e < 2 ^ 32 ->
  compressEdge m start offset e =
    (write_bytes m (start + offset) (edge_bytes e),
     offset + Z.of_nat (length (edge_bytes e))).
Proof.
  intros He. unfold compressEdge, edge_bytes. rewrite wrap32_id by done.
  destruct (Z.eqb_spec e 0) as [->|Hne].
  - change (Z.land 0 0x7f) with 0. rewrite compress_loop_zero. simpl.
    by rewrite Z.add_0_r.
  - apply compress_loop_varint. change (128 ^ Z.of_nat 5) with (2 ^ 35). lia.
Qed.

Lemma eatEdge_bytes m p e :
  0 < e < 2 ^ 32 -> bytes_at m p (edge_bytes e) ->
  eatEdge m p = Some (e, p + Z.of_nat (length (edge_bytes e))).
Proof.
  intros He Hb. unfold eatEdge, edge_bytes in *.
  replace (e =? 0) with false in * by lia.
  assert (0 <= e < 128 ^ Z.of_nat 5) by (change (128 ^ Z.of_nat 5) with (2 ^ 35); lia).
  rewrite (eat_add_loop_varint 5 m p 0 0 e) by (done || lia).
  do 2 f_equal. lia.
Qed.

Lemma sign_mag_bytes_byte neg d : 0 <= d -> Forall is_byte (sign_mag_bytes neg d).
Proof.
  intros Hd. unfold sign_mag_bytes.
  pose proof (Z.mod_pos_bound d 64 ltac:(lia)).
  constructor.
  - unfold is_byte. destruct neg, (d / 64 =? 0); lia.
  - destruct (d / 64 =? 0); [constructor|].
    apply varint_byte. apply Z.div_pos; lia.
Qed.

Lemma sign_mag_bytes_length neg d :
  0 <= d < 2 ^ 32 -> (1 <= length (sign_mag_bytes neg d) <= 5)%nat.
Proof.
  intros Hd. unfold sign_mag_bytes. cbn [length].
  destruct (d / 64 =? 0); [simpl; lia|].
  assert (0 <= d / 64 < 128 ^ Z.of_nat 4)
    by (change (128 ^ Z.of_nat 4) with (2 ^ 28);
        split; [apply Z.div_pos; lia | apply Z.div_lt_upper_bound; lia]).
  rewrite (varint_fuel 4 5) by (done || lia).
  pose proof (varint_length 4 (d / 64)). lia.
Qed.

(** the part of [compressFirstEdge] after [diff] is known *)
Lemma compress_sign_mag m start offset source target :
  Z.abs (target - source) < 2 ^ 32 ->
  compressFirstEdge m start offset source target =
    (write_bytes m (start + offset) (first_bytes source target),
     offset + Z.of_nat (length (first_bytes source target))).
Proof.
  intros Hd. unfold compressFirstEdge, first_bytes, sign_mag_bytes.
  set (d := Z.abs (target - source)) in *.
  assert (0 <= d) by (unfold d; lia).
  rewrite wrap32_id by lia. rewrite land_3f, shiftr_6.
  pose proof (Z.mod_pos_bound d 64 ltac:(lia)).
  assert (0 <= d / 64 < 2 ^ 26) as Hq
    by (split; [apply Z.div_pos; lia | apply Z.div_lt_upper_bound; lia]).
  assert ((if target - source <? 0 then Z.lor (d mod 64) 0x40 else d mod 64)
          = d mod 64 + (if target - source <? 0 then 64 else 0)) as ->.
  { destruct (target - source <? 0); [apply lor_40; lia | lia]. }
  destruct (Z.eqb_spec (d / 64) 0) as [Hz|Hne].
  - rewrite Hz. change (0 <? 0) with false. cbv iota.
    change (Z.land 0 0x7f) with 0. rewrite compress_loop_zero.
    cbn [write_bytes length]. do 2 f_equal; lia.
  - replace (0 <? d / 64) with true by lia.
    rewrite lor_80 by (destruct (target - source <? 0); lia).
    rewrite compress_loop_varint
      by (change (128 ^ Z.of_nat 5) with (2 ^ 35); lia).
    cbn [write_bytes length].
    replace (start + (offset + 1)) with (start + offset + 1) by lia.
    f_equal. lia.
Qed.

(** the part shared by [eatFirstEdge] and [eatWeight<intE>]: the first octet
    and the or loop give the magnitude back, bit 6 gives the sign *)
Lemma eat_sign_mag m p neg d :
  0 <= d < 2 ^ 32 -> bytes_at m p (sign_mag_bytes neg d) ->
  negb (Z.land (load m p) 0x40 =? 0) = neg /\
  (if LAST_BIT_SET (load m p)
   then eat_or_loop 4 m (p + 1) (Z.land (load m p) 0x3f) 6
   else Some (Z.land (load m p) 0x3f, p + 1))
  = Some (d, p + Z.of_nat (length (sign_mag_bytes neg d))).
Proof.
  intros Hd Hb. unfold sign_mag_bytes in *.
  pose proof (Z.mod_pos_bound d 64 ltac:(lia)) as Hm.
  assert (d = 64 * (d / 64) + d mod 64) as Hdm by (apply Z.div_mod; lia).
  assert (0 <= d / 64 < 2 ^ 26) as Hq
    by (split; [apply Z.div_pos; lia | apply Z.div_lt_upper_bound; lia]).
  apply bytes_at_cons in Hb as [Hfb Hrest]. rewrite Hfb.
  set (fb := d mod 64 + (if neg then 64 else 0) + (if d / 64 =? 0 then 0 else 128)) in *.
  assert (0 <= fb < 256) as Hfbr by (unfold fb; destruct neg, (d / 64 =? 0); lia).
  rewrite sign_bit_byte, LAST_BIT_SET_byte, land_3f by done.
  assert (fb mod 64 = d mod 64) as ->.
  { unfold fb. clear -Hm. destruct neg, (d / 64 =? 0);
      Z.to_euclidean_division_equations; lia. }
  assert ((64 <=? fb mod 128) = neg) as ->.
  { unfold fb. clear -Hm. destruct neg, (d / 64 =? 0);
      Z.to_euclidean_division_equations; lia. }
  split; [done|].
  destruct (Z.eqb_spec (d / 64) 0) as [Hz|Hne].
  - replace (128 <=? fb) with false by (unfold fb; destruct neg; lia).
    cbn [length]. do 2 f_equal; lia.
  - replace (128 <=? fb) with true by (unfold fb; destruct neg; lia).
    assert (0 <= d / 64 < 128 ^ Z.of_nat 4) as Hq4
      by (change (128 ^ Z.of_nat 4) with (2 ^ 28); lia).
    rewrite (varint_fuel 4 5) in * by (done || lia).
    assert (0 <= d mod 64 < 2 ^ 6) by (change (2 ^ 6) with 64; lia).
    rewrite (eat_or_loop_varint 4 m (p + 1) (d mod 64) 6 (d / 64))
      by (done || lia).
    cbn [length]. do 2 f_equal; lia.
Qed.

Lemma eatFirstEdge_bytes m p source target :
  0 <= source < 2 ^ 32 -> 0 <= target < 2 ^ 32 ->
  bytes_at m p (first_bytes source target) ->
  eatFirstEdge m p source =
    Some (target, p + Z.of_nat (length (first_bytes source target))).
Proof.
  intros Hs Ht Hb. unfold eatFirstEdge, first_bytes in *.
  destruct (eat_sign_mag m p (target - source <? 0) (Z.abs (target - source))
              ltac:(lia) Hb) as [Hsign Hmag].
  rewrite Hmag, Hsign. cbn. f_equal. f_equal.
  destruct (Z.ltb_spec (target - source) 0); cbn; rewrite wrap32_id; lia.
Qed.

Lemma first_bytes_byte source target : Forall is_byte (first_bytes source target).
Proof. apply sign_mag_bytes_byte. lia. Qed.

Lemma first_bytes_length source target :
  Z.abs (target - source) < 2 ^ 32 ->
  (1 <= length (first_bytes source target) <= 5)%nat.
Proof. intros. apply sign_mag_bytes_length. lia. Qed.

(** *** The two weight types *)

Lemma eatWeight_intE_bytes m p w :
  is_intE w -> bytes_at m p (first_bytes 0 w) ->
  eatWeight_intE m p = Some (w, p + Z.of_nat (length (first_bytes 0 w))).
Proof.
  unfold is_intE. intros Hw Hb. unfold eatWeight_intE, first_bytes in *.
  rewrite Z.sub_0_r in *.
  destruct (eat_sign_mag m p (w <? 0) (Z.abs w) ltac:(lia) Hb) as [Hsign Hmag].
  rewrite Hmag, Hsign. cbn. f_equal. f_equal.
  destruct (Z.ltb_spec w 0); cbn.
  - destruct (Z.eq_dec w (- 2 ^ 31)) as [->|Hne]; [by vm_compute|].
    rewrite (sint32_id (Z.abs w)) by lia. rewrite sint32_id; lia.
  - rewrite sint32_id; lia.
Qed.

Lemma compressWeight_intE_bytes m start offset w :
  is_intE w ->
  compressFirstEdge m start offset 0 w =
    (write_bytes m (start + offset) (first_bytes 0 w),
     offset + Z.of_nat (length (first_bytes 0 w))).
Proof. unfold is_intE. intros Hw. apply compress_sign_mag. lia. Qed.

Lemma first_bytes_0_length w : is_intE w -> (length (first_bytes 0 w) <= 5)%nat.
Proof. unfold is_intE. intros Hw. apply first_bytes_length. lia. Qed.

Lemma compressWeight_empty_bytes (m : mem) (start offset : Z) (w : unit) :
  True ->
  compressWeight m start offset w =
    (write_bytes m (start + offset) [], offset + Z.of_nat (@length Z [])).
Proof. intros _. cbn. f_equal. lia. Qed.

Lemma eatWeight_empty_bytes (m : mem) (p : Z) (w : unit) :
  True -> bytes_at m p [] ->
  eatWeight m p = Some (w, p + Z.of_nat (@length Z [])).
Proof. intros _ _. destruct w. cbn. do 2 f_equal. lia. Qed.

#[export] Instance empty_WeightOk : WeightOk unit := {|
  weight_ok := fun _ => True;
  weight_bytes := fun _ => [];
  weight_bytes_byte := fun _ => Forall_nil_2 is_byte;
  weight_bytes_length := fun _ _ => Nat.le_0_l 5;
  compressWeight_bytes := compressWeight_empty_bytes;
  eatWeight_bytes := eatWeight_empty_bytes
|}.

#[export] Instance intE_WeightOk : WeightOk Z := {|
  weight_ok := is_intE;
  weight_bytes := first_bytes 0;
  weight_bytes_byte := first_bytes_byte 0;
  weight_bytes_length := first_bytes_0_length;
  compressWeight_bytes := compressWeight_intE_bytes;
  eatWeight_bytes := eatWeight_intE_bytes
|}.

(** ** Blocks of edges *)

#[global] Arguments first_bytes : simpl never.
#[global] Arguments edge_bytes : simpl never.
#[global] Arguments sign_mag_bytes : simpl never.
#[global] Arguments wrap32 : simpl never.
#[global] Arguments load32 : simpl never.
#[global] Arguments store32 : simpl never.
#[global] Arguments eatEdge : simpl never.
#[global] Arguments eatFirstEdge : simpl never.
#[global] Arguments compressEdge : simpl never.
#[global] Arguments compressFirstEdge : simpl never.

Section blocks.
Context {W : Type} {HW : Weight W} {HWok : WeightOk W}.
Implicit Types (es : list (Z * W)) (E : Z -> list (Z * W)).

Lemma increasing_from_weaken es : forall last last',
  last' <= last -> increasing_from last es -> increasing_from last' es.
Proof.
  destruct es as [|[n w] es]; intros last last' Hle Hi; cbn [increasing_from last_ngh rest_bytes chunk_bytes keep List.filter fst snd skipn firstn app length run_block decode_rest edges_ok] in *; [done|].
  destruct Hi as (? & ? & ?). repeat split; (lia || done).
Qed.

Lemma increasing_from_app es1 : forall es2 last,
  increasing_from last (es1 ++ es2) <->
  increasing_from last es1 /\ increasing_from (last_ngh last es1) es2.
Proof.
  induction es1 as [|[n w] es1 IH]; intros es2 last; cbn [increasing_from last_ngh app]; [tauto|].
  rewrite IH. tauto.
Qed.

Lemma last_ngh_ge es : forall last, increasing_from last es -> last <= last_ngh last es.
Proof.
  induction es as [|[n w] es IH]; intros last Hi; cbn [increasing_from last_ngh rest_bytes chunk_bytes keep List.filter fst snd skipn firstn app length run_block decode_rest edges_ok] in *; [lia|].
  destruct Hi as (? & ? & Hi). specialize (IH n Hi). lia.
Qed.

Lemma last_ngh_lt es : forall last,
  last < 2 ^ 32 -> increasing_from last es -> last_ngh last es < 2 ^ 32.
Proof.
  induction es as [|[n w] es IH]; intros last Hl Hi; cbn [increasing_from last_ngh rest_bytes chunk_bytes keep List.filter fst snd skipn firstn app length run_block decode_rest edges_ok] in *; [lia|].
  destruct Hi as (? & ? & Hi). apply IH; [lia|done].
Qed.

Lemma increasing_from_keep pred src es : forall last,
  increasing_from last es -> increasing_from last (keep pred src es).
Proof.
  induction es as [|[n w] es IH]; intros last Hi; cbn [increasing_from last_ngh rest_bytes chunk_bytes keep List.filter fst snd skipn firstn app length run_block decode_rest edges_ok] in *; [done|].
  destruct Hi as (? & ? & Hi).
  destruct (pred src n w); cbn [increasing_from].
  - split; [done|]. split; [done|]. by apply IH.
  - apply IH. eapply increasing_from_weaken; [|done]. lia.
Qed.

Lemma increasing_from_skipn k : forall es last,
  increasing_from last es -> increasing_from last (skipn k es).
Proof.
  induction k as [|k IH]; intros es last Hi; [done|].
  destruct es as [|[n w] es]; cbn [increasing_from last_ngh rest_bytes chunk_bytes keep List.filter fst snd skipn firstn app length run_block decode_rest edges_ok] in *; [done|].
  destruct Hi as (? & ? & Hi). apply IH.
  eapply increasing_from_weaken; [|done]. lia.
Qed.

Lemma increasing_from_firstn k : forall es last,
  increasing_from last es -> increasing_from last (firstn k es).
Proof.
  induction k as [|k IH]; intros es last Hi; [done|].
  destruct es as [|[n w] es]; cbn [increasing_from last_ngh rest_bytes chunk_bytes keep List.filter fst snd skipn firstn app length run_block decode_rest edges_ok] in *; [done|].
  destruct Hi as (? & ? & Hi). split; [done|]. split; [done|]. by apply IH.
Qed.

Lemma rest_bytes_byte es : forall last,
  increasing_from last es -> Forall is_byte (rest_bytes last es).
Proof.
  induction es as [|[n w] es IH]; intros last Hi; cbn [increasing_from last_ngh rest_bytes chunk_bytes keep List.filter fst snd skipn firstn app length run_block decode_rest edges_ok] in *; [constructor|].
  destruct Hi as (? & ? & Hi).
  apply Forall_app; split; [apply edge_bytes_byte; lia|].
  apply Forall_app; split; [apply weight_bytes_byte | by apply IH].
Qed.

Lemma chunk_bytes_byte src es : edges_ok es -> Forall is_byte (chunk_bytes src es).
Proof.
  destruct es as [|[n w] es]; intros Hi; cbn [increasing_from last_ngh rest_bytes chunk_bytes keep List.filter fst snd skipn firstn app length run_block decode_rest edges_ok] in *; [constructor|].
  destruct Hi as (? & ? & Hi).
  apply Forall_app; split; [apply first_bytes_byte|].
  apply Forall_app; split; [apply weight_bytes_byte | by apply rest_bytes_byte].
Qed.

(** Reading one edge after the first: the difference and the weight. *)
Lemma read_edge m p last n w more :
  0 <= last < n -> n < 2 ^ 32 -> weight_ok w ->
  bytes_at m p (edge_bytes (n - last) ++ weight_bytes w ++ more) ->
  exists p1 p2,
    eatEdge m p = Some (n - last, p1) /\ wrap32 (last + (n - last)) = n /\
    eatWeight m p1 = Some (w, p2) /\ bytes_at m p2 more /\
    p2 = p + Z.of_nat (length (edge_bytes (n - last) ++ weight_bytes w)).
Proof.
  intros Hl Hn Hw Hb.
  apply bytes_at_app in Hb as [Hb1 Hb]. apply bytes_at_app in Hb as [Hb2 Hb3].
  eexists _, _. split; [apply eatEdge_bytes; [lia|done]|].
  split; [rewrite wrap32_id; lia|].
  split; [by apply eatWeight_bytes|].
  split; [done|]. rewrite length_app. lia.
Qed.

(** Reading the first edge of a block and its weight. *)
Lemma read_first m p src n w more :
  is_uintE src -> 0 <= n < 2 ^ 32 -> weight_ok w ->
  bytes_at m p (first_bytes src n ++ weight_bytes w ++ more) ->
  exists p1 p2,
    eatFirstEdge m p src = Some (n, p1) /\
    eatWeight m p1 = Some (w, p2) /\ bytes_at m p2 more /\
    p2 = p + Z.of_nat (length (first_bytes src n ++ weight_bytes w)).
Proof.
  intros Hs Hn Hw Hb.
  apply bytes_at_app in Hb as [Hb1 Hb]. apply bytes_at_app in Hb as [Hb2 Hb3].
  eexists _, _. split; [by apply eatFirstEdge_bytes|].
  split; [by apply eatWeight_bytes|].
  split; [done|]. rewrite length_app. lia.
Qed.

Section decode_block.
Context {S : Type}.
Variable t : Z -> Z -> W -> Z -> S -> bool * S.

Lemma decode_rest_run es : forall m src finger ngh edgeID s,
  0 <= ngh -> increasing_from ngh es -> bytes_at m finger (rest_bytes ngh es) ->
  decode_rest t (length es) m src finger ngh edgeID s =
    Some (run_block t src es edgeID s).
Proof.
  induction es as [|[n w] es IH]; intros m src finger ngh edgeID s Hn Hi Hb;
    cbn [increasing_from last_ngh rest_bytes chunk_bytes keep List.filter fst snd skipn firstn app length run_block decode_rest edges_ok] in *; [done|].
  destruct Hi as (? & ? & Hi).
  destruct (read_edge m finger ngh n w _ ltac:(lia) ltac:(lia) ltac:(done) Hb)
    as (p1 & p2 & He & Hwr & Hw & Hb' & _).
  rewrite He. cbn [mbind option_bind]. rewrite Hwr, Hw. cbn [mbind option_bind].
  destruct (t src n w edgeID s) as [[] s']; [|done].
  apply IH; [lia|done|done].
Qed.

End decode_block.

End blocks.

(** ** Regions *)

Section regions.
Context {W : Type} {HW : Weight W} {HWok : WeightOk W}.
Implicit Types (es : list (Z * W)) (E : Z -> list (Z * W)).

Lemma num_blocks_of_pos vd :
  1 <= vd < 2 ^ 32 -> num_blocks_of vd = 1 + (vd - 1) / 1000 /\ 1 <= num_blocks_of vd.
Proof.
  intros Hvd. unfold num_blocks_of, PARALLEL_DEGREE.
  rewrite wrap32_id by lia.
  split; [done|]. pose proof (Z.div_pos (vd - 1) 1000). lia.
Qed.

Lemma start_of_0 E : start_of E 0 = 0.
Proof. done. Qed.

Lemma start_of_succ E i :
  0 <= i -> start_of E (i + 1) = start_of E i + Z.of_nat (length (E i)).
Proof.
  intros Hi. unfold start_of.
  replace (Z.to_nat (i + 1)) with (S (Z.to_nat i)) by lia.
  cbn [flat]. rewrite length_app, Z2Nat.id by done. lia.
Qed.

Lemma start_of_nonneg E i : 0 <= start_of E i.
Proof. unfold start_of. lia. Qed.

Lemma start_of_mono E i j : 0 <= i <= j -> start_of E i <= start_of E j.
Proof.
  intros Hij. replace j with (i + Z.of_nat (Z.to_nat (j - i))) by lia.
  induction (Z.to_nat (j - i)) as [|k IH]; [replace (i + Z.of_nat 0) with i by lia; lia|].
  replace (i + Z.of_nat (S k)) with (i + Z.of_nat k + 1) by lia.
  rewrite start_of_succ by lia. lia.
Qed.

Lemma length_edges_of vd E :
  Z.of_nat (length (edges_of vd E)) = start_of E (num_blocks_of vd).
Proof.
  unfold edges_of, start_of, nblocks. done.
Qed.

(** every block of a valid list is valid, and later blocks are above the
    earlier ones *)
Lemma flat_block_ok E : forall n last,
  increasing_from last (flat E n) ->
  forall i, 0 <= i < Z.of_nat n -> increasing_from last (E i).
Proof.
  induction n as [|n IH]; intros last Hok i Hi; [lia|].
  cbn [flat] in Hok. apply increasing_from_app in Hok as [Hok1 Hok2].
  destruct (Z.eq_dec i (Z.of_nat n)) as [->|Hne].
  - eapply increasing_from_weaken; [|done]. by apply last_ngh_ge.
  - apply IH; [done|lia].
Qed.

Lemma chunk_bytes_length_ge src es :
  edges_ok es -> Z.of_nat (length es) <= Z.of_nat (length (chunk_bytes src es)).
Proof.
  assert (forall es last, increasing_from last es -> 0 <= last ->
            (length es <= length (rest_bytes last es))%nat) as Hrest.
  { clear. induction es as [|[n w] es IH]; intros last Hi Hl;
      cbn [increasing_from rest_bytes length] in *; [lia|].
    destruct Hi as (? & ? & Hi). rewrite !length_app.
    pose proof (edge_bytes_nonempty (n - last) ltac:(lia)).
    specialize (IH n Hi ltac:(lia)). lia. }
  destruct es as [|[n w] es]; intros Hi;
    cbn [edges_ok increasing_from chunk_bytes length] in *; [lia|].
  destruct Hi as (? & ? & Hi). rewrite !length_app.
  pose proof (first_bytes_length src n).
  specialize (Hrest es n Hi ltac:(lia)).
  assert (1 <= length (first_bytes src n))%nat; [|lia].
  unfold first_bytes, sign_mag_bytes. cbn [length]. lia.
Qed.

Section facts_gen.
Variables (ok : Prop) (m : mem) (base src vd : Z) (addr start : Z -> Z)
  (E : Z -> list (Z * W)).
Hypothesis Hreg : region_gen ok m base src vd addr start E.

Local Abbreviation B := (num_blocks_of vd).

Lemma region_B : B = 1 + (vd - 1) / 1000 /\ 1 <= B.
Proof. destruct Hreg as (_ & Hvd & _). by apply num_blocks_of_pos. Qed.

Lemma region_finger i : 0 <= i < B -> block_finger m base B i = addr i.
Proof.
  intros Hi. destruct Hreg as (_ & _ & _ & Ha0 & _ & _ & Hoff & _).
  unfold block_finger. destruct (Z.ltb_spec 0 i).
  - rewrite Hoff by (fold B; lia). lia.
  - assert (i = 0) as -> by lia. unfold nghs_start_of, sizeof_uintE.
    rewrite Ha0. lia.
Qed.

Lemma region_start i : 0 <= i < B -> load32 m (addr i) = start i.
Proof.
  intros Hi. destruct Hreg as (_ & _ & _ & _ & _ & _ & _ & Hblk & _).
  by destruct (Hblk i Hi).
Qed.

Lemma region_end degree i :
  0 <= i < B ->
  block_end m base B degree i = if i =? B - 1 then wrap32 degree else start (i + 1).
Proof.
  intros Hi. unfold block_end. destruct (Z.eqb_spec i (B - 1)); [done|].
  destruct Hreg as (_ & _ & _ & _ & _ & _ & Hoff & _).
  specialize (Hoff (i + 1) ltac:(lia)).
  replace (i + 1 - 1) with i in Hoff by lia. rewrite Hoff.
  replace (base + (addr (i + 1) - base)) with (addr (i + 1)) by lia.
  apply region_start. lia.
Qed.

End facts_gen.

Section facts.
Variables (m : mem) (base src vd : Z) (addr start : Z -> Z) (E : Z -> list (Z * W)).
Hypothesis Hreg : region_at m base src vd addr start E.

Local Abbreviation B := (num_blocks_of vd).

Lemma region_block_ok i : 0 <= i < B -> edges_ok (E i).
Proof.
  intros Hi. destruct Hreg as (_ & _ & _ & _ & _ & _ & _ & _ & Hok).
  apply (flat_block_ok E (nblocks vd)); [done|].
  unfold nblocks. lia.
Qed.

(** the blocks lie one after the other, each at least as long as its edges *)
Lemma region_addr_lower i :
  0 <= i <= B -> start_of E i + 4 * i <= addr i - addr 0.
Proof.
  intros Hi. replace i with (Z.of_nat (Z.to_nat i)) by lia.
  assert (Z.to_nat i <= Z.to_nat B)%nat as Hle by lia.
  induction (Z.to_nat i) as [|k IH];
    [change (Z.of_nat 0) with 0; rewrite start_of_0; lia|].
  replace (Z.of_nat (S k)) with (Z.of_nat k + 1) by lia.
  rewrite start_of_succ by lia.
  specialize (IH ltac:(lia)).
  destruct Hreg as (_ & _ & _ & _ & _ & _ & _ & Hblk & _).
  destruct (Hblk (Z.of_nat k) ltac:(lia)) as (_ & _ & Hcap & _).
  pose proof (chunk_bytes_length_ge src (E (Z.of_nat k))
                (region_block_ok (Z.of_nat k) ltac:(lia))).
  lia.
Qed.

Lemma region_degree_lt : start_of E B < 2 ^ 32.
Proof.
  pose proof (region_B _ _ _ _ _ _ _ _ Hreg) as [_ HB].
  pose proof (region_addr_lower B ltac:(lia)).
  destruct Hreg as (_ & _ & _ & Ha0 & Hend & _). lia.
Qed.

End facts.

End regions.

(** ** decode on a region *)

Section decode_region.
Context {W : Type} {HW : Weight W} {HWok : WeightOk W}.
Context {S : Type}.
Variable t : Z -> Z -> W -> Z -> S -> bool * S.
Variables (m : mem) (base src vd : Z) (addr : Z -> Z) (E : Z -> list (Z * W)).
Hypothesis Hreg : region_at m base src vd addr (start_of E) E.

Local Abbreviation B := (num_blocks_of vd).
Local Abbreviation degree := (start_of E (num_blocks_of vd)).

Lemma region_end_start i :
  0 <= i < B -> block_end m base B degree i = start_of E (i + 1).
Proof.
  intros Hi. rewrite (region_end _ _ _ _ _ _ _ _ Hreg) by done.
  destruct (Z.eqb_spec i (B - 1)) as [->|]; [|done].
  replace (B - 1 + 1) with B by lia. apply wrap32_id.
  pose proof (region_degree_lt _ _ _ _ _ _ _ Hreg).
  pose proof (start_of_nonneg E B). lia.
Qed.

Lemma decode_chunk_run i s :
  0 <= i < B ->
  decode_chunk t m base src degree B i s =
    Some (run_block t src (E i) (start_of E i) s).
Proof.
  intros Hi. unfold decode_chunk.
  rewrite (region_finger _ _ _ _ _ _ _ _ Hreg) by done.
  rewrite (region_start _ _ _ _ _ _ _ _ Hreg) by done.
  rewrite region_end_start by done.
  rewrite start_of_succ by lia.
  pose proof (region_block_ok _ _ _ _ _ _ _ Hreg i Hi) as Hok.
  pose proof (region_degree_lt _ _ _ _ _ _ _ Hreg) as Hdeg.
  pose proof (start_of_mono E (i + 1) B ltac:(lia)) as Hmono.
  rewrite start_of_succ in Hmono by lia.
  pose proof (start_of_nonneg E i).
  destruct Hreg as (Hsrc & _ & _ & _ & _ & _ & _ & Hblk & _).
  destruct (Hblk i Hi) as (_ & Hbytes & _).
  destruct (E i) as [|[n w] es] eqn:HE.
  - cbn [length]. replace (_ <? _) with false by bool_lia. done.
  - cbn [length] in *. replace (_ <? _) with true by bool_lia.
    cbn [edges_ok increasing_from chunk_bytes] in Hok, Hbytes.
    destruct Hok as (Hn & Hw & Hok).
    destruct (read_first m (addr i + 4) src n w _ Hsrc ltac:(lia) Hw Hbytes)
      as (p1 & p2 & He & Hew & Hb' & _).
    unfold sizeof_uintE. rewrite He. cbn [mbind option_bind].
    rewrite Hew. cbn [mbind option_bind run_block].
    destruct (t src n w (start_of E i) s) as [[] s']; [|done].
    rewrite wrap32_id by lia.
    replace (Z.to_nat _) with (length es) by lia.
    apply decode_rest_run; [lia|done|done].
Qed.

Lemma decode_chunks_run n : forall i s,
  0 <= i -> i + Z.of_nat n <= B ->
  decode_chunks t n m base src degree B i s = Some (run_until_false t src E n i s).
Proof.
  induction n as [|n IH]; intros i s Hi Hn; [done|].
  cbn [decode_chunks run_until_false].
  rewrite decode_chunk_run by lia. cbn [mbind option_bind].
  destruct (run_block t src (E i) (start_of E i) s) as [[] s']; [|done].
  apply IH; lia.
Qed.

(** The weighted [decode] runs the blocks in order and stops for good at the
    first [false] of the callback. *)
Lemma decode_region par s :
  decode t m base src degree par s =
    Some (if 0 <? degree then run_until_false t src E (nblocks vd) 0 s else s).
Proof.
  unfold decode. destruct (0 <? degree); [|done].
  pose proof (region_B _ _ _ _ _ _ _ _ Hreg) as [_ HB].
  destruct Hreg as (_ & _ & Hvd & _). rewrite Hvd.
  apply decode_chunks_run; [lia|]. unfold nblocks. lia.
Qed.

End decode_region.

Section decode_region_unweighted.
Context {S : Type}.
Variable t : Z -> Z -> unit -> Z -> S -> bool * S.
Variables (m : mem) (base src vd : Z) (addr : Z -> Z) (E : Z -> list (Z * unit)).
Hypothesis Hreg : region_at m base src vd addr (start_of E) E.

Local Abbreviation B := (num_blocks_of vd).
Local Abbreviation degree := (start_of E (num_blocks_of vd)).

Lemma decode_rest_unweighted_run es : forall finger ngh edgeID s,
  0 <= ngh -> increasing_from ngh es -> bytes_at m finger (rest_bytes ngh es) ->
  decode_rest_unweighted t (length es) m src finger ngh edgeID s =
    Some (run_block t src es edgeID s).
Proof.
  induction es as [|[n []] es IH]; intros finger ngh edgeID s Hn Hi Hb;
    cbn [increasing_from rest_bytes length decode_rest_unweighted run_block] in *;
    [done|].
  destruct Hi as (? & ? & Hi).
  destruct (read_edge m finger ngh n () _ ltac:(lia) ltac:(lia) ltac:(done) Hb)
    as (p1 & p2 & He & Hwr & Hw & Hb' & _).
  cbn in Hw. injection Hw as <-.
  rewrite He. cbn [mbind option_bind]. rewrite Hwr.
  destruct (t src n () edgeID s) as [[] s']; [|done].
  apply IH; [lia|done|done].
Qed.

Lemma decode_chunk_unweighted_run i s :
  0 <= i < B ->
  decode_chunk_unweighted t m base src degree B i s =
    Some (run_block t src (E i) (start_of E i) s).
Proof.
  intros Hi. unfold decode_chunk_unweighted.
  rewrite (region_finger _ _ _ _ _ _ _ _ Hreg) by done.
  rewrite (region_start _ _ _ _ _ _ _ _ Hreg) by done.
  rewrite (region_end_start _ _ _ _ _ _ Hreg) by done.
  rewrite start_of_succ by lia.
  pose proof (region_block_ok _ _ _ _ _ _ _ Hreg i Hi) as Hok.
  pose proof (region_degree_lt _ _ _ _ _ _ _ Hreg) as Hdeg.
  pose proof (start_of_mono E (i + 1) B ltac:(lia)) as Hmono.
  rewrite start_of_succ in Hmono by lia.
  pose proof (start_of_nonneg E i).
  destruct Hreg as (Hsrc & _ & _ & _ & _ & _ & _ & Hblk & _).
  destruct (Hblk i Hi) as (_ & Hbytes & _).
  destruct (E i) as [|[n []] es] eqn:HE.
  - cbn [length]. replace (_ <? _) with false by bool_lia. done.
  - cbn [length] in *. replace (_ <? _) with true by bool_lia.
    cbn [edges_ok increasing_from chunk_bytes] in Hok, Hbytes.
    destruct Hok as (Hn & Hw & Hok).
    destruct (read_first m (addr i + 4) src n () _ Hsrc ltac:(lia) Hw Hbytes)
      as (p1 & p2 & He & Hew & Hb' & _).
    cbn in Hew. injection Hew as <-.
    unfold sizeof_uintE. rewrite He. cbn [mbind option_bind run_block].
    destruct (t src n () (start_of E i) s) as [[] s']; [|done].
    rewrite wrap32_id by lia.
    replace (Z.to_nat _) with (length es) by lia.
    apply decode_rest_unweighted_run; [lia|done|done].
Qed.

Lemma decode_later_chunks_run n : forall i s,
  0 <= i -> i + Z.of_nat n <= B ->
  decode_later_chunks t n m base src degree B i s =
    Some (run_each_block t src E n i s).
Proof.
  induction n as [|n IH]; intros i s Hi Hn; [done|].
  cbn [decode_later_chunks run_each_block].
  rewrite decode_chunk_unweighted_run by lia. cbn [mbind option_bind].
  apply IH; lia.
Qed.

(** The unweighted [decode] stops for good on a [false] in block 0 and
    leaves only the block on a [false] in a later block. *)
Lemma decode_unweighted_region parallel s :
  decode_unweighted t m base src degree parallel s =
    Some (if 0 <? degree then run_first_then_each t src E (nblocks vd) s else s).
Proof.
  unfold decode_unweighted. destruct (0 <? degree); [|done].
  pose proof (region_B _ _ _ _ _ _ _ _ Hreg) as [_ HB].
  destruct Hreg as (_ & _ & Hvd & _). rewrite Hvd.
  rewrite decode_chunk_unweighted_run by lia. cbn [mbind option_bind].
  unfold nblocks.
  replace (Z.to_nat B) with (Datatypes.S (Z.to_nat (B - 1))) by lia.
  cbn [run_first_then_each]. rewrite start_of_0.
  destruct (run_block t src (E 0) 0 s) as [[] s']; [|done].
  assert (forall b : bool,
    (if b then decode_later_chunks t (Z.to_nat (B - 1)) m base src degree B 1 s'
     else decode_later_chunks t (Z.to_nat (B - 1)) m base src degree B 1 s')
    = decode_later_chunks t (Z.to_nat (B - 1)) m base src degree B 1 s') as Hif
    by (by intros []).
  rewrite Hif. apply decode_later_chunks_run; lia.
Qed.

End decode_region_unweighted.

(** ** The encoder builds a region *)

Section chunking.
Context {W : Type} {HW : Weight W} {HWok : WeightOk W}.
Implicit Types (es : list (Z * W)).

Lemma chunk_of_length es i :
  0 <= i ->
  Z.of_nat (length (chunk_of es i)) =
    Z.max 0 (Z.min PARALLEL_DEGREE (Z.of_nat (length es) - i * PARALLEL_DEGREE)).
Proof.
  intros Hi. unfold chunk_of, PARALLEL_DEGREE.
  rewrite length_take, length_drop. lia.
Qed.

Lemma flat_chunk_of es n :
  flat (chunk_of es) n = firstn (n * Z.to_nat PARALLEL_DEGREE) es.
Proof.
  induction n as [|n IH]; [done|].
  cbn [flat]. rewrite IH. unfold chunk_of.
  replace (Z.to_nat (Z.of_nat n * PARALLEL_DEGREE))
    with (n * Z.to_nat PARALLEL_DEGREE)%nat by (unfold PARALLEL_DEGREE; lia).
  rewrite take_take_drop. f_equal. lia.
Qed.

Lemma edges_of_chunk_of es :
  es <> [] -> Z.of_nat (length es) < 2 ^ 32 ->
  edges_of (Z.of_nat (length es)) (chunk_of es) = es.
Proof.
  intros Hne Hlen. unfold edges_of, nblocks. rewrite flat_chunk_of.
  apply take_ge.
  assert (0 < length es)%nat by (destruct es; [done|simpl; lia]).
  destruct (num_blocks_of_pos (Z.of_nat (length es)) ltac:(lia)) as [-> _].
  unfold PARALLEL_DEGREE.
  pose proof (Z.div_mod (Z.of_nat (length es) - 1) 1000 ltac:(lia)).
  pose proof (Z.mod_pos_bound (Z.of_nat (length es) - 1) 1000 ltac:(lia)).
  pose proof (Z.div_pos (Z.of_nat (length es) - 1) 1000 ltac:(lia) ltac:(lia)).
  lia.
Qed.

Lemma start_of_chunk_of es i :
  0 <= i -> i * PARALLEL_DEGREE <= Z.of_nat (length es) ->
  start_of (chunk_of es) i = i * PARALLEL_DEGREE.
Proof.
  intros Hi Hle. unfold start_of. rewrite flat_chunk_of, length_take.
  unfold PARALLEL_DEGREE in *. lia.
Qed.

Lemma layout_addr_lower src (E : Z -> list (Z * W)) first n :
  first + 4 * Z.of_nat n <= layout_addr src E first n.
Proof. induction n as [|n IH]; cbn [layout_addr]; lia. Qed.

Lemma addr_of_0 src (E : Z -> list (Z * W)) first : addr_of src E first 0 = first.
Proof. done. Qed.

Lemma addr_of_succ src (E : Z -> list (Z * W)) first i :
  0 <= i ->
  addr_of src E first (i + 1) =
    addr_of src E first i + 4 + Z.of_nat (length (chunk_bytes src (E i))).
Proof.
  intros Hi. unfold addr_of.
  replace (Z.to_nat (i + 1)) with (S (Z.to_nat i)) by lia.
  cbn [layout_addr]. by rewrite Z2Nat.id.
Qed.

Lemma addr_of_mono src (E : Z -> list (Z * W)) first i j :
  0 <= i <= j -> addr_of src E first i + 4 * (j - i) <= addr_of src E first j.
Proof.
  intros Hij. replace j with (i + Z.of_nat (Z.to_nat (j - i))) by lia.
  induction (Z.to_nat (j - i)) as [|k IH];
    [replace (i + Z.of_nat 0) with i by lia; lia|].
  replace (i + Z.of_nat (S k)) with (i + Z.of_nat k + 1) by lia.
  rewrite addr_of_succ by lia. lia.
Qed.

(** The inner loop of the encoder writes the rest of a block. *)
Lemma compress_block_rest_bytes c : forall cur rest m edgeArray off last,
  0 <= last -> increasing_from last c ->
  compress_block_rest (length c) m edgeArray off last (cur :: c ++ rest) =
    (write_bytes m (edgeArray + off) (rest_bytes last c),
     off + Z.of_nat (length (rest_bytes last c)),
     skipn (length c) (cur :: c ++ rest)).
Proof.
  induction c as [|[n w] c IH]; intros cur rest m edgeArray off last Hl Hi;
    cbn [compress_block_rest length rest_bytes increasing_from] in *.
  - cbn. by rewrite Z.add_0_r.
  - destruct Hi as (Hn & Hw & Hi).
    cbn [it_next tl hd app fst snd].
    rewrite wrap32_id by lia.
    rewrite compressEdge_bytes by lia.
    rewrite compressWeight_bytes by done.
    rewrite IH by (lia || done).
    rewrite !write_bytes_app, !length_app. cbn [skipn app].
    addr_eq.
Qed.

End chunking.

Section encoder.
Context {W : Type} {HW : Weight W} {HWok : WeightOk W}.
Implicit Types (es : list (Z * W)).

Lemma tl_skipn {A} (l : list A) k : tl (skipn k l) = skipn (S k) l.
Proof.
  revert l. induction k as [|k IH]; intros [|x l]; try done.
  apply (IH l).
Qed.

(** the edges from position [i * P] on start with block [i] *)
Lemma skipn_chunk es i :
  0 <= i -> i * PARALLEL_DEGREE < Z.of_nat (length es) -> edges_ok es ->
  exists n0 w0 c' rest,
    skipn (Z.to_nat (i * PARALLEL_DEGREE)) es = (n0, w0) :: c' ++ rest /\
    chunk_of es i = (n0, w0) :: c' /\
    0 <= n0 < 2 ^ 32 /\ weight_ok w0 /\ increasing_from n0 c' /\
    Z.of_nat (length c') =
      Z.min PARALLEL_DEGREE (Z.of_nat (length es) - i * PARALLEL_DEGREE) - 1.
Proof.
  intros Hi Hlt Hok. unfold chunk_of.
  pose proof (increasing_from_skipn (Z.to_nat (i * PARALLEL_DEGREE)) es (-1) Hok) as Hrem.
  pose proof (length_drop es (Z.to_nat (i * PARALLEL_DEGREE))) as Hlen.
  destruct (skipn (Z.to_nat (i * PARALLEL_DEGREE)) es) as [|[n0 w0] rem'];
    [cbn [length] in Hlen; unfold PARALLEL_DEGREE in *; lia|].
  cbn [increasing_from] in Hrem. destruct Hrem as (Hn0 & Hw0 & Hrem).
  exists n0, w0, (firstn (Z.to_nat PARALLEL_DEGREE - 1) rem'),
    (skipn (Z.to_nat PARALLEL_DEGREE - 1) rem').
  rewrite take_drop.
  split; [done|]. split; [done|]. split; [lia|]. split; [done|].
  split; [by apply increasing_from_firstn|].
  rewrite length_take. cbn [length] in Hlen. unfold PARALLEL_DEGREE in *. lia.
Qed.

Lemma compress_blocks_step n m edgeArray off src es i :
  is_uintE src -> edges_ok es -> 0 <= i ->
  i * PARALLEL_DEGREE < Z.of_nat (length es) ->
  exists it',
    compress_blocks (S n) m edgeArray 0 off (Z.of_nat (length es)) src i
      (skipn (Z.to_nat (i * PARALLEL_DEGREE - 1)) es) =
    compress_blocks n
      (write_bytes
         (store32 (if 0 <? i then set_block_offset m edgeArray (i - 1) (off - 0) else m)
                  (edgeArray + off) (i * PARALLEL_DEGREE))
         (edgeArray + off + 4) (chunk_bytes src (chunk_of es i)))
      edgeArray 0 (off + 4 + Z.of_nat (length (chunk_bytes src (chunk_of es i))))
      (Z.of_nat (length es)) src (i + 1) it' /\
    ((i + 1) * PARALLEL_DEGREE < Z.of_nat (length es) ->
     it' = skipn (Z.to_nat ((i + 1) * PARALLEL_DEGREE - 1)) es).
Proof.
  intros Hsrc Hok Hi Hlt.
  destruct (skipn_chunk es i Hi Hlt Hok)
    as (n0 & w0 & c' & rest & Hrem & Hc & Hn0 & Hw0 & Hc' & Hlen).
  exists (skipn (length c') ((n0, w0) :: c' ++ rest)).
  split.
  - cbn [compress_blocks].
    assert (tl (skipn (Z.to_nat (i * PARALLEL_DEGREE - 1)) es)
            = skipn (Z.to_nat (i * PARALLEL_DEGREE)) es \/ i = 0) as Htl.
    { destruct (Z.eq_dec i 0); [by right|left]. rewrite tl_skipn. f_equal.
      unfold PARALLEL_DEGREE. lia. }
    destruct (Z.eqb_spec i 0) as [Hi0|Hne].
    + assert (skipn (Z.to_nat (i * PARALLEL_DEGREE - 1)) es = (n0, w0) :: c' ++ rest)
        as -> by (by rewrite <- Hrem, Hi0).
      cbn [it_cur hd fst snd]. unfold is_uintE in Hsrc.
      rewrite compress_sign_mag by lia.
      rewrite compressWeight_bytes by done.
      replace (Z.to_nat (Z.min PARALLEL_DEGREE
                 (Z.of_nat (length es) - i * PARALLEL_DEGREE) - 1))
        with (length c') by lia.
      rewrite compress_block_rest_bytes by (lia || done).
      rewrite Hc. cbn [chunk_bytes]. rewrite !write_bytes_app, !length_app.
      unfold sizeof_uintE. addr_eq.
    + destruct Htl as [Htl|]; [|done]. unfold it_next. rewrite Htl, Hrem.
      cbn [hd fst snd]. unfold is_uintE in Hsrc.
      rewrite compress_sign_mag by lia.
      rewrite compressWeight_bytes by done.
      replace (Z.to_nat (Z.min PARALLEL_DEGREE
                 (Z.of_nat (length es) - i * PARALLEL_DEGREE) - 1))
        with (length c') by lia.
      rewrite compress_block_rest_bytes by (lia || done).
      rewrite Hc. cbn [chunk_bytes]. rewrite !write_bytes_app, !length_app.
      unfold sizeof_uintE. addr_eq.
  - intros Hfull. rewrite <- Hrem, drop_drop. f_equal.
    unfold PARALLEL_DEGREE in *. lia.
Qed.

(** Writing block [k] after the blocks before it: the offset of the block,
    its start index and its edges. *)
Lemma written_step m base src vd es k :
  let B := 1 + (vd - 1) / PARALLEL_DEGREE in
  let addr := addr_of src (chunk_of es) (base + 4 * B) in
  1 <= vd -> edges_ok es -> addr B - base < 2 ^ 32 ->
  0 <= k < B -> 0 <= k * PARALLEL_DEGREE < 2 ^ 32 ->
  written m base src vd addr (chunk_of es) k ->
  written
    (write_bytes
       (store32 (if 0 <? k then set_block_offset m base (k - 1) (addr k - base) else m)
                (addr k) (k * PARALLEL_DEGREE))
       (addr k + 4) (chunk_bytes src (chunk_of es k)))
    base src vd addr (chunk_of es) (k + 1).
Proof.
  intros B addr Hvd Hok Hfit Hk HkP (Hdeg & Hoffs & Hblks).
  set (bytes := chunk_bytes src (chunk_of es k)).
  set (m1 := if 0 <? k then set_block_offset m base (k - 1) (addr k - base) else m).
  set (m2 := store32 m1 (addr k) (k * PARALLEL_DEGREE)).
  assert (addr 0 = base + 4 * B) as Ha0 by done.
  assert (forall i j, 0 <= i <= j -> addr i + 4 * (j - i) <= addr j) as Hmono
    by (intros; by apply addr_of_mono).
  assert (forall i, 0 <= i -> addr (i + 1) =
            addr i + 4 + Z.of_nat (length (chunk_bytes src (chunk_of es i)))) as Hsucc
    by (intros; by apply addr_of_succ).
  pose proof (Hmono 0 k ltac:(lia)) as Hk0.
  pose proof (Hmono k B ltac:(lia)) as HkB.
  pose proof (Z.div_pos (vd - 1) PARALLEL_DEGREE ltac:(lia) ltac:(done)) as HBpos.
  (* what the three writes leave alone *)
  assert (forall lo hi,
            (hi <= base + 4 * k \/ base + 4 * k + 4 <= lo \/ k = 0) ->
            (hi <= addr k \/ addr (k + 1) <= lo) ->
            same_on m (write_bytes m2 (addr k + 4) bytes) lo hi) as Hframe.
  { intros lo hi Hslot Hblk.
    apply same_on_trans with m2; [apply same_on_trans with m1|].
    - unfold m1. destruct (Z.ltb_spec 0 k); [|apply same_on_refl].
      apply same_on_store32. unfold sizeof_uintE. lia.
    - apply same_on_store32. rewrite Hsucc in Hblk by lia. lia.
    - apply same_on_write_bytes. rewrite Hsucc in Hblk by lia. fold bytes in Hblk. lia. }
  split; [|split].
  - rewrite (load32_frame m); [done|]. apply Hframe; unfold B in *; lia.
  - intros i Hi. unfold block_offsets_at, sizeof_uintE.
    destruct (Z.eq_dec i k) as [->|Hne].
    + rewrite (load32_frame m2)
        by (apply same_on_write_bytes; unfold B in *; lia).
      rewrite (load32_frame m1)
        by (apply same_on_store32; unfold B in *; lia).
      unfold m1. replace (0 <? k) with true by bool_lia.
      unfold set_block_offset, sizeof_uintE. rewrite load32_store32.
      apply wrap32_id. lia.
    + rewrite (load32_frame m); [apply Hoffs; lia|].
      apply Hframe; unfold B in *; lia.
  - intros i Hi. destruct (Z.eq_dec i k) as [->|Hne].
    + split.
      * rewrite (load32_frame m2) by (apply same_on_write_bytes; lia).
        unfold m2. rewrite load32_store32. by apply wrap32_id.
      * apply bytes_at_write. apply chunk_bytes_byte.
        unfold chunk_of. apply increasing_from_firstn, increasing_from_skipn. done.
    + destruct (Hblks i ltac:(lia)) as [Hst Hby].
      pose proof (Hmono (i + 1) k ltac:(lia)) as Hik.
      pose proof (Hmono 0 i ltac:(lia)) as H0i.
      rewrite Hsucc in Hik by lia.
      split.
      * rewrite (load32_frame m); [done|].
        apply Hframe; unfold B in *; lia.
      * eapply bytes_at_frame; [|done].
        apply Hframe; unfold B in *; lia.
Qed.

Lemma blocks_bound vd k :
  1 <= vd -> 0 <= k < 1 + (vd - 1) / PARALLEL_DEGREE -> k * PARALLEL_DEGREE < vd.
Proof.
  unfold PARALLEL_DEGREE. intros Hvd Hk.
  pose proof (Z.div_mod (vd - 1) 1000 ltac:(lia)).
  pose proof (Z.mod_pos_bound (vd - 1) 1000 ltac:(lia)). lia.
Qed.

Lemma compress_blocks_written src base es n : forall k m it,
  let vd := Z.of_nat (length es) in
  let B := 1 + (vd - 1) / PARALLEL_DEGREE in
  let addr := addr_of src (chunk_of es) (base + 4 * B) in
  is_uintE src -> edges_ok es -> 1 <= vd < 2 ^ 32 ->
  Z.of_nat n + k = B -> 0 <= k ->
  (n <> 0%nat -> it = skipn (Z.to_nat (k * PARALLEL_DEGREE - 1)) es) ->
  exists m',
    compress_blocks n m base 0 (addr k - base) vd src k it = (m', addr B - base) /\
    (addr B - base < 2 ^ 32 ->
     written m base src vd addr (chunk_of es) k ->
     written m' base src vd addr (chunk_of es) B).
Proof.
  intros k m it vd B addr Hsrc Hok Hvd. revert k m it.
  induction n as [|n IH]; intros k m it Hn Hk Hit.
  - exists m. assert (k = B) as -> by lia. split; [done|]. by intros _ ?.
  - pose proof (blocks_bound vd k ltac:(lia) ltac:(unfold B in *; lia)) as HkP.
    destruct (compress_blocks_step n m base (addr k - base) src es k
                Hsrc Hok Hk HkP) as (it' & Hstep & Hit').
    rewrite (Hit ltac:(done)). fold vd in Hstep. rewrite Hstep.
    replace (base + (addr k - base)) with (addr k) by lia.
    replace (addr k - base - 0) with (addr k - base) by lia.
    replace (addr k - base + 4 + Z.of_nat (length (chunk_bytes src (chunk_of es k))))
      with (addr (k + 1) - base)
      by (unfold addr; rewrite addr_of_succ by lia; lia).
    edestruct (IH (k + 1)) as (m' & Hres & Hinv); [lia | lia | |].
    + intros Hn0. apply Hit'.
      apply (blocks_bound vd (k + 1)); unfold B in *; lia.
    + exists m'. split; [exact Hres|]. intros Hfit Hw. apply Hinv; [done|].
      apply written_step; try done; unfold PARALLEL_DEGREE in *; lia.
Qed.

(** The encoder leaves a region that holds the list, block [i] holding the
    edges [i * P ..]; it returns the offset of the end of the region. *)
(** A region written block by block in the encoder's layout is a region
    that holds the list. *)
Lemma written_region m base src es :
  let vd := Z.of_nat (length es) in
  let B := 1 + (vd - 1) / PARALLEL_DEGREE in
  let addr := addr_of src (chunk_of es) (base + 4 * B) in
  is_uintE src -> edges_ok es -> es <> [] -> vd < 2 ^ 32 ->
  addr B - base < 2 ^ 32 ->
  written m base src vd addr (chunk_of es) B ->
  region_at m base src vd addr (start_of (chunk_of es)) (chunk_of es).
Proof.
  intros vd B addr Hsrc Hok Hne Hvd Hfit (Hdeg & Hoffs & Hblks).
  assert (1 <= vd) as Hvd1 by (unfold vd; destruct es; [done|cbn [length]; lia]).
  destruct (num_blocks_of_pos vd ltac:(lia)) as [HB _].
  change (1 + (vd - 1) / 1000) with B in HB.
  unfold region_at, region_gen. rewrite HB.
  split; [done|]. split; [lia|]. split; [done|].
  split; [apply addr_of_0|]. split; [fold addr; lia|].
  split; [intros i Hi; fold addr; unfold addr; rewrite addr_of_succ by lia; lia|].
  split; [done|].
  split.
  - intros i Hi. destruct (Hblks i Hi) as [Hst Hby].
    pose proof (blocks_bound vd i ltac:(lia) ltac:(unfold B in *; lia)) as HiP.
    split; [|split; [done|split]].
    + fold addr. rewrite Hst. symmetry. apply start_of_chunk_of; [lia|]. fold vd. lia.
    + fold addr. unfold addr. rewrite addr_of_succ by lia. lia.
    + rewrite chunk_of_length by lia. unfold PARALLEL_DEGREE. lia.
  - unfold vd. rewrite edges_of_chunk_of by done. done.
Qed.

(** every edge takes at least one octet: the blocks end after the edges *)
Lemma addr_of_edges src base0 es k :
  edges_ok es -> 0 <= k ->
  start_of (chunk_of es) k + 4 * k
  <= addr_of src (chunk_of es) base0 k - base0.
Proof.
  intros Hok Hk. replace k with (Z.of_nat (Z.to_nat k)) by lia.
  induction (Z.to_nat k) as [|n IHn].
  - change (Z.of_nat 0) with 0. rewrite start_of_0, addr_of_0. lia.
  - replace (Z.of_nat (S n)) with (Z.of_nat n + 1) by lia.
    rewrite start_of_succ, addr_of_succ by lia.
    assert (edges_ok (chunk_of es (Z.of_nat n))) as Hc
      by (unfold chunk_of; by apply increasing_from_firstn, increasing_from_skipn).
    pose proof (chunk_bytes_length_ge src _ Hc). lia.
Qed.

Lemma start_of_chunk_of_all es :
  es <> [] ->
  start_of (chunk_of es) (1 + (Z.of_nat (length es) - 1) / PARALLEL_DEGREE)
  = Z.of_nat (length es).
Proof.
  intros Hne.
  assert (1 <= Z.of_nat (length es)) by (destruct es; [done|cbn [length]; lia]).
  unfold start_of. rewrite flat_chunk_of, length_take.
  pose proof (Z.div_mod (Z.of_nat (length es) - 1) 1000 ltac:(lia)).
  pose proof (Z.mod_pos_bound (Z.of_nat (length es) - 1) 1000 ltac:(lia)).
  pose proof (Z.div_pos (Z.of_nat (length es) - 1) 1000 ltac:(lia) ltac:(lia)).
  unfold PARALLEL_DEGREE in *. lia.
Qed.

(** the offset the encoder returns, whatever the size of the list *)
Lemma compress_blocks_offset src base es n : forall k m it,
  let vd := Z.of_nat (length es) in
  let B := 1 + (vd - 1) / PARALLEL_DEGREE in
  let addr := addr_of src (chunk_of es) (base + 4 * B) in
  is_uintE src -> edges_ok es -> 1 <= vd ->
  Z.of_nat n + k = B -> 0 <= k ->
  (n <> 0%nat -> it = skipn (Z.to_nat (k * PARALLEL_DEGREE - 1)) es) ->
  snd (compress_blocks n m base 0 (addr k - base) vd src k it) = addr B - base.
Proof.
  intros k m it vd B addr Hsrc Hok Hvd. revert k m it.
  induction n as [|n IH]; intros k m it Hn Hk Hit.
  - assert (k = B) as -> by lia. done.
  - pose proof (blocks_bound vd k ltac:(lia) ltac:(unfold B in *; lia)) as HkP.
    destruct (compress_blocks_step n m base (addr k - base) src es k
                Hsrc Hok Hk HkP) as (it' & Hstep & Hit').
    rewrite (Hit ltac:(done)). fold vd in Hstep. rewrite Hstep.
    replace (addr k - base + 4 + Z.of_nat (length (chunk_bytes src (chunk_of es k))))
      with (addr (k + 1) - base)
      by (unfold addr; rewrite addr_of_succ by lia; lia).
    apply IH; [lia | lia |].
    intros Hn0. apply Hit'.
    apply (blocks_bound vd (k + 1)); unfold B in *; lia.
Qed.

(** The encoder leaves a region that holds the list, block [i] holding the
    edges [i * P ..]; it returns the offset of the end of the region. *)
Lemma encoder_region m0 base src es m off :
  is_uintE src -> edges_ok es -> es <> [] ->
  sequentialCompressEdgeSet m0 base 0 (Z.of_nat (length es)) src es = (m, off) ->
  off < 2 ^ 32 ->
  region_at m base src (Z.of_nat (length es))
    (addr_of src (chunk_of es)
       (base + 4 * (1 + (Z.of_nat (length es) - 1) / PARALLEL_DEGREE)))
    (start_of (chunk_of es)) (chunk_of es) /\
  Z.of_nat (length es) < 2 ^ 32 /\
  off = addr_of src (chunk_of es)
          (base + 4 * (1 + (Z.of_nat (length es) - 1) / PARALLEL_DEGREE))
          (1 + (Z.of_nat (length es) - 1) / PARALLEL_DEGREE) - base.
Proof.
  intros Hsrc Hok Hne Henc Hfit.
  pose proof (start_of_chunk_of_all es Hne) as Hall.
  set (vd := Z.of_nat (length es)) in *.
  set (B := 1 + (vd - 1) / PARALLEL_DEGREE) in *.
  set (addr := addr_of src (chunk_of es) (base + 4 * B)).
  assert (1 <= vd) as Hvd1 by (unfold vd; destruct es; [done|cbn [length]; lia]).
  pose proof (Z.div_pos (vd - 1) PARALLEL_DEGREE ltac:(lia) ltac:(done)) as HBpos.
  pose proof (addr_of_edges src (base + 4 * B) es B Hok ltac:(lia)) as Hlow.
  fold addr in Hlow. rewrite Hall in Hlow.
  unfold sequentialCompressEdgeSet in Henc. fold vd in Henc. fold B in Henc.
  replace (0 <? vd) with true in Henc by bool_lia.
  replace (0 + (sizeof_uintE + (B - 1) * sizeof_uintE))
    with (addr 0 - base) in Henc
    by (unfold addr; rewrite addr_of_0; unfold sizeof_uintE; lia).
  assert (off = addr B - base) as Hoff.
  { pose proof (compress_blocks_offset src base es (Z.to_nat B) 0
                  (store32 m0 base vd) es Hsrc Hok ltac:(fold vd; lia)
                  ltac:(fold vd; fold B; lia) ltac:(lia) ltac:(by intros _)) as Hsnd.
    fold vd B addr in Hsnd. by rewrite Henc in Hsnd. }
  assert (vd < 2 ^ 32) as Hvd by lia.
  split; [|split; [done|done]].
  apply written_region; try done; fold vd B addr; [lia|].
  destruct (compress_blocks_written src base es (Z.to_nat B) 0
              (store32 m0 base vd) es Hsrc Hok ltac:(fold vd; lia)
              ltac:(fold vd; fold B; lia) ltac:(lia) ltac:(by intros _))
    as (m' & Hres & Hinv).
  fold vd B addr in Hres, Hinv. rewrite Hres in Henc.
  injection Henc as <- _. apply Hinv; [lia|].
  split; [|split]; [| intros; lia | intros; lia].
  rewrite load32_store32. apply wrap32_id. lia.
Qed.

End encoder.

(** ** The recording callback *)

Section collecting.
Context {W : Type} {HW : Weight W} {HWok : WeightOk W}.
Implicit Types (es : list (Z * W)) (E : Z -> list (Z * W)).

Lemma calls_of_app src es1 : forall es2 i,
  calls_of src (es1 ++ es2) i =
  calls_of src es1 i ++ calls_of src es2 (i + Z.of_nat (length es1)).
Proof.
  induction es1 as [|[n w] es1 IH]; intros es2 i; cbn [calls_of app length].
  - by rewrite Z.add_0_r.
  - rewrite IH. do 3 f_equal. lia.
Qed.

Lemma run_block_collect src es : forall i s,
  run_block collect src es i s = (true, s ++ calls_of src es i).
Proof.
  induction es as [|[n w] es IH]; intros i s; cbn [run_block calls_of collect].
  - by rewrite app_nil_r.
  - rewrite IH. by rewrite <- app_assoc.
Qed.

Lemma run_until_false_collect src E n : forall i s0,
  0 <= i ->
  run_until_false collect src E n i (s0 ++ calls_of src (flat E (Z.to_nat i)) 0) =
  s0 ++ calls_of src (flat E (Z.to_nat i + n)) 0.
Proof.
  induction n as [|n IH]; intros i s0 Hi; cbn [run_until_false].
  - by rewrite Nat.add_0_r.
  - rewrite run_block_collect.
    replace (Z.to_nat i + S n)%nat with (Z.to_nat (i + 1) + n)%nat by lia.
    rewrite <- IH by lia. f_equal.
    replace (Z.to_nat (i + 1)) with (S (Z.to_nat i)) by lia.
    cbn [flat]. rewrite calls_of_app, Z2Nat.id by lia.
    rewrite <- app_assoc. do 2 f_equal.
Qed.

Lemma run_each_block_collect src E n : forall i s0,
  0 <= i ->
  run_each_block collect src E n i (s0 ++ calls_of src (flat E (Z.to_nat i)) 0) =
  s0 ++ calls_of src (flat E (Z.to_nat i + n)) 0.
Proof.
  induction n as [|n IH]; intros i s0 Hi; cbn [run_each_block].
  - by rewrite Nat.add_0_r.
  - rewrite run_block_collect. cbn [snd].
    replace (Z.to_nat i + S n)%nat with (Z.to_nat (i + 1) + n)%nat by lia.
    rewrite <- IH by lia. f_equal.
    replace (Z.to_nat (i + 1)) with (S (Z.to_nat i)) by lia.
    cbn [flat]. rewrite calls_of_app, Z2Nat.id by lia.
    rewrite <- app_assoc. do 2 f_equal.
Qed.

Lemma run_first_then_each_collect src E n s0 :
  run_first_then_each collect src E n s0 = s0 ++ calls_of src (flat E n) 0.
Proof.
  destruct n as [|n]; cbn [run_first_then_each]; [by rewrite app_nil_r|].
  rewrite run_block_collect.
  pose proof (run_each_block_collect src E n 1 s0 ltac:(lia)) as Hrun.
  change (Z.to_nat 1) with 1%nat in Hrun. cbn [flat app Nat.add] in Hrun.
  exact Hrun.
Qed.

End collecting.

(** ** Codec round trip *)

(** C1. Codec round-trip: for every source vertex, every strictly
    increasing neighbour sequence and every matching weight sequence (unit
    weights, or signed 32-bit weights) whose code fits the 32-bit block
    offsets, encoding the list with [sequentialCompressEdgeSet] and then
    running [decode] with the recording callback invokes the callback exactly
    once per edge, the i-th invocation receiving
    [(src, nghs[i], weights[i], i)]. *)
Theorem codec_round_trip :
  (forall (m0 : mem) (edgeArray src : Z) (es : list (Z * unit)) (parallel : bool),
     is_uintE src -> edges_ok es ->
     snd (sequentialCompressEdgeSet m0 edgeArray 0 (Z.of_nat (length es)) src es)
       < 2 ^ 32 ->
     decode_unweighted collect
       (fst (sequentialCompressEdgeSet m0 edgeArray 0 (Z.of_nat (length es)) src es))
       edgeArray src (Z.of_nat (length es)) parallel []
     = Some (calls_of src es 0)) /\
  (forall (m0 : mem) (edgeArray src : Z) (es : list (Z * Z)) (par : bool),
     is_uintE src -> edges_ok es ->
     snd (sequentialCompressEdgeSet m0 edgeArray 0 (Z.of_nat (length es)) src es)
       < 2 ^ 32 ->
     decode collect
       (fst (sequentialCompressEdgeSet m0 edgeArray 0 (Z.of_nat (length es)) src es))
       edgeArray src (Z.of_nat (length es)) par []
     = Some (calls_of src es 0)).
Proof.
  split; intros m0 edgeArray src es par Hsrc Hok Hfit.
  - destruct es as [|e es']; [done|]. set (es := e :: es') in *.
    destruct (sequentialCompressEdgeSet m0 edgeArray 0 (Z.of_nat (length es)) src es)
      as [m off] eqn:Henc. cbn [fst snd] in *.
    destruct (encoder_region m0 edgeArray src es m off Hsrc Hok ltac:(done) Henc Hfit)
      as (Hreg & Hlen & _).
    pose proof (decode_unweighted_region collect _ _ _ _ _ _ Hreg par []) as Hdec.
    rewrite <- length_edges_of, edges_of_chunk_of in Hdec by done.
    rewrite Hdec. replace (0 <? Z.of_nat (length es)) with true
      by (unfold es; cbn [length]; bool_lia).
    rewrite run_first_then_each_collect. cbn [app].
    f_equal. f_equal. by apply edges_of_chunk_of.
  - destruct es as [|e es']; [done|]. set (es := e :: es') in *.
    destruct (sequentialCompressEdgeSet m0 edgeArray 0 (Z.of_nat (length es)) src es)
      as [m off] eqn:Henc. cbn [fst snd] in *.
    destruct (encoder_region m0 edgeArray src es m off Hsrc Hok ltac:(done) Henc Hfit)
      as (Hreg & Hlen & _).
    pose proof (decode_region collect _ _ _ _ _ _ Hreg par []) as Hdec.
    rewrite <- length_edges_of, edges_of_chunk_of in Hdec by done.
    rewrite Hdec. replace (0 <? Z.of_nat (length es)) with true
      by (unfold es; cbn [length]; bool_lia).
    pose proof (run_until_false_collect src (chunk_of es)
                  (nblocks (Z.of_nat (length es))) 0 [] ltac:(lia)) as Hrun.
    cbn [app flat Nat.add] in Hrun. change (Z.to_nat 0) with 0%nat in Hrun.
    cbn [app flat Nat.add calls_of] in Hrun. rewrite Hrun.
    f_equal. f_equal. by apply edges_of_chunk_of.
Qed.

Lemma codec_round_trip_witness :
  decode_unweighted collect
    (fst (sequentialCompressEdgeSet zero_mem 0 0 4 0
            [(3, tt); (7, tt); (7 + 2 ^ 15, tt); (7 + 2 ^ 15 + 1, tt)]))
    0 0 4 true []
  = Some [(0, 3, tt, 0); (0, 7, tt, 1); (0, 7 + 2 ^ 15, tt, 2);
          (0, 7 + 2 ^ 15 + 1, tt, 3)].
Proof.
  apply (proj1 codec_round_trip zero_mem 0 0
           [(3, tt); (7, tt); (7 + 2 ^ 15, tt); (7 + 2 ^ 15 + 1, tt)] true).
  - unfold is_uintE. lia.
  - vm_compute. repeat split; congruence.
  - vm_compute. reflexivity.
Defined.

(** ** Sizes: dropping edges never makes a block longer *)

Lemma varint_length_step n x :
  0 <= x ->
  length (varint (S n) x) = if x <? 128 then 1%nat else S (length (varint n (x / 128))).
Proof.
  intros Hx. cbn [varint].
  destruct (Z.eqb_spec (x / 128) 0) as [Hz|Hnz]; destruct (Z.ltb_spec x 128);
    try done.
  - exfalso. clear -Hx Hz H. Z.to_euclidean_division_equations. lia.
  - exfalso. clear -Hx Hnz H. Z.to_euclidean_division_equations. lia.
Qed.

Lemma edge_bytes_len e :
  0 <= e < 2 ^ 35 -> Z.of_nat (length (edge_bytes e)) = edge_len e.
Proof.
  intros He. unfold edge_bytes, edge_len.
  destruct (Z.eqb_spec e 0) as [->|Hne]; [done|].
  replace (e <=? 0) with false by bool_lia.
  assert (forall y, 0 <= y -> 0 <= y / 128) as Hdiv by (intros; apply Z.div_pos; lia).
  rewrite !varint_length_step by (repeat apply Hdiv; lia).
  change (length (varint 0 (e / 128 / 128 / 128 / 128 / 128))) with 0%nat.
  change (2 ^ 7) with 128. change (2 ^ 14) with 16384.
  change (2 ^ 21) with 2097152. change (2 ^ 28) with 268435456.
  change (2 ^ 35) with 34359738368 in He. clear Hdiv.
  cases_lia.
Qed.

Lemma sign_mag_bytes_len neg d :
  0 <= d < 2 ^ 32 -> Z.of_nat (length (sign_mag_bytes neg d)) = first_len d.
Proof.
  intros Hd. unfold sign_mag_bytes, first_len. cbn [length].
  change (2 ^ 6) with 64. change (2 ^ 13) with 8192.
  change (2 ^ 20) with 1048576. change (2 ^ 27) with 134217728.
  change (2 ^ 32) with 4294967296 in Hd.
  destruct (Z.eqb_spec (d / 64) 0) as [Hz|Hnz].
  - replace (d <? 64) with true; [done|].
    symmetry. apply Z.ltb_lt. clear -Hd Hz. Z.to_euclidean_division_equations. lia.
  - replace (d <? 64) with false
      by (symmetry; apply Z.ltb_ge; clear -Hd Hnz;
          Z.to_euclidean_division_equations; lia).
    assert (0 < d / 64 < 2 ^ 35) as Hq.
    { change (2 ^ 35) with 34359738368. clear -Hd Hnz.
      Z.to_euclidean_division_equations. lia. }
    pose proof (edge_bytes_len (d / 64) ltac:(lia)) as Hl.
    unfold edge_bytes in Hl. replace (d / 64 =? 0) with false in Hl by bool_lia.
    rewrite Nat2Z.inj_succ, Hl. unfold edge_len.
    replace (d / 64 <=? 0) with false by bool_lia.
    change (2 ^ 7) with 128. change (2 ^ 14) with 16384.
    change (2 ^ 21) with 2097152. change (2 ^ 28) with 268435456.
    clear Hl Hq. cases_lia.
Qed.

Lemma edge_len_add a b :
  0 <= a -> 0 <= b -> edge_len (a + b) <= edge_len a + edge_len b.
Proof.
  intros Ha Hb. unfold edge_len.
  change (2 ^ 7) with 128. change (2 ^ 14) with 16384.
  change (2 ^ 21) with 2097152. change (2 ^ 28) with 268435456.
  cases_lia.
Qed.

Lemma first_len_add d d' delta :
  0 <= d -> 0 <= delta -> 0 <= d' <= d + delta ->
  first_len d' <= first_len d + edge_len delta.
Proof.
  intros Hd Hdl Hd'. unfold first_len, edge_len.
  change (2 ^ 7) with 128. change (2 ^ 14) with 16384.
  change (2 ^ 21) with 2097152. change (2 ^ 28) with 268435456.
  change (2 ^ 6) with 64. change (2 ^ 13) with 8192.
  change (2 ^ 20) with 1048576. change (2 ^ 27) with 134217728.
  cases_lia.
Qed.

Section sizes.
Context {W : Type} {HW : Weight W} {HWok : WeightOk W}.
Implicit Types (es : list (Z * W)).

(** measuring from an earlier neighbour costs at most the octets of the
    difference *)
Lemma rest_bytes_rebase es last n :
  0 <= last <= n -> increasing_from n es ->
  Z.of_nat (length (rest_bytes last es))
  <= edge_len (n - last) + Z.of_nat (length (rest_bytes n es)).
Proof.
  intros Hl Hi. destruct es as [|[n' w'] es];
    cbn [rest_bytes increasing_from length] in *.
  - unfold edge_len. cases_lia.
  - destruct Hi as (Hn' & _ & _). rewrite !length_app, !Nat2Z.inj_add.
    rewrite !edge_bytes_len by (change (2 ^ 35) with 34359738368; lia).
    pose proof (edge_len_add (n' - n) (n - last) ltac:(lia) ltac:(lia)) as Hadd.
    replace (n' - n + (n - last)) with (n' - last) in Hadd by lia. lia.
Qed.

Lemma rest_bytes_keep pred src es : forall last,
  0 <= last -> increasing_from last es ->
  Z.of_nat (length (rest_bytes last (keep pred src es)))
  <= Z.of_nat (length (rest_bytes last es)).
Proof.
  induction es as [|[n w] es IH]; intros last Hl Hi;
    cbn [keep List.filter rest_bytes increasing_from fst snd] in *; [done|].
  destruct Hi as (Hn & Hw & Hi). specialize (IH n ltac:(lia) Hi).
  fold (keep pred src es) in *.
  destruct (pred src n w); cbn [rest_bytes].
  - rewrite !length_app, !Nat2Z.inj_add. lia.
  - pose proof (rest_bytes_rebase (keep pred src es) last n ltac:(lia)
                  (increasing_from_keep pred src es n Hi)) as Hre.
    rewrite !length_app, !Nat2Z.inj_add.
    rewrite edge_bytes_len by (change (2 ^ 35) with 34359738368; lia). lia.
Qed.

Lemma chunk_bytes_rebase src es n :
  is_uintE src -> 0 <= n -> increasing_from n es ->
  Z.of_nat (length (chunk_bytes src es))
  <= first_len (Z.abs (n - src)) + Z.of_nat (length (rest_bytes n es)).
Proof.
  unfold is_uintE. intros Hs Hn Hi. destruct es as [|[n' w'] es];
    cbn [chunk_bytes rest_bytes increasing_from length] in *.
  - unfold first_len. cases_lia.
  - destruct Hi as (Hn' & _ & _). rewrite !length_app, !Nat2Z.inj_add.
    unfold first_bytes.
    rewrite sign_mag_bytes_len by lia.
    rewrite edge_bytes_len by (change (2 ^ 35) with 34359738368; lia).
    pose proof (first_len_add (Z.abs (n - src)) (Z.abs (n' - src)) (n' - n)
                  ltac:(lia) ltac:(lia) ltac:(lia)). lia.
Qed.

(** Dropping edges from a block never makes its code longer. *)
Lemma chunk_bytes_keep pred src es :
  is_uintE src -> edges_ok es ->
  Z.of_nat (length (chunk_bytes src (keep pred src es)))
  <= Z.of_nat (length (chunk_bytes src es)).
Proof.
  unfold is_uintE. intros Hs.
  induction es as [|[n w] es IH]; intros Hi;
    cbn [keep List.filter chunk_bytes edges_ok increasing_from fst snd] in *; [done|].
  destruct Hi as (Hn & Hw & Hi). fold (keep pred src es) in *.
  pose proof (rest_bytes_keep pred src es n ltac:(lia) Hi) as Hrest.
  destruct (pred src n w); cbn [chunk_bytes].
  - rewrite !length_app, !Nat2Z.inj_add. lia.
  - pose proof (chunk_bytes_rebase src (keep pred src es) n Hs ltac:(lia)
                  (increasing_from_keep pred src es n Hi)) as Hre.
    rewrite !length_app, !Nat2Z.inj_add. unfold first_bytes.
    rewrite sign_mag_bytes_len by lia. lia.
Qed.

End sizes.

(** ** pack, block by block *)

Section pack_block.
Context {W : Type} {HW : Weight W} {HWok : WeightOk W}.
Implicit Types (es : list (Z * W)) (E : Z -> list (Z * W)).
Variable pred : Z -> Z -> W -> bool.

Lemma pack_filter_rest_keep es : forall m src finger ngh tmp,
  0 <= ngh -> increasing_from ngh es -> bytes_at m finger (rest_bytes ngh es) ->
  pack_filter_rest pred (length es) m src finger ngh tmp =
    Some (tmp ++ keep pred src es).
Proof.
  induction es as [|[n w] es IH]; intros m src finger ngh tmp Hn Hi Hb;
    cbn [increasing_from rest_bytes length pack_filter_rest keep List.filter fst snd] in *.
  - by rewrite app_nil_r.
  - destruct Hi as (? & ? & Hi).
    destruct (read_edge m finger ngh n w _ ltac:(lia) ltac:(lia) ltac:(done) Hb)
      as (p1 & p2 & He & Hwr & Hw & Hb' & _).
    rewrite He. cbn [mbind option_bind]. rewrite Hwr, Hw. cbn [mbind option_bind].
    rewrite IH by (lia || done). fold (keep pred src es).
    destruct (pred src n w); [by rewrite <- app_assoc | done].
Qed.

Lemma pack_write_rest_bytes tmp : forall m write_finger offset last,
  0 <= last -> increasing_from last tmp ->
  pack_write_rest tmp m write_finger offset last =
    (write_bytes m (write_finger + offset) (rest_bytes last tmp),
     offset + Z.of_nat (length (rest_bytes last tmp))).
Proof.
  induction tmp as [|[n w] tmp IH]; intros m write_finger offset last Hl Hi;
    cbn [pack_write_rest rest_bytes increasing_from length fst snd] in *.
  - cbn. by rewrite Z.add_0_r.
  - destruct Hi as (Hn & Hw & Hi).
    rewrite wrap32_id by lia.
    rewrite compressEdge_bytes by lia.
    rewrite compressWeight_bytes by done.
    rewrite IH by (lia || done).
    rewrite !write_bytes_app, !length_app. addr_eq.
Qed.

Lemma keep_length_le src es :
  (length (keep pred src es) <= length es)%nat.
Proof. unfold keep. apply filter_length_le. Qed.

Lemma keep_all src es :
  length (keep pred src es) = length es -> keep pred src es = es.
Proof.
  induction es as [|[n w] es IH]; cbn [keep List.filter fst snd length]; [done|].
  fold (keep pred src es). pose proof (keep_length_le src es).
  destruct (pred src n w); cbn [length]; intros Hl; [|lia].
  f_equal. apply IH. lia.
Qed.

Section facts2.
Variables (ok : Prop) (m : mem) (base src vd : Z) (addr start : Z -> Z)
  (E : Z -> list (Z * W)).
Hypothesis Hreg : region_gen ok m base src vd addr start E.
Local Abbreviation B := (num_blocks_of vd).

Lemma region_addr_mono i j :
  0 <= i <= j -> j <= B -> addr i + 4 * (j - i) <= addr j.
Proof.
  intros Hij HjB. replace j with (i + Z.of_nat (Z.to_nat (j - i))) in * by lia.
  induction (Z.to_nat (j - i)) as [|k IH];
    [replace (i + Z.of_nat 0) with i by lia; lia|].
  replace (i + Z.of_nat (S k)) with (i + Z.of_nat k + 1) in * by lia.
  destruct Hreg as (_ & _ & _ & _ & _ & Hstep & _).
  specialize (Hstep (i + Z.of_nat k) ltac:(lia)).
  specialize (IH ltac:(lia) ltac:(lia)). lia.
Qed.

End facts2.

(** Replacing the edges of block [k] by a list whose code is in place and
    fits, with the rest of the memory as it was. *)
Lemma frame_update m m' base src vd addr start E k X :
  frame_at m base src vd addr start E -> 0 <= k < num_blocks_of vd ->
  (forall lo hi, hi <= addr k + 4 \/ addr (k + 1) <= lo -> same_on m m' lo hi) ->
  bytes_at m' (addr k + 4) (chunk_bytes src X) ->
  addr k + 4 + Z.of_nat (length (chunk_bytes src X)) <= addr (k + 1) ->
  Z.of_nat (length X) <= PARALLEL_DEGREE -> edges_ok X ->
  frame_at m' base src vd addr start (fun i => if i =? k then X else E i).
Proof.
  intros Hreg Hk Hsame Hbytes Hcap Hlen HokX.
  pose proof (region_B _ _ _ _ _ _ _ _ Hreg) as [_ HB].
  pose proof (region_addr_mono _ _ _ _ _ _ _ _ Hreg) as Hmono.
  destruct Hreg as (Hsrc & Hvd & Hload & Ha0 & Hend & Hstep & Hoff & Hblk & Hok).
  pose proof (Hmono 0 k ltac:(lia) ltac:(lia)) as H0k.
  split; [done|]. split; [done|].
  split; [rewrite (load32_frame m); [done|]; apply Hsame; lia|].
  split; [done|]. split; [done|]. split; [done|].
  split.
  { intros i Hi. unfold block_offsets_at, sizeof_uintE.
    rewrite (load32_frame m); [by apply Hoff|]. apply Hsame. lia. }
  split.
  - intros i Hi. destruct (Hblk i Hi) as (Hst & Hby & Hcp & Hln).
    unfold block_at. destruct (Z.eqb_spec i k) as [->|Hne].
    + split; [|done]. rewrite (load32_frame m); [done|]. apply Hsame. lia.
    + assert (addr (i + 1) <= addr k \/ addr (k + 1) <= addr i) as Hdisj.
      { destruct (Z.lt_ge_cases i k).
        - left. pose proof (Hmono (i + 1) k ltac:(lia) ltac:(lia)). lia.
        - right. pose proof (Hmono (k + 1) i ltac:(lia) ltac:(lia)). lia. }
      split; [|split; [|done]].
      * rewrite (load32_frame m); [done|]. apply Hsame.
        specialize (Hstep i Hi). lia.
      * eapply bytes_at_frame; [|done]. apply Hsame. lia.
  - intros i Hi. destruct (Z.eqb_spec i k); [done|]. by apply Hok.
Qed.

Lemma frame_ext m base src vd addr start start' E E' :
  frame_at m base src vd addr start E ->
  (forall i, 0 <= i < num_blocks_of vd -> E' i = E i /\ start' i = start i) ->
  frame_at m base src vd addr start' E'.
Proof.
  intros (Hsrc & Hvd & Hload & Ha0 & Hend & Hstep & Hoff & Hblk & Hok) Hext.
  repeat (split; [done|]). split.
  - intros i Hi. destruct (Hext i Hi) as [HE Hs].
    destruct (Hblk i Hi) as (Hst & Hby & Hcp & Hln).
    unfold block_at. rewrite HE, Hs. done.
  - intros i Hi. destruct (Hext i Hi) as [-> _]. by apply Hok.
Qed.

(** One round of the first loop of [pack]. *)
Lemma pack_block_frame m base src vd addr start E degree k :
  frame_at m base src vd addr start E -> 0 <= k < num_blocks_of vd ->
  wrap32 (block_end m base (num_blocks_of vd) degree k - start k)
    = Z.of_nat (length (E k)) ->
  exists m',
    pack_block pred m base src degree (num_blocks_of vd) k =
      Some (m', Z.of_nat (length (keep pred src (E k)))) /\
    frame_at m' base src vd addr start
      (fun i => if i =? k then keep pred src (E k) else E i).
Proof.
  intros Hreg Hk Hdeg.
  pose proof (region_finger _ _ _ _ _ _ _ _ Hreg k Hk) as Hfinger.
  pose proof (region_start _ _ _ _ _ _ _ _ Hreg k Hk) as Hstart.
  assert (Hreg' := Hreg).
  destruct Hreg' as (Hsrc & Hvd & Hload & Ha0 & Hend & Hstep & Hoff & Hblk & Hok).
  destruct (Hblk k Hk) as (_ & Hby & Hcap & Hlen).
  pose proof (Hok k Hk) as Hokk.
  pose proof (keep_length_le src (E k)) as Hkl.
  pose proof (chunk_bytes_keep pred src (E k) Hsrc Hokk) as Hsize.
  assert (edges_ok (keep pred src (E k))) as Hokk'
    by (by apply increasing_from_keep).
  unfold pack_block. rewrite Hfinger, Hstart, Hdeg. unfold sizeof_uintE.
  (* A) the edges that pass the predicate *)
  assert ((if 0 <? Z.of_nat (length (E k))
           then
            eatFirstEdge m (addr k + 4) src ≫= λ '(ngh, finger),
              eatWeight m finger ≫= λ '(wgh, finger0),
                pack_filter_rest pred (Z.to_nat (Z.of_nat (length (E k)) - 1)) m src
                  finger0 ngh (if pred src ngh wgh then [(ngh, wgh)] else [])
           else Some []) = Some (keep pred src (E k))) as ->.
  { destruct (E k) as [|[n w] es] eqn:HE; [done|].
    cbn [length]. replace (0 <? _) with true by bool_lia.
    cbn [edges_ok increasing_from chunk_bytes] in Hokk, Hby.
    destruct Hokk as (Hn & Hw & Hi).
    destruct (read_first m (addr k + 4) src n w _ Hsrc ltac:(lia) Hw Hby)
      as (p1 & p2 & He & Hew & Hb' & _).
    rewrite He. cbn [mbind option_bind]. rewrite Hew. cbn [mbind option_bind].
    replace (Z.to_nat _) with (length es) by lia.
    rewrite pack_filter_rest_keep by (lia || done).
    cbn [keep List.filter fst snd]. by destruct (pred src n w). }
  cbn [mbind option_bind].
  replace (PARALLEL_DEGREE <? Z.of_nat (length (keep pred src (E k)))) with false
    by bool_lia.
  eexists. split; [reflexivity|].
  destruct (Z.ltb_spec 0 (Z.of_nat (length (keep pred src (E k)))));
    destruct (Z.ltb_spec (Z.of_nat (length (keep pred src (E k))))
                (Z.of_nat (length (E k)))); cbn [andb].
  - (* C) recompress inside this block *)
    destruct (keep pred src (E k)) as [|[n w] tmp] eqn:Hkeep; [cbn [length] in *; lia|].
    cbn [hd tl fst snd]. cbn [edges_ok increasing_from] in Hokk'.
    destruct Hokk' as (Hn & Hw & Hi). unfold is_uintE in Hsrc.
    rewrite compress_sign_mag by lia.
    rewrite compressWeight_bytes by done.
    rewrite pack_write_rest_bytes by (lia || done). cbn [fst].
    replace (write_bytes _ _ (rest_bytes n tmp))
      with (write_bytes m (addr k + 4) (chunk_bytes src ((n, w) :: tmp)))
      by (cbn [chunk_bytes]; rewrite !write_bytes_app; addr_eq).
    apply (frame_update m _ base src vd addr start E k _ Hreg Hk).
    + intros lo hi Hd. apply same_on_write_bytes. lia.
    + apply bytes_at_write. apply chunk_bytes_byte.
      cbn [edges_ok increasing_from]. done.
    + lia.
    + cbn [length] in *. lia.
    + cbn [edges_ok increasing_from]. done.
  - (* every edge stays *)
    rewrite keep_all by lia.
    eapply frame_ext; [exact Hreg|]. intros i _. by destruct (Z.eqb_spec i k) as [->|].
  - (* no edge stays *)
    destruct (keep pred src (E k)) as [|e tmp] eqn:Hkeep; [|cbn [length] in *; lia].
    apply (frame_update m m base src vd addr start E k [] Hreg Hk).
    + intros lo hi _. apply same_on_refl.
    + apply bytes_at_nil.
    + cbn [chunk_bytes length]. specialize (Hstep k Hk). lia.
    + cbn [length]. unfold PARALLEL_DEGREE. lia.
    + done.
  - rewrite keep_all by lia.
    eapply frame_ext; [exact Hreg|]. intros i _. by destruct (Z.eqb_spec i k) as [->|].
Qed.

End pack_block.

(** ** pack: the loops over the blocks *)

(** [scan_add_inplace] on the differences of a cumulative sequence [G] *)
Lemma scan_add_cumulative (wrap : Z -> Z) (G g : Z -> Z) (n : nat) : forall k,
  (forall j, k <= j < k + Z.of_nat n -> G (j + 1) = G j + g j) ->
  (forall j, k <= j <= k + Z.of_nat n -> wrap (G j) = G j) ->
  scan_add_inplace_from wrap (G k) (map g (seqZ k (Z.of_nat n)) ++ [0]) =
    (map G (seqZ k (Z.of_nat n + 1)), G (k + Z.of_nat n)).
Proof.
  induction n as [|n IH]; intros k Hstep Hwrap.
  - change (Z.of_nat 0) with 0. rewrite seqZ_nil by lia.
    rewrite (seqZ_cons k (0 + 1)), seqZ_nil by lia.
    cbn [map app scan_add_inplace_from].
    rewrite !Z.add_0_r, (Hwrap k) by lia. done.
  - rewrite (seqZ_cons k (Z.of_nat (S n))) by lia.
    rewrite (seqZ_cons k (Z.of_nat (S n) + 1)) by lia.
    cbn [map app scan_add_inplace_from].
    rewrite <- (Hstep k) by lia. rewrite (Hwrap (k + 1)) by lia.
    replace (Z.pred (Z.of_nat (S n))) with (Z.of_nat n) by lia.
    replace (Z.pred (Z.of_nat (S n) + 1)) with (Z.of_nat n + 1) by lia.
    replace (Z.succ k) with (k + 1) by lia.
    rewrite IH by (intros; (apply Hstep || apply Hwrap); lia).
    do 2 f_equal. lia.
Qed.

Lemma nth_map_seqZ (G : Z -> Z) (n i : Z) :
  0 <= i < n -> nth (Z.to_nat i) (map G (seqZ 0 n)) 0 = G i.
Proof.
  intros Hi.
  rewrite (nth_indep _ 0 (G 0)) by (rewrite length_map, length_seqZ; lia).
  rewrite map_nth. f_equal.
  apply nth_lookup_Some with (d := 0).
  rewrite lookup_seqZ. lia.
Qed.

Section pack_loops.
Context {W : Type} {HW : Weight W} {HWok : WeightOk W}.
Implicit Types (es : list (Z * W)) (E : Z -> list (Z * W)).
Variable pred : Z -> Z -> W -> bool.

Lemma flat_keep src E n :
  flat (fun i => keep pred src (E i)) n = keep pred src (flat E n).
Proof.
  induction n as [|n IH]; [done|]. cbn [flat]. rewrite IH.
  unfold keep. by rewrite filter_app.
Qed.

Lemma region_frame m base src vd addr start E :
  region_at m base src vd addr start E -> frame_at m base src vd addr start E.
Proof.
  intros Hreg. assert (Hreg' := Hreg).
  destruct Hreg' as (? & ? & ? & ? & ? & ? & ? & ? & Hok).
  repeat (split; [done|]).
  intros i Hi. eapply (region_block_ok _ _ _ _ _ _ _ Hreg). done.
Qed.

(** The first loop of [pack]: every block is filtered in place and its
    count is recorded. *)
Lemma pack_blocks_frame base src vd addr E degree n : forall k m cts,
  degree = start_of E (num_blocks_of vd) -> degree < 2 ^ 32 ->
  Z.of_nat n + k = num_blocks_of vd -> 0 <= k ->
  frame_at m base src vd addr (start_of E)
    (fun i => if i <? k then keep pred src (E i) else E i) ->
  exists m',
    pack_blocks pred n m base src degree (num_blocks_of vd) k cts =
      Some (m', cts ++ map (fun i => Z.of_nat (length (keep pred src (E i))))
                         (seqZ k (Z.of_nat n))) /\
    frame_at m' base src vd addr (start_of E) (fun i => keep pred src (E i)).
Proof.
  intros k m cts Hdeg Hlt. revert k m cts.
  induction n as [|n IH]; intros k m cts Hn Hk Hfr.
  - exists m. cbn [pack_blocks]. rewrite seqZ_nil by lia. cbn [map].
    rewrite app_nil_r. split; [done|].
    eapply frame_ext; [exact Hfr|]. intros i Hi. cbn beta.
    replace (i <? k) with true by bool_lia. done.
  - cbn [pack_blocks].
    destruct (pack_block_frame pred m base src vd addr (start_of E) _ degree k Hfr
                ltac:(lia)) as (m1 & Hpb & Hfr1).
    { rewrite (region_end _ _ _ _ _ _ _ _ Hfr) by lia.
      rewrite Z.ltb_irrefl.
      assert ((if k =? num_blocks_of vd - 1 then wrap32 degree
               else start_of E (k + 1)) = start_of E (k + 1)) as ->.
      { destruct (Z.eqb_spec k (num_blocks_of vd - 1)) as [->|]; [|done].
        rewrite wrap32_id by (pose proof (start_of_nonneg E (num_blocks_of vd)); lia).
        rewrite Hdeg. f_equal. lia. }
      rewrite start_of_succ by lia.
      pose proof (start_of_mono E (k + 1) (num_blocks_of vd) ltac:(lia)) as Hm.
      rewrite start_of_succ in Hm by lia.
      pose proof (start_of_nonneg E k).
      rewrite wrap32_id by lia. lia. }
    rewrite Z.ltb_irrefl in Hpb. rewrite Hpb. cbn [mbind option_bind].
    destruct (IH (k + 1) m1
                (cts ++ [Z.of_nat (length (keep pred src (E k)))])
                ltac:(lia) ltac:(lia)) as (m' & Hres & Hfr').
    { eapply frame_ext; [exact Hfr1|]. intros i Hi. cbn beta. split; [|done].
      rewrite Z.ltb_irrefl.
      destruct (Z.eqb_spec i k) as [->|]; [by replace (k <? k + 1) with true by bool_lia|].
      destruct (Z.ltb_spec i k); [by replace (i <? k + 1) with true by bool_lia|].
      by replace (i <? k + 1) with false by bool_lia. }
    exists m'. split; [|done]. rewrite Hres. f_equal. f_equal.
    rewrite <- app_assoc. f_equal.
    rewrite (seqZ_cons k (Z.of_nat (S n))) by lia. cbn [map app].
    do 3 f_equal; lia.
Qed.

Lemma frame_set_start m base src vd addr start E k v :
  frame_at m base src vd addr start E -> 0 <= k < num_blocks_of vd ->
  0 <= v < 2 ^ 32 ->
  frame_at (store32 m (addr k) v) base src vd addr
    (fun i => if i =? k then v else start i) E.
Proof.
  intros Hreg Hk Hv.
  pose proof (region_addr_mono _ _ _ _ _ _ _ _ Hreg) as Hmono.
  destruct Hreg as (Hsrc & Hvd & Hload & Ha0 & Hend & Hstep & Hoff & Hblk & Hok).
  pose proof (Hmono 0 k ltac:(lia) ltac:(lia)) as H0k.
  assert (forall lo hi, hi <= addr k \/ addr k + 4 <= lo ->
            same_on m (store32 m (addr k) v) lo hi) as Hsame
    by (intros; by apply same_on_store32).
  split; [done|]. split; [done|].
  split; [rewrite (load32_frame m); [done|]; apply Hsame; lia|].
  split; [done|]. split; [done|]. split; [done|].
  split.
  { intros i Hi. unfold block_offsets_at, sizeof_uintE.
    rewrite (load32_frame m); [by apply Hoff|]. apply Hsame. lia. }
  split; [|done].
  intros i Hi. destruct (Hblk i Hi) as (Hst & Hby & Hcp & Hln).
  unfold block_at. destruct (Z.eqb_spec i k) as [->|Hne].
  - split; [rewrite load32_store32; by apply wrap32_id|].
    split; [|done]. eapply bytes_at_frame; [|done]. apply Hsame. lia.
  - assert (addr (i + 1) <= addr k \/ addr (k + 1) <= addr i) as Hdisj.
    { destruct (Z.lt_ge_cases i k).
      - left. pose proof (Hmono (i + 1) k ltac:(lia) ltac:(lia)). lia.
      - right. pose proof (Hmono (k + 1) i ltac:(lia) ltac:(lia)). lia. }
    pose proof (Hstep i Hi). pose proof (Hstep k Hk).
    split; [|split; [|done]].
    + rewrite (load32_frame m); [done|]. apply Hsame. lia.
    + eapply bytes_at_frame; [|done]. apply Hsame. lia.
Qed.

(** The second loop of [pack]: the start index of every block. *)
Lemma pack_write_starts_frame base src vd addr E (new : Z -> Z) scan_cts n :
  forall k m start,
  (forall i, 0 <= i < num_blocks_of vd ->
     nth (Z.to_nat i) scan_cts 0 = new i /\ 0 <= new i < 2 ^ 32) ->
  Z.of_nat n + k = num_blocks_of vd -> 0 <= k ->
  frame_at m base src vd addr start E ->
  (forall i, 0 <= i < k -> start i = new i) ->
  exists start',
    frame_at (pack_write_starts n m base (num_blocks_of vd) k scan_cts)
      base src vd addr start' E /\
    (forall i, 0 <= i < num_blocks_of vd -> start' i = new i).
Proof.
  intros k m start Hscan. revert k m start.
  induction n as [|n IH]; intros k m start Hn Hk Hfr Hdone.
  - exists start. split; [done|]. intros i Hi. apply Hdone. lia.
  - cbn [pack_write_starts].
    rewrite (region_finger _ _ _ _ _ _ _ _ Hfr) by lia.
    destruct (Hscan k ltac:(lia)) as [-> Hnew].
    eapply (IH (k + 1)); [lia | lia | |].
    + apply frame_set_start; [done | lia | done].
    + intros i Hi. cbn beta. destruct (Z.eqb_spec i k) as [->|]; [done|].
      apply Hdone. lia.
Qed.

End pack_loops.

(** ** repack *)

Section repack.
Context {W : Type} {HW : Weight W} {HWok : WeightOk W}.
Implicit Types (es : list (Z * W)) (E : Z -> list (Z * W)) (U : Z -> Z * W).

Local Abbreviation dflt := (0, default_weight).

Lemma holds_nil U from : holds U from [].
Proof. intros j Hj. cbn [length] in Hj. lia. Qed.

Lemma holds_cons U from e es :
  holds U from (e :: es) <-> U from = e /\ holds U (from + 1) es.
Proof.
  split.
  - intros Hh. split.
    + specialize (Hh 0%nat ltac:(cbn [length]; lia)).
      by rewrite Z.add_0_r in Hh.
    + intros j Hj. specialize (Hh (S j) ltac:(cbn [length]; lia)).
      cbn [nth] in Hh. rewrite <- Hh. f_equal. lia.
  - intros [H0 Hh] [|j] Hj.
    + by rewrite Z.add_0_r.
    + cbn [nth]. rewrite <- Hh by (cbn [length] in Hj; lia). f_equal. lia.
Qed.

Lemma holds_app U from es1 es2 :
  holds U from (es1 ++ es2) <->
  holds U from es1 /\ holds U (from + Z.of_nat (length es1)) es2.
Proof.
  revert from. induction es1 as [|e es1 IH]; intros from; cbn [app length].
  - rewrite Z.add_0_r. split; [intros; split; [apply holds_nil|done] | by intros [_ ?]].
  - rewrite !holds_cons, IH.
    replace (from + 1 + Z.of_nat (length es1)) with (from + Z.of_nat (S (length es1)))
      by lia.
    tauto.
Qed.

Lemma holds_upd_out U from es i v :
  i < from \/ from + Z.of_nat (length es) <= i ->
  holds U from es -> holds (upd U i v) from es.
Proof.
  intros Hi Hh j Hj. unfold upd.
  destruct (Z.eqb_spec (from + Z.of_nat j) i); [lia|]. by apply Hh.
Qed.

(** 1. Copy all live edges into U *)
Lemma repack_copy_rest_holds es : forall m finger ngh edgeID U pre,
  0 <= ngh -> increasing_from ngh es -> bytes_at m finger (rest_bytes ngh es) ->
  holds U (edgeID - Z.of_nat (length pre)) pre ->
  exists U',
    repack_copy_rest (length es) m finger ngh edgeID U = Some U' /\
    holds U' (edgeID - Z.of_nat (length pre)) (pre ++ es).
Proof.
  induction es as [|[n w] es IH]; intros m finger ngh edgeID U pre Hn Hi Hb Hpre;
    cbn [repack_copy_rest increasing_from rest_bytes length] in *.
  - exists U. by rewrite app_nil_r.
  - destruct Hi as (? & ? & Hi).
    destruct (read_edge m finger ngh n w _ ltac:(lia) ltac:(lia) ltac:(done) Hb)
      as (p1 & p2 & He & Hwr & Hw & Hb' & _).
    rewrite He. cbn [mbind option_bind]. rewrite Hwr, Hw. cbn [mbind option_bind].
    destruct (IH m p2 n (edgeID + 1) (upd U edgeID (n, w)) (pre ++ [(n, w)])
                ltac:(lia) Hi Hb') as (U' & Hres & Hh).
    + rewrite length_app. cbn [length].
      replace (edgeID + 1 - Z.of_nat (length pre + 1))
        with (edgeID - Z.of_nat (length pre)) by lia.
      apply holds_app. split; [apply holds_upd_out; [lia|done]|].
      apply holds_cons. split; [|apply holds_nil].
      unfold upd. replace (_ =? _) with true by bool_lia. done.
    + exists U'. split; [done|].
      rewrite length_app in Hh. cbn [length] in Hh.
      replace (edgeID + 1 - Z.of_nat (length pre + 1))
        with (edgeID - Z.of_nat (length pre)) in Hh by lia.
      by rewrite <- app_assoc in Hh.
Qed.

Lemma repack_copy_chunks_holds m base src vd addr E n : forall k U,
  region_at m base src vd addr (start_of E) E ->
  Z.of_nat n + k = num_blocks_of vd -> 0 <= k ->
  holds U 0 (flat E (Z.to_nat k)) ->
  exists U',
    repack_copy_chunks n m base src (start_of E (num_blocks_of vd))
      (num_blocks_of vd) k U = Some U' /\
    holds U' 0 (flat E (nblocks vd)).
Proof.
  intros k U Hreg. revert k U.
  induction n as [|n IH]; intros k U Hn Hk Hh.
  - exists U. split; [done|]. unfold nblocks. by replace (num_blocks_of vd) with k by lia.
  - cbn [repack_copy_chunks].
    assert (exists U1,
              repack_copy_chunk m base src (start_of E (num_blocks_of vd))
                (num_blocks_of vd) k U = Some U1 /\
              holds U1 0 (flat E (Z.to_nat (k + 1)))) as (U1 & Hc & Hh1).
    { unfold repack_copy_chunk.
      rewrite (region_finger _ _ _ _ _ _ _ _ Hreg) by lia.
      rewrite (region_start _ _ _ _ _ _ _ _ Hreg) by lia.
      rewrite (region_end_start _ _ _ _ _ _ Hreg) by lia.
      rewrite start_of_succ by lia.
      pose proof (region_block_ok _ _ _ _ _ _ _ Hreg k ltac:(lia)) as Hok.
      pose proof (region_degree_lt _ _ _ _ _ _ _ Hreg) as Hdeg.
      pose proof (start_of_mono E (k + 1) (num_blocks_of vd) ltac:(lia)) as Hmono.
      rewrite start_of_succ in Hmono by lia.
      pose proof (start_of_nonneg E k).
      replace (Z.to_nat (k + 1)) with (S (Z.to_nat k)) by lia.
      cbn [flat]. rewrite Z2Nat.id by lia.
      destruct Hreg as (Hsrc & _ & _ & _ & _ & _ & _ & Hblk & _).
      destruct (Hblk k ltac:(lia)) as (_ & Hbytes & _).
      destruct (E k) as [|[n0 w0] c] eqn:HE.
      - cbn [length]. replace (_ <? _) with false by bool_lia.
        exists U. by rewrite app_nil_r.
      - cbn [length] in *. replace (_ <? _) with true by bool_lia.
        cbn [edges_ok increasing_from chunk_bytes] in Hok, Hbytes.
        destruct Hok as (Hn0 & Hw0 & Hok).
        destruct (read_first m (addr k + 4) src n0 w0 _ Hsrc ltac:(lia) Hw0 Hbytes)
          as (p1 & p2 & He & Hew & Hb' & _).
        unfold sizeof_uintE. rewrite He. cbn [mbind option_bind].
        rewrite Hew. cbn [mbind option_bind].
        rewrite wrap32_id by lia.
        replace (Z.to_nat _) with (length c) by lia.
        destruct (repack_copy_rest_holds c m p2 n0 (start_of E k + 1)
                    (upd U (start_of E k) (n0, w0))
                    (flat E (Z.to_nat k) ++ [(n0, w0)]) ltac:(lia) Hok Hb')
          as (U' & Hres & Hh').
        + rewrite length_app. cbn [length].
          replace (start_of E k + 1 - Z.of_nat (length (flat E (Z.to_nat k)) + 1))
            with 0 by (unfold start_of; lia).
          apply holds_app. split; [apply holds_upd_out; [unfold start_of; lia|done]|].
          apply holds_cons. split; [|apply holds_nil].
          unfold upd, start_of. replace (_ =? _) with true by bool_lia. done.
        + exists U'. split; [done|].
          rewrite length_app in Hh'. cbn [length] in Hh'.
          replace (start_of E k + 1 - Z.of_nat (length (flat E (Z.to_nat k)) + 1))
            with 0 in Hh' by (unfold start_of; lia).
          by rewrite <- app_assoc in Hh'. }
    rewrite Hc. cbn [mbind option_bind].
    apply (IH (k + 1)); [lia | lia | done].
Qed.

(** 3. Compute #bytes per new block *)
Lemma repack_bytes_rest_len U c : forall edgeI bytes last,
  holds U edgeI c -> fst (U (edgeI - 1)) = last -> 0 <= last ->
  increasing_from last c ->
  repack_bytes_rest (length c) U edgeI bytes =
    bytes + Z.of_nat (length (rest_bytes last c)).
Proof.
  induction c as [|[n w] c IH]; intros edgeI bytes last Hh Hl Hl0 Hi;
    cbn [repack_bytes_rest length rest_bytes increasing_from] in *; [lia|].
  destruct Hi as (Hn & Hw & Hi). apply holds_cons in Hh as [HU Hh].
  rewrite HU, Hl. cbn [fst snd].
  rewrite wrap32_id by lia.
  rewrite compressEdge_bytes by lia.
  rewrite compressWeight_bytes by done. cbn [snd].
  rewrite (IH (edgeI + 1) _ n); [rewrite !length_app; lia|done| |lia|done].
  replace (edgeI + 1 - 1) with edgeI by lia. by rewrite HU.
Qed.

(** 5. Repack each block *)
Lemma repack_write_rest_bytes U c : forall m finger off j last,
  holds U j c -> 0 <= last -> increasing_from last c ->
  repack_write_rest (length c) m finger off U j last =
    (write_bytes m (finger + off) (rest_bytes last c),
     off + Z.of_nat (length (rest_bytes last c))).
Proof.
  induction c as [|[n w] c IH]; intros m finger off j last Hh Hl0 Hi;
    cbn [repack_write_rest length rest_bytes increasing_from] in *.
  - cbn. by rewrite Z.add_0_r.
  - destruct Hi as (Hn & Hw & Hi). apply holds_cons in Hh as [HU Hh].
    rewrite HU. cbn [fst snd].
    rewrite wrap32_id by lia.
    rewrite compressEdge_bytes by lia.
    rewrite compressWeight_bytes by done.
    rewrite IH by (done || lia).
    rewrite !write_bytes_app, !length_app. addr_eq.
Qed.

(** block [i] of the list that [U] holds *)
Lemma holds_chunk U es i n0 w0 c' rest :
  holds U 0 es -> 0 <= i -> i * PARALLEL_DEGREE < Z.of_nat (length es) ->
  skipn (Z.to_nat (i * PARALLEL_DEGREE)) es = (n0, w0) :: c' ++ rest ->
  U (i * PARALLEL_DEGREE) = (n0, w0) /\ holds U (i * PARALLEL_DEGREE + 1) c'.
Proof.
  intros Hh Hi Hlt Hrem.
  rewrite <- (take_drop (Z.to_nat (i * PARALLEL_DEGREE)) es) in Hh.
  apply holds_app in Hh as [_ Hh].
  rewrite length_take, Hrem in Hh.
  replace (0 + Z.of_nat (Z.to_nat (i * PARALLEL_DEGREE) `min` length es))
    with (i * PARALLEL_DEGREE) in Hh by (unfold PARALLEL_DEGREE in *; lia).
  apply holds_cons in Hh as [HU Hh]. split; [done|].
  by apply holds_app in Hh as [Hh _].
Qed.

Lemma repack_block_bytes_len U src es i :
  is_uintE src -> edges_ok es -> holds U 0 es ->
  0 <= i -> i * PARALLEL_DEGREE < Z.of_nat (length es) ->
  repack_block_bytes U src (Z.of_nat (length es)) i =
    4 + Z.of_nat (length (chunk_bytes src (chunk_of es i))).
Proof.
  intros Hsrc Hok Hh Hi Hlt.
  destruct (skipn_chunk es i Hi Hlt Hok)
    as (n0 & w0 & c' & rest & Hrem & Hc & Hn0 & Hw0 & Hc' & Hlen).
  destruct (holds_chunk U es i n0 w0 c' rest Hh Hi Hlt Hrem) as [HU Hh'].
  unfold repack_block_bytes. rewrite HU. cbn [fst snd].
  unfold is_uintE in Hsrc.
  rewrite compress_sign_mag by lia.
  rewrite compressWeight_bytes by done. cbn [snd].
  replace (Z.to_nat _) with (length c') by lia.
  rewrite (repack_bytes_rest_len U c' _ _ n0); [|done| |lia|done].
  - rewrite Hc. cbn [chunk_bytes]. rewrite !length_app. unfold sizeof_uintE. lia.
  - replace (i * PARALLEL_DEGREE + 1 - 1) with (i * PARALLEL_DEGREE) by lia.
    by rewrite HU.
Qed.

Lemma repack_write_block_bytes U m base nghs_start bytes_imap src es i a :
  is_uintE src -> edges_ok es -> holds U 0 es ->
  0 <= i -> i * PARALLEL_DEGREE < Z.of_nat (length es) ->
  nghs_start + nth (Z.to_nat i) bytes_imap 0 = a ->
  repack_write_block m base nghs_start bytes_imap U src (Z.of_nat (length es)) i =
    write_bytes
      (store32 (if 0 <? i then set_block_offset m base (i - 1) (a - base) else m)
               a (i * PARALLEL_DEGREE))
      (a + 4) (chunk_bytes src (chunk_of es i)).
Proof.
  intros Hsrc Hok Hh Hi Hlt Ha.
  destruct (skipn_chunk es i Hi Hlt Hok)
    as (n0 & w0 & c' & rest & Hrem & Hc & Hn0 & Hw0 & Hc' & Hlen).
  destruct (holds_chunk U es i n0 w0 c' rest Hh Hi Hlt Hrem) as [HU Hh'].
  unfold repack_write_block. rewrite Ha, HU. cbn [fst snd].
  unfold is_uintE in Hsrc.
  rewrite compress_sign_mag by lia.
  rewrite compressWeight_bytes by done.
  replace (Z.to_nat _) with (length c') by lia.
  rewrite repack_write_rest_bytes by (done || lia). cbn [fst].
  rewrite Hc. cbn [chunk_bytes]. rewrite !write_bytes_app.
  unfold sizeof_uintE. addr_eq.
Qed.

Lemma repack_write_blocks_written U base src es bytes_imap n : forall k m,
  let vd := Z.of_nat (length es) in
  let B := 1 + (vd - 1) / PARALLEL_DEGREE in
  let addr := addr_of src (chunk_of es) (base + 4 * B) in
  is_uintE src -> edges_ok es -> holds U 0 es -> 1 <= vd < 2 ^ 32 ->
  addr B - base < 2 ^ 32 ->
  (forall i, 0 <= i < B -> nth (Z.to_nat i) bytes_imap 0 = addr i - addr 0) ->
  Z.of_nat n + k = B -> 0 <= k ->
  written m base src vd addr (chunk_of es) k ->
  written (repack_write_blocks n m base (base + 4 * B) bytes_imap U src vd k)
    base src vd addr (chunk_of es) B.
Proof.
  intros k m vd B addr Hsrc Hok Hh Hvd Hfit Hmap. revert k m.
  induction n as [|n IH]; intros k m Hn Hk Hw.
  - assert (k = B) as -> by lia. done.
  - cbn [repack_write_blocks].
    pose proof (blocks_bound vd k ltac:(lia) ltac:(unfold B in *; lia)) as HkP.
    rewrite (repack_write_block_bytes U m base _ bytes_imap src es k (addr k))
      by (try done; rewrite Hmap by lia; unfold addr; rewrite addr_of_0; lia).
    apply IH; [lia | lia |].
    apply written_step; try done; unfold PARALLEL_DEGREE in *; lia.
Qed.

Lemma map_seqZ_ext (f g : Z -> Z) n : forall k,
  (forall i, k <= i < k + Z.of_nat n -> f i = g i) ->
  map f (seqZ k (Z.of_nat n)) = map g (seqZ k (Z.of_nat n)).
Proof.
  induction n as [|n IH]; intros k Hfg; [done|].
  rewrite (seqZ_cons k (Z.of_nat (S n))) by lia. cbn [map].
  rewrite Hfg by lia. f_equal.
  replace (Z.pred (Z.of_nat (S n))) with (Z.of_nat n) by lia.
  apply IH. intros. apply Hfg. lia.
Qed.

(** [repack] turns a region that holds a non-empty list into the region the
    encoder would have produced for that list, when the new code fits the
    32-bit block offsets. *)
Lemma repack_region m base src vd addr E par :
  let es := edges_of vd E in
  let d := Z.of_nat (length es) in
  let B' := 1 + (d - 1) / PARALLEL_DEGREE in
  let addr' := addr_of src (chunk_of es) (base + 4 * B') in
  region_at m base src vd addr (start_of E) E -> es <> [] ->
  addr' B' - base < 2 ^ 32 ->
  exists m',
    repack m src d base par = Some m' /\
    region_at m' base src d addr' (start_of (chunk_of es)) (chunk_of es).
Proof.
  intros es d B' addr' Hreg Hne Hfit.
  pose proof (region_degree_lt _ _ _ _ _ _ _ Hreg) as Hdeg.
  assert (Hreg' := Hreg).
  destruct Hreg' as (Hsrc & Hvd & Hload & _ & _ & _ & _ & _ & Hok).
  fold es in Hok.
  assert (d = start_of E (num_blocks_of vd)) as Hd by apply length_edges_of.
  assert (1 <= d) as Hd1 by (unfold d; destruct es; [done|cbn [length]; lia]).
  pose proof (Z.div_pos (d - 1) PARALLEL_DEGREE ltac:(lia) ltac:(done)) as HBpos.
  unfold repack. replace (0 <? d) with true by bool_lia. rewrite Hload.
  destruct (repack_copy_chunks_holds m base src vd addr E (Z.to_nat (num_blocks_of vd))
              0 (fun _ => dflt) Hreg ltac:(pose proof (num_blocks_of_pos vd Hvd); lia)
              ltac:(lia) ltac:(apply holds_nil)) as (U & HU & Hh).
  rewrite <- Hd in HU. rewrite HU. cbn [mbind option_bind].
  eexists. split; [reflexivity|].
  rewrite wrap32_id by lia. fold B'.
  assert (forall i j, 0 <= i <= j -> addr' i + 4 * (j - i) <= addr' j) as Hmono
    by (intros; by apply addr_of_mono).
  apply written_region; try done; try lia.
  unfold nghs_start_of, sizeof_uintE.
  replace (base + (B' - 1) * 4 + 4) with (base + 4 * B') by ring.
  fold d B' addr'.
  assert (0 < B') as HB' by (unfold B'; lia).
  apply repack_write_blocks_written; try done; fold d B' addr'.
  - intros i Hi. rewrite <- (Z2Nat.id B') at 1 by lia.
    rewrite (map_seqZ_ext _ (fun i => 4 + Z.of_nat (length (chunk_bytes src (chunk_of es i))))
               (Z.to_nat B') 0).
    + unfold scan_add_inplace.
      pose proof (scan_add_cumulative wrap32 (fun j => addr' j - addr' 0)
                    (fun i => 4 + Z.of_nat (length (chunk_bytes src (chunk_of es i))))
                    (Z.to_nat B') 0) as Hscan.
      cbn beta in Hscan. rewrite Z.sub_diag in Hscan.
      rewrite Z2Nat.id in * by lia.
      rewrite Hscan; cbn [fst].
      * by rewrite (nth_map_seqZ (fun j => addr' j - addr' 0)) by lia.
      * intros j Hj. unfold addr'. rewrite addr_of_succ by lia. lia.
      * intros j Hj. apply wrap32_id.
        pose proof (Hmono 0 j ltac:(lia)). pose proof (Hmono j B' ltac:(lia)).
        unfold addr' in *. rewrite addr_of_0 in *. lia.
    + intros j Hj. apply repack_block_bytes_len; try done; [lia|].
      apply blocks_bound; [done|]. fold d B'. lia.
  - lia.
  - split; [|split]; [| intros; lia | intros; lia].
    rewrite load32_store32. apply wrap32_id. lia.
Qed.

End repack.

(** ** The size of a freshly laid out region

    An edge takes at most [1 + delta / 128] octets for its difference
    [delta] and at most five for its weight; the differences of a list add
    up to less than [2 ^ 32]. *)

Lemma edge_len_bound e : 0 <= e -> 128 * edge_len e <= 128 + e.
Proof.
  intros He. unfold edge_len.
  change (2 ^ 7) with 128. change (2 ^ 14) with 16384.
  change (2 ^ 21) with 2097152. change (2 ^ 28) with 268435456.
  cases_lia.
Qed.

Section size_bound.
Context {W : Type} {HW : Weight W} {HWok : WeightOk W}.
Implicit Types (es : list (Z * W)) (E : Z -> list (Z * W)).

Lemma last_ngh_app es1 : forall es2 last,
  last_ngh last (es1 ++ es2) = last_ngh (last_ngh last es1) es2.
Proof.
  induction es1 as [|[n w] es1 IH]; intros es2 last; cbn [last_ngh app]; [done|].
  apply IH.
Qed.

Lemma rest_bytes_bound c : forall last,
  0 <= last -> increasing_from last c ->
  128 * Z.of_nat (length (rest_bytes last c))
  <= 768 * Z.of_nat (length c) + (last_ngh last c - last).
Proof.
  induction c as [|[n w] c IH]; intros last Hl Hi;
    cbn [rest_bytes increasing_from last_ngh length] in *; [lia|].
  destruct Hi as (Hn & Hw & Hi). specialize (IH n ltac:(lia) Hi).
  rewrite !length_app.
  pose proof (edge_bytes_len (n - last) ltac:(lia)).
  pose proof (edge_len_bound (n - last) ltac:(lia)).
  pose proof (weight_bytes_length w Hw). lia.
Qed.

Lemma chunk_bytes_bound src c last :
  is_uintE src -> -1 <= last -> increasing_from last c ->
  128 * Z.of_nat (length (chunk_bytes src c))
  <= 1280 + 768 * Z.of_nat (length c) + (last_ngh last c - last).
Proof.
  unfold is_uintE. intros Hsrc Hl Hi.
  destruct c as [|[n w] c]; cbn [chunk_bytes increasing_from last_ngh length] in *;
    [lia|].
  destruct Hi as (Hn & Hw & Hi).
  pose proof (rest_bytes_bound c n ltac:(lia) Hi).
  rewrite !length_app.
  pose proof (first_bytes_length src n ltac:(lia)).
  pose proof (weight_bytes_length w Hw). lia.
Qed.

Lemma layout_addr_bound src E first n :
  is_uintE src -> edges_ok (flat E n) ->
  128 * (layout_addr src E first n - first)
  <= 1792 * Z.of_nat n + 768 * Z.of_nat (length (flat E n))
     + (last_ngh (-1) (flat E n) + 1).
Proof.
  intros Hsrc. induction n as [|n IH]; intros Hok;
    cbn [layout_addr flat last_ngh length] in *; [lia|].
  apply increasing_from_app in Hok as [Hok1 Hok2].
  specialize (IH Hok1).
  rewrite last_ngh_app, length_app.
  pose proof (last_ngh_ge _ _ Hok1).
  pose proof (chunk_bytes_bound src (E (Z.of_nat n)) (last_ngh (-1) (flat E n))
                Hsrc ltac:(lia) Hok2).
  lia.
Qed.

(** the code of a list of fewer than [2 ^ 32 / 10] edges fits the 32-bit
    block offsets *)
Lemma layout_fits base src es vd :
  is_uintE src -> edges_ok es -> es <> [] ->
  Z.of_nat (length es) < vd / 10 -> vd < 2 ^ 32 ->
  let d := Z.of_nat (length es) in
  let B' := 1 + (d - 1) / PARALLEL_DEGREE in
  addr_of src (chunk_of es) (base + 4 * B') B' - base < 2 ^ 32.
Proof.
  intros Hsrc Hok Hne Hlt Hvd d B'.
  assert (1 <= d) as Hd1 by (unfold d; destruct es; [done|cbn [length]; lia]).
  assert (d <= 429496729) as Hd by (unfold d; Z.to_euclidean_division_equations; lia).
  pose proof (edges_of_chunk_of es Hne ltac:(fold d; lia)) as Hflat.
  unfold edges_of, nblocks in Hflat.
  destruct (num_blocks_of_pos d ltac:(lia)) as [HB HB1].
  fold d in Hflat. rewrite HB in Hflat.
  change (1 + (d - 1) / 1000) with B' in Hflat, HB1.
  pose proof (layout_addr_bound src (chunk_of es) (base + 4 * B') (Z.to_nat B') Hsrc
                ltac:(by rewrite Hflat)) as Hb.
  rewrite Hflat in Hb. fold d in Hb.
  pose proof (last_ngh_lt es (-1) ltac:(lia) Hok).
  unfold addr_of.
  assert (B' <= d / 1000 + 1) by
    (unfold B', PARALLEL_DEGREE; Z.to_euclidean_division_equations; lia).
  assert (d / 1000 <= 429496) by (Z.to_euclidean_division_equations; lia).
  assert (1 <= B') by (unfold B', PARALLEL_DEGREE; lia).
  rewrite Z2Nat.id in Hb by lia. lia.
Qed.

End size_bound.

(** ** pack on a region *)

Section pack_region.
Context {W : Type} {HW : Weight W} {HWok : WeightOk W}.
Implicit Types (es : list (Z * W)) (E : Z -> list (Z * W)).
Variable pred : Z -> Z -> W -> bool.

Lemma frame_region m base src vd addr start E :
  frame_at m base src vd addr start E -> edges_ok (edges_of vd E) ->
  region_at m base src vd addr start E.
Proof.
  intros (? & ? & ? & ? & ? & ? & ? & ? & _) Hok. by repeat (split; [done|]).
Qed.

(** [pack] filters every block in place and returns the number of edges
    that stay; when that number is positive and below a tenth of the virtual
    degree, the region is laid out anew for the edges that stay. *)
Lemma pack_region m base src vd addr E par :
  let es' := keep pred src (edges_of vd E) in
  let k := Z.of_nat (length es') in
  region_at m base src vd addr (start_of E) E ->
  num_blocks_of vd <> block_cts_stack_size ->
  exists m',
    pack pred m base src (Z.of_nat (length (edges_of vd E))) par = Some (m', k) /\
    if (0 <? k) && (k <? vd / 10)
    then region m' base src k (chunk_of es')
    else region m' base src vd (fun i => keep pred src (E i)).
Proof.
  intros es' k Hreg H100.
  pose proof (region_degree_lt _ _ _ _ _ _ _ Hreg) as Hdeg.
  pose proof (region_B _ _ _ _ _ _ _ _ Hreg) as [_ HB].
  assert (Hreg' := Hreg).
  destruct Hreg' as (Hsrc & Hvd & Hload & _ & _ & _ & _ & _ & Hok).
  set (E' := fun i => keep pred src (E i)).
  assert (edges_of vd E' = es') as HE'
    by (unfold edges_of, E'; by rewrite flat_keep).
  assert (forall j, 0 <= j <= num_blocks_of vd -> 0 <= start_of E' j < 2 ^ 32) as Hst.
  { intros j Hj. split; [apply start_of_nonneg|].
    pose proof (start_of_mono E' j (num_blocks_of vd) ltac:(lia)).
    pose proof (keep_length_le pred src (flat E (Z.to_nat (num_blocks_of vd)))).
    assert (start_of E' (num_blocks_of vd)
            = Z.of_nat (length (keep pred src (flat E (Z.to_nat (num_blocks_of vd))))))
      as Heq by (unfold start_of, E'; by rewrite flat_keep).
    unfold start_of in Hdeg. lia. }
  unfold pack. rewrite Hload, length_edges_of.
  (* 1. the first loop *)
  destruct (pack_blocks_frame pred base src vd addr E (start_of E (num_blocks_of vd))
              (Z.to_nat (num_blocks_of vd)) 0 m [] eq_refl Hdeg ltac:(lia) ltac:(lia))
    as (m1 & Hpb & Hfr1).
  { eapply frame_ext; [exact (region_frame _ _ _ _ _ _ _ Hreg)|].
    intros i Hi. cbn beta. by replace (i <? 0) with false by bool_lia. }
  rewrite Hpb. cbn [mbind option_bind app].
  (* 2. Scan block_cts to get offsets within blocks *)
  replace (num_blocks_of vd =? block_cts_stack_size) with false by bool_lia.
  unfold scan_add_inplace.
  pose proof (scan_add_cumulative wrap64 (start_of E')
                (fun i => Z.of_nat (length (keep pred src (E i))))
                (Z.to_nat (num_blocks_of vd)) 0) as Hscan.
  rewrite start_of_0 in Hscan. rewrite Hscan; clear Hscan.
  2: { intros j Hj. by rewrite start_of_succ by lia. }
  2: { intros j Hj. unfold wrap64. apply Z.mod_small.
       specialize (Hst j ltac:(lia)). lia. }
  rewrite Z2Nat.id by lia. rewrite Z.add_0_l.
  assert (start_of E' (num_blocks_of vd) = k) as Hk.
  { rewrite <- length_edges_of. by rewrite HE'. }
  rewrite Hk.
  destruct (pack_write_starts_frame base src vd addr E' (start_of E')
              (map (start_of E') (seqZ 0 (num_blocks_of vd + 1)))
              (Z.to_nat (num_blocks_of vd)) 0 m1 (start_of E))
    as (start' & Hfr2 & Hstart'); [| lia | lia | exact Hfr1 | intros; lia |].
  { intros i Hi. split; [apply nth_map_seqZ; lia | apply Hst; lia]. }
  set (m2 := pack_write_starts _ _ _ _ _ _) in *.
  assert (region_at m2 base src vd addr (start_of E') E') as Hreg2.
  { apply frame_region; [|rewrite HE'; by apply increasing_from_keep].
    eapply frame_ext; [exact Hfr2|]. intros i Hi. split; [done|].
    symmetry. by apply Hstart'. }
  assert (0 <= k) as Hk0 by (unfold k; lia).
  destruct (Z.ltb_spec k (vd / 10)) as [Hlt|Hge].
  - destruct (Z.ltb_spec 0 k) as [Hpos|Hz]; cbn [andb].
    + (* the region is laid out anew *)
      assert (es' <> []) as Hne by (intros Hnil; unfold k in Hpos; rewrite Hnil in Hpos;
                                    cbn [length] in Hpos; lia).
      assert (edges_ok es') as Hok' by (by apply increasing_from_keep).
      assert (k < 2 ^ 32) as Hk32 by (specialize (Hst (num_blocks_of vd)); lia).
      rewrite wrap32_id by lia.
      destruct (repack_region m2 base src vd addr E' par Hreg2) as (m3 & Hrp & Hreg3).
      * by rewrite HE'.
      * rewrite HE'. apply (layout_fits base src es' vd); (done || lia).
      * rewrite HE' in Hrp, Hreg3. fold k in Hrp, Hreg3.
        rewrite Hrp. cbn [mbind option_bind].
        exists m3. split; [done|]. eexists. exact Hreg3.
    + (* no edge stays: [repack] returns at once *)
      assert (k = 0) as Hk' by lia. rewrite Hk'.
      unfold repack. change (wrap32 0) with 0. rewrite Z.ltb_irrefl.
      cbn [mbind option_bind].
      exists m2. split; [done|]. eexists. exact Hreg2.
  - rewrite andb_false_r. cbn [mbind option_bind].
    exists m2. split; [done|]. eexists. exact Hreg2.
Qed.

End pack_region.

(** ** Encoded neighbour lists *)

Section encoded.
Context {W : Type} {HW : Weight W} {HWok : WeightOk W}.
Implicit Types (es : list (Z * W)) (E : Z -> list (Z * W)).

(** Every encoded neighbour list is a region. *)
Lemma Encoded_region m base src vd E :
  Encoded m base src vd E -> region m base src vd E.
Proof.
  induction 1 as [m0 base src es m off Hsrc Hok Hne Henc Hfit
                 | m base src vd E p par m' k HEnc [addr Hreg] Hpack].
  - destruct (encoder_region m0 base src es m off Hsrc Hok Hne Henc Hfit)
      as (Hreg & _). eexists. exact Hreg.
  - assert (num_blocks_of vd <> block_cts_stack_size) as H100.
    { intros H100. revert Hpack. unfold pack.
      destruct Hreg as (_ & _ & -> & _). rewrite H100.
      destruct (pack_blocks _ _ _ _ _ _ _ _ _) as [[m1 cts]|]; [|done].
      cbn [mbind option_bind]. by rewrite Z.eqb_refl. }
    destruct (pack_region p m base src vd addr E par Hreg H100)
      as (m'' & Hpack' & Hres).
    rewrite Hpack in Hpack'. injection Hpack' as <- ->.
    by destruct (_ && _).
Qed.

(** [pack] is defined on every encoded neighbour list; it returns the number
    of edges that satisfy the predicate. *)
Lemma pack_Encoded pred m base src vd E par :
  Encoded m base src vd E -> num_blocks_of vd <> block_cts_stack_size ->
  exists m',
    pack pred m base src (Z.of_nat (length (edges_of vd E))) par =
      Some (m', Z.of_nat (length (keep pred src (edges_of vd E)))).
Proof.
  intros [addr Hreg]%Encoded_region H100.
  destruct (pack_region pred m base src vd addr E par Hreg H100) as (m' & Hpack & _).
  by exists m'.
Qed.

(** with exactly 100 blocks [pack] runs past [block_cts_stack] *)
Lemma pack_100_blocks pred m base src degree par :
  num_blocks_of (load32 m base) = block_cts_stack_size ->
  pack pred m base src degree par = None.
Proof.
  intros H100. unfold pack. rewrite H100.
  destruct (pack_blocks _ _ _ _ _ _ _ _ _) as [[m1 cts]|]; [|done].
  cbn [mbind option_bind]. by rewrite Z.eqb_refl.
Qed.

(** what a [pack] that completes returns *)
Lemma pack_Encoded_result pred m base src vd E par m' k :
  Encoded m base src vd E ->
  pack pred m base src (Z.of_nat (length (edges_of vd E))) par = Some (m', k) ->
  num_blocks_of vd <> block_cts_stack_size /\
  k = Z.of_nat (length (keep pred src (edges_of vd E))).
Proof.
  intros HEnc Hpack.
  assert (num_blocks_of vd <> block_cts_stack_size) as H100.
  { intros H100. apply Encoded_region in HEnc as [addr (_ & _ & Hload & _)].
    rewrite <- Hload in H100.
    by rewrite (pack_100_blocks pred m base src _ par H100) in Hpack. }
  split; [done|].
  destruct (pack_Encoded pred m base src vd E par HEnc H100) as (m'' & Hpack').
  rewrite Hpack in Hpack'. by injection Hpack' as _ ->.
Qed.

(** the list an encoded neighbour list holds after a [pack] *)
Lemma edges_of_pack pred src vd E :
  edges_ok (edges_of vd E) -> vd < 2 ^ 32 ->
  let es' := keep pred src (edges_of vd E) in
  let k := Z.of_nat (length es') in
  edges_of (if (0 <? k) && (k <? vd / 10) then k else vd)
           (if (0 <? k) && (k <? vd / 10) then chunk_of es'
            else fun i => keep pred src (E i)) = es'.
Proof.
  intros Hok Hvd es' k.
  destruct (Z.ltb_spec 0 k), (Z.ltb_spec k (vd / 10)); cbn [andb];
    try (unfold edges_of; by rewrite flat_keep).
  apply edges_of_chunk_of.
  - intros Hnil. unfold k in *. rewrite Hnil in *. cbn [length] in *. lia.
  - fold k. Z.to_euclidean_division_equations. lia.
Qed.

Lemma region_edges_ok m base src vd E :
  region m base src vd E -> edges_ok (edges_of vd E) /\ 1 <= vd < 2 ^ 32.
Proof. by intros [addr (_ & ? & _ & _ & _ & _ & _ & _ & ?)]. Qed.

(** the weighted [decode] with the recording callback yields the list *)
Lemma decode_collect_region m base src vd E par :
  region m base src vd E ->
  decode collect m base src (Z.of_nat (length (edges_of vd E))) par [] =
    Some (calls_of src (edges_of vd E) 0).
Proof.
  intros [addr Hreg].
  rewrite length_edges_of, (decode_region collect _ _ _ _ _ _ Hreg).
  rewrite <- length_edges_of.
  pose proof (run_until_false_collect src E (nblocks vd) 0 [] ltac:(lia)) as Hrun.
  change (Z.to_nat 0) with 0%nat in Hrun. cbn [app flat Nat.add calls_of] in Hrun.
  rewrite Hrun. fold (edges_of vd E).
  destruct (edges_of vd E); [done|]. cbn [length].
  by replace (0 <? _) with true by bool_lia.
Qed.

End encoded.

Lemma decode_unweighted_collect_region m base src vd (E : Z -> list (Z * unit)) par :
  region m base src vd E ->
  decode_unweighted collect m base src (Z.of_nat (length (edges_of vd E))) par [] =
    Some (calls_of src (edges_of vd E) 0).
Proof.
  intros [addr Hreg].
  rewrite length_edges_of, (decode_unweighted_region collect _ _ _ _ _ _ Hreg).
  rewrite <- length_edges_of.
  rewrite run_first_then_each_collect. cbn [app]. fold (edges_of vd E).
  destruct (edges_of vd E); [done|]. cbn [length].
  by replace (0 <? _) with true by bool_lia.
Qed.

(** ** Pack preserves semantics *)

(** Pack preserves semantics where it completes: for every encoded
    neighbour list (unit
    weights, or signed 32-bit weights) and every predicate [pred], where
    [decode] with the recording callback yields the edges [es], a [pack] that
    completes returns the number of edges of [es] that satisfy [pred], and
    [decode] on the (possibly repacked) region then yields exactly the edges
    [(n, w)] of [es] with [pred src n w], in the same relative order.
    [pack] completes on every encoded list but those of exactly 100 blocks,
    where it runs past [block_cts_stack]. *)
Theorem pack_preserves_semantics :
  (forall (m : mem) (edge_start src vd : Z) (E : Z -> list (Z * unit))
          (pred : Z -> Z -> unit -> bool) (par parallel : bool),
     Encoded m edge_start src vd E ->
     let es := edges_of vd E in
     let es' := keep pred src es in
     decode_unweighted collect m edge_start src (Z.of_nat (length es)) parallel []
       = Some (calls_of src es 0) /\
     (num_blocks_of vd <> block_cts_stack_size ->
      exists m',
        pack pred m edge_start src (Z.of_nat (length es)) par
          = Some (m', Z.of_nat (length es'))) /\
     (forall m' k,
        pack pred m edge_start src (Z.of_nat (length es)) par = Some (m', k) ->
        k = Z.of_nat (length es') /\
        decode_unweighted collect m' edge_start src k parallel []
          = Some (calls_of src es' 0))) /\
  (forall (m : mem) (edge_start src vd : Z) (E : Z -> list (Z * Z))
          (pred : Z -> Z -> Z -> bool) (par parallel : bool),
     Encoded m edge_start src vd E ->
     let es := edges_of vd E in
     let es' := keep pred src es in
     decode collect m edge_start src (Z.of_nat (length es)) parallel []
       = Some (calls_of src es 0) /\
     (num_blocks_of vd <> block_cts_stack_size ->
      exists m',
        pack pred m edge_start src (Z.of_nat (length es)) par
          = Some (m', Z.of_nat (length es'))) /\
     (forall m' k,
        pack pred m edge_start src (Z.of_nat (length es)) par = Some (m', k) ->
        k = Z.of_nat (length es') /\
        decode collect m' edge_start src k parallel []
          = Some (calls_of src es' 0))).
Proof.
  split; intros m base src vd E pred par parallel HEnc es es'.
  - pose proof (Encoded_region _ _ _ _ _ HEnc) as Hreg.
    destruct (region_edges_ok _ _ _ _ _ Hreg) as [Hok Hvd].
    split; [by apply decode_unweighted_collect_region|].
    split; [by apply pack_Encoded|].
    intros m' k Hpack.
    destruct (pack_Encoded_result _ _ _ _ _ _ _ _ _ HEnc Hpack) as [_ ->].
    split; [done|].
    pose proof (Encoded_region _ _ _ _ _ (Encoded_pack _ _ _ _ _ _ _ _ _ HEnc Hpack))
      as Hreg'.
    apply (decode_unweighted_collect_region _ _ _ _ _ parallel) in Hreg'.
    by rewrite (edges_of_pack pred src vd E Hok ltac:(lia)) in Hreg'.
  - pose proof (Encoded_region _ _ _ _ _ HEnc) as Hreg.
    destruct (region_edges_ok _ _ _ _ _ Hreg) as [Hok Hvd].
    split; [by apply decode_collect_region|].
    split; [by apply pack_Encoded|].
    intros m' k Hpack.
    destruct (pack_Encoded_result _ _ _ _ _ _ _ _ _ HEnc Hpack) as [_ ->].
    split; [done|].
    pose proof (Encoded_region _ _ _ _ _ (Encoded_pack _ _ _ _ _ _ _ _ _ HEnc Hpack))
      as Hreg'.
    apply (decode_collect_region _ _ _ _ _ parallel) in Hreg'.
    by rewrite (edges_of_pack pred src vd E Hok ltac:(lia)) in Hreg'.
Qed.

(** the scenarios' lists are valid neighbour lists, and their codes are
    encoded neighbour lists *)
Lemma increasing_unit_edges n : forall a,
  0 <= a -> a + Z.of_nat n <= 2 ^ 32 ->
  increasing_from (a - 1) (examples.unit_edges a n).
Proof.
  unfold examples.unit_edges.
  induction n as [|n IH]; intros a Ha Hfit; [done|].
  rewrite (seqZ_cons a (Z.of_nat (S n))) by lia. cbn [map increasing_from].
  split; [lia|]. split; [done|].
  replace (Z.pred (Z.of_nat (S n))) with (Z.of_nat n) by lia.
  replace a with (Z.succ a - 1) at 1 by lia. apply IH; lia.
Qed.

Lemma increasing_int_edges n : forall a,
  0 <= a -> a + Z.of_nat n <= 2 ^ 32 ->
  increasing_from (a - 1) (examples.int_edges a n).
Proof.
  unfold examples.int_edges.
  induction n as [|n IH]; intros a Ha Hfit; [done|].
  rewrite (seqZ_cons a (Z.of_nat (S n))) by lia. cbn [map increasing_from].
  split; [lia|]. split; [cbn; unfold is_intE; lia|].
  replace (Z.pred (Z.of_nat (S n))) with (Z.of_nat n) by lia.
  replace a with (Z.succ a - 1) at 1 by lia. apply IH; lia.
Qed.

Lemma Encoded_encode {W : Type} {HW : Weight W} {HWok : WeightOk W}
    (m0 : mem) (edgeArray src : Z) (es : list (Z * W)) :
  is_uintE src -> edges_ok es -> es <> [] ->
  snd (sequentialCompressEdgeSet m0 edgeArray 0 (Z.of_nat (length es)) src es) < 2 ^ 32 ->
  Encoded (examples.encode m0 edgeArray src es) edgeArray src
    (Z.of_nat (length es)) (chunk_of es).
Proof.
  intros Hsrc Hok Hne Hfit.
  eapply Encoded_fresh; try done. apply surjective_pairing.
Qed.

Lemma pack_preserves_semantics_witness :
  let src := 1 in
  let l := examples.unit_edges 1 2500 in
  let vd := Z.of_nat (length l) in
  let m := examples.encode zero_mem 0 src l in
  let es := edges_of vd (chunk_of l) in
  let es' := keep examples.odd_ngh src es in
  decode_unweighted collect m 0 src (Z.of_nat (length es)) true []
    = Some (calls_of src es 0) /\
  (num_blocks_of vd <> block_cts_stack_size ->
   exists m',
     pack examples.odd_ngh m 0 src (Z.of_nat (length es)) true
       = Some (m', Z.of_nat (length es'))) /\
  (forall m' k,
     pack examples.odd_ngh m 0 src (Z.of_nat (length es)) true = Some (m', k) ->
     k = Z.of_nat (length es') /\
     decode_unweighted collect m' 0 src k true [] = Some (calls_of src es' 0)).
Proof.
  apply (proj1 pack_preserves_semantics
           (examples.encode zero_mem 0 1 (examples.unit_edges 1 2500)) 0 1
           (Z.of_nat (length (examples.unit_edges 1 2500)))
           (chunk_of (examples.unit_edges 1 2500)) examples.odd_ngh true true).
  apply Encoded_encode.
  - unfold is_uintE. lia.
  - apply (increasing_from_weaken _ (1 - 1)); [lia|].
    apply increasing_unit_edges; lia.
  - discriminate.
  - vm_compute. reflexivity.
Defined.

(** ** Pack on a list of exactly 100 blocks *)

(** the encoder's end offset fits 32 bits for every list of up to [10 ^ 8]
    edges *)
Lemma encoder_offset_fits {W : Type} {HW : Weight W} {HWok : WeightOk W}
    (m0 : mem) (base src : Z) (es : list (Z * W)) :
  is_uintE src -> edges_ok es -> es <> [] ->
  Z.of_nat (length es) <= 10 ^ 8 ->
  snd (sequentialCompressEdgeSet m0 base 0 (Z.of_nat (length es)) src es) < 2 ^ 32.
Proof.
  intros Hsrc Hok Hne Hlen.
  set (d := Z.of_nat (length es)) in *.
  set (B := 1 + (d - 1) / PARALLEL_DEGREE).
  set (addr := addr_of src (chunk_of es) (base + 4 * B)).
  assert (1 <= d) as Hd1 by (unfold d; destruct es; [done|cbn [length]; lia]).
  pose proof (Z.div_pos (d - 1) PARALLEL_DEGREE ltac:(lia) ltac:(done)) as HBpos.
  assert (snd (sequentialCompressEdgeSet m0 base 0 d src es) = addr B - base) as ->.
  { unfold sequentialCompressEdgeSet. fold B.
    replace (0 <? d) with true by bool_lia.
    replace (0 + (sizeof_uintE + (B - 1) * sizeof_uintE)) with (addr 0 - base)
      by (unfold addr; rewrite addr_of_0; unfold sizeof_uintE; lia).
    apply (compress_blocks_offset src base es (Z.to_nat B) 0 (store32 m0 base d) es
             Hsrc Hok); [fold d; lia | fold d; fold B; lia | lia | by intros _]. }
  pose proof (edges_of_chunk_of es Hne ltac:(fold d; lia)) as Hflat.
  unfold edges_of, nblocks in Hflat.
  destruct (num_blocks_of_pos d ltac:(lia)) as [HB HB1].
  fold d in Hflat. rewrite HB in Hflat.
  change (1 + (d - 1) / 1000) with B in Hflat.
  pose proof (layout_addr_bound src (chunk_of es) (base + 4 * B) (Z.to_nat B) Hsrc
                ltac:(by rewrite Hflat)) as Hb.
  rewrite Hflat in Hb. fold d in Hb.
  pose proof (last_ngh_lt es (-1) ltac:(lia) Hok).
  unfold addr, addr_of.
  assert (B <= d / 1000 + 1) by
    (unfold B, PARALLEL_DEGREE; Z.to_euclidean_division_equations; lia).
  assert (d / 1000 <= 10 ^ 5) by (Z.to_euclidean_division_equations; lia).
  lia.
Qed.

(** C2. Pack on a list of exactly 100 blocks.  The neighbours 1, ...,
    100000 of vertex 0 are encoded at address 0: an encoded neighbour list
    of virtual degree 100000, in 100 blocks, which [decode] yields in order.
    [pack] takes [block_cts_stack], of 100 entries, for [block_cts] unless
    [num_blocks > 100], and then writes and scans the [num_blocks + 1]
    entries [block_cts[0 .. num_blocks]]: on this list, whatever the
    predicate, [block_cts[100]] lies past the end of the array, and [pack]
    has no defined result. *)
Theorem pack_100_blocks_overrun :
  let src := 0 in
  let l := examples.unit_edges 1 (Z.to_nat 100000) in
  let m := examples.encode zero_mem 0 src l in
  Encoded m 0 src 100000 (chunk_of l) /\
  edges_of 100000 (chunk_of l) = l /\
  (forall parallel : bool,
     decode_unweighted collect m 0 src 100000 parallel [] = Some (calls_of src l 0)) /\
  num_blocks_of (load32 m 0) = block_cts_stack_size /\
  forall (pred : Z -> Z -> unit -> bool) (par : bool),
    pack pred m 0 src 100000 par = None.
Proof.
  intros src l m.
  assert (Z.of_nat (length l) = 100000) as Hlen.
  { unfold l, examples.unit_edges. rewrite length_map, length_seqZ. lia. }
  assert (is_uintE src) as Hsrc by (unfold is_uintE, src; lia).
  assert (edges_ok l) as Hok.
  { apply (increasing_from_weaken _ (1 - 1)); [lia|].
    apply increasing_unit_edges; lia. }
  assert (l <> []) as Hne.
  { intros Hnil. rewrite Hnil in Hlen. cbn [length] in Hlen. lia. }
  pose proof (Encoded_encode zero_mem 0 src l Hsrc Hok Hne
                (encoder_offset_fits zero_mem 0 src l Hsrc Hok Hne ltac:(lia))) as HEnc.
  fold m in HEnc.
  pose proof (edges_of_chunk_of l Hne ltac:(lia)) as Heo.
  pose proof (fun par => decode_unweighted_collect_region m 0 src _ _ par
                           (Encoded_region _ _ _ _ _ HEnc)) as Hdec.
  rewrite Heo in Hdec. rewrite Hlen in HEnc, Heo, Hdec.
  assert (load32 m 0 = 100000) as Hload.
  { destruct (Encoded_region _ _ _ _ _ HEnc) as (addr & _ & _ & Hload & _). done. }
  split; [done|]. split; [done|]. split; [done|].
  rewrite Hload.
  split; [reflexivity|].
  intros pred par. apply pack_100_blocks. rewrite Hload. reflexivity.
Qed.

(** ** Decode and a callback that answers [false] *)

Section runs.
Context {W : Type} {S : Type}.
Variable t : Z -> Z -> W -> Z -> S -> bool * S.
Implicit Types (E : Z -> list (Z * W)).

Lemma flat_nil E n :
  flat E n = [] -> forall i, 0 <= i < Z.of_nat n -> E i = [].
Proof.
  induction n as [|n IH]; intros Hnil i Hi; [lia|].
  cbn [flat] in Hnil. apply app_eq_nil in Hnil as [Hnil1 Hnil2].
  destruct (Z.eq_dec i (Z.of_nat n)) as [->|]; [done|]. apply IH; [done|lia].
Qed.

Lemma run_until_false_nil src E n : forall k s,
  (forall i, k <= i < k + Z.of_nat n -> E i = []) ->
  run_until_false t src E n k s = s.
Proof.
  induction n as [|n IH]; intros k s Hnil; [done|].
  cbn [run_until_false]. rewrite (Hnil k) by lia. cbn [run_block].
  apply IH. intros. apply Hnil. lia.
Qed.

Lemma run_each_block_nil src E n : forall k s,
  (forall i, k <= i < k + Z.of_nat n -> E i = []) ->
  run_each_block t src E n k s = s.
Proof.
  induction n as [|n IH]; intros k s Hnil; [done|].
  cbn [run_each_block]. rewrite (Hnil k) by lia. cbn [run_block snd].
  apply IH. intros. apply Hnil. lia.
Qed.

Lemma run_first_then_each_nil src E n s :
  (forall i, 0 <= i < Z.of_nat n -> E i = []) ->
  run_first_then_each t src E n s = s.
Proof.
  destruct n as [|n]; intros Hnil; [done|].
  cbn [run_first_then_each]. rewrite (Hnil 0) by lia. cbn [run_block].
  apply run_each_block_nil. intros. apply Hnil. lia.
Qed.

End runs.

(** C4, as stated: a [false] from the callback ends the block of the edge
    and no other block.  Refuted on the neighbours 1, ..., 1001 of vertex 0
    (two blocks) with a callback that counts its calls and always answers
    [false]: the decode of the source makes one call, where the statement
    asks for one call in each of the two blocks. *)
Lemma decode_short_circuit_counterexample :
  ~ (forall (t : Z -> Z -> unit -> Z -> Z -> bool * Z) (m : mem)
            (edge_start src vd : Z) (E : Z -> list (Z * unit)) (parallel : bool) (s : Z),
       Encoded m edge_start src vd E ->
       decode_unweighted t m edge_start src (Z.of_nat (length (edges_of vd E)))
         parallel s
       = Some (run_each_block t src E (nblocks vd) 0 s)) /\
  ~ (forall (t : Z -> Z -> Z -> Z -> Z -> bool * Z) (m : mem)
            (edge_start src vd : Z) (E : Z -> list (Z * Z)) (par : bool) (s : Z),
       Encoded m edge_start src vd E ->
       decode t m edge_start src (Z.of_nat (length (edges_of vd E))) par s
       = Some (run_each_block t src E (nblocks vd) 0 s)).
Proof.
  split; intros Hclaim.
  - specialize (Hclaim examples.count_and_stop
                  (examples.encode zero_mem 0 0 (examples.unit_edges 1 1001)) 0 0
                  (Z.of_nat (length (examples.unit_edges 1 1001)))
                  (chunk_of (examples.unit_edges 1 1001)) true 0).
    assert (Encoded (examples.encode zero_mem 0 0 (examples.unit_edges 1 1001)) 0 0
              (Z.of_nat (length (examples.unit_edges 1 1001)))
              (chunk_of (examples.unit_edges 1 1001))) as HEnc.
    { apply Encoded_encode.
      - unfold is_uintE. lia.
      - apply (increasing_from_weaken _ (1 - 1)); [lia|].
        apply increasing_unit_edges; lia.
      - discriminate.
      - vm_compute. reflexivity. }
    specialize (Hclaim HEnc). vm_compute in Hclaim. discriminate.
  - specialize (Hclaim examples.count_and_stop
                  (examples.encode zero_mem 0 0 (examples.int_edges 1 1001)) 0 0
                  (Z.of_nat (length (examples.int_edges 1 1001)))
                  (chunk_of (examples.int_edges 1 1001)) true 0).
    assert (Encoded (examples.encode zero_mem 0 0 (examples.int_edges 1 1001)) 0 0
              (Z.of_nat (length (examples.int_edges 1 1001)))
              (chunk_of (examples.int_edges 1 1001))) as HEnc.
    { apply Encoded_encode.
      - unfold is_uintE. lia.
      - apply (increasing_from_weaken _ (1 - 1)); [lia|].
        apply increasing_int_edges; lia.
      - discriminate.
      - vm_compute. reflexivity. }
    specialize (Hclaim HEnc). vm_compute in Hclaim. discriminate.
Qed.

(** C4, amended.  Decode short-circuit: for every encoded neighbour list and
    every callback, the integer-weighted [decode] passes the edges to the
    callback in order, block after block, and returns at the first [false]:
    no later edge of any block is passed.  The unweighted [decode] returns
    at a [false] in the first block as well; a [false] on an edge of a later
    block skips only the remaining edges of that block, the blocks after it
    are still decoded. *)
Theorem decode_short_circuit :
  (forall (S : Type) (t : Z -> Z -> unit -> Z -> S -> bool * S) (m : mem)
          (edge_start src vd : Z) (E : Z -> list (Z * unit)) (parallel : bool) (s : S),
     Encoded m edge_start src vd E ->
     decode_unweighted t m edge_start src (Z.of_nat (length (edges_of vd E)))
       parallel s
     = Some (run_first_then_each t src E (nblocks vd) s)) /\
  (forall (S : Type) (t : Z -> Z -> Z -> Z -> S -> bool * S) (m : mem)
          (edge_start src vd : Z) (E : Z -> list (Z * Z)) (par : bool) (s : S),
     Encoded m edge_start src vd E ->
     decode t m edge_start src (Z.of_nat (length (edges_of vd E))) par s
     = Some (run_until_false t src E (nblocks vd) 0 s)).
Proof.
  split; intros S t m base src vd E par s [addr Hreg]%Encoded_region.
  - rewrite length_edges_of, (decode_unweighted_region t _ _ _ _ _ _ Hreg).
    rewrite <- length_edges_of.
    destruct (edges_of vd E) eqn:Hes; cbn [length];
      [|by replace (0 <? _) with true by bool_lia].
    rewrite run_first_then_each_nil; [done|].
    intros i Hi. by apply (flat_nil E (nblocks vd)).
  - rewrite length_edges_of, (decode_region t _ _ _ _ _ _ Hreg).
    rewrite <- length_edges_of.
    destruct (edges_of vd E) eqn:Hes; cbn [length];
      [|by replace (0 <? _) with true by bool_lia].
    rewrite run_until_false_nil; [done|].
    intros i Hi. apply (flat_nil E (nblocks vd)); [done|lia].
Qed.

Lemma decode_short_circuit_witness :
  let l := examples.unit_edges 1 1001 in
  let vd := Z.of_nat (length l) in
  decode_unweighted examples.count_and_stop (examples.encode zero_mem 0 0 l) 0 0
    (Z.of_nat (length (edges_of vd (chunk_of l)))) true 0
  = Some (run_first_then_each examples.count_and_stop 0 (chunk_of l) (nblocks vd) 0).
Proof.
  apply (proj1 decode_short_circuit Z examples.count_and_stop
           (examples.encode zero_mem 0 0 (examples.unit_edges 1 1001)) 0 0
           (Z.of_nat (length (examples.unit_edges 1 1001)))
           (chunk_of (examples.unit_edges 1 1001)) true 0).
  apply Encoded_encode.
  - unfold is_uintE. lia.
  - apply (increasing_from_weaken _ (1 - 1)); [lia|].
    apply increasing_unit_edges; lia.
  - discriminate.
  - vm_compute. reflexivity.
Defined.

(** ** Repack: trigger and shape *)

Lemma region_load {W : Type} {HW : Weight W} {HWok : WeightOk W}
    m base src vd (E : Z -> list (Z * W)) :
  region m base src vd E -> load32 m base = vd.
Proof. by intros [addr (_ & _ & ? & _)]. Qed.

(** C5, as stated: whenever the surviving degree is below a tenth of the
    virtual degree, the stored virtual degree becomes the surviving degree.
    Refuted on the neighbours 1, ..., 10 of vertex 0 with a predicate that
    removes every edge: [repack] is called with degree 0 and returns at
    once, and the stored virtual degree stays 10. *)
Lemma repack_trigger_counterexample :
  ~ (forall (m : mem) (edge_start src vd : Z) (E : Z -> list (Z * unit))
            (pred : Z -> Z -> unit -> bool) (par : bool) (m' : mem) (k : Z),
       Encoded m edge_start src vd E ->
       pack pred m edge_start src (Z.of_nat (length (edges_of vd E))) par
         = Some (m', k) ->
       k < vd / 10 ->
       load32 m' edge_start = k).
Proof.
  intros Hclaim.
  assert (Encoded (examples.encode zero_mem 0 0 (examples.unit_edges 1 10)) 0 0
            (Z.of_nat (length (examples.unit_edges 1 10)))
            (chunk_of (examples.unit_edges 1 10))) as HEnc.
  { apply Encoded_encode.
    - unfold is_uintE. lia.
    - apply (increasing_from_weaken _ (1 - 1)); [lia|].
      apply increasing_unit_edges; lia.
    - discriminate.
    - vm_compute. reflexivity. }
  destruct (pack_Encoded examples.none _ 0 0 _ _ true HEnc) as (m' & Hpack);
    [vm_compute; discriminate|].
  specialize (Hclaim _ _ _ _ _ _ _ _ _ HEnc Hpack ltac:(vm_compute; reflexivity)).
  pose proof (region_load _ _ _ _ _
                (Encoded_region _ _ _ _ _ (Encoded_pack _ _ _ _ _ _ _ _ _ HEnc Hpack)))
    as Hload.
  rewrite Hclaim in Hload. vm_compute in Hload. discriminate.
Qed.

(** C5, amended.  Repack trigger and shape: a call to [pack] on an encoded
    neighbour list with stored virtual degree [vd] that leaves [k] edges
    lays the region out anew exactly when [0 < k < vd / 10]: the stored
    virtual degree is then [k], the region has [ceil (k / P)] blocks
    ([P = 1000]), and block [i] holds the surviving edges
    [i * P .. min ((i + 1) * P, k)), so every block but the last holds
    exactly [P] edges.  Otherwise (also when [k = 0], where [repack] is
    called and returns at once) the stored virtual degree and the blocks stay,
    each block holding its surviving edges.  (On a list of exactly 100
    blocks [pack] runs past [block_cts_stack].) *)
Theorem repack_trigger_and_shape :
  forall (W : Type) (HW : Weight W) (HWok : WeightOk W)
         (m : mem) (edge_start src vd : Z) (E : Z -> list (Z * W))
         (pred : Z -> Z -> W -> bool) (par : bool),
    Encoded m edge_start src vd E ->
    num_blocks_of vd <> block_cts_stack_size ->
    let es' := keep pred src (edges_of vd E) in
    let k := Z.of_nat (length es') in
    load32 m edge_start = vd /\
    exists m',
      pack pred m edge_start src (Z.of_nat (length (edges_of vd E))) par
        = Some (m', k) /\
      if (0 <? k) && (k <? vd / 10)
      then load32 m' edge_start = k /\
           num_blocks_of k = (k + PARALLEL_DEGREE - 1) / PARALLEL_DEGREE /\
           region m' edge_start src k (chunk_of es') /\
           (forall i, 0 <= i < num_blocks_of k ->
              Z.of_nat (length (chunk_of es' i))
              = Z.min PARALLEL_DEGREE (k - i * PARALLEL_DEGREE))
      else load32 m' edge_start = vd /\
           region m' edge_start src vd (fun i => keep pred src (E i)).
Proof.
  intros W HW HWok m base src vd E pred par HEnc H100 es' k.
  pose proof (Encoded_region _ _ _ _ _ HEnc) as Hreg.
  split; [by apply region_load in Hreg|].
  destruct Hreg as [addr Hreg].
  destruct (pack_region pred m base src vd addr E par Hreg H100)
    as (m' & Hpack & Hres).
  fold es' k in Hpack, Hres.
  exists m'. split; [done|].
  destruct (Z.ltb_spec 0 k) as [Hpos|], (Z.ltb_spec k (vd / 10)) as [Hlt|];
    cbn [andb] in *; try (split; [by apply region_load in Hres|done]).
  destruct (region_edges_ok _ _ _ _ _ Hres) as [_ Hk].
  destruct (num_blocks_of_pos k Hk) as [HB _].
  split; [by apply region_load in Hres|]. split; [|split; [done|]].
  - rewrite HB. unfold PARALLEL_DEGREE.
    replace (k + 1000 - 1) with (k - 1 + 1 * 1000) by lia.
    rewrite Z.div_add by lia. lia.
  - intros i Hi. rewrite chunk_of_length by lia. fold k.
    pose proof (blocks_bound k i ltac:(lia)
                  ltac:(rewrite HB in Hi; unfold PARALLEL_DEGREE; lia)).
    unfold PARALLEL_DEGREE in *. lia.
Qed.

Lemma repack_trigger_and_shape_witness :
  let l := examples.unit_edges 1 2500 in
  let vd := Z.of_nat (length l) in
  let m := examples.encode zero_mem 0 0 l in
  let es' := keep (examples.below 200) 0 (edges_of vd (chunk_of l)) in
  let k := Z.of_nat (length es') in
  load32 m 0 = vd /\
  exists m',
    pack (examples.below 200) m 0 0 (Z.of_nat (length (edges_of vd (chunk_of l)))) true
      = Some (m', k) /\
    if (0 <? k) && (k <? vd / 10)
    then load32 m' 0 = k /\
         num_blocks_of k = (k + PARALLEL_DEGREE - 1) / PARALLEL_DEGREE /\
         region m' 0 0 k (chunk_of es') /\
         (forall i, 0 <= i < num_blocks_of k ->
            Z.of_nat (length (chunk_of es' i))
            = Z.min PARALLEL_DEGREE (k - i * PARALLEL_DEGREE))
    else load32 m' 0 = vd /\
         region m' 0 0 vd (fun i => keep (examples.below 200) 0 (chunk_of l i)).
Proof.
  apply (repack_trigger_and_shape unit _ _
           (examples.encode zero_mem 0 0 (examples.unit_edges 1 2500)) 0 0
           (Z.of_nat (length (examples.unit_edges 1 2500)))
           (chunk_of (examples.unit_edges 1 2500)) (examples.below 200) true).
  - apply Encoded_encode.
    + unfold is_uintE. lia.
    + apply (increasing_from_weaken _ (1 - 1)); [lia|].
      apply increasing_unit_edges; lia.
    + discriminate.
    + vm_compute. reflexivity.
  - vm_compute. discriminate.
Defined.

(** ** Random access *)

(** C3. Random access against decode, on scenario S5 (the neighbours
    [3, 7, 7 + 2^15, 7 + 2^15 + 1] of vertex 0, unit weights): [decode]
    yields the four edges in order, and [get_ith_neighbor] returns the
    edge of index [i] for [i = 0] only; for [i = 1, 2, 3] it returns the
    edge of index [i - 1], its loop [for (edgeID = start + 1; edgeID < i;
    edgeID++)] stopping one edge short. *)
Theorem get_ith_neighbor_S5 :
  let m := examples.encode zero_mem 0 0 examples.S5_edges in
  decode_unweighted collect m 0 0 4 true []
    = Some [(0, 3, tt, 0); (0, 7, tt, 1); (0, 7 + 2 ^ 15, tt, 2);
            (0, 7 + 2 ^ 15 + 1, tt, 3)] /\
  get_ith_neighbor m 0 0 4 0 = Some (3, tt) /\
  get_ith_neighbor m 0 0 4 1 = Some (3, tt) /\
  get_ith_neighbor m 0 0 4 2 = Some (7, tt) /\
  get_ith_neighbor m 0 0 4 3 = Some (7 + 2 ^ 15, tt).
Proof. vm_compute. repeat split. Qed.

(** ** Intersection *)

(** C6. Intersection on a packed list.  The neighbours 1, ..., 2000 of
    vertex 0 are encoded at address 0 and packed with a predicate that
    removes the neighbour 1000; 1999 edges stay and the region is not laid
    out anew.  The single neighbour 1000 of vertex 5 is encoded at address
    100000.  Decoding shows that the two lists have no neighbour in common,
    and [intersect] and [intersect_f] return 1: block 0 now holds 999 edges,
    the iterator takes it to hold [PARALLEL_DEGREE] and reads the octet the
    removed edge left behind. *)
Theorem intersect_packed :
  let A := examples.encode zero_mem 0 0 (examples.unit_edges 1 2000) in
  let packed := pack (examples.all_but 1000) A 0 0 2000 true in
  fmap snd packed = Some 1999 /\
  (r ← packed;
   decode_unweighted collect (examples.encode (fst r) 100000 5 [(1000, tt)])
     0 0 1999 true [])
  = Some (calls_of 0 (examples.unit_edges 1 999 ++ examples.unit_edges 1001 1000) 0) /\
  (r ← packed;
   decode_unweighted collect (examples.encode (fst r) 100000 5 [(1000, tt)])
     100000 5 1 true [])
  = Some [(5, 1000, tt, 0)] /\
  (r ← packed;
   intersect (W := unit) (examples.encode (fst r) 100000 5 [(1000, tt)])
     0 100000 1999 1 0 5)
  = Some 1 /\
  (r ← packed;
   intersect_f (W := unit) (fun _ _ ngh s => s ++ [ngh])
     (examples.encode (fst r) 100000 5 [(1000, tt)]) 0 100000 1999 1 0 5 [])
  = Some (1, [1000]).
Proof. vm_compute. repeat split. Qed.

(** ** Weighted BFS on a graph without integer weights *)

(** with [NDEBUG] defined the [assert] is empty, and the overload returns
    an array of [INT_E_MAX], which holds no distance *)
Lemma wBFS_other_NDEBUG wBFS_int32_t W G src num_buckets largemem no_blocked :
  W <> wbfs.int32_t ->
  wbfs.wBFS true wBFS_int32_t W G src num_buckets largemem no_blocked
  = Returns (wbfs.all_INT_E_MAX G).
Proof. intros HW. destruct W; [by destruct HW | done | done]. Qed.

(** C9. Weighted BFS on an unweighted graph: for every graph whose weight
    type is not the signed 32-bit integer, [wBFS] resolves to the overload
    whose body is [assert(false)]; in a build with assertions ([NDEBUG] not
    defined) the call aborts with the assertion's diagnostic and returns no
    distances. *)
Theorem wBFS_unweighted_aborts :
  forall (wBFS_int32_t : wbfs.graph -> Z -> Z -> bool -> bool -> outcome (list Z))
         (W : wbfs.weight_type) (G : wbfs.graph) (src num_buckets : Z)
         (largemem no_blocked : bool),
    W <> wbfs.int32_t ->
    wbfs.wBFS false wBFS_int32_t W G src num_buckets largemem no_blocked
    = Aborts "Assertion `false' failed.".
Proof. intros f W G src nb lm nbk HW. destruct W; [by destruct HW | done | done]. Qed.

Lemma wBFS_unweighted_aborts_witness :
  wbfs.wBFS false (fun _ _ _ _ _ => Returns []) wbfs.pbbs_empty
    {| wbfs.n := 6 |} 0 128 false false
  = Aborts "Assertion `false' failed.".
Proof.
  apply (wBFS_unweighted_aborts (fun _ _ _ _ _ => Returns []) wbfs.pbbs_empty
           {| wbfs.n := 6 |} 0 128 false false).
  discriminate.
Defined.

(** ** BFS: every parent is assigned at most once *)

Section bfs_run.
Variable GA : bfs.graph.

Lemma member_In x l : bfs.member x l = true <-> In x l.
Proof.
  unfold bfs.member. rewrite existsb_exists. split.
  - intros (y & Hy & Heq). apply Z.eqb_eq in Heq. by subst.
  - intros Hx. exists x. split; [done|]. apply Z.eqb_refl.
Qed.

Lemma step_assigns_once src st st' :
  bfs.vertices_ok GA src -> bfs.bfs_inv GA src st -> bfs.step GA st = Some st' ->
  bfs.bfs_inv GA src st' /\ bfs.assigns_once st st'.
Proof.
  intros (Hsrc & Hn & Hedges) (HF & HO & HP) Hstep.
  unfold bfs.step in Hstep.
  destruct (bfs.sched st) as [|c rest] eqn:Hsched.
  - destruct (bfs.output st) as [|x out] eqn:Hout; [done|].
    destruct (bfs.later st) as [|sc scs]; [done|].
    injection Hstep as <-. cbn. split.
    + split; [|split]; [done | by intros ? [] | done].
    + intros d. by left.
  - injection Hstep as <-. unfold bfs.edgeMap_call.
    destruct (bfs.member (bfs.c_s c) (bfs.Frontier st)) eqn:Hs; cbn [andb];
      [|split; [done|by left]].
    destruct (bfs.member (bfs.c_d c) (bfs.out_nghs GA (bfs.c_s c))) eqn:Hd; cbn [andb];
      [|split; [done|by left]].
    destruct (bfs.cond (bfs.Parents st) (bfs.c_d c)) eqn:Hc;
      [|split; [done|by left]].
    apply member_In in Hs, Hd. unfold bfs.cond in Hc.
    assert ((if bfs.c_atomic c
             then bfs.updateAtomic (bfs.Parents st) (bfs.c_s c) (bfs.c_d c)
             else bfs.update (bfs.Parents st) (bfs.c_s c) (bfs.c_d c))
            = (true, upd (bfs.Parents st) (bfs.c_d c) (bfs.c_s c))) as ->.
    { unfold bfs.updateAtomic, bfs.atomic_compare_and_swap, bfs.update.
      rewrite Hc. by destruct (bfs.c_atomic c). }
    apply Z.eqb_eq in Hc. cbn.
    pose proof (HF _ Hs) as Hsr. pose proof (Hedges _ _ Hd) as Hdr.
    split.
    + split; [done|]. split.
      * intros x [Hx|[<-|[]]]%in_app_or; [by apply HO|done].
      * cbn. unfold upd. destruct (Z.eqb_spec src (bfs.c_d c)) as [Heq|]; [|done].
        rewrite <- Heq, HP in Hc. unfold UINT_E_MAX in *. lia.
    + intros d. cbn. unfold upd.
      destruct (Z.eqb_spec d (bfs.c_d c)) as [->|]; [right|by left].
      split; [done|]. split; [unfold UINT_E_MAX in *; lia|].
      split; [done|]. apply in_or_app. right. by left.
Qed.

Lemma run_stuck k st : bfs.step GA st = None -> bfs.run GA k st = st.
Proof. intros Hs. destruct k; [done|]. cbn [bfs.run]. by rewrite Hs. Qed.

Lemma run_succ k : forall st,
  bfs.run GA (S k) st =
    match bfs.step GA (bfs.run GA k st) with
    | Some st' => st'
    | None => bfs.run GA k st
    end.
Proof.
  induction k as [|k IH]; intros st.
  - cbn [bfs.run]. by destruct (bfs.step GA st).
  - change (bfs.run GA (S (S k)) st)
      with (match bfs.step GA st with
            | Some st' => bfs.run GA (S k) st'
            | None => st
            end).
    change (bfs.run GA (S k) st)
      with (match bfs.step GA st with
            | Some st' => bfs.run GA k st'
            | None => st
            end).
    destruct (bfs.step GA st) as [st'|] eqn:Hs; [apply IH|by rewrite Hs].
Qed.

Lemma run_inv src rounds k :
  bfs.vertices_ok GA src -> bfs.bfs_inv GA src (bfs.run GA k (bfs.start src rounds)).
Proof.
  intros Hok. induction k as [|k IH].
  - destruct Hok as (Hsrc & _). split; [|split].
    + intros x [<-|[]]. done.
    + by intros x [].
    + cbn. unfold upd. by rewrite Z.eqb_refl.
  - rewrite run_succ.
    destruct (bfs.step GA (bfs.run GA k (bfs.start src rounds))) as [st'|] eqn:Hs;
      [|done].
    by destruct (step_assigns_once src _ _ Hok IH Hs).
Qed.

Lemma run_keeps src rounds k j d :
  bfs.vertices_ok GA src ->
  bfs.Parents (bfs.run GA k (bfs.start src rounds)) d <> UINT_E_MAX ->
  bfs.Parents (bfs.run GA (k + j) (bfs.start src rounds)) d
  = bfs.Parents (bfs.run GA k (bfs.start src rounds)) d.
Proof.
  intros Hok Hset. induction j as [|j IH]; [by rewrite Nat.add_0_r|].
  replace (k + S j)%nat with (S (k + j)) by lia. rewrite run_succ.
  destruct (bfs.step GA (bfs.run GA (k + j) (bfs.start src rounds))) as [st'|] eqn:Hs;
    [|done].
  destruct (step_assigns_once src _ _ Hok (run_inv src rounds (k + j) Hok) Hs)
    as [_ Hone].
  destruct (Hone d) as [->|(Hmax & _)]; [done|].
  rewrite IH in Hmax. done.
Qed.

End bfs_run.

(** C10. BFS assigns each parent at most once: in every state of a BFS
    run from [src] (whatever calls the scheduler makes [edgeMap] take, in
    whatever order), [Parents[src]] is [src]; a step of the run changes an
    entry [Parents[d]] only from [UINT_E_MAX] to a vertex of the frontier of
    the running round, and [d] is then in the output of that round; an entry
    that is not [UINT_E_MAX] stays as it is in all later states.  [update]
    and [updateAtomic] write only when the entry is [UINT_E_MAX], and
    [cond d] holds only then. *)
Theorem BFS_parent_assigned_once :
  forall (GA : bfs.graph) (src : Z) (rounds : list (list bfs.call)),
    bfs.vertices_ok GA src ->
    let st := fun k => bfs.run GA k (bfs.start src rounds) in
    (forall k, bfs.Parents (st k) src = src) /\
    (forall k d,
       bfs.Parents (st (S k)) d <> bfs.Parents (st k) d ->
       bfs.Parents (st k) d = UINT_E_MAX /\
       bfs.Parents (st (S k)) d <> UINT_E_MAX /\
       In (bfs.Parents (st (S k)) d) (bfs.Frontier (st k)) /\
       In d (bfs.output (st (S k)))) /\
    (forall k j d,
       (k <= j)%nat -> bfs.Parents (st k) d <> UINT_E_MAX ->
       bfs.Parents (st j) d = bfs.Parents (st k) d) /\
    (forall P s d P',
       (bfs.updateAtomic P s d = (true, P') \/ bfs.update P s d = (true, P')) ->
       P d = UINT_E_MAX /\ P' = upd P d s) /\
    (forall P s d P',
       (bfs.updateAtomic P s d = (false, P') \/ bfs.update P s d = (false, P')) ->
       P d <> UINT_E_MAX /\ P' = P) /\
    (forall P d, bfs.cond P d = true <-> P d = UINT_E_MAX).
Proof.
  intros GA src rounds Hok st. repeat split.
  - intros k. by destruct (run_inv GA src rounds k Hok) as (_ & _ & ?).
  - revert H. unfold st. rewrite run_succ.
    destruct (bfs.step GA (bfs.run GA k (bfs.start src rounds))) as [st'|] eqn:Hs;
      [|done].
    destruct (step_assigns_once GA src _ _ Hok (run_inv GA src rounds k Hok) Hs)
      as [_ Hone].
    intros Hne. destruct (Hone d) as [|(? & _)]; done.
  - revert H. unfold st. rewrite run_succ.
    destruct (bfs.step GA (bfs.run GA k (bfs.start src rounds))) as [st'|] eqn:Hs;
      [|done].
    destruct (step_assigns_once GA src _ _ Hok (run_inv GA src rounds k Hok) Hs)
      as [_ Hone].
    intros Hne. destruct (Hone d) as [|(_ & ? & _)]; done.
  - revert H. unfold st. rewrite run_succ.
    destruct (bfs.step GA (bfs.run GA k (bfs.start src rounds))) as [st'|] eqn:Hs;
      [|done].
    destruct (step_assigns_once GA src _ _ Hok (run_inv GA src rounds k Hok) Hs)
      as [_ Hone].
    intros Hne. destruct (Hone d) as [|(_ & _ & ? & _)]; done.
  - revert H. unfold st. rewrite run_succ.
    destruct (bfs.step GA (bfs.run GA k (bfs.start src rounds))) as [st'|] eqn:Hs;
      [|done].
    destruct (step_assigns_once GA src _ _ Hok (run_inv GA src rounds k Hok) Hs)
      as [_ Hone].
    intros Hne. destruct (Hone d) as [|(_ & _ & _ & ?)]; done.
  - intros k j d Hkj Hset. unfold st.
    replace j with (k + (j - k))%nat by lia. by apply run_keeps.
  - destruct H as [H|H]; revert H;
      unfold bfs.updateAtomic, bfs.atomic_compare_and_swap, bfs.update;
      destruct (Z.eqb_spec (P d) UINT_E_MAX); congruence.
  - destruct H as [H|H]; revert H;
      unfold bfs.updateAtomic, bfs.atomic_compare_and_swap, bfs.update;
      destruct (Z.eqb_spec (P d) UINT_E_MAX); congruence.
  - destruct H as [H|H]; revert H;
      unfold bfs.updateAtomic, bfs.atomic_compare_and_swap, bfs.update;
      destruct (Z.eqb_spec (P d) UINT_E_MAX); congruence.
  - destruct H as [H|H]; revert H;
      unfold bfs.updateAtomic, bfs.atomic_compare_and_swap, bfs.update;
      destruct (Z.eqb_spec (P d) UINT_E_MAX); congruence.
  - unfold bfs.cond. apply Z.eqb_eq.
  - unfold bfs.cond. apply Z.eqb_eq.
Qed.

Lemma BFS_parent_assigned_once_witness :
  let GA := {| bfs.n := 4; bfs.out_nghs := examples.star_nghs |} in
  let rounds :=
    [[{| bfs.c_s := 0; bfs.c_d := 1; bfs.c_atomic := true |};
      {| bfs.c_s := 0; bfs.c_d := 3; bfs.c_atomic := true |};
      {| bfs.c_s := 0; bfs.c_d := 2; bfs.c_atomic := true |}];
     [{| bfs.c_s := 3; bfs.c_d := 0; bfs.c_atomic := false |};
      {| bfs.c_s := 1; bfs.c_d := 0; bfs.c_atomic := false |}]] in
  bfs.Parents (bfs.run GA 9 (bfs.start 0 rounds)) 1
  = bfs.Parents (bfs.run GA 1 (bfs.start 0 rounds)) 1.
Proof.
  intros GA rounds.
  apply (proj1 (proj2 (proj2 (BFS_parent_assigned_once GA 0 rounds
           ltac:(split; [cbn; lia|]; split; [vm_compute; discriminate|];
                 intros s d; cbn; unfold examples.star_nghs;
                 destruct (s =? 0); [cbn; lia|];
                 destruct ((0 <? s) && (s <? 4)); cbn; lia))))
           1%nat 9%nat 1).
  - lia.
  - vm_compute. discriminate.
Defined.

(** ** The block allocator *)

(** arithmetic modulo [2 ^ 64]: the wrap-arounds inside a sum, a difference
    or a product can be dropped *)
#[local] Instance eqm64_equiv : Equivalence (eqm (2 ^ 64)) := eqm_setoid _.
#[local] Instance add_eqm64 :
  Proper (eqm (2 ^ 64) ==> eqm (2 ^ 64) ==> eqm (2 ^ 64)) Z.add := Zplus_eqm _.
#[local] Instance sub_eqm64 :
  Proper (eqm (2 ^ 64) ==> eqm (2 ^ 64) ==> eqm (2 ^ 64)) Z.sub := Zminus_eqm _.
#[local] Instance mul_eqm64 :
  Proper (eqm (2 ^ 64) ==> eqm (2 ^ 64) ==> eqm (2 ^ 64)) Z.mul := Zmult_eqm _.

Lemma wrap64_eqm x y : eqm (2 ^ 64) x y -> wrap64 x = wrap64 y.
Proof. done. Qed.

Lemma mod_eqm64 x : eqm (2 ^ 64) (x mod 2 ^ 64) x.
Proof. apply Zmod_eqm. Qed.

Ltac wrap64_ring :=
  apply wrap64_eqm; unfold wrap64; rewrite ?mod_eqm64;
  match goal with |- eqm _ ?x ?y => replace x with y by ring end;
  reflexivity.

#[global] Arguments wrap64 : simpl never.

Lemma wrap64_range x : 0 <= wrap64 x < 2 ^ 64.
Proof. unfold wrap64. apply Z.mod_pos_bound. lia. Qed.

Lemma wrap64_id x : 0 <= x < 2 ^ 64 -> wrap64 x = x.
Proof. intros. unfold wrap64. by apply Z.mod_small. Qed.

Lemma sum_sizes_upd f n : forall i id v,
  i <= id < i + Z.of_nat n ->
  block_allocator.sum_sizes (upd f id v) n i =
    block_allocator.sum_sizes f n i - block_allocator.sz (f id) + block_allocator.sz v.
Proof.
  assert (forall n i id v, id < i ->
            block_allocator.sum_sizes (upd f id v) n i = block_allocator.sum_sizes f n i)
    as Hout.
  { clear. induction n as [|n IH]; intros i id v Hlt; [done|].
    cbn [block_allocator.sum_sizes]. rewrite IH by lia. unfold upd.
    destruct (Z.eqb_spec i id); [lia|done]. }
  induction n as [|n IH]; intros i id v Hi; [lia|].
  cbn [block_allocator.sum_sizes]. unfold upd at 1.
  destruct (Z.eqb_spec i id) as [->|Hne].
  - rewrite Hout by lia. lia.
  - rewrite IH by lia. lia.
Qed.

Lemma sum_sizes_zero n : forall i,
  block_allocator.sum_sizes
    (fun _ => {| block_allocator.sz := 0; block_allocator.head := block_allocator.NULL;
                 block_allocator.mid := block_allocator.NULL |}) n i = 0.
Proof. induction n as [|n IH]; intros i; [done|]. cbn. apply IH. Qed.

Section allocator.
Context {heap : Type}.
Variable aligned_alloc : heap -> Z -> Z -> Z * heap.
Variables (getMemorySize thread_count : Z) (num_lists_of : Z -> Z -> Z -> Z).
Implicit Types (a : block_allocator.t heap).

Local Abbreviation alloc := (block_allocator.alloc aligned_alloc).
Local Abbreviation allocate_blocks := (block_allocator.allocate_blocks aligned_alloc).
Local Abbreviation get_list := (block_allocator.get_list aligned_alloc).
Local Abbreviation reserve :=
  (block_allocator.reserve aligned_alloc thread_count num_lists_of).
Local Abbreviation new :=
  (block_allocator.new aligned_alloc getMemorySize thread_count num_lists_of).
Local Abbreviation num_used_blocks := (block_allocator.num_used_blocks thread_count).
Local Abbreviation used := (block_allocator.used thread_count).
Local Abbreviation runs := (block_allocator.runs aligned_alloc thread_count).
Local Abbreviation ba := block_allocator.blocks_allocated.

Lemma add_local_sizes_sum a n : forall i fb,
  wrap64 (block_allocator.add_local_sizes n a i fb) =
    wrap64 (fb + block_allocator.sum_sizes (block_allocator.local_lists a) n i).
Proof.
  induction n as [|n IH]; intros i fb;
    cbn [block_allocator.add_local_sizes block_allocator.sum_sizes].
  - f_equal. lia.
  - rewrite IH. wrap64_ring.
Qed.

Lemma num_used_blocks_used a : num_used_blocks a = wrap64 (used a).
Proof.
  unfold block_allocator.num_used_blocks, block_allocator.used, block_allocator.size.
  transitivity (wrap64 (ba a - wrap64 (block_allocator.add_local_sizes
                          (Z.to_nat thread_count) a 0
                          (wrap64 (wrap64 (Z.of_nat (length (block_allocator.global_stack a)))
                                   * block_allocator.list_length a))))).
  { unfold wrap64. by rewrite Zminus_mod_idemp_r. }
  rewrite add_local_sizes_sum. wrap64_ring.
Qed.

Lemma initialize_list_next a start :
  exists nx, block_allocator.initialize_list a start = (block_allocator.set_next a nx, start).
Proof.
  unfold block_allocator.initialize_list.
  destruct (block_allocator.initialize_list_loop _ _ _ _) as [nx p]. by eexists.
Qed.

(** [allocate_blocks] returns with the counter raised by [num_blocks] and
    not above the cap, or the process exits with status 1 and one of the two
    diagnostics *)
Lemma allocate_blocks_cases a num_blocks :
  match allocate_blocks a num_blocks with
  | Returns (start, a') =>
      ba a' = wrap64 (ba a + num_blocks) /\
      ba a' <= block_allocator.max_blocks a /\
      block_allocator.global_stack a' = block_allocator.global_stack a /\
      block_allocator.local_lists a' = block_allocator.local_lists a /\
      block_allocator.list_length a' = block_allocator.list_length a /\
      block_allocator.max_blocks a' = block_allocator.max_blocks a /\
      block_allocator.block_size_ a' = block_allocator.block_size_ a
  | Exits status diagnostic =>
      status = 1 /\
      (diagnostic = "Cannot allocate space in block_allocator" \/
       diagnostic = "Too many blocks in block_allocator, change max_blocks" /\
       block_allocator.max_blocks a < wrap64 (ba a + num_blocks))
  | Aborts _ => False
  end.
Proof.
  unfold block_allocator.allocate_blocks.
  destruct (aligned_alloc _ _ _) as [start h].
  destruct (start =? block_allocator.NULL); [by split; [|left]|].
  cbn [block_allocator.set_blocks_allocated block_allocator.set_process_heap
       block_allocator.blocks_allocated block_allocator.max_blocks].
  destruct (Z.ltb_spec (block_allocator.max_blocks a) (wrap64 (ba a + num_blocks))).
  - split; [done|]. by right.
  - by cbn.
Qed.

(** an [alloc] that returns hands out one block more *)
Lemma alloc_used a id p a' :
  0 <= id < thread_count -> alloc a id = Returns (p, a') ->
  wrap64 (used a') = wrap64 (used a + 1) /\
  block_allocator.list_length a' = block_allocator.list_length a /\
  block_allocator.max_blocks a' = block_allocator.max_blocks a /\
  (ba a' = ba a \/
   ba a' = wrap64 (ba a + block_allocator.list_length a) /\
   ba a' <= block_allocator.max_blocks a).
Proof.
  intros Hid. unfold block_allocator.alloc, block_allocator.used.
  destruct (Z.eqb_spec (block_allocator.sz (block_allocator.local_lists a id)) 0)
    as [Hsz|Hsz].
  - unfold block_allocator.get_list.
    destruct (block_allocator.global_stack a) as [|x s] eqn:Hgs;
      cbn [block_allocator.pop].
    + pose proof (allocate_blocks_cases a (block_allocator.list_length a)) as Hab.
      destruct (allocate_blocks a (block_allocator.list_length a))
        as [[start a1]| |]; [|done|done].
      destruct Hab as (Hba & Hcap & Hgs1 & Hll & HL & Hmax & _).
      cbn [mbind outcome_bind fst snd].
      destruct (initialize_list_next a1 start) as [nx ->].
      cbn [mbind outcome_bind fst snd]. intros [= <- <-].
      cbn. rewrite Hgs1, Hgs, Hll, HL, Hmax. cbn [length].
      rewrite !sum_sizes_upd by lia. unfold upd at 1 2. rewrite Z.eqb_refl.
      cbn [block_allocator.sz]. rewrite Hsz, Hba.
      split; [wrap64_ring|]. split; [done|]. split; [done|]. right. split; [done|].
      by rewrite <- Hba.
    + cbn [mbind outcome_bind fst snd]. intros [= <- <-].
      cbn. rewrite !sum_sizes_upd by lia. unfold upd at 1 2. rewrite Z.eqb_refl.
      cbn [block_allocator.sz]. rewrite Hsz.
      split; [|by repeat split; try left].
      replace (Z.of_nat (S (length s))) with (Z.of_nat (length s) + 1) by lia.
      wrap64_ring.
  - cbn [mbind outcome_bind]. intros [= <- <-].
    cbn. rewrite !sum_sizes_upd by lia. cbn [block_allocator.sz].
    split; [wrap64_ring|by repeat split; try left].
Qed.

(** a [free] takes one block back *)
Lemma free_used a p id :
  0 <= id < thread_count ->
  wrap64 (used (block_allocator.free a p id)) = wrap64 (used a - 1) /\
  block_allocator.list_length (block_allocator.free a p id)
    = block_allocator.list_length a /\
  block_allocator.max_blocks (block_allocator.free a p id)
    = block_allocator.max_blocks a /\
  ba (block_allocator.free a p id) = ba a.
Proof.
  intros Hid. unfold block_allocator.free, block_allocator.used.
  destruct (Z.eqb_spec (block_allocator.sz (block_allocator.local_lists a id))
              (wrap64 (block_allocator.list_length a + 1))) as [Hsz|Hsz].
  - cbn. rewrite !sum_sizes_upd by lia. unfold upd at 1 2. rewrite Z.eqb_refl.
    cbn [block_allocator.sz].
    split; [wrap64_ring|done].
  - destruct (Z.eqb_spec (block_allocator.sz (block_allocator.local_lists a id))
                (wrap64 (2 * block_allocator.list_length a))) as [Hsz2|Hsz2].
    + cbn. rewrite !sum_sizes_upd by lia. unfold upd at 1 2. rewrite Z.eqb_refl.
      cbn [block_allocator.sz]. rewrite Hsz2.
      split; [|done].
      replace (Z.of_nat (S (length (block_allocator.global_stack a))))
        with (Z.of_nat (length (block_allocator.global_stack a)) + 1) by lia.
      wrap64_ring.
    + cbn. rewrite !sum_sizes_upd by lia. cbn [block_allocator.sz].
      split; [wrap64_ring|done].
Qed.

Lemma remove_one_length p live :
  In p live -> S (length (block_allocator.remove_one p live)) = length live.
Proof.
  induction live as [|x live IH]; intros Hin; [done|].
  cbn [block_allocator.remove_one]. destruct (Z.eqb_spec x p) as [->|Hne]; [done|].
  destruct Hin as [->|Hin]; [done|]. cbn [length]. by rewrite IH.
Qed.

(** along a sequence of calls the number of blocks in use follows the
    number of blocks handed out, and the counter does not go down *)
Lemma runs_used a live ops a' live' :
  runs a live ops a' live' ->
  eqm (2 ^ 64) (used a' - Z.of_nat (length live')) (used a - Z.of_nat (length live)) /\
  block_allocator.list_length a' = block_allocator.list_length a /\
  block_allocator.max_blocks a' = block_allocator.max_blocks a /\
  (0 <= block_allocator.list_length a ->
   block_allocator.max_blocks a + block_allocator.list_length a < 2 ^ 64 ->
   0 <= ba a <= block_allocator.max_blocks a ->
   ba a <= ba a' <= block_allocator.max_blocks a).
Proof.
  induction 1 as [a live
                 | a live id p a1 ops a' live' Hid Halloc Hruns IH
                 | a live id p ops a' live' Hid Hin Hruns IH].
  - split; [reflexivity|]. split; [done|]. split; [done|]. lia.
  - destruct (alloc_used a id p a1 Hid Halloc) as (Hu & HL & Hmax & Hba).
    destruct IH as (IHu & IHL & IHmax & IHba).
    assert (eqm (2 ^ 64) (used a1) (used a + 1)) as Hu' by exact Hu.
    split; [|split; [congruence|split; [congruence|]]].
    + rewrite IHu, Hu'. cbn [length].
      replace (used a + 1 - Z.of_nat (S (length live)))
        with (used a - Z.of_nat (length live)) by lia.
      reflexivity.
    + intros HL0 Hfit Hcap. rewrite HL, Hmax in IHba.
      assert (ba a <= ba a1 <= block_allocator.max_blocks a) as Hstep.
      { destruct Hba as [->|[Hba Hle]]; [lia|].
        rewrite wrap64_id in Hba by lia. lia. }
      specialize (IHba HL0 Hfit ltac:(lia)). lia.
  - destruct (free_used a p id Hid) as (Hu & HL & Hmax & Hba).
    destruct IH as (IHu & IHL & IHmax & IHba).
    assert (eqm (2 ^ 64) (used (block_allocator.free a p id)) (used a - 1)) as Hu'
      by exact Hu.
    pose proof (remove_one_length p live Hin) as Hlen.
    split; [|split; [congruence|split; [congruence|]]].
    + rewrite IHu, Hu'.
      replace (used a - 1 - Z.of_nat (length (block_allocator.remove_one p live)))
        with (used a - Z.of_nat (length live)) by lia.
      reflexivity.
    + intros HL0 Hfit Hcap. rewrite HL, Hmax, Hba in IHba. by apply IHba.
Qed.

Lemma reserve_loop_fields n : forall a start i,
  length (block_allocator.global_stack (block_allocator.reserve_loop n a start i))
    = (n + length (block_allocator.global_stack a))%nat /\
  ba (block_allocator.reserve_loop n a start i) = ba a /\
  block_allocator.local_lists (block_allocator.reserve_loop n a start i)
    = block_allocator.local_lists a /\
  block_allocator.list_length (block_allocator.reserve_loop n a start i)
    = block_allocator.list_length a /\
  block_allocator.max_blocks (block_allocator.reserve_loop n a start i)
    = block_allocator.max_blocks a.
Proof.
  induction n as [|n IH]; intros a start i; [done|].
  cbn [block_allocator.reserve_loop].
  destruct (initialize_list_next a
              (start + i * block_allocator.list_length a * block_allocator.block_size_ a))
    as [nx ->].
  destruct (IH (block_allocator.set_global_stack (block_allocator.set_next a nx)
                  (block_allocator.push
                     (start + i * block_allocator.list_length a
                              * block_allocator.block_size_ a)
                     (block_allocator.global_stack (block_allocator.set_next a nx))))
               start (i + 1)) as (Hlen & Hba & Hll & HL & Hmax).
  rewrite Hlen, Hba, Hll, HL, Hmax. cbn. repeat split. lia.
Qed.

(** a [reserve] that returns leaves the counter at or below the cap *)
Lemma reserve_cases a n :
  match reserve a n with
  | Returns a' =>
      ba a' = wrap64 (ba a + wrap64 (block_allocator.list_length a
                                     * num_lists_of thread_count n
                                         (block_allocator.list_length a))) /\
      ba a' <= block_allocator.max_blocks a' /\
      length (block_allocator.global_stack a')
        = (Z.to_nat (num_lists_of thread_count n (block_allocator.list_length a))
           + length (block_allocator.global_stack a))%nat /\
      block_allocator.local_lists a' = block_allocator.local_lists a /\
      block_allocator.list_length a' = block_allocator.list_length a /\
      block_allocator.max_blocks a' = block_allocator.max_blocks a
  | Exits status diagnostic =>
      status = 1 /\
      (diagnostic = "Cannot allocate space in block_allocator" \/
       diagnostic = "Too many blocks in block_allocator, change max_blocks")
  | Aborts _ => False
  end.
Proof.
  unfold block_allocator.reserve.
  pose proof (allocate_blocks_cases a
                (wrap64 (block_allocator.list_length a
                         * num_lists_of thread_count n (block_allocator.list_length a))))
    as Hab.
  destruct (allocate_blocks a _) as [[start a1]|status d|];
    [|cbn [mbind outcome_bind]; tauto|done].
  destruct Hab as (Hba & Hcap & Hgs1 & Hll & HL & Hmax & _).
  cbn [mbind outcome_bind fst snd].
  destruct (reserve_loop_fields
              (Z.to_nat (num_lists_of thread_count n (block_allocator.list_length a)))
              a1 start 0) as (Hlen & Hba' & Hll' & HL' & Hmax').
  rewrite Hlen, Hba', Hll', HL', Hmax', Hgs1, Hba, Hll, HL, Hmax.
  repeat split. by rewrite <- Hba.
Qed.

(** the allocator the constructor returns *)
Lemma new_cases block_size blocks_count list_length_ max_blocks_ h nx a0 :
  0 <= num_lists_of thread_count blocks_count list_length_ ->
  new block_size blocks_count list_length_ max_blocks_ h nx = Returns a0 ->
  wrap64 (used a0) = 0 /\
  0 <= ba a0 <= block_allocator.max_blocks a0 /\
  block_allocator.list_length a0 = list_length_ /\
  block_allocator.max_blocks a0 =
    (if max_blocks_ =? 0 then wrap64 (3 * getMemorySize) / block_size / 4
     else max_blocks_).
Proof.
  intros Hnl. unfold block_allocator.new.
  set (a := {| block_allocator.pool_roots := [] |}).
  pose proof (reserve_cases a blocks_count) as Hres.
  destruct (reserve a blocks_count) as [a1| |]; [|done|done].
  destruct Hres as (Hba & Hcap & Hlen & Hll & HL & Hmax).
  cbn [mbind outcome_bind]. intros [= <-].
  unfold block_allocator.used. cbn. rewrite Hlen, HL, Hmax in *.
  rewrite sum_sizes_zero. subst a. cbn in *.
  split; [|split; [|done]].
  - rewrite Hba, Nat.add_0_r, Z2Nat.id by done.
    change 0 with (wrap64 0) at 3. wrap64_ring.
  - rewrite Hba. pose proof (wrap64_range
      (0 + wrap64 (list_length_ * num_lists_of thread_count blocks_count list_length_))).
    rewrite Hba in Hcap. lia.
Qed.

End allocator.

(** C7. Allocator conservation: for every [block_allocator] as its
    constructor returns it and every sequence of [alloc] and [free] calls
    that return, each made by a worker with an id in [0, thread_count) and
    each [free] passing a block that an [alloc] returned and that has not
    been freed since: [num_used_blocks()] is the number of blocks handed out
    and not yet freed (modulo [2 ^ 64]), so it is 0 before the first call and
    after balanced pairs; and, when [max_blocks + list_length] is below
    [2 ^ 64], [num_allocated_blocks()] does not go down across any further
    calls. *)
Theorem allocator_conservation :
  forall (heap : Type) (aligned_alloc : heap -> Z -> Z -> Z * heap)
         (getMemorySize thread_count : Z) (num_lists_of : Z -> Z -> Z -> Z)
         (block_size blocks_count list_length_ max_blocks_ : Z) (h : heap)
         (nx : Z -> Z) (a0 : block_allocator.t heap),
    0 <= num_lists_of thread_count blocks_count list_length_ ->
    block_allocator.new aligned_alloc getMemorySize thread_count num_lists_of
      block_size blocks_count list_length_ max_blocks_ h nx = Returns a0 ->
    block_allocator.num_used_blocks thread_count a0 = 0 /\
    forall (ops : list block_allocator.op) (a' : block_allocator.t heap)
           (live' : list Z),
      block_allocator.runs aligned_alloc thread_count a0 [] ops a' live' ->
      block_allocator.num_used_blocks thread_count a' = wrap64 (Z.of_nat (length live')) /\
      (live' = [] -> block_allocator.num_used_blocks thread_count a' = 0) /\
      (0 <= list_length_ ->
       block_allocator.max_blocks a0 + list_length_ < 2 ^ 64 ->
       block_allocator.num_allocated_blocks a0
         <= block_allocator.num_allocated_blocks a' /\
       forall (ops2 : list block_allocator.op) (a'' : block_allocator.t heap)
              (live'' : list Z),
         block_allocator.runs aligned_alloc thread_count a' live' ops2 a'' live'' ->
         block_allocator.num_allocated_blocks a'
           <= block_allocator.num_allocated_blocks a'').
Proof.
  intros heap aligned_alloc getMemorySize thread_count num_lists_of
    block_size blocks_count list_length_ max_blocks_ h nx a0 Hnl Hnew.
  destruct (new_cases aligned_alloc getMemorySize thread_count num_lists_of
              _ _ _ _ _ _ _ Hnl Hnew) as (Hu0 & Hba0 & HL0 & _).
  split; [by rewrite num_used_blocks_used|].
  intros ops a' live' Hruns.
  destruct (runs_used aligned_alloc thread_count _ _ _ _ _ Hruns)
    as (Hu & HL & Hmax & Hba).
  assert (block_allocator.num_used_blocks thread_count a'
          = wrap64 (Z.of_nat (length live'))) as Hused.
  { rewrite num_used_blocks_used. apply wrap64_eqm.
    assert (eqm (2 ^ 64) (block_allocator.used thread_count a0) 0) as Hu0'
      by exact Hu0.
    rewrite Hu0' in Hu. cbn [length] in Hu.
    replace (block_allocator.used thread_count a')
      with (block_allocator.used thread_count a' - Z.of_nat (length live')
            + Z.of_nat (length live')) by lia.
    rewrite Hu. reflexivity. }
  split; [done|]. split; [by intros ->|].
  intros HLpos Hfit. rewrite HL0 in Hba. specialize (Hba HLpos Hfit Hba0).
  split; [unfold block_allocator.num_allocated_blocks; lia|].
  intros ops2 a'' live'' Hruns2.
  destruct (runs_used aligned_alloc thread_count _ _ _ _ _ Hruns2)
    as (_ & _ & _ & Hba2).
  rewrite HL, Hmax, HL0 in Hba2.
  unfold block_allocator.num_allocated_blocks. specialize (Hba2 HLpos Hfit). lia.
Qed.

Lemma allocator_conservation_witness :
  exists (p1 p2 : Z) (a' : block_allocator.t Z),
    block_allocator.runs block_allocator.bump_alloc 2
      block_allocator.scenario_allocator []
      [block_allocator.Alloc 0; block_allocator.Alloc 1;
       block_allocator.Free 1 p1; block_allocator.Free 0 p2] a' [] /\
    block_allocator.num_used_blocks 2 block_allocator.scenario_allocator = 0 /\
    block_allocator.num_used_blocks 2 a' = 0 /\
    block_allocator.num_allocated_blocks block_allocator.scenario_allocator
      <= block_allocator.num_allocated_blocks a'.
Proof.
  eexists _, _, _.
  match goal with |- ?R /\ _ => assert R as Hruns end.
  { eapply block_allocator.runs_alloc; [lia | vm_compute; reflexivity |].
    eapply block_allocator.runs_alloc; [lia | vm_compute; reflexivity |].
    eapply block_allocator.runs_free; [lia | left; reflexivity |].
    eapply block_allocator.runs_free; [lia | left; reflexivity |].
    vm_compute. apply block_allocator.runs_nil. }
  split; [exact Hruns|].
  destruct (allocator_conservation Z block_allocator.bump_alloc (2 ^ 34) 2
              block_allocator.exact_num_lists 8 4 2 0 256
              (fun _ => block_allocator.NULL) block_allocator.scenario_allocator)
    as [Hzero Hafter].
  - vm_compute. discriminate.
  - vm_compute. reflexivity.
  - destruct (Hafter _ _ _ Hruns) as (_ & Hfreed & Hmono).
    split; [exact Hzero|]. split; [by apply Hfreed|].
    apply Hmono; [lia | vm_compute; reflexivity].
Defined.

(** C8. Allocator exhaustion is fatal: for every [block_allocator],
    [allocate_blocks], through which [alloc] and [reserve] raise
    [blocks_allocated], ends the process with [exit(1)] after a diagnostic on
    stderr whenever the raised counter is above [max_blocks]; so does an
    [alloc] that finds its local list and the global stack empty, and a
    [reserve]; an [alloc] or [reserve] that returns has left the counter as
    it was or at most at [max_blocks].  With the constructor argument 0 the
    cap is [(3 * getMemorySize() / block_size) / 4]. *)
Theorem allocator_exhaustion_fatal :
  forall (heap : Type) (aligned_alloc : heap -> Z -> Z -> Z * heap)
         (getMemorySize thread_count : Z) (num_lists_of : Z -> Z -> Z -> Z),
    let fatal := fun (A : Type) (r : outcome A) =>
      r = Exits 1 "Cannot allocate space in block_allocator" \/
      r = Exits 1 "Too many blocks in block_allocator, change max_blocks" in
    (forall (a : block_allocator.t heap) (num_blocks : Z),
       block_allocator.max_blocks a
         < wrap64 (block_allocator.blocks_allocated a + num_blocks) ->
       fatal _ (block_allocator.allocate_blocks aligned_alloc a num_blocks)) /\
    (forall (a : block_allocator.t heap) (id : Z),
       block_allocator.sz (block_allocator.local_lists a id) = 0 ->
       block_allocator.global_stack a = [] ->
       block_allocator.max_blocks a
         < wrap64 (block_allocator.blocks_allocated a + block_allocator.list_length a) ->
       fatal _ (block_allocator.alloc aligned_alloc a id)) /\
    (forall (a : block_allocator.t heap) (n : Z),
       block_allocator.max_blocks a
         < wrap64 (block_allocator.blocks_allocated a
                   + wrap64 (block_allocator.list_length a
                             * num_lists_of thread_count n
                                 (block_allocator.list_length a))) ->
       fatal _ (block_allocator.reserve aligned_alloc thread_count num_lists_of a n)) /\
    (forall (a : block_allocator.t heap) (id p : Z) (a' : block_allocator.t heap),
       block_allocator.alloc aligned_alloc a id = Returns (p, a') ->
       block_allocator.blocks_allocated a' = block_allocator.blocks_allocated a \/
       block_allocator.blocks_allocated a' <= block_allocator.max_blocks a') /\
    (forall (a : block_allocator.t heap) (n : Z) (a' : block_allocator.t heap),
       block_allocator.reserve aligned_alloc thread_count num_lists_of a n
         = Returns a' ->
       block_allocator.blocks_allocated a' <= block_allocator.max_blocks a') /\
    (forall (block_size blocks_count list_length_ : Z) (h : heap) (nx : Z -> Z)
            (a : block_allocator.t heap),
       0 <= num_lists_of thread_count blocks_count list_length_ ->
       block_allocator.new aligned_alloc getMemorySize thread_count num_lists_of
         block_size blocks_count list_length_ 0 h nx = Returns a ->
       block_allocator.max_blocks a = wrap64 (3 * getMemorySize) / block_size / 4).
Proof.
  intros heap aligned_alloc getMemorySize thread_count num_lists_of fatal.
  assert (forall (a : block_allocator.t heap) (num_blocks : Z),
            block_allocator.max_blocks a
              < wrap64 (block_allocator.blocks_allocated a + num_blocks) ->
            fatal _ (block_allocator.allocate_blocks aligned_alloc a num_blocks))
    as Hcore.
  { intros a num_blocks Hover.
    pose proof (allocate_blocks_cases aligned_alloc a num_blocks) as Hab.
    destruct (block_allocator.allocate_blocks aligned_alloc a num_blocks)
      as [[start a1]|status d|]; [|unfold fatal|done].
    - destruct Hab as (Hba & Hcap & _). exfalso. lia.
    - destruct Hab as [-> [->| [-> _]]]; [by left|by right]. }
  split; [exact Hcore|]. split; [|split; [|split; [|split]]].
  - intros a id Hsz Hgs Hover. unfold block_allocator.alloc, block_allocator.get_list.
    rewrite Hsz, Hgs. cbn [Z.eqb block_allocator.pop].
    destruct (Hcore a _ Hover) as [-> | ->]; [by left|by right].
  - intros a n Hover. unfold block_allocator.reserve.
    destruct (Hcore a _ Hover) as [-> | ->]; [by left|by right].
  - intros a id p a' Halloc.
    revert Halloc. unfold block_allocator.alloc, block_allocator.get_list.
    destruct (block_allocator.sz (block_allocator.local_lists a id) =? 0).
    + destruct (block_allocator.global_stack a) as [|x s]; cbn [block_allocator.pop].
      * pose proof (allocate_blocks_cases aligned_alloc a
                      (block_allocator.list_length a)) as Hab.
        destruct (block_allocator.allocate_blocks aligned_alloc a
                    (block_allocator.list_length a)) as [[start a1]| |];
          [|done|done].
        destruct Hab as (Hba & Hcap & _ & _ & _ & Hmax & _).
        cbn [mbind outcome_bind fst snd].
        destruct (initialize_list_next a1 start) as [nx ->].
        cbn [mbind outcome_bind fst snd]. intros [= <- <-]. cbn.
        right. lia.
      * cbn [mbind outcome_bind fst snd]. intros [= <- <-]. by left.
    + cbn [mbind outcome_bind]. intros [= <- <-]. by left.
  - intros a n a' Hres.
    pose proof (reserve_cases aligned_alloc getMemorySize thread_count num_lists_of a n)
      as Hrc.
    rewrite Hres in Hrc. by destruct Hrc as (_ & ? & _).
  - intros block_size blocks_count list_length_ h nx a Hnl Hnew.
    by destruct (new_cases aligned_alloc getMemorySize thread_count num_lists_of
                   _ _ _ _ _ _ _ Hnl Hnew) as (_ & _ & _ & ->).
Qed.

Lemma allocator_exhaustion_fatal_witness :
  block_allocator.alloc block_allocator.bump_alloc block_allocator.exhausted 0
    = Exits 1 "Cannot allocate space in block_allocator" \/
  block_allocator.alloc block_allocator.bump_alloc block_allocator.exhausted 0
    = Exits 1 "Too many blocks in block_allocator, change max_blocks".
Proof.
  apply (proj1 (proj2 (allocator_exhaustion_fatal Z block_allocator.bump_alloc
                         (2 ^ 34) 2 block_allocator.exact_num_lists))
           block_allocator.exhausted 0).
  - vm_compute. reflexivity.
  - vm_compute. reflexivity.
  - vm_compute. reflexivity.
Defined.

(* ===================================================================== *)
(** * Further properties                                                  *)
(* ===================================================================== *)

(** a freshly encoded example list is an encoded neighbour list *)
Ltac encoded_example :=
  apply Encoded_encode;
  [ unfold is_uintE; lia
  | apply (increasing_from_weaken _ (1 - 1)); [lia|];
    first [apply increasing_unit_edges; lia | apply increasing_int_edges; lia]
  | discriminate
  | vm_compute; reflexivity ].

(** ** The codes of one edge and of one weight *)

(** X1. [compressEdge] and [eatEdge] are inverse on the differences
    [0 < e < 2^32]: what [compressEdge] writes at [start + offset],
    [eatEdge] reads back as [e], advancing to the offset [compressEdge]
    returned.  The code takes [edge_len e] octets (1 to 5, by the magnitude
    of [e]), and no octet outside them is changed.  For [e = 0] nothing at
    all is written and the offset is returned as it was. *)
Theorem compressEdge_eatEdge_round_trip :
  forall (m : mem) (start offset e : Z),
    0 <= e < 2 ^ 32 ->
    let r := compressEdge m start offset e in
    snd r = offset + edge_len e /\
    offset <= snd r <= offset + 5 /\
    (forall q, q < start + offset \/ start + snd r <= q -> load (fst r) q = load m q) /\
    (0 < e -> eatEdge (fst r) (start + offset) = Some (e, start + snd r)).
Proof.
  intros m start offset e He r. subst r.
  rewrite compressEdge_bytes by done. cbn [fst snd].
  pose proof (edge_bytes_length e) as Hl.
  split; [rewrite edge_bytes_len by lia; done|].
  split; [lia|]. split.
  - intros q Hq. apply load_write_bytes_out. lia.
  - intros Hpos. rewrite (eatEdge_bytes _ _ e) by
      (first [lia | apply bytes_at_write, edge_bytes_byte; lia]).
    do 2 f_equal. lia.
Qed.

Lemma compressEdge_eatEdge_round_trip_witness :
  let r := compressEdge zero_mem 100 7 300 in
  snd r = 7 + edge_len 300 /\
  7 <= snd r <= 7 + 5 /\
  (forall q, q < 100 + 7 \/ 100 + snd r <= q -> load (fst r) q = load zero_mem q) /\
  (0 < 300 -> eatEdge (fst r) (100 + 7) = Some (300, 100 + snd r)).
Proof. apply (compressEdge_eatEdge_round_trip zero_mem 100 7 300). lia. Defined.

(** X2. [compressFirstEdge] and [eatFirstEdge] are inverse for every
    source and target in the [uintE] range, whichever of the two is the
    larger: [eatFirstEdge] reads the target back and advances to the offset
    [compressFirstEdge] returned.  The code takes 1 to 5 octets, by the
    magnitude of [target - source], and no octet outside them is changed. *)
Theorem compressFirstEdge_eatFirstEdge_round_trip :
  forall (m : mem) (start offset source target : Z),
    is_uintE source -> is_uintE target ->
    let r := compressFirstEdge m start offset source target in
    eatFirstEdge (fst r) (start + offset) source = Some (target, start + snd r) /\
    snd r = offset + first_len (Z.abs (target - source)) /\
    offset + 1 <= snd r <= offset + 5 /\
    (forall q, q < start + offset \/ start + snd r <= q -> load (fst r) q = load m q).
Proof.
  intros m start offset source target Hs Ht r. subst r.
  unfold is_uintE in *.
  rewrite compress_sign_mag by lia. cbn [fst snd].
  pose proof (first_bytes_length source target ltac:(lia)) as Hl.
  split.
  - rewrite (eatFirstEdge_bytes _ _ source target) by
      (first [lia | apply bytes_at_write, first_bytes_byte]).
    do 2 f_equal. lia.
  - split; [|split; [lia|]].
    + unfold first_bytes. rewrite sign_mag_bytes_len by lia. done.
    + intros q Hq. apply load_write_bytes_out. lia.
Qed.

Lemma compressFirstEdge_eatFirstEdge_round_trip_witness :
  let r := compressFirstEdge zero_mem 100 7 5000 20 in
  eatFirstEdge (fst r) (100 + 7) 5000 = Some (20, 100 + snd r) /\
  snd r = 7 + first_len (Z.abs (20 - 5000)) /\
  7 + 1 <= snd r <= 7 + 5 /\
  (forall q, q < 100 + 7 \/ 100 + snd r <= q -> load (fst r) q = load zero_mem q).
Proof.
  apply (compressFirstEdge_eatFirstEdge_round_trip zero_mem 100 7 5000 20);
    unfold is_uintE; lia.
Defined.

(** X3. For integer weights, [compressWeight] and [eatWeight] are inverse
    on every weight [w] with [-2^31 < w < 2^31], negative ones included:
    [eatWeight] reads [w] back and advances to the offset [compressWeight]
    returned.  The code takes 1 to 5 octets, by the magnitude of [w], and
    no octet outside them is changed. *)
Theorem compressWeight_eatWeight_round_trip :
  forall (m : mem) (start offset w : Z),
    - 2 ^ 31 < w < 2 ^ 31 ->
    let r := compressWeight m start offset w in
    eatWeight (fst r) (start + offset) = Some (w, start + snd r) /\
    snd r = offset + first_len (Z.abs w) /\
    offset + 1 <= snd r <= offset + 5 /\
    (forall q, q < start + offset \/ start + snd r <= q -> load (fst r) q = load m q).
Proof.
  intros m start offset w Hw r. subst r.
  assert (is_intE w) as Hi by (unfold is_intE; lia).
  cbn [compressWeight eatWeight intE_Weight].
  rewrite compressWeight_intE_bytes by done. cbn [fst snd].
  pose proof (first_bytes_length 0 w ltac:(lia)) as Hl.
  split.
  - rewrite (eatWeight_intE_bytes _ _ w) by
      (first [done | apply bytes_at_write, first_bytes_byte]).
    do 2 f_equal. lia.
  - split; [|split; [lia|]].
    + unfold first_bytes. rewrite sign_mag_bytes_len by lia.
      by rewrite Z.sub_0_r.
    + intros q Hq. apply load_write_bytes_out. lia.
Qed.

Lemma compressWeight_eatWeight_round_trip_witness :
  let r := compressWeight zero_mem 100 7 (-70000) in
  eatWeight (fst r) (100 + 7) = Some (-70000, 100 + snd r) /\
  snd r = 7 + first_len (Z.abs (-70000)) /\
  7 + 1 <= snd r <= 7 + 5 /\
  (forall q, q < 100 + 7 \/ 100 + snd r <= q -> load (fst r) q = load zero_mem q).
Proof. apply (compressWeight_eatWeight_round_trip zero_mem 100 7 (-70000)). lia. Defined.

(** ** The extent of an encoded list *)

Section extent.
Context {W : Type} {HW : Weight W} {HWok : WeightOk W}.

Lemma rest_bytes_upper es : forall last,
  increasing_from last es ->
  Z.of_nat (length (rest_bytes last es)) <= 10 * Z.of_nat (length es).
Proof.
  induction es as [|[n w] es IH]; intros last Hinc; [done|].
  destruct Hinc as (Hn & Hw & Hinc). cbn [rest_bytes length].
  rewrite !length_app.
  pose proof (edge_bytes_length (n - last)).
  pose proof (weight_bytes_length w Hw).
  specialize (IH n Hinc). lia.
Qed.

Lemma chunk_bytes_upper src es :
  is_uintE src -> edges_ok es ->
  Z.of_nat (length (chunk_bytes src es)) <= 10 * Z.of_nat (length es).
Proof.
  intros Hsrc Hok. destruct es as [|[n w] es]; [done|].
  destruct Hok as (Hn & Hw & Hinc). cbn [chunk_bytes length].
  rewrite !length_app. unfold is_uintE in Hsrc.
  pose proof (first_bytes_length src n ltac:(lia)).
  pose proof (weight_bytes_length w Hw).
  pose proof (rest_bytes_upper es n Hinc). lia.
Qed.

Lemma chunk_of_ok (es : list (Z * W)) i : edges_ok es -> edges_ok (chunk_of es i).
Proof.
  intros Hok. unfold chunk_of. by apply increasing_from_firstn, increasing_from_skipn.
Qed.

Lemma addr_of_upper src base0 (es : list (Z * W)) k :
  is_uintE src -> edges_ok es -> 0 <= k ->
  addr_of src (chunk_of es) base0 k - base0
  <= 4 * k + 10 * start_of (chunk_of es) k.
Proof.
  intros Hsrc Hok Hk. replace k with (Z.of_nat (Z.to_nat k)) by lia.
  induction (Z.to_nat k) as [|n IHn].
  - change (Z.of_nat 0) with 0. rewrite start_of_0, addr_of_0. lia.
  - replace (Z.of_nat (S n)) with (Z.of_nat n + 1) by lia.
    rewrite start_of_succ, addr_of_succ by lia.
    pose proof (chunk_bytes_upper src _ Hsrc (chunk_of_ok es (Z.of_nat n) Hok)). lia.
Qed.

Lemma compress_blocks_frame src base es n lo hi : forall k m it,
  let vd := Z.of_nat (length es) in
  let B := 1 + (vd - 1) / PARALLEL_DEGREE in
  let addr := addr_of src (chunk_of es) (base + 4 * B) in
  is_uintE src -> edges_ok es -> 1 <= vd ->
  Z.of_nat n + k = B -> 0 <= k ->
  (n <> 0%nat -> it = skipn (Z.to_nat (k * PARALLEL_DEGREE - 1)) es) ->
  hi <= base \/ addr B <= lo ->
  same_on m (fst (compress_blocks n m base 0 (addr k - base) vd src k it)) lo hi.
Proof.
  intros k m it vd B addr Hsrc Hok Hvd. revert k m it.
  induction n as [|n IH]; intros k m it Hn Hk Hit Hout.
  - apply same_on_refl.
  - pose proof (blocks_bound vd k ltac:(lia) ltac:(unfold B in *; lia)) as HkP.
    destruct (compress_blocks_step n m base (addr k - base) src es k
                Hsrc Hok Hk HkP) as (it' & Hstep & Hit').
    rewrite (Hit ltac:(done)). fold vd in Hstep. rewrite Hstep.
    replace (base + (addr k - base)) with (addr k) by lia.
    replace (addr k - base + 4 + Z.of_nat (length (chunk_bytes src (chunk_of es k))))
      with (addr (k + 1) - base)
      by (unfold addr; rewrite addr_of_succ by lia; lia).
    pose proof (addr_of_mono src (chunk_of es) (base + 4 * B) 0 k ltac:(lia)) as H0k.
    pose proof (addr_of_mono src (chunk_of es) (base + 4 * B) (k + 1) B ltac:(lia)) as HkB.
    pose proof (addr_of_succ src (chunk_of es) (base + 4 * B) k Hk) as Hsucc.
    rewrite addr_of_0 in H0k. fold addr in H0k, HkB, Hsucc.
    eapply same_on_trans; [|apply IH; [lia | lia | | done]].
    + eapply same_on_trans; [eapply same_on_trans|].
      3: { apply same_on_write_bytes. lia. }
      2: { apply same_on_store32. lia. }
      destruct (0 <? k) eqn:Hk0; [|apply same_on_refl].
      apply same_on_store32. unfold sizeof_uintE. lia.
    + intros Hn0. apply Hit'.
      apply (blocks_bound vd (k + 1)); unfold B in *; lia.
Qed.

End extent.

(** X4. The extent of an encoded list: for a non-empty valid neighbour
    list of [d] edges, in [B = ceil (d / PARALLEL_DEGREE)] blocks,
    [sequentialCompressEdgeSet] (at current offset 0) returns an offset
    between [8 * B + d] and [8 * B + 10 * d], whatever the weight type, and
    changes no octet outside [edgeArray, edgeArray + offset). *)
Theorem sequentialCompressEdgeSet_extent :
  forall (W : Type) (HW : Weight W) (HWok : WeightOk W)
         (m0 : mem) (edgeArray src : Z) (es : list (Z * W)),
    is_uintE src -> edges_ok es -> es <> [] ->
    let d := Z.of_nat (length es) in
    let B := 1 + (d - 1) / PARALLEL_DEGREE in
    let r := sequentialCompressEdgeSet m0 edgeArray 0 d src es in
    8 * B + d <= snd r <= 8 * B + 10 * d /\
    (forall q, q < edgeArray \/ edgeArray + snd r <= q -> load (fst r) q = load m0 q).
Proof.
  intros W HW HWok m0 base src es Hsrc Hok Hne d B r.
  pose proof (start_of_chunk_of_all es Hne) as Hall.
  fold d in Hall. fold B in Hall.
  set (addr := addr_of src (chunk_of es) (base + 4 * B)).
  assert (1 <= d) as Hd1 by (unfold d; destruct es; [done|cbn [length]; lia]).
  pose proof (Z.div_pos (d - 1) PARALLEL_DEGREE ltac:(lia) ltac:(done)) as HBpos.
  pose proof (addr_of_edges src (base + 4 * B) es B Hok ltac:(lia)) as Hlow.
  pose proof (addr_of_upper src (base + 4 * B) es B Hsrc Hok ltac:(lia)) as Hup.
  fold addr in Hlow, Hup. rewrite Hall in Hlow, Hup.
  assert (r = compress_blocks (Z.to_nat B) (store32 m0 base d) base 0 (addr 0 - base)
                d src 0 es) as Hr.
  { unfold r, sequentialCompressEdgeSet. fold B.
    replace (0 <? d) with true by bool_lia.
    replace (0 + (sizeof_uintE + (B - 1) * sizeof_uintE)) with (addr 0 - base)
      by (unfold addr; rewrite addr_of_0; unfold sizeof_uintE; lia).
    done. }
  pose proof (compress_blocks_offset src base es (Z.to_nat B) 0
                (store32 m0 base d) es Hsrc Hok ltac:(fold d; lia)
                ltac:(fold d; fold B; lia) ltac:(lia) ltac:(by intros _)) as Hsnd.
  fold d B addr in Hsnd. rewrite <- Hr in Hsnd.
  split; [lia|].
  intros q Hq. rewrite Hr.
  pose proof (compress_blocks_frame src base es (Z.to_nat B) q (q + 1) 0
                (store32 m0 base d) es Hsrc Hok ltac:(fold d; lia)
                ltac:(fold d; fold B; lia) ltac:(lia) ltac:(by intros _)) as Hfr.
  fold d B addr in Hfr. rewrite <- Hr in Hfr |- *.
  rewrite Hfr by lia. apply load_store32_out. lia.
Qed.

Lemma sequentialCompressEdgeSet_extent_witness :
  let es := examples.int_edges 5 3 in
  let d := Z.of_nat (length es) in
  let B := 1 + (d - 1) / PARALLEL_DEGREE in
  let r := sequentialCompressEdgeSet zero_mem 64 0 d 9 es in
  8 * B + d <= snd r <= 8 * B + 10 * d /\
  (forall q, q < 64 \/ 64 + snd r <= q -> load (fst r) q = load zero_mem q).
Proof.
  apply (sequentialCompressEdgeSet_extent Z _ _ zero_mem 64 9 (examples.int_edges 5 3)).
  - unfold is_uintE. lia.
  - apply (increasing_from_weaken _ (5 - 1)); [lia|].
    apply increasing_int_edges; lia.
  - done.
Defined.

(** ** The other functions that walk the blocks *)

Section block_walks.
Context {W : Type} {HW : Weight W} {HWok : WeightOk W}.
Variables (m : mem) (base src vd : Z) (E : Z -> list (Z * W)).
Hypothesis Hreg : region m base src vd E.

Local Abbreviation B := (num_blocks_of vd).
Local Abbreviation degree := (start_of E (num_blocks_of vd)).

(** what the functions of the codec find when they look at block [i] *)
Lemma region_block i :
  0 <= i < B ->
  let finger := block_finger m base B i in
  load32 m finger = start_of E i /\
  block_end m base B degree i = start_of E i + Z.of_nat (length (E i)) /\
  bytes_at m (finger + sizeof_uintE) (chunk_bytes src (E i)) /\
  edges_ok (E i) /\
  0 <= start_of E i /\ start_of E i + Z.of_nat (length (E i)) <= degree /\
  degree < 2 ^ 32 /\ is_uintE src.
Proof.
  intros Hi finger. destruct Hreg as [addr Hr]. subst finger.
  rewrite (region_finger _ _ _ _ _ _ _ _ Hr) by done.
  rewrite (region_start _ _ _ _ _ _ _ _ Hr) by done.
  rewrite (region_end_start _ _ _ _ _ _ Hr) by done.
  rewrite start_of_succ by lia.
  pose proof (region_block_ok _ _ _ _ _ _ _ Hr i Hi) as Hok.
  pose proof (region_degree_lt _ _ _ _ _ _ _ Hr) as Hdeg.
  pose proof (start_of_mono E (i + 1) B ltac:(lia)) as Hmono.
  rewrite start_of_succ in Hmono by lia.
  pose proof (start_of_nonneg E i).
  destruct Hr as (Hsrc & _ & _ & _ & _ & _ & _ & Hblk & _).
  destruct (Hblk i Hi) as (_ & Hbytes & _).
  done.
Qed.

Lemma region_vd : load32 m base = vd /\ 1 <= B.
Proof.
  destruct Hreg as [addr Hr].
  pose proof (region_B _ _ _ _ _ _ _ _ Hr) as [_ HB].
  by destruct Hr as (_ & _ & Hvd & _).
Qed.

End block_walks.

Section filter_sequential_proofs.
Context {W : Type} {HW : Weight W} {HWok : WeightOk W}.
Context {S : Type}.
Variable pred : Z -> Z -> W -> bool.
Variable out : Z -> Z * W -> S -> S.

Lemma feed_app (es1 : list (Z * W)) : forall es2 k s,
  feed out (es1 ++ es2) k s =
  feed out es2 (k + Z.of_nat (length es1)) (feed out es1 k s).
Proof.
  induction es1 as [|e es1 IH]; intros es2 k s; cbn [app feed length].
  - f_equal. lia.
  - rewrite IH. f_equal. lia.
Qed.

Lemma keep_app src (a b : list (Z * W)) :
  keep pred src (a ++ b) = keep pred src a ++ keep pred src b.
Proof. unfold keep. apply filter_app. Qed.

Lemma filter_sequential_edge_feed src n w k s :
  0 <= k < 2 ^ 64 - 1 ->
  filter_sequential_edge pred out src n w k s =
    (k + Z.of_nat (length (keep pred src [(n, w)])),
     feed out (keep pred src [(n, w)]) k s).
Proof.
  intros Hk. unfold filter_sequential_edge, keep. cbn [List.filter fst snd].
  destruct (pred src n w); cbn [length feed].
  - rewrite wrap64_id by lia. done.
  - f_equal. lia.
Qed.

Lemma filter_sequential_rest_feed es : forall m src finger ngh k s,
  0 <= ngh -> increasing_from ngh es -> bytes_at m finger (rest_bytes ngh es) ->
  0 <= k -> k + Z.of_nat (length es) < 2 ^ 64 ->
  filter_sequential_rest pred out (length es) m src finger ngh k s =
    Some (k + Z.of_nat (length (keep pred src es)), feed out (keep pred src es) k s).
Proof.
  induction es as [|[n w] es IH]; intros m src finger ngh k s Hn Hi Hb Hk Hlen.
  - cbn. do 2 f_equal. lia.
  - cbn [increasing_from rest_bytes length filter_sequential_rest] in *.
    destruct Hi as (? & ? & Hi).
    destruct (read_edge m finger ngh n w _ ltac:(lia) ltac:(lia) ltac:(done) Hb)
      as (p1 & p2 & He & Hwr & Hw & Hb' & _).
    rewrite He. cbn [mbind option_bind]. rewrite Hwr, Hw. cbn [mbind option_bind].
    rewrite filter_sequential_edge_feed by lia.
    pose proof (keep_length_le pred src [(n, w)]) as Hle1. cbn [length] in Hle1.
    rewrite IH by (first [done | lia]).
    change ((n, w) :: es) with ([(n, w)] ++ es).
    rewrite keep_app, length_app, feed_app. do 2 f_equal. lia.
Qed.

Variables (m : mem) (base src vd : Z) (E : Z -> list (Z * W)).
Hypothesis Hreg : region m base src vd E.

Local Abbreviation B := (num_blocks_of vd).
Local Abbreviation degree := (start_of E (num_blocks_of vd)).

Lemma filter_sequential_blocks_feed n : forall i s0,
  0 <= i -> i + Z.of_nat n <= B ->
  filter_sequential_blocks pred out n m base src degree B i
    (Z.of_nat (length (keep pred src (flat E (Z.to_nat i)))))
    (feed out (keep pred src (flat E (Z.to_nat i))) 0 s0) =
  Some (Z.of_nat (length (keep pred src (flat E (Z.to_nat i + n)))),
        feed out (keep pred src (flat E (Z.to_nat i + n))) 0 s0).
Proof.
  induction n as [|n IH]; intros i s0 Hi Hn.
  - by rewrite Nat.add_0_r.
  - cbn [filter_sequential_blocks].
    destruct (region_block m base src vd E Hreg i ltac:(lia))
      as (Hst & Hend & Hbytes & Hok & Hs0 & Hs1 & Hdeg & Hsrc).
    rewrite Hst, Hend.
    pose proof (keep_length_le pred src (flat E (Z.to_nat i))) as Hkl.
    assert (Z.of_nat (length (flat E (Z.to_nat i))) = start_of E i) as Hfl by done.
    set (k := Z.of_nat (length (keep pred src (flat E (Z.to_nat i))))) in *.
    set (s := feed out (keep pred src (flat E (Z.to_nat i))) 0 s0).
    assert (keep pred src (flat E (Z.to_nat i + Datatypes.S n)) =
            keep pred src (flat E (Z.to_nat (i + 1) + n))) as Hre
      by (f_equal; f_equal; lia).
    assert (flat E (Z.to_nat (i + 1)) = flat E (Z.to_nat i) ++ E i) as Hflat.
    { replace (Z.to_nat (i + 1)) with (Datatypes.S (Z.to_nat i)) by lia.
      cbn [flat]. by rewrite Z2Nat.id by lia. }
    assert (keep pred src (flat E (Z.to_nat (i + 1))) =
            keep pred src (flat E (Z.to_nat i)) ++ keep pred src (E i)) as Hkeep
      by (rewrite Hflat; apply keep_app).
    assert ((if start_of E i <? start_of E i + Z.of_nat (length (E i)) then
               '(ngh, finger) ← eatFirstEdge m
                  (block_finger m base B i + sizeof_uintE) src;
               '(wgh, finger) ← eatWeight m finger;
               let '(k, s) := filter_sequential_edge pred out src ngh wgh k s in
               filter_sequential_rest pred out
                 (Z.to_nat (start_of E i + Z.of_nat (length (E i))
                            - wrap32 (start_of E i + 1)))
                 m src finger ngh k s
             else Some (k, s)) =
            Some (Z.of_nat (length (keep pred src (flat E (Z.to_nat (i + 1))))),
                  feed out (keep pred src (flat E (Z.to_nat (i + 1)))) 0 s0)) as ->.
    { rewrite Hkeep, length_app, feed_app. fold k s.
      destruct (E i) as [|[n0 w0] es] eqn:HE.
      - cbn [length]. replace (_ <? _) with false by bool_lia.
        cbn. do 2 f_equal. lia.
      - cbn [length] in *. replace (_ <? _) with true by bool_lia.
        cbn [edges_ok increasing_from chunk_bytes] in Hok, Hbytes.
        destruct Hok as (Hn0 & Hw0 & Hok).
        destruct (read_first m _ src n0 w0 _ Hsrc ltac:(lia) Hw0 Hbytes)
          as (p1 & p2 & He & Hew & Hb' & _).
        rewrite He. cbn [mbind option_bind]. rewrite Hew. cbn [mbind option_bind].
        rewrite filter_sequential_edge_feed by lia.
        pose proof (keep_length_le pred src [(n0, w0)]) as Hle1. cbn [length] in Hle1.
        rewrite wrap32_id by lia.
        replace (Z.to_nat _) with (length es) by lia.
        rewrite filter_sequential_rest_feed by (first [done | lia]).
        change ((n0, w0) :: es) with ([(n0, w0)] ++ es).
        rewrite (keep_app src [(n0, w0)] es), length_app, feed_app. do 2 f_equal; lia. }
    cbn [mbind option_bind]. rewrite Hre. apply (IH (i + 1) s0); lia.
Qed.

Lemma filter_sequential_region s :
  filter_sequential pred out m base src degree s =
    Some (feed out (keep pred src (edges_of vd E)) 0 s).
Proof.
  unfold filter_sequential.
  destruct (region_vd m base src vd E Hreg) as [-> HB].
  pose proof (filter_sequential_blocks_feed (Z.to_nat B) 0 s ltac:(lia) ltac:(lia)) as Hf.
  change (Z.to_nat 0) with 0%nat in Hf. cbn [flat keep List.filter length feed] in Hf.
  change (Z.of_nat 0) with 0 in Hf. rewrite Hf. cbn [mbind option_bind snd].
  done.
Qed.

End filter_sequential_proofs.

Section decode_block_proofs.
Context {W : Type} {HW : Weight W} {HWok : WeightOk W}.

Lemma decode_block_rest_holds es : forall m finger ngh i out,
  0 <= ngh -> increasing_from ngh es -> bytes_at m finger (rest_bytes ngh es) ->
  exists out',
    decode_block_rest (length es) m finger ngh i out = Some out' /\
    holds out' i es /\
    (forall j, j < i \/ i + Z.of_nat (length es) <= j -> out' j = out j).
Proof.
  induction es as [|[n w] es IH]; intros m finger ngh i out Hn Hi Hb.
  - exists out. split; [done|]. split; [apply holds_nil|done].
  - cbn [increasing_from rest_bytes length decode_block_rest] in *.
    destruct Hi as (? & ? & Hi).
    destruct (read_edge m finger ngh n w _ ltac:(lia) ltac:(lia) ltac:(done) Hb)
      as (p1 & p2 & He & Hwr & Hw & Hb' & _).
    rewrite He. cbn [mbind option_bind]. rewrite Hwr, Hw. cbn [mbind option_bind].
    destruct (IH m p2 n (i + 1) (upd out i (n, w)) ltac:(lia) Hi Hb')
      as (out' & Hres & Hh & Hfr).
    exists out'. split; [done|]. split.
    + apply holds_cons. split; [|done].
      rewrite Hfr by lia. unfold upd. by rewrite Z.eqb_refl.
    + intros j Hj. rewrite Hfr by lia. unfold upd.
      destruct (Z.eqb_spec j i); [lia|done].
Qed.

Lemma decode_block_holds m finger source start es out :
  is_uintE source -> edges_ok es -> bytes_at m finger (chunk_bytes source es) ->
  0 <= start -> start + Z.of_nat (length es) < 2 ^ 64 ->
  exists out',
    decode_block m finger out start (start + Z.of_nat (length es)) source = Some out' /\
    holds out' start es /\
    (forall j, j < start \/ start + Z.of_nat (length es) <= j -> out' j = out j).
Proof.
  intros Hsrc Hok Hb Hs Hlen. unfold decode_block.
  replace (start + Z.of_nat (length es) - start) with (Z.of_nat (length es)) by lia.
  rewrite wrap64_id by lia.
  destruct es as [|[n w] es].
  - cbn [length]. exists out. split; [done|]. split; [apply holds_nil|done].
  - cbn [length] in *. replace (0 <? _) with true by bool_lia.
    cbn [edges_ok increasing_from chunk_bytes] in Hok, Hb.
    destruct Hok as (Hn & Hw & Hok).
    destruct (read_first m finger source n w _ Hsrc ltac:(lia) Hw Hb)
      as (p1 & p2 & He & Hew & Hb' & _).
    rewrite He. cbn [mbind option_bind]. rewrite Hew. cbn [mbind option_bind].
    rewrite wrap64_id by lia.
    replace (Z.to_nat _) with (length es) by lia.
    destruct (decode_block_rest_holds es m p2 n (start + 1) (upd out start (n, w))
                ltac:(lia) Hok Hb') as (out' & Hres & Hh & Hfr).
    exists out'. split; [done|]. split.
    + apply holds_cons. split; [|done].
      rewrite Hfr by lia. unfold upd. by rewrite Z.eqb_refl.
    + intros j Hj. rewrite Hfr by lia. unfold upd.
      destruct (Z.eqb_spec j start); [lia|done].
Qed.

End decode_block_proofs.

Section map_reduce_proofs.
Context {W : Type} {HW : Weight W} {HWok : WeightOk W}.
Context {A : Type}.
Variable fm : Z -> Z -> W -> A.
Variable identity : A.
Variable f : A -> A -> A.

Local Abbreviation g src := (fun e : Z * W => fm src (fst e) (snd e)).

Lemma map_reduce_rest_fold es : forall m src finger ngh cur,
  0 <= ngh -> increasing_from ngh es -> bytes_at m finger (rest_bytes ngh es) ->
  map_reduce_rest fm f (length es) m src finger ngh cur =
    Some (fold_left f (map (g src) es) cur).
Proof.
  induction es as [|[n w] es IH]; intros m src finger ngh cur Hn Hi Hb; [done|].
  cbn [increasing_from rest_bytes length map_reduce_rest map fold_left fst snd] in *.
  destruct Hi as (? & ? & Hi).
  destruct (read_edge m finger ngh n w _ ltac:(lia) ltac:(lia) ltac:(done) Hb)
    as (p1 & p2 & He & Hwr & Hw & Hb' & _).
  rewrite He. cbn [mbind option_bind]. rewrite Hwr, Hw. cbn [mbind option_bind].
  apply IH; [lia|done|done].
Qed.

Variables (m : mem) (base src vd : Z) (E : Z -> list (Z * W)).
Hypothesis Hreg : region m base src vd E.

Local Abbreviation B := (num_blocks_of vd).
Local Abbreviation degree := (start_of E (num_blocks_of vd)).

Lemma map_reduce_block_fold i :
  0 <= i < B ->
  map_reduce_block fm identity f m base src degree B i =
    Some (fold_left f (map (g src) (E i)) identity).
Proof.
  intros Hi. unfold map_reduce_block.
  destruct (region_block m base src vd E Hreg i ltac:(lia))
    as (Hst & Hend & Hbytes & Hok & Hs0 & Hs1 & Hdeg & Hsrc).
  rewrite Hst, Hend.
  destruct (E i) as [|[n0 w0] es] eqn:HE.
  - cbn [length]. replace (_ <? _) with false by bool_lia. done.
  - cbn [length] in *. replace (_ <? _) with true by bool_lia.
    cbn [edges_ok increasing_from chunk_bytes] in Hok, Hbytes.
    destruct Hok as (Hn0 & Hw0 & Hok).
    destruct (read_first m _ src n0 w0 _ Hsrc ltac:(lia) Hw0 Hbytes)
      as (p1 & p2 & He & Hew & Hb' & _).
    rewrite He. cbn [mbind option_bind]. rewrite Hew. cbn [mbind option_bind].
    rewrite wrap32_id by lia.
    replace (Z.to_nat _) with (length es) by lia.
    rewrite map_reduce_rest_fold by (first [done | lia]). done.
Qed.

Lemma map_reduce_blocks_fold n : forall i outs,
  0 <= i -> i + Z.of_nat n <= B ->
  map_reduce_blocks fm identity f n m base src degree B i outs =
    Some (outs ++ map (fun j => fold_left f (map (g src) (E j)) identity)
                      (seqZ i (Z.of_nat n))).
Proof.
  induction n as [|n IH]; intros i outs Hi Hn.
  - cbn. by rewrite app_nil_r.
  - cbn [map_reduce_blocks]. rewrite map_reduce_block_fold by lia.
    cbn [mbind option_bind]. rewrite IH by lia.
    rewrite (seqZ_cons i (Z.of_nat (S n))) by lia. cbn [map].
    rewrite <- app_assoc. cbn [app].
    replace (Z.succ i) with (i + 1) by lia.
    replace (Z.pred (Z.of_nat (S n))) with (Z.of_nat n) by lia. done.
Qed.

Hypothesis f_assoc : forall a b c, f (f a b) c = f a (f b c).
Hypothesis f_left : forall a, f identity a = a.
Hypothesis f_right : forall a, f a identity = a.

Lemma fold_left_from (l : list A) : forall a,
  fold_left f l a = f a (fold_left f l identity).
Proof.
  induction l as [|x l IH]; intros a; cbn [fold_left]; [by rewrite f_right|].
  rewrite (IH (f a x)), (IH (f identity x)), f_left, f_assoc. done.
Qed.

Lemma reduce_fold (l : list A) : reduce identity f l = fold_left f l identity.
Proof.
  destruct l as [|x l]; [done|]. cbn [reduce fold_left]. by rewrite f_left.
Qed.

Lemma fold_blocks n :
  fold_left f
    (map (fun j => fold_left f (map (g src) (E j)) identity) (seqZ 0 (Z.of_nat n)))
    identity
  = fold_left f (map (g src) (flat E n)) identity.
Proof.
  induction n as [|n IH]; [done|].
  replace (Z.of_nat (S n)) with (Z.of_nat n + 1) by lia.
  rewrite seqZ_app by lia. cbn [flat].
  rewrite !map_app, !fold_left_app, IH.
  change (seqZ (0 + Z.of_nat n) 1) with (seqZ (0 + Z.of_nat n) (Z.succ 0)).
  rewrite seqZ_cons by lia. cbn [map fold_left]. rewrite Z.add_0_l.
  symmetry. apply fold_left_from.
Qed.

Lemma map_reduce_region par :
  map_reduce fm identity f m base src degree par =
    Some (fold_left f (map (g src) (edges_of vd E)) identity).
Proof.
  unfold map_reduce.
  destruct (region_vd m base src vd E Hreg) as [-> HB].
  destruct (Z.ltb_spec 0 degree) as [Hd|Hd].
  - rewrite map_reduce_blocks_fold by lia. cbn [mbind option_bind app].
    rewrite reduce_fold. replace B with (Z.of_nat (nblocks vd)) at 2
      by (unfold nblocks; lia).
    by rewrite fold_blocks.
  - assert (edges_of vd E = []) as ->; [|done].
    apply length_zero_iff_nil.
    pose proof (length_edges_of vd E). pose proof (start_of_nonneg E B). lia.
Qed.

End map_reduce_proofs.

(** X5. [filter_sequential] on an encoded neighbour list (freshly encoded,
    or packed any number of times) calls [out (k, e)] for exactly the edges
    [e] of the list that satisfy [pred], in the order of the list, with
    [k = 0, 1, 2, ...] and no gaps. *)
Theorem filter_sequential_outputs_kept :
  forall (W : Type) (HW : Weight W) (HWok : WeightOk W) (S : Type)
         (pred : Z -> Z -> W -> bool) (out : Z -> Z * W -> S -> S)
         (m : mem) (edge_start src vd : Z) (E : Z -> list (Z * W)) (s : S),
    Encoded m edge_start src vd E ->
    filter_sequential pred out m edge_start src (Z.of_nat (length (edges_of vd E))) s
    = Some (feed out (keep pred src (edges_of vd E)) 0 s).
Proof.
  intros W HW HWok S pred out m base src vd E s HEnc.
  rewrite length_edges_of. apply filter_sequential_region. by apply Encoded_region.
Qed.

Lemma filter_sequential_outputs_kept_witness :
  let l := examples.unit_edges 1 1500 in
  let vd := Z.of_nat (length l) in
  let out := fun (k : Z) (e : Z * unit) (s : list (Z * Z)) => s ++ [(k, fst e)] in
  filter_sequential examples.odd_ngh out (examples.encode zero_mem 0 1 l) 0 1
    (Z.of_nat (length (edges_of vd (chunk_of l)))) []
  = Some (feed out (keep examples.odd_ngh 1 (edges_of vd (chunk_of l))) 0 []).
Proof.
  apply (filter_sequential_outputs_kept unit _ _ (list (Z * Z)) examples.odd_ngh
           (fun k e s => s ++ [(k, fst e)])
           (examples.encode zero_mem 0 1 (examples.unit_edges 1 1500)) 0 1
           (Z.of_nat (length (examples.unit_edges 1 1500)))
           (chunk_of (examples.unit_edges 1 1500)) []).
  encoded_example.
Defined.

(** X6. [decode_block], started behind the start index of block [i] of an
    encoded neighbour list with [end - start] the number of edges the block
    holds, stores these edges in [out[start .. end)] in their order and
    leaves every other entry of [out] as it was. *)
Theorem decode_block_fills_block :
  forall (W : Type) (HW : Weight W) (HWok : WeightOk W)
         (m : mem) (edge_start src vd : Z) (E : Z -> list (Z * W))
         (i start : Z) (out : Z -> Z * W),
    Encoded m edge_start src vd E -> 0 <= i < num_blocks_of vd ->
    0 <= start -> start + Z.of_nat (length (E i)) < 2 ^ 64 ->
    let finger := block_finger m edge_start (num_blocks_of vd) i + sizeof_uintE in
    let end_ := start + Z.of_nat (length (E i)) in
    exists out',
      decode_block m finger out start end_ src = Some out' /\
      (forall j : nat, (j < length (E i))%nat ->
         out' (start + Z.of_nat j) = nth j (E i) (0, default_weight)) /\
      (forall j, j < start \/ end_ <= j -> out' j = out j).
Proof.
  intros W HW HWok m base src vd E i start out HEnc Hi Hs Hlen finger end_.
  pose proof (Encoded_region _ _ _ _ _ HEnc) as Hreg.
  destruct (region_block m base src vd E Hreg i Hi)
    as (_ & _ & Hbytes & Hok & _ & _ & _ & Hsrc).
  apply decode_block_holds; done.
Qed.

Lemma decode_block_fills_block_witness :
  let l := examples.int_edges 1 1500 in
  let vd := Z.of_nat (length l) in
  let m := examples.encode zero_mem 0 7 l in
  let finger := block_finger m 0 (num_blocks_of vd) 1 + sizeof_uintE in
  let end_ := 20 + Z.of_nat (length (chunk_of l 1)) in
  exists out',
    decode_block m finger (fun _ => (0, 0)) 20 end_ 7 = Some out' /\
    (forall j : nat, (j < length (chunk_of l 1))%nat ->
       out' (20 + Z.of_nat j) = nth j (chunk_of l 1) (0, default_weight)) /\
    (forall j, j < 20 \/ end_ <= j -> out' j = (0, 0)).
Proof.
  apply (decode_block_fills_block Z _ _
           (examples.encode zero_mem 0 7 (examples.int_edges 1 1500)) 0 7
           (Z.of_nat (length (examples.int_edges 1 1500)))
           (chunk_of (examples.int_edges 1 1500)) 1 20 (fun _ => (0, 0))).
  - encoded_example.
  - vm_compute. split; [congruence|reflexivity].
  - lia.
  - vm_compute. reflexivity.
Defined.

(** X7. For a monoid ([f] associative, [identity] neutral on both sides),
    [map_reduce] on an encoded neighbour list returns the fold of [f] over
    the values [m (src, ngh, wgh)] of all edges, in the order of the list,
    although it reduces block by block. *)
Theorem map_reduce_folds :
  forall (W : Type) (HW : Weight W) (HWok : WeightOk W) (A : Type)
         (fm : Z -> Z -> W -> A) (identity : A) (f : A -> A -> A)
         (m : mem) (edge_start src vd : Z) (E : Z -> list (Z * W)) (par : bool),
    (forall a b c, f (f a b) c = f a (f b c)) ->
    (forall a, f identity a = a) -> (forall a, f a identity = a) ->
    Encoded m edge_start src vd E ->
    map_reduce fm identity f m edge_start src (Z.of_nat (length (edges_of vd E))) par
    = Some (fold_left f (map (fun e => fm src (fst e) (snd e)) (edges_of vd E)) identity).
Proof.
  intros W HW HWok A fm identity f m base src vd E par Hassoc Hleft Hright HEnc.
  rewrite length_edges_of. apply map_reduce_region; try done. by apply Encoded_region.
Qed.

Lemma map_reduce_folds_witness :
  let l := examples.int_edges 1 1500 in
  let vd := Z.of_nat (length l) in
  let fm := fun (src ngh wgh : Z) => ngh + wgh in
  map_reduce fm 0 Z.add (examples.encode zero_mem 0 7 l) 0 7
    (Z.of_nat (length (edges_of vd (chunk_of l)))) true
  = Some (fold_left Z.add (map (fun e => fm 7 (fst e) (snd e)) (edges_of vd (chunk_of l))) 0).
Proof.
  apply (map_reduce_folds Z _ _ Z (fun src ngh wgh => ngh + wgh) 0 Z.add
           (examples.encode zero_mem 0 7 (examples.int_edges 1 1500)) 0 7
           (Z.of_nat (length (examples.int_edges 1 1500)))
           (chunk_of (examples.int_edges 1 1500)) true).
  - intros. lia.
  - intros. lia.
  - intros. lia.
  - encoded_example.
Defined.

(** ** The cursor [iter] *)

Section nth_facts.
Context {W : Type} {HW : Weight W} {HWok : WeightOk W}.
Implicit Types (es : list (Z * W)) (E : Z -> list (Z * W)).

Local Abbreviation dflt := (0, default_weight).

Lemma skipn_nth_cons {A} (l : list A) (d : A) : forall j,
  (j < length l)%nat -> skipn j l = nth j l d :: skipn (S j) l.
Proof.
  induction l as [|x l IH]; intros j Hj; cbn [length] in Hj; [lia|].
  destruct j as [|j]; [done|]. cbn [skipn nth]. apply IH. lia.
Qed.

Lemma increasing_nth es : forall last (j : nat),
  increasing_from last es -> (j < length es)%nat ->
  last < fst (nth j es dflt) < 2 ^ 32 /\ weight_ok (snd (nth j es dflt)) /\
  increasing_from (fst (nth j es dflt)) (skipn (S j) es).
Proof.
  induction es as [|[n w] es IH]; intros last j Hi Hj; cbn [length] in Hj; [lia|].
  destruct Hi as (Hn & Hw & Hi).
  destruct j as [|j]; [done|].
  cbn [nth skipn]. destruct (IH n j Hi ltac:(lia)) as (? & ? & ?).
  split; [lia|done].
Qed.

Lemma nth_flat E (n : nat) : forall (b : Z) (j : nat),
  0 <= b < Z.of_nat n -> (j < length (E b))%nat ->
  nth (Z.to_nat (start_of E b) + j) (flat E n) dflt = nth j (E b) dflt.
Proof.
  induction n as [|n IH]; intros b j Hb Hj; [lia|].
  cbn [flat]. destruct (Z.eq_dec b (Z.of_nat n)) as [->|Hne].
  - unfold start_of. rewrite !Nat2Z.id. by rewrite app_nth2_plus.
  - rewrite app_nth1; [apply IH; [lia|done]|].
    pose proof (start_of_mono E (b + 1) (Z.of_nat n) ltac:(lia)) as Hm.
    rewrite start_of_succ in Hm by lia.
    pose proof (start_of_nonneg E b).
    unfold start_of in Hm at 2. rewrite Nat2Z.id in Hm. lia.
Qed.

Lemma next_nonempty E (n : nat) : forall c,
  0 <= c -> start_of E c < start_of E (c + Z.of_nat n) ->
  exists b', c <= b' < c + Z.of_nat n /\ (forall x, c <= x < b' -> E x = []) /\ E b' <> [].
Proof.
  induction n as [|n IH]; intros c Hc Hlt.
  - replace (c + Z.of_nat 0) with c in Hlt by lia. lia.
  - destruct (E c) as [|e l] eqn:HE.
    + destruct (IH (c + 1) ltac:(lia)) as (b' & Hb' & Hem & Hne).
      * rewrite start_of_succ, HE by lia. cbn [length].
        replace (c + 1 + Z.of_nat n) with (c + Z.of_nat (S n)) by lia. lia.
      * exists b'. split; [lia|]. split; [|done].
        intros x Hx. destruct (Z.eq_dec x c) as [->|]; [done|]. apply Hem. lia.
    + exists c. split; [lia|]. split; [intros; lia|]. by rewrite HE.
Qed.

End nth_facts.

Section iter_proofs.
Context {W : Type} {HW : Weight W} {HWok : WeightOk W}.
Variables (m : mem) (base src vd : Z) (E : Z -> list (Z * W)).
Hypothesis Hreg : region m base src vd E.

Local Abbreviation B := (num_blocks_of vd).
Local Abbreviation degree := (start_of E (num_blocks_of vd)).
Local Abbreviation dflt := (0, default_weight).

Lemma region_B_bound : 1 <= B < 2 ^ 32.
Proof.
  destruct (region_edges_ok _ _ _ _ _ Hreg) as [_ Hvd].
  destruct (num_blocks_of_pos vd Hvd) as [-> ?].
  split; [lia|]. Z.to_euclidean_division_equations. lia.
Qed.

(** entering a block that holds an edge *)
Lemma enter_block b :
  0 <= b < B -> E b <> [] ->
  load32 m (block_finger m base B b) = start_of E b /\
  block_end m base B degree b = start_of E b + Z.of_nat (length (E b)) /\
  0 < Z.of_nat (length (E b)) /\
  0 <= start_of E b /\
  start_of E b + Z.of_nat (length (E b)) < 2 ^ 32 /\
  exists p1 p2,
    eatFirstEdge m (block_finger m base B b + sizeof_uintE) src
      = Some (fst (nth 0 (E b) dflt), p1) /\
    eatWeight m p1 = Some (snd (nth 0 (E b) dflt), p2) /\
    bytes_at m p2 (rest_bytes (fst (nth 0 (E b) dflt)) (skipn 1 (E b))).
Proof.
  intros Hb Hne.
  destruct (region_block m base src vd E Hreg b Hb)
    as (Hst & Hend & Hbytes & Hok & Hs0 & Hs1 & Hdeg & Hsrc).
  split; [done|]. split; [done|].
  destruct (E b) as [|[n0 w0] es] eqn:HE; [done|].
  cbn [length nth skipn fst snd] in *.
  split; [lia|]. split; [done|]. split; [lia|].
  cbn [edges_ok increasing_from chunk_bytes] in Hok, Hbytes.
  destruct Hok as (Hn0 & Hw0 & Hok).
  destruct (read_first m _ src n0 w0 _ Hsrc ltac:(lia) Hw0 Hbytes)
    as (p1 & p2 & He & Hew & Hb' & _).
  by exists p1, p2.
Qed.

Lemma empty_block b :
  0 <= b < B -> E b = [] ->
  load32 m (block_finger m base B b) = start_of E b /\
  block_end m base B degree b = start_of E b.
Proof.
  intros Hb Hnil.
  destruct (region_block m base src vd E Hreg b Hb) as (Hst & Hend & _).
  rewrite Hnil in Hend. cbn [length] in Hend. split; [done|lia].
Qed.

Lemma later_finger c :
  0 < c -> base + block_offsets_at m base (c - 1) = block_finger m base B c.
Proof. intros Hc. unfold block_finger. by replace (0 <? c) with true by bool_lia. Qed.

Lemma iter_next_chunk_finds fuel : forall c b',
  0 <= c < b' -> b' < B -> (forall x, c < x < b' -> E x = []) -> E b' <> [] ->
  (Z.to_nat (b' - c) <= fuel)%nat ->
  iter_next_chunk fuel m base degree B c =
    Some (b', block_finger m base B b' + sizeof_uintE, Z.of_nat (length (E b'))).
Proof.
  pose proof region_B_bound as HB.
  induction fuel as [|fuel IH]; intros c b' Hc Hb' Hem Hne Hfuel; [lia|].
  cbn [iter_next_chunk]. rewrite (wrap32_id (c + 1)) by lia.
  rewrite later_finger by lia.
  destruct (Z.eq_dec (c + 1) b') as [->|Hlt].
  - destruct (enter_block b' ltac:(lia) Hne) as (Hst & Hend & Hpos & Hs0 & Hs1 & _).
    rewrite Hst, Hend.
    replace (start_of E b' + Z.of_nat (length (E b')) - start_of E b')
      with (Z.of_nat (length (E b'))) by lia.
    rewrite wrap32_id by lia.
    by replace (_ =? 0) with false by bool_lia.
  - destruct (empty_block (c + 1) ltac:(lia) (Hem (c + 1) ltac:(lia))) as [Hst Hend].
    rewrite Hst, Hend, Z.sub_diag. change (wrap32 0 =? 0) with true. cbv iota.
    apply IH; [lia|done| |done|lia]. intros x Hx. apply Hem. lia.
Qed.

Lemma iter_first_chunk_finds n : forall c b' fg ccd le,
  1 <= c <= b' -> b' < B -> (forall x, c <= x < b' -> E x = []) -> E b' <> [] ->
  (Z.to_nat (b' - c) < n)%nat ->
  exists p2,
    iter_first_chunk n m base src degree B c fg ccd le =
      Some (b', p2, Z.of_nat (length (E b')), nth 0 (E b') dflt) /\
    bytes_at m p2 (rest_bytes (fst (nth 0 (E b') dflt)) (skipn 1 (E b'))).
Proof.
  pose proof region_B_bound as HB.
  induction n as [|n IH]; intros c b' fg ccd le Hc Hb' Hem Hne Hfuel; [lia|].
  cbn [iter_first_chunk]. rewrite later_finger by lia.
  destruct (Z.eq_dec c b') as [->|Hlt].
  - destruct (enter_block b' ltac:(lia) Hne)
      as (Hst & Hend & Hpos & Hs0 & Hs1 & p1 & p2 & He & Hew & Hby).
    rewrite Hst, Hend. replace (_ <? _) with true by bool_lia.
    rewrite He. cbn [mbind option_bind]. rewrite Hew. cbn [mbind option_bind].
    exists p2. split; [|done].
    replace (start_of E b' + Z.of_nat (length (E b')) - start_of E b')
      with (Z.of_nat (length (E b'))) by lia.
    rewrite wrap32_id by lia. by rewrite <- surjective_pairing.
  - destruct (empty_block c ltac:(lia) (Hem c ltac:(lia))) as [Hst Hend].
    rewrite Hst, Hend. replace (_ <? _) with false by bool_lia.
    rewrite (wrap32_id (c + 1)) by lia.
    apply IH; [lia|done| |done|lia]. intros x Hx. apply Hem. lia.
Qed.

Lemma iter_new_at :
  0 < degree ->
  exists it, iter_new m base degree src = Some it /\ iter_at m base src vd E it 0.
Proof.
  intros Hd. pose proof region_B_bound as HB.
  destruct (region_vd m base src vd E Hreg) as [Hvd _].
  destruct (next_nonempty E (Z.to_nat B) 0 ltac:(lia)) as (b' & Hb' & Hem & Hne).
  { rewrite start_of_0. replace (0 + Z.of_nat (Z.to_nat B)) with B by lia. done. }
  assert (start_of E b' = 0) as Hst0.
  { clear -Hem Hb'. replace b' with (Z.of_nat (Z.to_nat b')) in * by lia.
    induction (Z.to_nat b') as [|k IH]; [done|].
    replace (Z.of_nat (S k)) with (Z.of_nat k + 1) by lia.
    rewrite start_of_succ by lia. rewrite (Hem (Z.of_nat k)) by lia.
    cbn [length]. rewrite IH; [lia|lia|]. intros x Hx. apply Hem. lia. }
  unfold iter_new. replace (degree =? 0) with false by bool_lia. rewrite Hvd.
  change (nghs_start_of base B) with (block_finger m base B 0).
  assert (exists p2,
    (if load32 m (block_finger m base B 0) <? block_end m base B degree 0 then
       '(ngh, finger) ← eatFirstEdge m (block_finger m base B 0 + sizeof_uintE) src;
       '(wgh, finger) ← eatWeight m finger;
       Some (0, finger,
             wrap32 (block_end m base B degree 0 - load32 m (block_finger m base B 0)),
             (ngh, wgh))
     else
       iter_first_chunk (Z.to_nat (B - 1)) m base src degree B 1
         (block_finger m base B 0 + sizeof_uintE)
         (wrap32 (block_end m base B degree 0 - load32 m (block_finger m base B 0)))
         dflt) = Some (b', p2, Z.of_nat (length (E b')), nth 0 (E b') dflt) /\
    bytes_at m p2 (rest_bytes (fst (nth 0 (E b') dflt)) (skipn 1 (E b'))))
    as (p2 & -> & Hby).
  { destruct (Z.eq_dec b' 0) as [->|Hnz].
    - destruct (enter_block 0 ltac:(lia) Hne)
        as (Hst & Hend & Hpos & Hs0 & Hs1 & p1 & p2 & He & Hew & Hby).
      rewrite Hst, Hend. replace (_ <? _) with true by bool_lia.
      rewrite He. cbn [mbind option_bind]. rewrite Hew. cbn [mbind option_bind].
      exists p2. split; [|done].
      replace (start_of E 0 + Z.of_nat (length (E 0)) - start_of E 0)
        with (Z.of_nat (length (E 0))) by lia.
      rewrite wrap32_id by lia. by rewrite <- surjective_pairing.
    - destruct (empty_block 0 ltac:(lia) (Hem 0 ltac:(lia))) as [Hst Hend].
      rewrite Hst, Hend. replace (_ <? _) with false by bool_lia.
      apply iter_first_chunk_finds; [lia|lia| |done|lia].
      intros x Hx. apply Hem. lia. }
  cbn [mbind option_bind]. eexists. split; [done|].
  destruct (enter_block b' ltac:(lia) Hne) as (_ & _ & Hpos & _).
  unfold iter_at. cbn [i_base i_src i_degree i_num_blocks i_cur_chunk i_cur_chunk_degree
    i_read_in_block i_read_total i_last_edge i_finger].
  split; [done|]. split; [done|]. split; [done|]. split; [done|].
  exists b', 0%nat. rewrite Hst0.
  split; [lia|]. split; [lia|]. done.
Qed.

Lemma iter_next_at fuel it k :
  iter_at m base src vd E it k -> Z.of_nat k + 1 < degree ->
  (nblocks vd <= fuel)%nat ->
  exists it', iter_next fuel m it = Some it' /\ iter_at m base src vd E it' (S k).
Proof.
  intros (Hbase & Hsrc & Hdeg & Hnb & b & j & Hb & Hj & Hk & Hcc & Hccd & Hrib & Hrt
          & Hle & Hby) Hnext Hfuel.
  pose proof region_B_bound as HB.
  destruct (region_block m base src vd E Hreg b Hb)
    as (_ & _ & _ & Hok & Hs0 & Hs1 & Hdlt & Hsrcok).
  unfold iter_next. rewrite Hrib, Hccd, Hbase, Hsrc, Hdeg, Hnb, Hcc, Hrt, Hle.
  destruct (Z.eqb_spec (Z.of_nat j + 1) (Z.of_nat (length (E b)))) as [Hlast|Hmid].
  - (* the block is exhausted: on to the next block that holds an edge *)
    destruct (next_nonempty E (Z.to_nat (B - (b + 1))) (b + 1) ltac:(lia))
      as (b' & Hb' & Hem & Hne).
    { replace (b + 1 + Z.of_nat (Z.to_nat (B - (b + 1)))) with B by lia.
      rewrite start_of_succ by lia. lia. }
    assert (start_of E b' = start_of E (b + 1)) as Hst'.
    { clear -Hem Hb' Hb. replace b' with (b + 1 + Z.of_nat (Z.to_nat (b' - (b + 1)))) in *
        by lia.
      induction (Z.to_nat (b' - (b + 1))) as [|n IH];
        [by replace (b + 1 + Z.of_nat 0) with (b + 1) by lia|].
      replace (b + 1 + Z.of_nat (S n)) with (b + 1 + Z.of_nat n + 1) by lia.
      rewrite start_of_succ by lia. rewrite (Hem (b + 1 + Z.of_nat n)) by lia.
      cbn [length]. rewrite IH; [lia|lia|]. intros x Hx. apply Hem. lia. }
    rewrite start_of_succ in Hst' by lia.
    rewrite (iter_next_chunk_finds fuel b b') by
      (first [done | lia | (intros x Hx; apply Hem; lia) | (unfold nblocks in Hfuel; lia)]).
    cbn [mbind option_bind].
    destruct (enter_block b' ltac:(lia) Hne)
      as (_ & _ & Hpos & _ & _ & p1 & p2 & He & Hew & Hby').
    rewrite He. cbn [mbind option_bind]. rewrite Hew. cbn [mbind option_bind].
    eexists. split; [done|].
    unfold iter_at. cbn [i_base i_src i_degree i_num_blocks i_cur_chunk i_cur_chunk_degree
      i_read_in_block i_read_total i_last_edge i_finger].
    split; [done|]. split; [done|]. split; [done|]. split; [done|].
    exists b', 0%nat.
    split; [lia|]. split; [lia|]. split; [lia|].
    split; [done|]. split; [done|]. split; [done|].
    split; [rewrite wrap32_id; lia|].
    split; [by rewrite <- surjective_pairing|done].
  - (* the next edge of the block *)
    destruct (increasing_nth (E b) (-1) j Hok Hj) as (Hn & Hw & Hinc).
    rewrite (skipn_nth_cons (E b) dflt (S j)) in Hby, Hinc by lia.
    destruct (nth (S j) (E b) dflt) as [n' w'] eqn:Hnth.
    cbn [rest_bytes increasing_from] in Hby, Hinc.
    destruct Hinc as (Hn' & Hw' & Hinc).
    assert (0 <= fst (nth j (E b) dflt) < n') as Hrange by lia.
    destruct (read_edge m (i_finger it) _ n' w' _ Hrange ltac:(lia) Hw' Hby)
      as (p1 & p2 & He & Hwr & Hew & Hb' & _).
    rewrite He. cbn [mbind option_bind]. rewrite Hew. cbn [mbind option_bind].
    eexists. split; [done|].
    unfold iter_at. cbn [i_base i_src i_degree i_num_blocks i_cur_chunk i_cur_chunk_degree
      i_read_in_block i_read_total i_last_edge i_finger].
    split; [done|]. split; [done|]. split; [done|]. split; [done|].
    exists b, (S j).
    split; [lia|]. split; [lia|]. split; [lia|].
    split; [done|]. split; [done|].
    split; [rewrite wrap32_id; lia|].
    split; [rewrite wrap32_id; lia|].
    rewrite Hnth, Hwr. cbn [fst]. done.
Qed.

Lemma iter_nexts_at fuel k : forall it k0,
  iter_at m base src vd E it k0 -> Z.of_nat (k0 + k) < degree ->
  (nblocks vd <= fuel)%nat ->
  exists it', iter_nexts fuel m k it = Some it' /\ iter_at m base src vd E it' (k0 + k).
Proof.
  induction k as [|k IH]; intros it k0 Hat Hlt Hfuel.
  - exists it. rewrite Nat.add_0_r. done.
  - destruct (iter_next_at fuel it k0 Hat ltac:(lia) Hfuel) as (it1 & Hn & Hat1).
    cbn [iter_nexts]. rewrite Hn. cbn [mbind option_bind].
    destruct (IH it1 (S k0) Hat1 ltac:(lia) Hfuel) as (it' & Hres & Hat').
    exists it'. split; [done|]. by replace (k0 + S k)%nat with (S k0 + k)%nat by lia.
Qed.

Lemma iter_at_cur it k :
  iter_at m base src vd E it k ->
  iter_cur it = nth k (edges_of vd E) dflt /\
  iter_has_next it = (Z.of_nat k + 1 <? degree).
Proof.
  intros (Hbase & Hsrc & Hdeg & Hnb & b & j & Hb & Hj & Hk & Hcc & Hccd & Hrib & Hrt
          & Hle & Hby).
  split.
  - unfold iter_cur. rewrite Hle. unfold edges_of.
    rewrite <- (nth_flat E (nblocks vd) b j) by (first [done | unfold nblocks; lia]).
    f_equal. pose proof (start_of_nonneg E b). lia.
  - unfold iter_has_next. by rewrite Hrt, Hdeg.
Qed.

End iter_proofs.

(** X8. The cursor [iter] traverses an encoded neighbour list, also one
    that [pack] has thinned out (blocks with fewer than [PARALLEL_DEGREE]
    edges, or none): after the constructor and [k] calls of [next()], for
    [k] below the degree, [cur()] is edge [k] of the list and [has_next()]
    says whether edge [k + 1] exists.  Each [while] loop of [next()] ends
    after at most as many rounds as the list has blocks. *)
Theorem iter_traverses :
  forall (W : Type) (HW : Weight W) (HWok : WeightOk W)
         (m : mem) (edge_start src vd : Z) (E : Z -> list (Z * W)) (k fuel : nat),
    Encoded m edge_start src vd E ->
    (k < length (edges_of vd E))%nat -> (nblocks vd <= fuel)%nat ->
    let es := edges_of vd E in
    exists it0 it,
      iter_new m edge_start (Z.of_nat (length es)) src = Some it0 /\
      iter_nexts fuel m k it0 = Some it /\
      iter_cur it = nth k es (0, default_weight) /\
      iter_has_next it = (Z.of_nat k + 1 <? Z.of_nat (length es)).
Proof.
  intros W HW HWok m base src vd E k fuel HEnc Hk Hfuel es. subst es.
  pose proof (Encoded_region _ _ _ _ _ HEnc) as Hreg.
  rewrite length_edges_of. pose proof (length_edges_of vd E) as Hlen.
  destruct (iter_new_at m base src vd E Hreg ltac:(lia)) as (it0 & Hnew & Hat0).
  destruct (iter_nexts_at m base src vd E Hreg fuel k it0 0 Hat0 ltac:(lia) Hfuel)
    as (it & Hres & Hat).
  exists it0, it. split; [done|]. split; [done|].
  by apply (iter_at_cur m base src vd E).
Qed.

Lemma iter_traverses_witness :
  let l := examples.unit_edges 1 1500 in
  let vd := Z.of_nat (length l) in
  let m := examples.encode zero_mem 0 1 l in
  let es := edges_of vd (chunk_of l) in
  exists it0 it,
    iter_new m 0 (Z.of_nat (length es)) 1 = Some it0 /\
    iter_nexts 2 m 1200 it0 = Some it /\
    iter_cur it = nth 1200 es (0, default_weight) /\
    iter_has_next it = (Z.of_nat 1200 + 1 <? Z.of_nat (length es)).
Proof.
  apply (iter_traverses unit _ _
           (examples.encode zero_mem 0 1 (examples.unit_edges 1 1500)) 0 1
           (Z.of_nat (length (examples.unit_edges 1 1500)))
           (chunk_of (examples.unit_edges 1 1500)) 1200 2).
  - encoded_example.
  - vm_compute. lia.
  - vm_compute. lia.
Defined.

(** ** Random access *)

Section get_ith_proofs.
Context {W : Type} {HW : Weight W} {HWok : WeightOk W}.
Variables (m : mem) (base src vd : Z) (E : Z -> list (Z * W)).
Hypothesis Hreg : region m base src vd E.

Local Abbreviation B := (num_blocks_of vd).
Local Abbreviation degree := (start_of E (num_blocks_of vd)).
Local Abbreviation dflt := (0, default_weight).

(** the search over the block ends finds the block that holds edge [i] *)
Lemma binary_search_from_block i n : forall j,
  0 <= j -> j + Z.of_nat n = B -> start_of E j <= i < degree ->
  exists b,
    binary_search_from n (fun j => block_end m base B degree j) j i
      (fun l r => l <=? r) = b /\
    j <= b < B /\ start_of E b <= i < start_of E b + Z.of_nat (length (E b)).
Proof.
  induction n as [|n IH]; intros j Hj Hn Hi.
  - replace j with B in Hi by lia. lia.
  - cbn [binary_search_from].
    destruct (region_block m base src vd E Hreg j ltac:(lia)) as (_ & -> & _).
    destruct (Z.leb_spec (start_of E j + Z.of_nat (length (E j))) i) as [Hle|Hgt].
    + destruct (IH (j + 1) ltac:(lia) ltac:(lia)) as (b & Hres & Hb & Hin).
      { rewrite start_of_succ by lia. lia. }
      exists b. split; [done|]. split; [lia|done].
    + exists j. split; [done|]. split; [lia|lia].
Qed.

Lemma get_ith_rest_nth n : forall es finger ngh wgh,
  (n <= length es)%nat -> 0 <= ngh -> increasing_from ngh es ->
  bytes_at m finger (rest_bytes ngh es) ->
  get_ith_rest n m finger ngh wgh = Some (nth n ((ngh, wgh) :: es) dflt).
Proof.
  induction n as [|n IH]; intros es finger ngh wgh Hn Hngh Hi Hb; [done|].
  destruct es as [|[n' w'] es]; cbn [length] in Hn; [lia|].
  cbn [get_ith_rest increasing_from rest_bytes] in *.
  destruct Hi as (? & ? & Hi).
  destruct (read_edge m finger ngh n' w' _ ltac:(lia) ltac:(lia) ltac:(done) Hb)
    as (p1 & p2 & He & Hwr & Hw & Hb' & _).
  rewrite He. cbn [mbind option_bind]. rewrite Hwr, Hw. cbn [mbind option_bind].
  rewrite (IH es) by (first [done | lia]). done.
Qed.

Lemma get_ith_neighbor_region (i : nat) :
  Z.of_nat i < degree ->
  exists b,
    0 <= b < B /\ start_of E b <= Z.of_nat i < start_of E (b + 1) /\
    get_ith_neighbor m base src degree (Z.of_nat i) =
      Some (nth (if Z.of_nat i =? start_of E b then i else (i - 1)%nat)
                (edges_of vd E) dflt).
Proof.
  intros Hi. pose proof (region_B_bound m base src vd E Hreg) as HB.
  destruct (region_vd m base src vd E Hreg) as [Hvd _].
  destruct (binary_search_from_block (Z.of_nat i) (Z.to_nat B) 0 ltac:(lia) ltac:(lia))
    as (b & Hres & Hb & Hin).
  { rewrite start_of_0. lia. }
  exists b. split; [lia|]. rewrite start_of_succ by lia. split; [done|].
  unfold get_ith_neighbor, binary_search. rewrite Hvd, Hres.
  replace (b <? B) with true by bool_lia. cbn [negb].
  destruct (enter_block m base src vd E Hreg b ltac:(lia))
    as (Hst & Hend & Hpos & Hs0 & Hs1 & p1 & p2 & He & Hew & Hby).
  { intros Hnil. rewrite Hnil in Hin. cbn [length] in Hin. lia. }
  rewrite Hst, He. cbn [mbind option_bind]. rewrite Hew. cbn [mbind option_bind].
  destruct (region_block m base src vd E Hreg b ltac:(lia)) as (_ & _ & _ & Hok & _).
  destruct (increasing_nth (E b) (-1) 0 Hok ltac:(lia)) as (Hn0 & Hw0 & Hinc).
  assert (Z.to_nat (start_of E b) + Z.to_nat (Z.of_nat i - start_of E b) = i)%nat
    as Hidx by lia.
  destruct (Z.eqb_spec (Z.of_nat i) (start_of E b)) as [Heq|Hne].
  - rewrite <- surjective_pairing. f_equal. unfold edges_of.
    rewrite <- (nth_flat E (nblocks vd) b 0) by (first [lia | unfold nblocks; lia]).
    f_equal. lia.
  - rewrite wrap32_id by lia.
    rewrite (get_ith_rest_nth _ (skipn 1 (E b))); [| |lia|done|done].
    2: { rewrite length_skipn. lia. }
    f_equal. rewrite <- surjective_pairing.
    replace (nth 0 (E b) dflt :: skipn 1 (E b)) with (E b)
      by (rewrite <- (skipn_nth_cons (E b) dflt 0) by lia; done).
    unfold edges_of.
    rewrite <- (nth_flat E (nblocks vd) b (Z.to_nat (Z.of_nat i - (start_of E b + 1))))
      by (first [lia | unfold nblocks; lia]).
    f_equal. lia.
Qed.

End get_ith_proofs.

(** X9. What [get_ith_neighbor] returns on any encoded neighbour list:
    for [i] below the degree, with [b] the block that holds edge [i], it
    returns edge [i] when [i] is the first edge of block [b], and edge
    [i - 1] otherwise. *)
Theorem get_ith_neighbor_off_by_one :
  forall (W : Type) (HW : Weight W) (HWok : WeightOk W)
         (m : mem) (edge_start src vd : Z) (E : Z -> list (Z * W)) (i : nat),
    Encoded m edge_start src vd E ->
    (i < length (edges_of vd E))%nat ->
    let es := edges_of vd E in
    exists b,
      0 <= b < num_blocks_of vd /\
      start_of E b <= Z.of_nat i < start_of E (b + 1) /\
      get_ith_neighbor m edge_start src (Z.of_nat (length es)) (Z.of_nat i) =
        Some (nth (if Z.of_nat i =? start_of E b then i else (i - 1)%nat) es
                  (0, default_weight)).
Proof.
  intros W HW HWok m base src vd E i HEnc Hi es. subst es.
  pose proof (Encoded_region _ _ _ _ _ HEnc) as Hreg.
  rewrite length_edges_of. pose proof (length_edges_of vd E) as Hlen.
  apply get_ith_neighbor_region; [done|lia].
Qed.

Lemma get_ith_neighbor_off_by_one_witness :
  let l := examples.unit_edges 1 1500 in
  let vd := Z.of_nat (length l) in
  let m := examples.encode zero_mem 0 1 l in
  let es := edges_of vd (chunk_of l) in
  exists b,
    0 <= b < num_blocks_of vd /\
    start_of (chunk_of l) b <= Z.of_nat 1200 < start_of (chunk_of l) (b + 1) /\
    get_ith_neighbor m 0 1 (Z.of_nat (length es)) (Z.of_nat 1200) =
      Some (nth (if Z.of_nat 1200 =? start_of (chunk_of l) b then 1200%nat
                 else (1200 - 1)%nat) es (0, default_weight)).
Proof.
  apply (get_ith_neighbor_off_by_one unit _ _
           (examples.encode zero_mem 0 1 (examples.unit_edges 1 1500)) 0 1
           (Z.of_nat (length (examples.unit_edges 1 1500)))
           (chunk_of (examples.unit_edges 1 1500)) 1200).
  - encoded_example.
  - vm_compute. lia.
Defined.

(** ** BFS: the parents and the counter *)

Section bfs_more.
Variable GA : bfs.graph.

(** what a call of the round does when it goes through *)
Lemma edgeMap_call_cases st c rest :
  let st' := bfs.edgeMap_call GA st c rest in
  (bfs.Parents st' = bfs.Parents st /\ bfs.output st' = bfs.output st /\
   bfs.reachable st' = bfs.reachable st /\ bfs.Frontier st' = bfs.Frontier st) \/
  (In (bfs.c_s c) (bfs.Frontier st) /\ In (bfs.c_d c) (bfs.out_nghs GA (bfs.c_s c)) /\
   bfs.Parents st (bfs.c_d c) = UINT_E_MAX /\
   bfs.Parents st' = upd (bfs.Parents st) (bfs.c_d c) (bfs.c_s c) /\
   bfs.output st' = bfs.output st ++ [bfs.c_d c] /\
   bfs.reachable st' = bfs.reachable st /\ bfs.Frontier st' = bfs.Frontier st).
Proof.
  intros st'. subst st'. unfold bfs.edgeMap_call.
  destruct (bfs.member (bfs.c_s c) (bfs.Frontier st)) eqn:Hs; cbn [andb]; [|by left].
  destruct (bfs.member (bfs.c_d c) (bfs.out_nghs GA (bfs.c_s c))) eqn:Hd; cbn [andb];
    [|by left].
  destruct (bfs.cond (bfs.Parents st) (bfs.c_d c)) eqn:Hc; [|by left].
  apply member_In in Hs, Hd. unfold bfs.cond in Hc.
  assert ((if bfs.c_atomic c
           then bfs.updateAtomic (bfs.Parents st) (bfs.c_s c) (bfs.c_d c)
           else bfs.update (bfs.Parents st) (bfs.c_s c) (bfs.c_d c))
          = (true, upd (bfs.Parents st) (bfs.c_d c) (bfs.c_s c))) as ->.
  { unfold bfs.updateAtomic, bfs.atomic_compare_and_swap, bfs.update.
    rewrite Hc. by destruct (bfs.c_atomic c). }
  apply Z.eqb_eq in Hc. right. done.
Qed.

(** an invariant of the steps holds in every state of a run *)
Lemma run_invariant (I : bfs.state -> Prop) src rounds :
  bfs.vertices_ok GA src ->
  I (bfs.start src rounds) ->
  (forall st st', bfs.bfs_inv GA src st -> I st -> bfs.step GA st = Some st' -> I st') ->
  forall k, I (bfs.run GA k (bfs.start src rounds)).
Proof.
  intros Hok H0 Hstep k. induction k as [|k IH]; [done|].
  rewrite run_succ.
  destruct (bfs.step GA (bfs.run GA k (bfs.start src rounds))) as [st'|] eqn:Hs; [|done].
  eapply Hstep; [|exact IH|exact Hs]. by apply run_inv.
Qed.

Lemma run_parent_edges src rounds k d :
  bfs.vertices_ok GA src ->
  let P := bfs.Parents (bfs.run GA k (bfs.start src rounds)) in
  P d = UINT_E_MAX \/ (d = src /\ P d = src) \/
  (In d (bfs.out_nghs GA (P d)) /\ 0 <= P d < bfs.n GA /\ 0 <= d < bfs.n GA).
Proof.
  intros Hok. cbv zeta. revert d.
  apply (run_invariant (fun st => forall d,
    bfs.Parents st d = UINT_E_MAX \/ (d = src /\ bfs.Parents st d = src) \/
    (In d (bfs.out_nghs GA (bfs.Parents st d)) /\ 0 <= bfs.Parents st d < bfs.n GA /\
     0 <= d < bfs.n GA)) src rounds Hok).
  - intros d. cbn. unfold upd. destruct (Z.eqb_spec d src); [right; by left|by left].
  - intros st st' (HF & HO & HP) HI Hstep d.
    destruct Hok as (Hsrc & Hn & Hedges).
    unfold bfs.step in Hstep.
    destruct (bfs.sched st) as [|c rest] eqn:Hsched.
    + destruct (bfs.output st) as [|x out] eqn:Hout; [done|].
      destruct (bfs.later st) as [|sc scs]; [done|].
      injection Hstep as <-. cbn. apply HI.
    + injection Hstep as <-.
      destruct (edgeMap_call_cases st c rest)
        as [(-> & _)|(Hs & Hd & Hmax & -> & _)]; [apply HI|].
      unfold upd. destruct (Z.eqb_spec d (bfs.c_d c)) as [->|]; [|apply HI].
      right. right. split; [done|]. split; [by apply HF|by eapply Hedges].
Qed.

Lemma visited_upd P d s :
  0 <= d < bfs.n GA -> P d = UINT_E_MAX -> s <> UINT_E_MAX ->
  bfs.visited GA (upd P d s) = bfs.visited GA P + 1.
Proof.
  intros Hd HP Hs. unfold bfs.visited.
  replace (bfs.n GA) with (d + (1 + (bfs.n GA - d - 1))) by lia.
  rewrite !seqZ_app by lia. rewrite !filter_app, !length_app.
  change (seqZ (0 + d) 1) with [0 + d]. cbn [List.filter length].
  rewrite Z.add_0_l. unfold upd at 2. rewrite Z.eqb_refl, HP.
  replace (s =? UINT_E_MAX) with false by bool_lia.
  rewrite Z.eqb_refl. cbn [negb length].
  assert (forall l, ~ In d l ->
            List.filter (fun d0 => negb (upd P d s d0 =? UINT_E_MAX)) l =
            List.filter (fun d0 => negb (P d0 =? UINT_E_MAX)) l) as Hext.
  { intros l Hl. apply filter_ext_in. intros x Hx. unfold upd.
    destruct (Z.eqb_spec x d) as [->|]; [done|done]. }
  rewrite !Hext; [lia| |].
  - intros Hin. apply list_elem_of_In, elem_of_seqZ in Hin. lia.
  - intros Hin. apply list_elem_of_In, elem_of_seqZ in Hin. lia.
Qed.

Lemma run_reachable src rounds k :
  bfs.vertices_ok GA src ->
  let st := bfs.run GA k (bfs.start src rounds) in
  bfs.visited GA (bfs.Parents st)
  = bfs.reachable st + Z.of_nat (length (bfs.output st)).
Proof.
  intros Hok. cbv zeta.
  apply (run_invariant (fun st =>
    bfs.visited GA (bfs.Parents st)
    = bfs.reachable st + Z.of_nat (length (bfs.output st))) src rounds Hok).
  - destruct Hok as (Hsrc & Hn & Hedges). cbn.
    rewrite visited_upd by (first [done | unfold UINT_E_MAX in *; lia]).
    assert (bfs.visited GA (fun _ => UINT_E_MAX) = 0) as ->; [|done].
    unfold bfs.visited. induction (seqZ 0 (bfs.n GA)) as [|x l IH]; [done|].
    cbn [List.filter]. by rewrite Z.eqb_refl.
  - intros st st' (HF & HO & HP) HI Hstep.
    destruct Hok as (Hsrc & Hn & Hedges).
    unfold bfs.step in Hstep.
    destruct (bfs.sched st) as [|c rest] eqn:Hsched.
    + destruct (bfs.output st) as [|x out] eqn:Hout; [done|].
      destruct (bfs.later st) as [|sc scs]; [done|].
      injection Hstep as <-. cbn [bfs.Parents bfs.reachable bfs.output length].
      rewrite HI. cbn [length]. lia.
    + injection Hstep as <-.
      destruct (edgeMap_call_cases st c rest)
        as [(-> & -> & -> & _)|(Hs & Hd & Hmax & -> & -> & -> & _)]; [done|].
      rewrite visited_upd; [rewrite HI, length_app; cbn [length]; lia| |done|].
      * by eapply Hedges.
      * pose proof (HF _ Hs). lia.
Qed.

End bfs_more.

(** X10. The parents BFS assigns are graph edges: in the array [BFS]
    returns, every entry [Parents[d]] is [UINT_E_MAX] (not reached), or [d]
    is [src] and its own parent, or [Parents[d]] is a vertex of the graph
    with an edge to [d]; so only vertices of the graph are ever reached. *)
Theorem BFS_parents_are_edges :
  forall (GA : bfs.graph) (src : Z) (rounds : list (list bfs.call)) (fuel : nat) (d : Z),
    bfs.vertices_ok GA src ->
    let P := bfs.BFS GA src rounds fuel in
    P d = UINT_E_MAX \/ (d = src /\ P d = src) \/
    (In d (bfs.out_nghs GA (P d)) /\ 0 <= P d < bfs.n GA /\ 0 <= d < bfs.n GA).
Proof.
  intros GA src rounds fuel d Hok. by apply run_parent_edges.
Qed.

(** X11. The counter of [BFS]: in every state of a run, the number of
    vertices with a parent is [reachable] plus the number of vertices
    accepted so far in the running round; when a round ends with an empty
    output (the loop is left), [reachable] is the number of vertices with
    a parent. *)
Theorem BFS_reachable_counts_visited :
  forall (GA : bfs.graph) (src : Z) (rounds : list (list bfs.call)) (k : nat),
    bfs.vertices_ok GA src ->
    let st := bfs.run GA k (bfs.start src rounds) in
    bfs.visited GA (bfs.Parents st)
      = bfs.reachable st + Z.of_nat (length (bfs.output st)) /\
    (bfs.output st = [] -> bfs.reachable st = bfs.visited GA (bfs.Parents st)).
Proof.
  intros GA src rounds k Hok. cbv zeta.
  pose proof (run_reachable GA src rounds k Hok) as Hr. cbv zeta in Hr.
  split; [done|]. intros Hnil. rewrite Hnil in Hr. cbn [length] in Hr. lia.
Qed.

Lemma BFS_parents_are_edges_witness :
  let GA := {| bfs.n := 4; bfs.out_nghs := examples.star_nghs |} in
  let rounds :=
    [[{| bfs.c_s := 0; bfs.c_d := 1; bfs.c_atomic := true |};
      {| bfs.c_s := 0; bfs.c_d := 3; bfs.c_atomic := true |};
      {| bfs.c_s := 0; bfs.c_d := 2; bfs.c_atomic := true |}];
     [{| bfs.c_s := 3; bfs.c_d := 0; bfs.c_atomic := false |};
      {| bfs.c_s := 1; bfs.c_d := 0; bfs.c_atomic := false |}]] in
  let P := bfs.BFS GA 0 rounds 9 in
  P 3 = UINT_E_MAX \/ (3 = 0 /\ P 3 = 0) \/
  (In 3 (bfs.out_nghs GA (P 3)) /\ 0 <= P 3 < bfs.n GA /\ 0 <= 3 < bfs.n GA).
Proof.
  apply (BFS_parents_are_edges
           {| bfs.n := 4; bfs.out_nghs := examples.star_nghs |} 0
           [[{| bfs.c_s := 0; bfs.c_d := 1; bfs.c_atomic := true |};
             {| bfs.c_s := 0; bfs.c_d := 3; bfs.c_atomic := true |};
             {| bfs.c_s := 0; bfs.c_d := 2; bfs.c_atomic := true |}];
            [{| bfs.c_s := 3; bfs.c_d := 0; bfs.c_atomic := false |};
             {| bfs.c_s := 1; bfs.c_d := 0; bfs.c_atomic := false |}]] 9 3).
  split; [cbn; lia|]. split; [cbn; unfold UINT_E_MAX; lia|].
  intros s d. cbn. unfold examples.star_nghs.
  destruct (s =? 0); [cbn; lia|].
  destruct ((0 <? s) && (s <? 4)); cbn; lia.
Defined.

Lemma BFS_reachable_counts_visited_witness :
  let GA := {| bfs.n := 4; bfs.out_nghs := examples.star_nghs |} in
  let rounds :=
    [[{| bfs.c_s := 0; bfs.c_d := 1; bfs.c_atomic := true |};
      {| bfs.c_s := 0; bfs.c_d := 3; bfs.c_atomic := true |};
      {| bfs.c_s := 0; bfs.c_d := 2; bfs.c_atomic := true |}];
     [{| bfs.c_s := 3; bfs.c_d := 0; bfs.c_atomic := false |};
      {| bfs.c_s := 1; bfs.c_d := 0; bfs.c_atomic := false |}]] in
  let st := bfs.run GA 9 (bfs.start 0 rounds) in
  bfs.visited GA (bfs.Parents st)
    = bfs.reachable st + Z.of_nat (length (bfs.output st)) /\
  (bfs.output st = [] -> bfs.reachable st = bfs.visited GA (bfs.Parents st)).
Proof.
  apply (BFS_reachable_counts_visited
           {| bfs.n := 4; bfs.out_nghs := examples.star_nghs |} 0
           [[{| bfs.c_s := 0; bfs.c_d := 1; bfs.c_atomic := true |};
             {| bfs.c_s := 0; bfs.c_d := 3; bfs.c_atomic := true |};
             {| bfs.c_s := 0; bfs.c_d := 2; bfs.c_atomic := true |}];
            [{| bfs.c_s := 3; bfs.c_d := 0; bfs.c_atomic := false |};
             {| bfs.c_s := 1; bfs.c_d := 0; bfs.c_atomic := false |}]] 9).
  split; [cbn; lia|]. split; [cbn; unfold UINT_E_MAX; lia|].
  intros s d. cbn. unfold examples.star_nghs.
  destruct (s =? 0); [cbn; lia|].
  destruct ((0 <? s) && (s <? 4)); cbn; lia.
Defined.

(** ** wBFS: the relaxation step *)

(** ** wbfs::Visit_F *)

Lemma TOP_BIT_val : Visit_F.TOP_BIT = 2 ^ 31.
Proof. done. Qed.

Lemma VAL_MASK_val : Visit_F.VAL_MASK = Z.ones 31.
Proof. done. Qed.

Lemma land_VAL_MASK x : Z.land x Visit_F.VAL_MASK = x mod 2 ^ 31.
Proof. rewrite VAL_MASK_val. apply Z.land_ones. lia. Qed.

Lemma lor_TOP_BIT x : is_uintE x -> Z.lor x Visit_F.TOP_BIT = x mod 2 ^ 31 + 2 ^ 31.
Proof.
  unfold is_uintE. intros Hx. rewrite TOP_BIT_val.
  change (2 ^ 31) with (Z.shiftl 1 31) at 1.
  destruct (Z.lt_ge_cases x (2 ^ 31)) as [Hlt|Hge].
  - rewrite lor_shiftl_add by lia. rewrite Z.mod_small by lia. lia.
  - replace x with (Z.lor (x - 2 ^ 31) (Z.shiftl 1 31)) at 1
      by (rewrite lor_shiftl_add by lia; lia).
    rewrite <- Z.lor_assoc, Z.lor_diag, lor_shiftl_add by lia.
    replace x with ((x - 2 ^ 31) + 1 * 2 ^ 31) at 2 by lia.
    rewrite Z.mod_add by lia. rewrite Z.mod_small by lia. lia.
Qed.

Lemma land_TOP_BIT x : is_uintE x -> (Z.land x Visit_F.TOP_BIT =? 0) = (x <? 2 ^ 31).
Proof.
  unfold is_uintE. intros Hx. rewrite TOP_BIT_val.
  change (2 ^ 31) with (Z.shiftl 1 31) at 1.
  destruct (Z.ltb_spec x (2 ^ 31)) as [Hlt|Hge].
  - rewrite land_shiftl_disjoint by lia. done.
  - replace x with (Z.lor (x - 2 ^ 31) (Z.shiftl 1 31)) at 1
      by (rewrite lor_shiftl_add by lia; lia).
    rewrite Z.land_lor_distr_l, land_shiftl_disjoint by lia.
    rewrite Z.land_diag. done.
Qed.

(** X12. [Visit_F::update] relaxes an edge: when the distance of [s]
    (without its [TOP_BIT]) plus [w] is in [0, 2^31), the distance of [d]
    (without its [TOP_BIT]) becomes the smaller of its old value and that
    sum, no other entry changes, a changed entry carries the [TOP_BIT], and
    the old entry is returned exactly when it was lowered and did not carry
    the [TOP_BIT] (first visitor).  [updateAtomic] does the same when no
    other worker writes in between; whatever the others do, it returns the
    old entry only when its compare-and-swap found it unchanged. *)
Theorem Visit_F_update_relaxes :
  forall (dists : Z -> Z) (s d w : Z),
    is_uintE (dists s) -> is_uintE (dists d) ->
    0 <= Z.land (dists s) Visit_F.VAL_MASK + w < 2 ^ 31 ->
    let r := Visit_F.update dists s d w in
    let new := Z.land (dists s) Visit_F.VAL_MASK + w in
    let old := Z.land (dists d) Visit_F.VAL_MASK in
    Z.land (snd r d) Visit_F.VAL_MASK = Z.min old new /\
    (forall x, x <> d -> snd r x = dists x) /\
    (snd r d <> dists d -> snd r d = Z.lor new Visit_F.TOP_BIT) /\
    fst r = (if (new <? old) && (Z.land (dists d) Visit_F.TOP_BIT =? 0)
             then Some (dists d) else None) /\
    Visit_F.updateAtomic dists s d w (fun a => a) (fun a => a) = r /\
    (forall before_cas before_min v dists',
       Visit_F.updateAtomic dists s d w before_cas before_min = (Some v, dists') ->
       v = dists d /\ Z.land v Visit_F.TOP_BIT = 0 /\ before_cas dists d = v /\
       dists' = upd (before_cas dists) d (Z.lor new Visit_F.TOP_BIT)).
Proof.
  intros dists s d w Hs Hd Hnew r new old.
  assert (Z.lor new Visit_F.TOP_BIT = new + 2 ^ 31) as Hlor.
  { rewrite lor_TOP_BIT by (unfold is_uintE; subst new; lia).
    rewrite Z.mod_small by (subst new; lia). done. }
  assert (wrap32 (Z.lor (dists s) Visit_F.TOP_BIT + w) = new + 2 ^ 31) as Hnd.
  { rewrite lor_TOP_BIT by done. subst new. rewrite land_VAL_MASK in *.
    rewrite wrap32_id by lia. lia. }
  assert (Z.lor (dists d) Visit_F.TOP_BIT = old + 2 ^ 31) as Hdist.
  { rewrite lor_TOP_BIT by done. subst old. by rewrite land_VAL_MASK. }
  assert (0 <= old < 2 ^ 31) as Hold
    by (subst old; rewrite land_VAL_MASK; apply Z.mod_pos_bound; lia).
  subst r. unfold Visit_F.update, Visit_F.updateAtomic. rewrite Hnd, Hdist, Hlor.
  replace (new + 2 ^ 31 <? old + 2 ^ 31) with (new <? old)
    by (destruct (Z.ltb_spec new old); bool_lia).
  unfold bfs.atomic_compare_and_swap, Visit_F.write_min.
  destruct (Z.ltb_spec new old) as [Hlt|Hge]; cbn [andb].
  - assert (Z.land (new + 2 ^ 31) Visit_F.VAL_MASK = new) as Hmask.
    { rewrite land_VAL_MASK. replace (new + 2 ^ 31) with (new + 1 * 2 ^ 31) by lia.
      rewrite Z.mod_add by lia. apply Z.mod_small. lia. }
    assert (new + 2 ^ 31 < dists d \/ (Z.land (dists d) Visit_F.TOP_BIT =? 0) = true) as Hcmp.
    { rewrite land_TOP_BIT by done. destruct (Z.ltb_spec (dists d) (2 ^ 31)); [by right|left].
      subst old. rewrite land_VAL_MASK in Hlt.
      pose proof (Z.div_mod (dists d) (2 ^ 31) ltac:(lia)).
      assert (dists d / 2 ^ 31 = 1); [|lia].
      unfold is_uintE in Hd. apply Z.le_antisymm.
      - apply Z.lt_succ_r. apply Z.div_lt_upper_bound; lia.
      - apply Z.div_le_lower_bound; lia. }
    destruct (Z.land (dists d) Visit_F.TOP_BIT =? 0) eqn:Htop; cbn [fst snd].
    + rewrite Z.eqb_refl. cbn [fst snd]. unfold upd. rewrite Z.eqb_refl.
      split; [rewrite Hmask; lia|].
      split; [intros x Hx; by replace (x =? d) with false by bool_lia|].
      split; [done|]. split; [done|]. split; [done|].
      intros bc bm v dists'.
      destruct (bc dists d =? dists d) eqn:Hcas.
      * intros [= <- <-]. apply Z.eqb_eq in Hcas, Htop. done.
      * destruct (_ <? _); intros [=].
    + destruct Hcmp as [Hcmp|]; [|done].
      replace (new + 2 ^ 31 <? dists d) with true by bool_lia. cbn [fst snd].
      unfold upd. rewrite Z.eqb_refl.
      split; [rewrite Hmask; lia|].
      split; [intros x Hx; by replace (x =? d) with false by bool_lia|].
      split; [done|]. split; [done|]. split; [done|].
      intros bc bm v dists'. destruct (_ <? _); intros [=].
  - cbn [fst snd].
    split; [lia|]. split; [done|]. split; [done|]. split; [done|]. split; [done|].
    intros bc bm v dists' [=].
Qed.

Lemma Visit_F_update_relaxes_witness :
  let dists := upd (upd (fun _ => INT_E_MAX) 0 0) 1 9 in
  let r := Visit_F.update dists 0 1 4 in
  let new := Z.land (dists 0) Visit_F.VAL_MASK + 4 in
  let old := Z.land (dists 1) Visit_F.VAL_MASK in
  Z.land (snd r 1) Visit_F.VAL_MASK = Z.min old new /\
  (forall x, x <> 1 -> snd r x = dists x) /\
  (snd r 1 <> dists 1 -> snd r 1 = Z.lor new Visit_F.TOP_BIT) /\
  fst r = (if (new <? old) && (Z.land (dists 1) Visit_F.TOP_BIT =? 0)
           then Some (dists 1) else None) /\
  Visit_F.updateAtomic dists 0 1 4 (fun a => a) (fun a => a) = r /\
  (forall before_cas before_min v dists',
     Visit_F.updateAtomic dists 0 1 4 before_cas before_min = (Some v, dists') ->
     v = dists 1 /\ Z.land v Visit_F.TOP_BIT = 0 /\ before_cas dists 1 = v /\
     dists' = upd (before_cas dists) 1 (Z.lor new Visit_F.TOP_BIT)).
Proof.
  apply (Visit_F_update_relaxes (upd (upd (fun _ => INT_E_MAX) 0 0) 1 9) 0 1 4);
    vm_compute; (split; [congruence|reflexivity]) || done.
Defined.

(** ** The block allocator: lists of blocks *)

Lemma initialize_list_loop_chain n : forall bs nx p,
  0 < bs ->
  snd (block_allocator.initialize_list_loop n bs nx p) = p + Z.of_nat n * bs /\
  (forall j, 0 <= j < Z.of_nat n ->
     fst (block_allocator.initialize_list_loop n bs nx p) (p + j * bs) = p + (j + 1) * bs) /\
  (forall q, (forall j, 0 <= j < Z.of_nat n -> q <> p + j * bs) ->
     fst (block_allocator.initialize_list_loop n bs nx p) q = nx q).
Proof.
  induction n as [|n IH]; intros bs nx p Hbs.
  - cbn. split; [lia|]. split; [intros; lia|done].
  - cbn [block_allocator.initialize_list_loop].
    destruct (IH bs (upd nx p (p + bs)) (p + bs) Hbs) as (Hend & Hchain & Hframe).
    split; [rewrite Hend; lia|]. split.
    + intros j Hj. destruct (Z.eq_dec j 0) as [->|Hnz].
      * rewrite Hframe.
        -- unfold upd. replace (p + 0 * bs =? p) with true by bool_lia. lia.
        -- intros j' Hj'. nia.
      * replace (p + j * bs) with (p + bs + (j - 1) * bs) by lia.
        rewrite Hchain by lia. lia.
    + intros q Hq. rewrite Hframe.
      * unfold upd. specialize (Hq 0 ltac:(lia)).
        by replace (q =? p) with false by bool_lia.
      * intros j Hj. specialize (Hq (j + 1) ltac:(lia)). lia.
Qed.

(** X13. [initialize_list] builds a list of exactly [list_length] blocks:
    for [1 <= list_length] and a positive block size, the block at
    [start + j * block_size] points to the next one for [j < list_length - 1],
    the last block points to [NULL], no other [next] field changes and no
    other field of the allocator changes. *)
Theorem initialize_list_chain :
  forall (heap : Type) (a : block_allocator.t heap) (start : Z),
    1 <= block_allocator.list_length a < 2 ^ 64 ->
    0 < block_allocator.block_size_ a ->
    let L := block_allocator.list_length a in
    let bs := block_allocator.block_size_ a in
    let r := block_allocator.initialize_list a start in
    snd r = start /\
    (forall j, 0 <= j < L - 1 ->
       block_allocator.next (fst r) (start + j * bs) = start + (j + 1) * bs) /\
    block_allocator.next (fst r) (start + (L - 1) * bs) = block_allocator.NULL /\
    (forall q, (forall j, 0 <= j < L -> q <> start + j * bs) ->
       block_allocator.next (fst r) q = block_allocator.next a q) /\
    fst r = block_allocator.set_next a (block_allocator.next (fst r)).
Proof.
  intros heap a start HL Hbs L bs r. subst r. unfold block_allocator.initialize_list.
  fold L bs. rewrite wrap64_id by lia.
  destruct (initialize_list_loop_chain (Z.to_nat (L - 1)) bs (block_allocator.next a)
              start Hbs) as (Hend & Hchain & Hframe).
  destruct (block_allocator.initialize_list_loop _ _ _ _) as [nx p].
  cbn [fst snd block_allocator.next block_allocator.set_next] in *.
  rewrite Z2Nat.id in * by lia. subst p.
  split; [done|]. split.
  - intros j Hj. unfold upd.
    replace (_ =? _) with false by (symmetry; apply Z.eqb_neq; nia).
    by apply Hchain.
  - split; [unfold upd; by rewrite Z.eqb_refl|]. split; [|done].
    intros q Hq. unfold upd.
    replace (_ =? _) with false by (specialize (Hq (L - 1) ltac:(lia)); bool_lia).
    apply Hframe. intros j Hj. apply Hq. lia.
Qed.

Lemma initialize_list_chain_witness :
  let a := block_allocator.exhausted in
  let L := block_allocator.list_length a in
  let bs := block_allocator.block_size_ a in
  let r := block_allocator.initialize_list a 1024 in
  snd r = 1024 /\
  (forall j, 0 <= j < L - 1 ->
     block_allocator.next (fst r) (1024 + j * bs) = 1024 + (j + 1) * bs) /\
  block_allocator.next (fst r) (1024 + (L - 1) * bs) = block_allocator.NULL /\
  (forall q, (forall j, 0 <= j < L -> q <> 1024 + j * bs) ->
     block_allocator.next (fst r) q = block_allocator.next a q) /\
  fst r = block_allocator.set_next a (block_allocator.next (fst r)).
Proof.
  apply (initialize_list_chain Z block_allocator.exhausted 1024); vm_compute;
    (split; [congruence|reflexivity]) || reflexivity.
Defined.

Lemma upd_eq {A : Type} (f : Z -> A) i v : upd f i v i = v.
Proof. unfold upd. by rewrite Z.eqb_refl. Qed.

Lemma upd_ne {A : Type} (f : Z -> A) i v j : j <> i -> upd f i v j = f j.
Proof. intros. unfold upd. by replace (j =? i) with false by bool_lia. Qed.

(** reduces the projections of the allocator states built by the setters *)
Ltac allocator_simpl :=
  repeat progress
    (rewrite ?upd_eq;
     cbn [block_allocator.local_lists block_allocator.set_local_lists
          block_allocator.set_next block_allocator.set_global_stack
          block_allocator.set_pool_roots block_allocator.set_blocks_allocated
          block_allocator.set_process_heap
          block_allocator.next block_allocator.list_length
          block_allocator.global_stack block_allocator.pool_roots
          block_allocator.blocks_allocated block_allocator.max_blocks
          block_allocator.block_size_ block_allocator.process_heap
          block_allocator.sz block_allocator.head block_allocator.mid]).

(** X14. A block a worker frees is the block its next [alloc] returns:
    [alloc] right after [free (p)] by the same worker returns [p], without
    going to the global stack or the process allocator, and leaves the head
    of the worker's list as it was before the [free]. *)
Theorem free_then_alloc :
  forall (heap : Type) (aligned_alloc : heap -> Z -> Z -> Z * heap)
         (a : block_allocator.t heap) (p id : Z),
    0 <= block_allocator.sz (block_allocator.local_lists a id) < 2 ^ 64 - 1 ->
    0 <= block_allocator.list_length a < 2 ^ 63 ->
    exists a',
      block_allocator.alloc aligned_alloc (block_allocator.free a p id) id
        = Returns (p, a') /\
      block_allocator.head (block_allocator.local_lists a' id)
        = block_allocator.head (block_allocator.local_lists a id) /\
      block_allocator.blocks_allocated a' = block_allocator.blocks_allocated a /\
      block_allocator.pool_roots a' = block_allocator.pool_roots a /\
      (forall i, i <> id ->
         block_allocator.local_lists a' i = block_allocator.local_lists a i).
Proof.
  intros heap aligned_alloc a p id Hsz HL.
  unfold block_allocator.free, block_allocator.alloc.
  set (l := block_allocator.local_lists a id) in *.
  set (L := block_allocator.list_length a) in *.
  destruct (Z.eqb_spec (block_allocator.sz l) (wrap64 (L + 1))) as [H1|H1];
    [|destruct (Z.eqb_spec (block_allocator.sz l) (wrap64 (2 * L))) as [H2|H2]];
    allocator_simpl; fold l L.
  - replace (wrap64 (block_allocator.sz l + 1) =? 0) with false
      by (rewrite wrap64_id by lia; bool_lia).
    cbn [mbind outcome_bind]. allocator_simpl.
    eexists. split; [reflexivity|]. allocator_simpl.
    split; [done|]. split; [done|]. split; [done|].
    intros i Hi. by rewrite !upd_ne by done.
  - replace (wrap64 (L + 1) =? 0) with false
      by (rewrite wrap64_id by lia; bool_lia).
    cbn [mbind outcome_bind]. allocator_simpl.
    eexists. split; [reflexivity|]. allocator_simpl.
    split; [done|]. split; [done|]. split; [done|].
    intros i Hi. by rewrite !upd_ne by done.
  - replace (wrap64 (block_allocator.sz l + 1) =? 0) with false
      by (rewrite wrap64_id by lia; bool_lia).
    cbn [mbind outcome_bind]. allocator_simpl.
    eexists. split; [reflexivity|]. allocator_simpl.
    split; [done|]. split; [done|]. split; [done|].
    intros i Hi. by rewrite !upd_ne by done.
Qed.

Lemma free_then_alloc_witness :
  exists a',
    block_allocator.alloc block_allocator.bump_alloc
      (block_allocator.free block_allocator.exhausted 264 1) 1 = Returns (264, a') /\
    block_allocator.head (block_allocator.local_lists a' 1)
      = block_allocator.head (block_allocator.local_lists block_allocator.exhausted 1) /\
    block_allocator.blocks_allocated a'
      = block_allocator.blocks_allocated block_allocator.exhausted /\
    block_allocator.pool_roots a' = block_allocator.pool_roots block_allocator.exhausted /\
    (forall i, i <> 1 ->
       block_allocator.local_lists a' i
       = block_allocator.local_lists block_allocator.exhausted i).
Proof.
  apply (free_then_alloc Z block_allocator.bump_alloc block_allocator.exhausted 264 1);
    vm_compute; (split; [congruence|reflexivity]).
Defined.

(** ** The cursor [simple_iter] and [intersect] on fresh lists *)

Section region_frame.
Context {W : Type} {HW : Weight W} {HWok : WeightOk W}.

(** a region is a matter of its own octets only *)
Lemma region_at_same_on m m' base src vd addr start (E : Z -> list (Z * W)) :
  region_at m base src vd addr start E ->
  same_on m m' base (addr (num_blocks_of vd)) ->
  region_at m' base src vd addr start E.
Proof.
  intros Hreg Hsame.
  pose proof (region_B _ _ _ _ _ _ _ _ Hreg) as [_ HB].
  pose proof (fun i j => region_addr_mono _ _ _ _ _ _ _ _ Hreg i j) as Hmono.
  destruct Hreg as (Hsrc & Hvd & Hload & Ha0 & Hend & Hstep & Hoff & Hblk & Hok).
  pose proof (Hmono 0 (num_blocks_of vd) ltac:(lia) ltac:(lia)) as H0B.
  split; [done|]. split; [done|]. split.
  { rewrite (load32_frame m m') by (eapply same_on_sub; [done|lia|lia]). done. }
  split; [done|]. split; [done|]. split; [done|]. split.
  { intros i Hi. rewrite <- (Hoff i Hi). unfold block_offsets_at.
    apply load32_frame. eapply same_on_sub; [done| |]; unfold sizeof_uintE; lia. }
  split; [|done].
  intros i Hi. destruct (Hblk i Hi) as (Hst & Hby & Hcap & Hlen).
  pose proof (Hmono 0 i ltac:(lia) ltac:(lia)).
  pose proof (Hmono (i + 1) (num_blocks_of vd) ltac:(lia) ltac:(lia)).
  split; [|split; [|done]].
  - rewrite <- Hst. apply load32_frame. eapply same_on_sub; [done|lia|lia].
  - eapply bytes_at_frame; [|done]. eapply same_on_sub; [done|lia|lia].
Qed.

End region_frame.

Section simple_iter_proofs.
Context {W : Type} {HW : Weight W} {HWok : WeightOk W}.
Variables (m : mem) (base src : Z) (es : list (Z * W)).

Local Abbreviation d := (Z.of_nat (length es)).
Local Abbreviation B := (1 + (Z.of_nat (length es) - 1) / PARALLEL_DEGREE).
Local Abbreviation addr := (addr_of src (chunk_of es) (base + 4 * B)).
Local Abbreviation E := (chunk_of es).
Local Abbreviation dflt := (0, default_weight).

Hypothesis Hreg : region_at m base src d addr (start_of E) E.

Lemma fresh_B : num_blocks_of d = B /\ 1 <= B /\ 1 <= d < 2 ^ 32.
Proof.
  destruct Hreg as (_ & Hvd & _).
  destruct (num_blocks_of_pos d Hvd) as [HB ?]. rewrite HB.
  unfold PARALLEL_DEGREE. split; [done|]. split; [lia|done].
Qed.

Lemma fresh_block b :
  0 <= b < B ->
  Z.of_nat (length (E b)) = Z.min PARALLEL_DEGREE (d - b * PARALLEL_DEGREE) /\
  0 < Z.of_nat (length (E b)) /\
  bytes_at m (addr b + 4) (chunk_bytes src (E b)) /\
  addr (b + 1) = addr b + 4 + Z.of_nat (length (chunk_bytes src (E b))) /\
  edges_ok (E b) /\ is_uintE src.
Proof.
  intros Hb. destruct fresh_B as (HB & HB1 & Hd).
  pose proof (blocks_bound d b ltac:(lia) Hb) as HbP.
  rewrite chunk_of_length by lia.
  split; [unfold PARALLEL_DEGREE in *; lia|].
  split; [unfold PARALLEL_DEGREE in *; lia|].
  pose proof (region_block_ok _ _ _ _ _ _ _ Hreg b ltac:(lia)) as Hok.
  destruct Hreg as (Hsrc & _ & _ & _ & _ & _ & _ & Hblk & _).
  destruct (Hblk b ltac:(lia)) as (_ & Hby & _).
  split; [done|]. split; [by rewrite addr_of_succ by lia|done].
Qed.

(** reading the first edge of block [b] *)
Lemma fresh_enter b :
  0 <= b < B ->
  exists p1 p2,
    eatFirstEdge m (addr b + 4) src = Some (fst (nth 0 (E b) dflt), p1) /\
    eatWeight m p1 = Some (snd (nth 0 (E b) dflt), p2) /\
    bytes_at m p2 (rest_bytes (fst (nth 0 (E b) dflt)) (skipn 1 (E b))) /\
    p2 + Z.of_nat (length (rest_bytes (fst (nth 0 (E b) dflt)) (skipn 1 (E b))))
      = addr (b + 1).
Proof.
  intros Hb. destruct (fresh_block b Hb) as (Hlen & Hpos & Hby & Hnext & Hok & Hsrc).
  destruct (E b) as [|[n0 w0] es'] eqn:HE; [cbn [length] in Hpos; lia|].
  cbn [nth skipn fst snd edges_ok increasing_from chunk_bytes] in *.
  destruct Hok as (Hn0 & Hw0 & Hok).
  destruct (read_first m _ src n0 w0 _ Hsrc ltac:(lia) Hw0 Hby)
    as (p1 & p2 & He & Hew & Hb' & Hp2).
  exists p1, p2. split; [done|]. split; [done|]. split; [done|].
  change (skipn 0 es') with es'.
  rewrite Hnext, Hp2, !length_app. lia.
Qed.

Lemma simple_iter_new_at :
  exists it, simple_iter_new m base d src = Some it /\ simple_iter_at m base src es it 0.
Proof.
  destruct fresh_B as (HB & HB1 & Hd).
  destruct (fresh_enter 0 ltac:(lia)) as (p1 & p2 & He & Hew & Hby & Hend).
  destruct (fresh_block 0 ltac:(lia)) as (Hlen & Hpos & _).
  unfold simple_iter_new. replace (d =? 0) with false by bool_lia.
  replace (base + (B - 1) * sizeof_uintE + 2 * sizeof_uintE) with (addr 0 + 4)
    by (rewrite addr_of_0; unfold sizeof_uintE; lia).
  rewrite He. cbn [mbind option_bind]. rewrite Hew. cbn [mbind option_bind].
  eexists. split; [done|].
  unfold simple_iter_at.
  cbn [si_base si_src si_degree si_cur_chunk si_proc si_last_edge si_finger].
  split; [done|]. split; [done|]. split; [done|].
  exists 0, 0%nat. split; [lia|]. split; [lia|]. split; [lia|].
  split; [done|]. split; [done|]. split; [by rewrite <- surjective_pairing|].
  split; [done|]. replace (0 + 1) with 1 by lia. done.
Qed.

Lemma simple_iter_next_at it k :
  simple_iter_at m base src es it k -> Z.of_nat k + 1 < d ->
  exists it', si_next m it = Some it' /\ simple_iter_at m base src es it' (S k).
Proof.
  intros (Hbase & Hsrc & Hdeg & b & j & Hb & Hj & Hk & Hcc & Hproc & Hle & Hby & Hfin)
    Hnext.
  destruct fresh_B as (HB & HB1 & Hd).
  destruct (fresh_block b Hb) as (Hlen & Hpos & _ & _ & Hok & Hsrcok).
  unfold si_next. rewrite Hproc, Hsrc, Hbase, Hdeg, Hcc, Hle.
  destruct (Z.eqb_spec (Z.of_nat j + 1) PARALLEL_DEGREE) as [Hfull|Hmid].
  - (* the block is read: the next block follows it *)
    assert (b + 1 < B) as Hb1.
    { unfold PARALLEL_DEGREE in *. Z.to_euclidean_division_equations. lia. }
    assert (skipn (S j) (E b) = []) as Hnil
      by (apply skipn_all2; unfold PARALLEL_DEGREE in *; lia).
    rewrite Hnil in Hfin. cbn [rest_bytes length] in Hfin.
    replace (si_finger it + sizeof_uintE) with (addr (b + 1) + 4)
      by (unfold sizeof_uintE; lia).
    destruct (fresh_enter (b + 1) ltac:(lia)) as (p1 & p2 & He & Hew & Hby' & Hend).
    destruct (fresh_block (b + 1) ltac:(lia)) as (_ & Hpos' & _).
    rewrite He. cbn [mbind option_bind]. rewrite Hew. cbn [mbind option_bind].
    eexists. split; [done|].
    unfold simple_iter_at.
    cbn [si_base si_src si_degree si_cur_chunk si_proc si_last_edge si_finger].
    split; [done|]. split; [done|]. split; [done|].
    exists (b + 1), 0%nat. split; [lia|]. split; [lia|].
    split; [unfold PARALLEL_DEGREE in *; lia|].
    split; [done|]. split; [done|]. split; [by rewrite <- surjective_pairing|].
    done.
  - (* the next edge of the block *)
    assert (S j < length (E b))%nat as Hj1 by (unfold PARALLEL_DEGREE in *; lia).
    destruct (increasing_nth (E b) (-1) j Hok Hj) as (Hn & Hw & Hinc).
    rewrite (skipn_nth_cons (E b) dflt (S j)) in Hby, Hinc, Hfin by lia.
    destruct (nth (S j) (E b) dflt) as [n' w'] eqn:Hnth.
    cbn [rest_bytes increasing_from] in Hby, Hinc, Hfin.
    destruct Hinc as (Hn' & Hw' & Hinc).
    assert (0 <= fst (nth j (E b) dflt) < n') as Hrange by lia.
    destruct (read_edge m (si_finger it) _ n' w' _ Hrange ltac:(lia) Hw' Hby)
      as (p1 & p2 & He & Hwr & Hew & Hb' & Hp2).
    rewrite He. cbn [mbind option_bind]. rewrite Hew. cbn [mbind option_bind].
    eexists. split; [done|].
    unfold simple_iter_at.
    cbn [si_base si_src si_degree si_cur_chunk si_proc si_last_edge si_finger].
    split; [done|]. split; [done|]. split; [done|].
    exists b, (S j). split; [lia|]. split; [lia|]. split; [lia|].
    split; [done|].
    split; [rewrite wrap32_id; unfold PARALLEL_DEGREE in *; lia|].
    rewrite Hnth, Hwr. cbn [fst]. split; [done|]. split; [done|].
    rewrite Hp2. rewrite !length_app in *. lia.
Qed.

Lemma simple_iter_nexts_at k : forall it k0,
  simple_iter_at m base src es it k0 -> Z.of_nat (k0 + k) < d ->
  exists it', si_nexts m k it = Some it' /\ simple_iter_at m base src es it' (k0 + k).
Proof.
  induction k as [|k IH]; intros it k0 Hat Hlt.
  - exists it. rewrite Nat.add_0_r. done.
  - destruct (simple_iter_next_at it k0 Hat ltac:(lia)) as (it1 & Hn & Hat1).
    cbn [si_nexts]. rewrite Hn. cbn [mbind option_bind].
    destruct (IH it1 (S k0) Hat1 ltac:(lia)) as (it' & Hres & Hat').
    exists it'. split; [done|]. by replace (k0 + S k)%nat with (S k0 + k)%nat by lia.
Qed.

Lemma nth_chunk_of b (j : nat) :
  0 <= b -> (j < length (E b))%nat ->
  nth j (E b) dflt = nth (Z.to_nat (b * PARALLEL_DEGREE) + j) es dflt.
Proof.
  intros Hb Hj. unfold chunk_of in *.
  rewrite length_firstn in Hj.
  rewrite nth_firstn. replace (j <? Z.to_nat PARALLEL_DEGREE)%nat with true
    by (symmetry; apply Nat.ltb_lt; lia).
  by rewrite nth_skipn.
Qed.

Lemma simple_iter_at_cur it k :
  simple_iter_at m base src es it k ->
  si_cur it = nth k es dflt /\ si_has_next it = (Z.of_nat k + 1 <? d).
Proof.
  intros (Hbase & Hsrc & Hdeg & b & j & Hb & Hj & Hk & Hcc & Hproc & Hle & Hby & Hfin).
  split.
  - unfold si_cur. rewrite Hle, nth_chunk_of by (first [done | lia]).
    f_equal. unfold PARALLEL_DEGREE in *. lia.
  - unfold si_has_next. rewrite Hcc, Hproc, Hdeg. f_equal. lia.
Qed.

(** the call of [next()] at the last edge reads on behind the list *)
Lemma simple_iter_next_last it k :
  simple_iter_at m base src es it k -> Z.of_nat k + 1 = d ->
  is_Some (eatEdge m (addr B) ≫= fun '(_, p) => eatWeight m p) ->
  is_Some (eatFirstEdge m (addr B + 4) src ≫= fun '(_, p) => eatWeight m p) ->
  is_Some (si_next m it).
Proof.
  intros (Hbase & Hsrc & Hdeg & b & j & Hb & Hj & Hk & Hcc & Hproc & Hle & Hby & Hfin)
    Hlast Hover1 Hover2.
  destruct fresh_B as (HB & HB1 & Hd).
  destruct (fresh_block b Hb) as (Hlen & Hpos & _).
  assert (b = B - 1) as HbB.
  { unfold PARALLEL_DEGREE in *. Z.to_euclidean_division_equations. lia. }
  assert (skipn (S j) (E b) = []) as Hnil
    by (apply skipn_all2; unfold PARALLEL_DEGREE in *; lia).
  rewrite Hnil in Hfin. cbn [rest_bytes length] in Hfin.
  replace (b + 1) with B in Hfin by lia.
  unfold si_next. rewrite Hproc, Hsrc.
  replace (si_finger it) with (addr B) by lia.
  destruct (Z.of_nat j + 1 =? PARALLEL_DEGREE).
  - unfold sizeof_uintE.
    destruct (eatFirstEdge m (addr B + 4) src) as [[n p]|]; [|destruct Hover2 as [? Hx]; cbn in Hx; done].
    cbn [mbind option_bind] in *.
    destruct (eatWeight m p) as [[w p']|]; [|destruct Hover2 as [? Hx]; cbn in Hx; done].
    cbn [mbind option_bind]. done.
  - destruct (eatEdge m (addr B)) as [[n p]|]; [|destruct Hover1 as [? Hx]; cbn in Hx; done].
    cbn [mbind option_bind] in *.
    destruct (eatWeight m p) as [[w p']|]; [|destruct Hover1 as [? Hx]; cbn in Hx; done].
    cbn [mbind option_bind]. done.
Qed.

End simple_iter_proofs.


Section common_facts.
Context {W : Type} {HW : Weight W} {HWok : WeightOk W}.
Implicit Types (es : list (Z * W)).

Lemma not_member_above es : forall last x,
  increasing_from last es -> x <= last -> existsb (Z.eqb x) (map fst es) = false.
Proof.
  induction es as [|[n w] es IH]; intros last x Hinc Hx; [done|].
  destruct Hinc as (Hn & _ & Hinc). cbn [map existsb fst].
  replace (x =? n) with false by bool_lia. cbn [orb].
  apply (IH n); [done|lia].
Qed.

Lemma common_nil_r es : common es [] = [].
Proof. unfold common. induction es as [|e es IH]; [done|]. cbn. apply IH. Qed.

Lemma common_eq n1 w1 es1 n2 w2 es2 :
  increasing_from n1 es1 -> increasing_from n2 es2 -> n1 = n2 ->
  common ((n1, w1) :: es1) ((n2, w2) :: es2) = (n1, w1) :: common es1 es2.
Proof.
  intros H1 H2 <-. unfold common. cbn [List.filter map existsb fst].
  rewrite Z.eqb_refl. cbn [orb]. f_equal.
  apply filter_ext_in. intros [x wx] Hin. cbn [fst].
  replace (x =? n1) with false; [done|].
  symmetry. apply Z.eqb_neq. intros ->.
  assert (existsb (Z.eqb n1) (map fst es1) = false) as Hno
    by (apply (not_member_above es1 n1); [done|lia]).
  assert (existsb (Z.eqb n1) (map fst es1) = true) as Hyes; [|congruence].
  apply existsb_exists. exists n1. split; [|apply Z.eqb_refl].
  apply in_map_iff. by exists (n1, wx).
Qed.

Lemma common_lt n1 w1 es1 n2 w2 es2 :
  increasing_from n2 es2 -> n1 < n2 ->
  common ((n1, w1) :: es1) ((n2, w2) :: es2) = common es1 ((n2, w2) :: es2).
Proof.
  intros H2 Hlt. unfold common. cbn [List.filter map existsb fst].
  replace (n1 =? n2) with false by bool_lia. cbn [orb].
  by rewrite (not_member_above es2 n2 n1) by (first [done | lia]).
Qed.

Lemma common_gt n1 w1 es1 n2 w2 es2 :
  increasing_from n1 es1 -> n2 < n1 ->
  common ((n1, w1) :: es1) ((n2, w2) :: es2) = common ((n1, w1) :: es1) es2.
Proof.
  intros H1 Hlt. unfold common.
  apply filter_ext_in. intros [x wx] Hin. cbn [map existsb fst].
  replace (x =? n2) with false; [done|].
  symmetry. apply Z.eqb_neq. intros ->.
  destruct Hin as [[= -> _]|Hin]; [lia|].
  assert (existsb (Z.eqb n2) (map fst es1) = false) as Hno
    by (apply (not_member_above es1 n1); [done|lia]).
  assert (existsb (Z.eqb n2) (map fst es1) = true) as Hyes; [|congruence].
  apply existsb_exists. exists n2. split; [|apply Z.eqb_refl].
  apply in_map_iff. by exists (n2, wx).
Qed.

End common_facts.

Section intersect_loops.
Context {W : Type} {HW : Weight W}.

(** [intersect] is [intersect_f] with a callback that does nothing *)
Lemma intersect_loop_f l1_src l2_src fuel :
  forall m (it_1 it_2 : simple_iter (W:=W)) l1_size l2_size i j ct,
  intersect_loop fuel m it_1 it_2 l1_size l2_size i j ct =
  fmap fst (intersect_f_loop (fun _ _ _ (s : unit) => s) fuel m it_1 it_2
              l1_size l2_size l1_src l2_src i j ct tt).
Proof.
  induction fuel as [|fuel IH]; intros m it_1 it_2 l1_size l2_size i j ct.
  - cbn. by destruct ((i <? l1_size) && (j <? l2_size)).
  - cbn [intersect_loop intersect_f_loop].
    destruct ((i <? l1_size) && (j <? l2_size)); [|done].
    destruct (fst (si_cur it_1) =? fst (si_cur it_2)).
    + destruct (si_next m it_1) as [it_1'|]; [|done]. cbn [mbind option_bind].
      destruct (si_next m it_2) as [it_2'|]; [|done]. cbn [mbind option_bind].
      apply IH.
    + destruct (fst (si_cur it_1) <? fst (si_cur it_2)).
      * destruct (si_next m it_1) as [it_1'|]; [|done]. cbn [mbind option_bind].
        apply IH.
      * destruct (si_next m it_2) as [it_2'|]; [|done]. cbn [mbind option_bind].
        apply IH.
Qed.

Lemma intersect_f_unit m l1 l2 l1_size l2_size l1_src l2_src :
  intersect (W:=W) m l1 l2 l1_size l2_size l1_src l2_src =
  fmap fst (intersect_f (W:=W) (fun _ _ _ (s : unit) => s) m l1 l2 l1_size l2_size
              l1_src l2_src tt).
Proof.
  unfold intersect, intersect_f.
  destruct ((l1_size =? 0) || (l2_size =? 0)); [done|].
  destruct (simple_iter_new m l1 l1_size l1_src) as [it_1|]; [|done].
  cbn [mbind option_bind].
  destruct (simple_iter_new m l2 l2_size l2_src) as [it_2|]; [|done].
  cbn [mbind option_bind].
  apply intersect_loop_f.
Qed.

End intersect_loops.

Section intersect_proofs.
Context {W : Type} {HW : Weight W} {HWok : WeightOk W}.
Context {S : Type}.
Variable f : Z -> Z -> Z -> S -> S.
Variables (m : mem) (base1 src1 : Z) (es1 : list (Z * W)).
Variables (base2 src2 : Z) (es2 : list (Z * W)).

Local Abbreviation n1 := (Z.of_nat (length es1)).
Local Abbreviation B1 := (1 + (Z.of_nat (length es1) - 1) / PARALLEL_DEGREE).
Local Abbreviation addr1 := (addr_of src1 (chunk_of es1) (base1 + 4 * B1)).
Local Abbreviation n2 := (Z.of_nat (length es2)).
Local Abbreviation B2 := (1 + (Z.of_nat (length es2) - 1) / PARALLEL_DEGREE).
Local Abbreviation addr2 := (addr_of src2 (chunk_of es2) (base2 + 4 * B2)).
Local Abbreviation dflt := (0, default_weight).

Hypothesis Hreg1 :
  region_at m base1 src1 n1 addr1 (start_of (chunk_of es1)) (chunk_of es1).
Hypothesis Hreg2 :
  region_at m base2 src2 n2 addr2 (start_of (chunk_of es2)) (chunk_of es2).
Hypothesis Hover1 :
  is_Some (eatEdge m (addr1 B1) ≫= fun '(_, p) => eatWeight (W:=W) m p) /\
  is_Some (eatFirstEdge m (addr1 B1 + 4) src1 ≫= fun '(_, p) => eatWeight (W:=W) m p).
Hypothesis Hover2 :
  is_Some (eatEdge m (addr2 B2) ≫= fun '(_, p) => eatWeight (W:=W) m p) /\
  is_Some (eatFirstEdge m (addr2 B2 + 4) src2 ≫= fun '(_, p) => eatWeight (W:=W) m p).

Lemma next_1 it (i : nat) :
  simple_iter_at m base1 src1 es1 it i -> (i < length es1)%nat ->
  exists it', si_next m it = Some it' /\
    ((Datatypes.S i < length es1)%nat -> simple_iter_at m base1 src1 es1 it' (Datatypes.S i)).
Proof.
  intros Hat Hi. destruct (Nat.eq_dec (Datatypes.S i) (length es1)) as [Hlast|Hmore].
  - destruct (simple_iter_next_last m base1 src1 es1 Hreg1 it i Hat ltac:(lia)
                (proj1 Hover1) (proj2 Hover1)) as [it' Hn].
    exists it'. split; [done|]. intros; lia.
  - destruct (simple_iter_next_at m base1 src1 es1 Hreg1 it i Hat ltac:(lia))
      as (it' & Hn & Hat').
    exists it'. split; [done|]. done.
Qed.

Lemma next_2 it (j : nat) :
  simple_iter_at m base2 src2 es2 it j -> (j < length es2)%nat ->
  exists it', si_next m it = Some it' /\
    ((Datatypes.S j < length es2)%nat -> simple_iter_at m base2 src2 es2 it' (Datatypes.S j)).
Proof.
  intros Hat Hj. destruct (Nat.eq_dec (Datatypes.S j) (length es2)) as [Hlast|Hmore].
  - destruct (simple_iter_next_last m base2 src2 es2 Hreg2 it j Hat ltac:(lia)
                (proj1 Hover2) (proj2 Hover2)) as [it' Hn].
    exists it'. split; [done|]. intros; lia.
  - destruct (simple_iter_next_at m base2 src2 es2 Hreg2 it j Hat ltac:(lia))
      as (it' & Hn & Hat').
    exists it'. split; [done|]. done.
Qed.

Hypothesis Hok1 : edges_ok es1.
Hypothesis Hok2 : edges_ok es2.

Local Abbreviation after s0 l :=
  (fold_left (fun (s : S) (e : Z * W) => f src1 src2 (fst e) s) l s0).

Lemma intersect_f_loop_common fuel : forall (i j : nat) it_1 it_2 ct s,
  (i <= length es1)%nat -> (j <= length es2)%nat ->
  ((i < length es1)%nat -> simple_iter_at m base1 src1 es1 it_1 i) ->
  ((j < length es2)%nat -> simple_iter_at m base2 src2 es2 it_2 j) ->
  (length es1 - i + (length es2 - j) <= fuel)%nat ->
  intersect_f_loop f fuel m it_1 it_2 n1 n2 src1 src2 (Z.of_nat i) (Z.of_nat j) ct s =
    Some (ct + Z.of_nat (length (common (skipn i es1) (skipn j es2))),
          after s (common (skipn i es1) (skipn j es2))).
Proof.
  induction fuel as [|fuel IH]; intros i j it_1 it_2 ct s Hi Hj Hat1 Hat2 Hfuel.
  - assert (i = length es1 /\ j = length es2) as [-> ->] by lia.
    cbn [intersect_f_loop]. replace (_ && _) with false
      by (symmetry; apply andb_false_iff; left; bool_lia).
    rewrite !skipn_all. cbn. do 2 f_equal. lia.
  - cbn [intersect_f_loop].
    destruct (Z.ltb_spec (Z.of_nat i) n1) as [Hi1|Hi1]; cbn [andb].
    2: { assert (i = length es1) as -> by lia. rewrite skipn_all. cbn.
         do 2 f_equal. lia. }
    destruct (Z.ltb_spec (Z.of_nat j) n2) as [Hj1|Hj1].
    2: { assert (j = length es2) as -> by lia. rewrite (skipn_all es2), common_nil_r.
         cbn. do 2 f_equal. lia. }
    specialize (Hat1 ltac:(lia)). specialize (Hat2 ltac:(lia)).
    destruct (simple_iter_at_cur m base1 src1 es1 it_1 i Hat1) as [Hc1 _].
    destruct (simple_iter_at_cur m base2 src2 es2 it_2 j Hat2) as [Hc2 _].
    rewrite Hc1, Hc2.
    destruct (increasing_nth es1 (-1) i Hok1 ltac:(lia)) as (Hr1 & _ & Hinc1).
    destruct (increasing_nth es2 (-1) j Hok2 ltac:(lia)) as (Hr2 & _ & Hinc2).
    rewrite (skipn_nth_cons es1 dflt i), (skipn_nth_cons es2 dflt j) by lia.
    destruct (nth i es1 dflt) as [x1 w1] eqn:Hnth1.
    destruct (nth j es2 dflt) as [x2 w2] eqn:Hnth2.
    cbn [fst] in *.
    destruct (next_1 it_1 i Hat1 ltac:(lia)) as (it_1' & Hn1 & Hat1').
    destruct (next_2 it_2 j Hat2 ltac:(lia)) as (it_2' & Hn2 & Hat2').
    replace (Z.of_nat i + 1) with (Z.of_nat (Datatypes.S i)) by lia.
    replace (Z.of_nat j + 1) with (Z.of_nat (Datatypes.S j)) by lia.
    destruct (Z.eqb_spec x1 x2) as [Heq|Hneq].
    + rewrite Hn1. cbn [mbind option_bind]. rewrite Hn2. cbn [mbind option_bind].
      rewrite IH by (first [done | lia]).
      rewrite common_eq by done. cbn [length fold_left fst]. do 2 f_equal. lia.
    + destruct (Z.ltb_spec x1 x2) as [Hlt|Hge].
      * rewrite Hn1. cbn [mbind option_bind].
        rewrite (IH (Datatypes.S i) j) by (first [done | lia]).
        rewrite common_lt by (first [done | lia]).
        by rewrite <- Hnth2, <- (skipn_nth_cons es2 dflt j) by lia.
      * rewrite Hn2. cbn [mbind option_bind].
        rewrite (IH i (Datatypes.S j)) by (first [done | lia]).
        rewrite common_gt by (first [done | lia]).
        by rewrite <- Hnth1, <- (skipn_nth_cons es1 dflt i) by lia.
Qed.

End intersect_proofs.


Section fresh.
Context {W : Type} {HW : Weight W} {HWok : WeightOk W}.

(** the encoder writes inside the extent it returns *)
Lemma encoder_same_on m0 base src (es : list (Z * W)) lo hi :
  is_uintE src -> edges_ok es -> es <> [] ->
  let r := sequentialCompressEdgeSet m0 base 0 (Z.of_nat (length es)) src es in
  hi <= base \/ base + snd r <= lo ->
  same_on m0 (fst r) lo hi.
Proof.
  intros Hsrc Hok Hne r Hout.
  set (d := Z.of_nat (length es)) in *.
  set (B := 1 + (d - 1) / PARALLEL_DEGREE) in *.
  set (addr := addr_of src (chunk_of es) (base + 4 * B)).
  assert (1 <= d) as Hd1 by (unfold d; destruct es; [done|cbn [length]; lia]).
  pose proof (Z.div_pos (d - 1) PARALLEL_DEGREE ltac:(lia) ltac:(done)) as HBpos.
  pose proof (addr_of_mono src (chunk_of es) (base + 4 * B) 0 B ltac:(lia)) as Hmono.
  rewrite addr_of_0 in Hmono. fold addr in Hmono.
  assert (r = compress_blocks (Z.to_nat B) (store32 m0 base d) base 0 (addr 0 - base)
                d src 0 es) as Hr.
  { unfold r, sequentialCompressEdgeSet. fold B.
    replace (0 <? d) with true by bool_lia.
    replace (0 + (sizeof_uintE + (B - 1) * sizeof_uintE)) with (addr 0 - base)
      by (unfold addr; rewrite addr_of_0; unfold sizeof_uintE; lia).
    done. }
  pose proof (compress_blocks_offset src base es (Z.to_nat B) 0
                (store32 m0 base d) es Hsrc Hok ltac:(fold d; lia)
                ltac:(fold d; fold B; lia) ltac:(lia) ltac:(by intros _)) as Hsnd.
  fold d B addr in Hsnd. rewrite <- Hr in Hsnd.
  pose proof (compress_blocks_frame src base es (Z.to_nat B) lo hi 0
                (store32 m0 base d) es Hsrc Hok ltac:(fold d; lia)
                ltac:(fold d; fold B; lia) ltac:(lia) ltac:(by intros _)) as Hfr.
  fold d B addr in Hfr. rewrite <- Hr in Hfr.
  eapply same_on_trans; [|apply Hfr; lia].
  apply same_on_store32. lia.
Qed.

(** the region of a freshly encoded list, in any later memory that left its
    extent alone *)
Lemma fresh_region m0 base src (es : list (Z * W)) m :
  is_uintE src -> edges_ok es -> es <> [] ->
  let r := sequentialCompressEdgeSet m0 base 0 (Z.of_nat (length es)) src es in
  snd r < 2 ^ 32 ->
  same_on (fst r) m base (base + snd r) ->
  region_at m base src (Z.of_nat (length es))
    (addr_of src (chunk_of es)
       (base + 4 * (1 + (Z.of_nat (length es) - 1) / PARALLEL_DEGREE)))
    (start_of (chunk_of es)) (chunk_of es) /\
  base + snd r =
    addr_of src (chunk_of es)
      (base + 4 * (1 + (Z.of_nat (length es) - 1) / PARALLEL_DEGREE))
      (1 + (Z.of_nat (length es) - 1) / PARALLEL_DEGREE).
Proof.
  intros Hsrc Hok Hne r Hfit Hsame.
  destruct (encoder_region m0 base src es (fst r) (snd r) Hsrc Hok Hne
              ltac:(by rewrite <- surjective_pairing) Hfit) as (Hreg & Hd & Hoff).
  split; [|lia].
  eapply region_at_same_on; [exact Hreg|].
  destruct (num_blocks_of_pos (Z.of_nat (length es))) as [-> _].
  { destruct es; [done|]. cbn [length] in *. lia. }
  change 1000 with PARALLEL_DEGREE.
  eapply same_on_sub; [exact Hsame|lia|lia].
Qed.

End fresh.

(** X15. The cursor [simple_iter] traverses a freshly encoded neighbour
    list (one that [pack] has not touched): after the constructor and [k]
    calls of [next()], for [k] below the degree, [cur()] is edge [k] of the
    list and [has_next()] says whether edge [k + 1] exists. *)
Theorem simple_iter_traverses_fresh :
  forall (W : Type) (HW : Weight W) (HWok : WeightOk W)
         (m0 : mem) (edgeArray src : Z) (es : list (Z * W)) (k : nat),
    is_uintE src -> edges_ok es -> (k < length es)%nat ->
    let r := sequentialCompressEdgeSet m0 edgeArray 0 (Z.of_nat (length es)) src es in
    snd r < 2 ^ 32 ->
    exists it0 it,
      simple_iter_new (fst r) edgeArray (Z.of_nat (length es)) src = Some it0 /\
      si_nexts (fst r) k it0 = Some it /\
      si_cur it = nth k es (0, default_weight) /\
      si_has_next it = (Z.of_nat k + 1 <? Z.of_nat (length es)).
Proof.
  intros W HW HWok m0 base src es k Hsrc Hok Hk r Hfit.
  assert (es <> []) as Hne by (intros ->; cbn [length] in Hk; lia).
  destruct (fresh_region m0 base src es (fst r) Hsrc Hok Hne Hfit
              ltac:(apply same_on_refl)) as [Hreg _].
  destruct (simple_iter_new_at (fst r) base src es Hreg) as (it0 & Hnew & Hat0).
  destruct (simple_iter_nexts_at (fst r) base src es Hreg k it0 0 Hat0 ltac:(lia))
    as (it & Hres & Hat).
  exists it0, it. split; [done|]. split; [done|].
  by apply (simple_iter_at_cur (fst r) base src es).
Qed.

Lemma simple_iter_traverses_fresh_witness :
  let es := examples.int_edges 1 1500 in
  let r := sequentialCompressEdgeSet zero_mem 0 0 (Z.of_nat (length es)) 7 es in
  exists it0 it,
    simple_iter_new (fst r) 0 (Z.of_nat (length es)) 7 = Some it0 /\
    si_nexts (fst r) 1200 it0 = Some it /\
    si_cur it = nth 1200 es (0, default_weight) /\
    si_has_next it = (Z.of_nat 1200 + 1 <? Z.of_nat (length es)).
Proof.
  apply (simple_iter_traverses_fresh Z _ _ zero_mem 0 7 (examples.int_edges 1 1500) 1200).
  - unfold is_uintE. lia.
  - apply (increasing_from_weaken _ (1 - 1)); [lia|]. apply increasing_int_edges; lia.
  - vm_compute. lia.
  - vm_compute. reflexivity.
Defined.

(** X16. On two freshly encoded neighbour lists that do not overlap,
    [intersect] returns the number of the neighbours the two lists share,
    and [intersect_f] returns it too after calling [f (l1_src, l2_src, ngh)]
    for exactly the shared neighbours, in increasing order.  The loop calls
    [next()] once more when it has taken the last edge of a list, which
    reads the octets behind that list: the result is stated for memories in
    which those reads come to an end ([reads_on]). *)
Theorem intersect_fresh :
  forall (W : Type) (HW : Weight W) (HWok : WeightOk W) (S : Type)
         (f : Z -> Z -> Z -> S -> S) (m0 : mem) (l1 l2 src1 src2 : Z)
         (es1 es2 : list (Z * W)) (s : S),
    is_uintE src1 -> is_uintE src2 -> edges_ok es1 -> edges_ok es2 ->
    es1 <> [] -> es2 <> [] ->
    let n1 := Z.of_nat (length es1) in
    let n2 := Z.of_nat (length es2) in
    let r1 := sequentialCompressEdgeSet m0 l1 0 n1 src1 es1 in
    let r2 := sequentialCompressEdgeSet (fst r1) l2 0 n2 src2 es2 in
    let m := fst r2 in
    let reads_on := fun (p src : Z) =>
      is_Some (eatEdge m p ≫= fun '(_, p) => eatWeight (W:=W) m p) /\
      is_Some (eatFirstEdge m (p + 4) src ≫= fun '(_, p) => eatWeight (W:=W) m p) in
    snd r1 < 2 ^ 32 -> snd r2 < 2 ^ 32 ->
    l1 + snd r1 <= l2 \/ l2 + snd r2 <= l1 ->
    reads_on (l1 + snd r1) src1 -> reads_on (l2 + snd r2) src2 ->
    intersect (W:=W) m l1 l2 n1 n2 src1 src2
      = Some (Z.of_nat (length (common es1 es2))) /\
    intersect_f f m l1 l2 n1 n2 src1 src2 s
      = Some (Z.of_nat (length (common es1 es2)),
              fold_left (fun s e => f src1 src2 (fst e) s) (common es1 es2) s).
Proof.
  intros W HW HWok S f m0 l1 l2 src1 src2 es1 es2 s Hsrc1 Hsrc2 Hok1 Hok2 Hne1 Hne2
    n1 n2 r1 r2 m reads_on Hfit1 Hfit2 Hdisj Hover1 Hover2.
  destruct (fresh_region m0 l1 src1 es1 m Hsrc1 Hok1 Hne1 Hfit1) as [Hreg1 Hend1].
  { by apply encoder_same_on. }
  destruct (fresh_region (fst r1) l2 src2 es2 m Hsrc2 Hok2 Hne2 Hfit2
              ltac:(apply same_on_refl)) as [Hreg2 Hend2].
  fold n1 r1 in Hend1. fold n2 r2 in Hend2.
  unfold reads_on in Hover1, Hover2. rewrite Hend1 in Hover1. rewrite Hend2 in Hover2.
  assert (forall (S' : Type) (f' : Z -> Z -> Z -> S' -> S') (s' : S'),
            intersect_f f' m l1 l2 n1 n2 src1 src2 s'
            = Some (Z.of_nat (length (common es1 es2)),
                    fold_left (fun s e => f' src1 src2 (fst e) s) (common es1 es2) s'))
    as Hf.
  { intros S' f' s'. unfold intersect_f.
    assert (1 <= n1 /\ 1 <= n2) as [Hn1 Hn2].
    { unfold n1, n2. destruct es1, es2; try done. cbn [length]. lia. }
    replace ((n1 =? 0) || (n2 =? 0)) with false
      by (symmetry; apply orb_false_iff; split; bool_lia).
    destruct (simple_iter_new_at m l1 src1 es1 Hreg1) as (it_1 & Hnew1 & Hat1).
    destruct (simple_iter_new_at m l2 src2 es2 Hreg2) as (it_2 & Hnew2 & Hat2).
    fold n1 in Hnew1. fold n2 in Hnew2.
    rewrite Hnew1. cbn [mbind option_bind]. rewrite Hnew2. cbn [mbind option_bind].
    pose proof (intersect_f_loop_common f' m l1 src1 es1 l2 src2 es2 Hreg1 Hreg2
                  Hover1 Hover2 Hok1 Hok2 (Z.to_nat (n1 + n2)) 0 0 it_1 it_2 0 s'
                  ltac:(lia) ltac:(lia) ltac:(done) ltac:(done) ltac:(lia)) as Hloop.
    cbn [skipn] in Hloop. change (Z.of_nat 0) with 0 in Hloop. fold n1 n2 in Hloop.
    rewrite Hloop. do 2 f_equal. }
  split; [|apply Hf].
  rewrite intersect_f_unit, Hf. done.
Qed.

Lemma intersect_fresh_witness :
  let es1 := examples.unit_edges 1 1500 in
  let es2 := examples.unit_edges 1400 300 in
  let n1 := Z.of_nat (length es1) in
  let n2 := Z.of_nat (length es2) in
  let r1 := sequentialCompressEdgeSet zero_mem 0 0 n1 7 es1 in
  let r2 := sequentialCompressEdgeSet (fst r1) 4000 0 n2 9 es2 in
  let m := fst r2 in
  let f := fun (_ _ ngh : Z) (s : list Z) => s ++ [ngh] in
  intersect (W:=unit) m 0 4000 n1 n2 7 9
    = Some (Z.of_nat (length (common es1 es2))) /\
  intersect_f (W:=unit) f m 0 4000 n1 n2 7 9 []
    = Some (Z.of_nat (length (common es1 es2)),
            fold_left (fun s e => f 7 9 (fst e) s) (common es1 es2) []).
Proof.
  apply (intersect_fresh unit _ _ (list Z) (fun _ _ ngh s => s ++ [ngh]) zero_mem
           0 4000 7 9 (examples.unit_edges 1 1500) (examples.unit_edges 1400 300) []).
  - unfold is_uintE. lia.
  - unfold is_uintE. lia.
  - apply (increasing_from_weaken _ (1 - 1)); [lia|]. apply increasing_unit_edges; lia.
  - apply (increasing_from_weaken _ (1400 - 1)); [lia|]. apply increasing_unit_edges; lia.
  - discriminate.
  - discriminate.
  - vm_compute. reflexivity.
  - vm_compute. reflexivity.
  - left. vm_compute. discriminate.
  - split; vm_compute; eexists; reflexivity.
  - split; vm_compute; eexists; reflexivity.
Defined.

(** ** BFS with complete rounds *)

Section bfs_complete.
Variable GA : bfs.graph.
Variable src : Z.
Hypothesis Hok : bfs.vertices_ok GA src.

Lemma edgeMap_call_sched st c rest :
  bfs.sched (bfs.edgeMap_call GA st c rest) = rest /\
  bfs.later (bfs.edgeMap_call GA st c rest) = bfs.later st.
Proof.
  unfold bfs.edgeMap_call. destruct (_ && _); [|done].
  by destruct (if bfs.c_atomic c then _ else _).
Qed.

Lemma closed_start rounds :
  (forall sc, In sc rounds -> bfs.covers GA sc) ->
  bfs.n GA <= Z.of_nat (length rounds) ->
  bfs.closed_inv GA src (bfs.start src rounds).
Proof.
  intros Hcov Hlen. destruct Hok as (Hsrc & Hn & Hedges).
  destruct rounds as [|sc rounds]; [cbn [length] in Hlen; lia|].
  unfold bfs.closed_inv, bfs.start.
  cbn [bfs.later bfs.Frontier bfs.output bfs.Parents bfs.sched bfs.reachable hd tl].
  split; [intros sc' Hin; apply Hcov; by right|].
  split.
  { intros x [[<-|[]]|[]]. rewrite upd_eq. unfold UINT_E_MAX in *. lia. }
  split.
  { intros x. unfold upd. destruct (Z.eqb_spec x src) as [->|]; [|done].
    intros _. split; [constructor|done]. }
  split.
  { intros s. unfold upd at 1. destruct (Z.eqb_spec s src) as [->|]; [|done].
    intros _. right. intros d Hd. right. split; [by left|].
    apply (Hcov sc); [by left|done|done]. }
  cbn [length] in *. lia.
Qed.

Lemma closed_step st st' :
  bfs.bfs_inv GA src st -> bfs.closed_inv GA src st -> bfs.step GA st = Some st' ->
  bfs.closed_inv GA src st'.
Proof.
  intros (HF & HO & HP) (Hlater & Hvis & Hreach & Hclosed & Hcount) Hstep.
  destruct Hok as (Hsrc & Hn & Hedges).
  unfold bfs.step in Hstep.
  destruct (bfs.sched st) as [|c rest] eqn:Hsched.
  - (* the round ends *)
    destruct (bfs.output st) as [|x out] eqn:Hout; [done|].
    destruct (bfs.later st) as [|sc scs] eqn:Hl; [done|].
    injection Hstep as <-. unfold bfs.closed_inv.
    cbn [bfs.later bfs.Frontier bfs.output bfs.Parents bfs.sched bfs.reachable].
    split; [intros sc' Hin; apply Hlater; by right|].
    split; [intros y [Hy|[]]; apply Hvis; by right|].
    split; [done|].
    split.
    + intros s Hs. right. intros d Hd.
      destruct (Hclosed s Hs) as [Hin|Hall].
      * right. split; [done|].
        apply (Hlater sc); [by left| |done]. by apply HO.
      * destruct (Hall d Hd) as [?|(_ & c & [] & _)]. by left.
    + cbn [length] in *. lia.
  - (* a call *)
    injection Hstep as <-.
    destruct (edgeMap_call_cases GA st c rest)
      as [(HP' & HO' & HR' & HF')|(Hs & Hd & Hmax & HP' & HO' & HR' & HF')].
    + (* nothing happens: the call was along no edge of the frontier, or its
         target has a parent *)
      unfold bfs.closed_inv. rewrite HP', HO', HR', HF'.
      destruct (edgeMap_call_sched st c rest) as [-> ->].
      split; [done|]. split; [done|]. split; [done|]. split; [|done].
      intros s Hs. destruct (Hclosed s Hs) as [Hin|Hall]; [by left|right].
      intros d Hd. destruct (Hall d Hd) as [?|(HsF & c0 & [<-|Hin] & Hcs & Hcd)];
        [by left| |right; split; [done|by exists c0]].
      (* the call is [c]: had its target no parent, the call had assigned one *)
      left. intros Hmax.
      assert (bfs.Parents (bfs.edgeMap_call GA st c rest) <> bfs.Parents st); [|done].
      unfold bfs.edgeMap_call. rewrite Hcs, Hcd.
      replace (bfs.member s (bfs.Frontier st)) with true
        by (symmetry; by apply member_In).
      replace (bfs.member d (bfs.out_nghs GA s)) with true
        by (symmetry; by apply member_In).
      unfold bfs.cond. rewrite Hmax, Z.eqb_refl. cbn [andb].
      unfold bfs.updateAtomic, bfs.atomic_compare_and_swap, bfs.update.
      rewrite Hmax, Z.eqb_refl.
      assert (upd (bfs.Parents st) d s d <> bfs.Parents st d) as Hne.
      { rewrite upd_eq, Hmax. pose proof (HF _ HsF). unfold UINT_E_MAX in *. lia. }
      destruct (bfs.c_atomic c); cbn [bfs.Parents]; intros Heq; by rewrite Heq in Hne.
    + (* the target gets its parent *)
      assert (bfs.c_s c <> UINT_E_MAX) as Hsne
        by (pose proof (HF _ Hs); unfold UINT_E_MAX in *; lia).
      assert (forall x, bfs.Parents st x <> UINT_E_MAX ->
                upd (bfs.Parents st) (bfs.c_d c) (bfs.c_s c) x <> UINT_E_MAX) as Hkeep.
      { intros x Hx. unfold upd. by destruct (x =? bfs.c_d c). }
      unfold bfs.closed_inv. rewrite HP', HO', HR', HF'.
      destruct (edgeMap_call_sched st c rest) as [-> ->].
      split; [done|]. split.
      { intros x [Hx|[Hx|[<-|[]]]%in_app_or].
        - apply Hkeep, Hvis. by left.
        - apply Hkeep, Hvis. by right.
        - by rewrite upd_eq. }
      split.
      { intros x. unfold upd. destruct (Z.eqb_spec x (bfs.c_d c)) as [->|]; [|apply Hreach].
        intros _. split; [|by eapply Hedges].
        eapply bfs.reach_edge; [|exact Hd]. apply Hreach, Hvis. by left. }
      split; [|done].
      intros s. unfold upd at 1. destruct (Z.eqb_spec s (bfs.c_d c)) as [->|Hne].
      * intros _. left. apply in_or_app. right. by left.
      * intros Hsv. destruct (Hclosed s Hsv) as [Hin|Hall];
          [left; apply in_or_app; by left|right].
        intros d Hdd. destruct (Hall d Hdd) as [?|(HsF & c0 & [<-|Hin] & Hcs & Hcd)];
          [left; by apply Hkeep| |right; split; [done|by exists c0]].
        left. rewrite <- Hcd. by rewrite upd_eq.
Qed.

Lemma closed_run rounds k :
  (forall sc, In sc rounds -> bfs.covers GA sc) ->
  bfs.n GA <= Z.of_nat (length rounds) ->
  bfs.closed_inv GA src (bfs.run GA k (bfs.start src rounds)).
Proof.
  intros Hcov Hlen.
  apply (run_invariant GA (bfs.closed_inv GA src) src rounds Hok).
  - by apply closed_start.
  - apply closed_step.
Qed.

(** every step uses up a call or a round *)
Lemma run_stops k : forall st,
  (length (bfs.sched st) + bfs.steps (bfs.later st) <= k)%nat ->
  bfs.step GA (bfs.run GA k st) = None.
Proof.
  induction k as [|k IH]; intros st Hk.
  - cbn [bfs.run]. unfold bfs.step.
    destruct (bfs.sched st); [|cbn [length] in Hk; lia].
    destruct (bfs.later st); [|cbn [bfs.steps] in Hk; lia].
    by destruct (bfs.output st).
  - cbn [bfs.run]. destruct (bfs.step GA st) as [st'|] eqn:Hs; [|done].
    apply IH. unfold bfs.step in Hs.
    destruct (bfs.sched st) as [|c rest] eqn:Hsched.
    + destruct (bfs.output st) as [|x out]; [done|].
      destruct (bfs.later st) as [|sc scs]; [done|].
      injection Hs as <-. cbn [bfs.sched bfs.later bfs.steps length] in *. lia.
    + injection Hs as <-.
      destruct (edgeMap_call_sched st c rest) as [-> ->].
      cbn [length] in Hk. lia.
Qed.

Lemma visited_le P : bfs.visited GA P <= Z.max 0 (bfs.n GA).
Proof.
  unfold bfs.visited.
  pose proof (filter_length_le (fun d => negb (P d =? UINT_E_MAX)) (seqZ 0 (bfs.n GA))) as Hle.
  rewrite length_seqZ in Hle. lia.
Qed.

Lemma run_complete rounds fuel :
  (forall sc, In sc rounds -> bfs.covers GA sc) ->
  bfs.n GA <= Z.of_nat (length rounds) ->
  (bfs.steps rounds <= fuel)%nat ->
  let st := bfs.run GA fuel (bfs.start src rounds) in
  bfs.step GA st = None /\ bfs.sched st = [] /\ bfs.output st = [] /\
  forall d, bfs.Parents st d <> UINT_E_MAX <-> bfs.reach GA src d.
Proof.
  intros Hcov Hlen Hfuel st.
  assert (bfs.step GA st = None) as Hstop.
  { apply run_stops. destruct rounds as [|sc rounds]; [cbn; lia|].
    cbn [bfs.start bfs.sched bfs.later hd tl bfs.steps] in *. lia. }
  pose proof (closed_run rounds fuel Hcov Hlen) as Hinv. fold st in Hinv.
  destruct Hinv as (Hlater & Hvis & Hreach & Hclosed & Hcount).
  pose proof (run_reachable GA src rounds fuel Hok) as Hr. cbv zeta in Hr. fold st in Hr.
  pose proof (visited_le (bfs.Parents st)) as Hvle.
  destruct Hok as (Hsrc & Hn & Hedges).
  assert (bfs.sched st = [] /\ bfs.output st = []) as [Hsched Hout].
  { unfold bfs.step in Hstop.
    destruct (bfs.sched st); [|done]. split; [done|].
    destruct (bfs.output st) as [|x out] eqn:Hout; [done|].
    destruct (bfs.later st); [|done]. cbn [length] in *. lia. }
  split; [done|]. split; [done|]. split; [done|].
  intros d. split; [apply Hreach|].
  induction 1 as [|s d Hs IH Hd].
  - pose proof (run_inv GA src rounds fuel ltac:(done)) as (_ & _ & HP). fold st in HP.
    rewrite HP. unfold UINT_E_MAX in *. lia.
  - destruct (Hclosed s IH) as [Hin|Hall]; [by rewrite Hout in Hin|].
    destruct (Hall d Hd) as [?|(_ & c & Hin & _)]; [done|]. by rewrite Hsched in Hin.
Qed.

End bfs_complete.

(** X17. BFS reaches exactly the vertices that can be reached from [src]:
    when the schedule of every round has a call for every edge of the graph
    (in any order, by [update] or [updateAtomic]; a round runs those out of
    its frontier whose target satisfies [cond], the others change nothing)
    and at least [n] rounds are allowed, the loop is
    left within the steps the schedules allow, with an empty output, and
    the [Parents] returned has an entry other than [UINT_E_MAX] for [d] if
    and only if there is a path from [src] to [d]. *)
Theorem BFS_visits_reachable :
  forall (GA : bfs.graph) (src : Z) (rounds : list (list bfs.call)) (fuel : nat),
    bfs.vertices_ok GA src ->
    (forall sc, In sc rounds -> bfs.covers GA sc) ->
    bfs.n GA <= Z.of_nat (length rounds) ->
    (bfs.steps rounds <= fuel)%nat ->
    let st := bfs.run GA fuel (bfs.start src rounds) in
    bfs.step GA st = None /\ bfs.sched st = [] /\ bfs.output st = [] /\
    forall d, bfs.BFS GA src rounds fuel d <> UINT_E_MAX <-> bfs.reach GA src d.
Proof.
  intros GA src rounds fuel Hok Hcov Hlen Hfuel. by apply run_complete.
Qed.

Lemma star_vertices_ok :
  bfs.vertices_ok {| bfs.n := 4; bfs.out_nghs := examples.star_nghs |} 0.
Proof.
  split; [cbn; lia|]. split; [cbn; unfold UINT_E_MAX; lia|].
  intros s d. cbn. unfold examples.star_nghs.
  destruct (s =? 0); [cbn; lia|].
  destruct ((0 <? s) && (s <? 4)); cbn; lia.
Qed.

(** finds in the list [l] a call along the edge asked for *)
Ltac pick_call l :=
  lazymatch l with
  | ?c :: ?l' =>
      first [ (exists c; split; [cbn; auto 10|split; reflexivity]) | pick_call l' ]
  end.

Lemma BFS_visits_reachable_witness :
  let GA := {| bfs.n := 4; bfs.out_nghs := examples.star_nghs |} in
  let round :=
    [{| bfs.c_s := 3; bfs.c_d := 0; bfs.c_atomic := false |};
     {| bfs.c_s := 0; bfs.c_d := 1; bfs.c_atomic := true |};
     {| bfs.c_s := 1; bfs.c_d := 0; bfs.c_atomic := false |};
     {| bfs.c_s := 0; bfs.c_d := 3; bfs.c_atomic := true |};
     {| bfs.c_s := 2; bfs.c_d := 0; bfs.c_atomic := true |};
     {| bfs.c_s := 0; bfs.c_d := 2; bfs.c_atomic := false |}] in
  let rounds := [round; round; round; round] in
  let st := bfs.run GA 28 (bfs.start 0 rounds) in
  bfs.step GA st = None /\ bfs.sched st = [] /\ bfs.output st = [] /\
  forall d, bfs.BFS GA 0 rounds 28 d <> UINT_E_MAX <-> bfs.reach GA 0 d.
Proof.
  intros GA round rounds.
  apply (BFS_visits_reachable GA 0 rounds 28 star_vertices_ok).
  - intros sc Hin. assert (sc = round) as ->.
    { destruct Hin as [<-|[<-|[<-|[<-|[]]]]]; reflexivity. }
    intros s d Hs Hd. cbn in Hs, Hd. unfold examples.star_nghs in Hd.
    assert (s = 0 \/ s = 1 \/ s = 2 \/ s = 3) as [-> | [-> | [-> | ->]]] by lia;
      cbn in Hd;
      repeat match goal with H : _ \/ _ |- _ => destruct H as [<-|H] end;
      try done;
      (let l := eval unfold round in round in pick_call l).
  - cbn. lia.
  - cbn. lia.
Defined.

(** ** The block allocator: no block is handed out twice *)

Section chain_facts.
Implicit Types (nx : Z -> Z) (p q : Z) (n k : nat).

Lemma chain_map nx n : forall p,
  block_allocator.chain nx p n = map (fun k => Nat.iter k nx p) (seq 0 n).
Proof.
  induction n as [|n IH]; intros p; [done|].
  cbn [block_allocator.chain seq map Nat.iter nat_rect]. f_equal.
  rewrite IH, <- seq_shift, map_map. apply map_ext. intros k.
  by rewrite Nat.iter_succ_r.
Qed.

Lemma chain_length nx n p : length (block_allocator.chain nx p n) = n.
Proof. by rewrite chain_map, length_map, length_seq. Qed.

Lemma chain_In nx n p x :
  In x (block_allocator.chain nx p n) <-> exists k, (k < n)%nat /\ x = Nat.iter k nx p.
Proof.
  rewrite chain_map, in_map_iff. split.
  - intros (k & <- & Hk). apply in_seq in Hk. exists k. split; [lia|done].
  - intros (k & Hk & ->). exists k. split; [done|]. apply in_seq. lia.
Qed.

Lemma chain_app nx n1 n2 p :
  block_allocator.chain nx p (n1 + n2)
  = block_allocator.chain nx p n1 ++ block_allocator.chain nx (Nat.iter n1 nx p) n2.
Proof.
  revert p. induction n1 as [|n1 IH]; intros p; [done|].
  cbn [Nat.add block_allocator.chain app]. f_equal. rewrite IH. f_equal. f_equal.
  by rewrite Nat.iter_succ_r.
Qed.

Lemma chain_NoDup_iter nx n p i j :
  NoDup (block_allocator.chain nx p n) -> (i < n)%nat -> (j < n)%nat ->
  Nat.iter i nx p = Nat.iter j nx p -> i = j.
Proof.
  rewrite chain_map. intros Hnd Hi Hj Heq.
  apply (proj1 (NoDup_nth _ p) Hnd); rewrite ?length_map, ?length_seq; try done.
  pose proof (map_nth (fun k => Nat.iter k nx p) (seq 0 n) O i) as Hi'.
  pose proof (map_nth (fun k => Nat.iter k nx p) (seq 0 n) O j) as Hj'.
  rewrite seq_nth in Hi', Hj' by done. cbn [Nat.iter nat_rect Nat.add] in Hi', Hj'.
  by rewrite Hi', Hj'.
Qed.

Lemma iter_ext nx nx' k p :
  (forall j, (j < k)%nat -> nx' (Nat.iter j nx p) = nx (Nat.iter j nx p)) ->
  Nat.iter k nx' p = Nat.iter k nx p.
Proof.
  induction k as [|k IH]; intros Hframe; [done|].
  cbn [Nat.iter nat_rect]. change (nat_rect _ p (fun _ => nx') k) with (Nat.iter k nx' p).
  change (nat_rect _ p (fun _ => nx) k) with (Nat.iter k nx p).
  rewrite IH by (intros j Hj; apply Hframe; lia). apply Hframe. lia.
Qed.

Lemma chain_ext nx nx' n p :
  (forall j, (j + 1 < n)%nat -> nx' (Nat.iter j nx p) = nx (Nat.iter j nx p)) ->
  block_allocator.chain nx' p n = block_allocator.chain nx p n.
Proof.
  intros Hframe. rewrite !chain_map. apply map_ext_in. intros k Hk.
  apply in_seq in Hk. apply iter_ext. intros j Hj. apply Hframe. lia.
Qed.

Lemma chain_frame nx nx' n p :
  (forall x, In x (block_allocator.chain nx p n) -> nx' x = nx x) ->
  block_allocator.chain nx' p n = block_allocator.chain nx p n.
Proof.
  intros Hframe. apply chain_ext. intros j Hj. apply Hframe, chain_In.
  exists j. split; [lia|done].
Qed.

Lemma iter_frame nx nx' n k p :
  (forall x, In x (block_allocator.chain nx p n) -> nx' x = nx x) -> (k <= n)%nat ->
  Nat.iter k nx' p = Nat.iter k nx p.
Proof.
  intros Hframe Hk. apply iter_ext. intros j Hj. apply Hframe, chain_In.
  exists j. split; [lia|done].
Qed.

End chain_facts.

Section list_facts.

Lemma flat_map_ext_in {A B : Type} (f g : A -> list B) (l : list A) :
  (forall x, In x l -> f x = g x) -> flat_map f l = flat_map g l.
Proof.
  induction l as [|x l IH]; intros Hfg; [done|]. cbn [flat_map].
  rewrite Hfg by (by left). rewrite IH; [done|]. intros y Hy. apply Hfg. by right.
Qed.

Lemma NoDup_app_inv {A : Type} (l1 l2 : list A) :
  NoDup (l1 ++ l2) ->
  NoDup l1 /\ NoDup l2 /\ forall x, In x l1 -> ~ In x l2.
Proof.
  intros Hnd. split; [by apply NoDup_app_remove_r in Hnd|].
  split; [by apply NoDup_app_remove_l in Hnd|].
  induction l1 as [|y l1 IH]; intros x Hx; [done|].
  cbn [app] in Hnd. apply NoDup_cons_iff in Hnd as [Hy Hnd].
  destruct Hx as [->|Hx].
  - intros Hin. apply Hy, in_app_iff. by right.
  - by apply IH.
Qed.

Lemma remove_one_perm p live :
  In p live -> live ≡ₚ p :: block_allocator.remove_one p live.
Proof.
  induction live as [|x live IH]; intros Hin; [done|].
  cbn [block_allocator.remove_one]. destruct (Z.eqb_spec x p) as [->|Hne]; [done|].
  destruct Hin as [->|Hin]; [done|]. rewrite (IH Hin) at 1. apply perm_swap.
Qed.

Lemma seqZ_split (tc id : Z) :
  0 <= id < tc -> seqZ 0 tc = seqZ 0 id ++ id :: seqZ (id + 1) (tc - id - 1).
Proof.
  intros Hid. replace tc with (id + (1 + (tc - id - 1))) at 1 by lia.
  rewrite seqZ_app by lia. f_equal. rewrite seqZ_app by lia. done.
Qed.

End list_facts.

Section blocks_from_facts.
Variables (bs L : Z).

Lemma blocks_from_seq start :
  block_allocator.blocks_from bs L start
  = map (fun i => start + Z.of_nat i * bs) (seq 0 (Z.to_nat L)).
Proof.
  unfold block_allocator.blocks_from, seqZ.
  transitivity (map (fun k => start + k * bs)
                  (map (fun i : nat => Z.of_nat i + 0) (seq 0 (Z.to_nat L))));
    [reflexivity|].
  rewrite map_map. apply map_ext. intros i. f_equal. f_equal. lia.
Qed.

Lemma blocks_from_In start x :
  In x (block_allocator.blocks_from bs L start) <-> exists k, 0 <= k < L /\ x = start + k * bs.
Proof.
  rewrite blocks_from_seq, in_map_iff. split.
  - intros (i & <- & Hi). apply in_seq in Hi. exists (Z.of_nat i). split; [lia|done].
  - intros (k & Hk & ->). exists (Z.to_nat k). split; [by rewrite Z2Nat.id by lia|].
    apply in_seq. lia.
Qed.

Lemma blocks_from_length start : length (block_allocator.blocks_from bs L start) = Z.to_nat L.
Proof. by rewrite blocks_from_seq, length_map, length_seq. Qed.

Lemma chain_blocks nx start :
  (forall j, 0 <= j < L - 1 -> nx (start + j * bs) = start + (j + 1) * bs) ->
  block_allocator.chain nx start (Z.to_nat L) = block_allocator.blocks_from bs L start.
Proof.
  intros Hnx. rewrite chain_map, blocks_from_seq. apply map_ext_in.
  intros k Hk. apply in_seq in Hk.
  induction k as [|k IH]; [cbn; lia|].
  cbn [Nat.iter nat_rect]. change (nat_rect _ start (fun _ => nx) k) with (Nat.iter k nx start).
  rewrite IH by lia. rewrite Hnx by lia. lia.
Qed.

Hypothesis Hbs0 : 0 < bs.

Lemma blocks_from_NoDup start : NoDup (block_allocator.blocks_from bs L start).
Proof.
  rewrite blocks_from_seq. apply Finite.Injective_map_NoDup_in; [|apply seq_NoDup].
  intros i j _ _ Heq. cbv beta in Heq.
  assert (Z.of_nat i * bs = Z.of_nat j * bs) as Hmul by lia.
  apply Z.mul_cancel_r in Hmul; lia.
Qed.

Lemma blocks_from_apart start : block_allocator.apart bs (block_allocator.blocks_from bs L start).
Proof.
  intros x y Hx Hy Hne. apply blocks_from_In in Hx as (i & Hi & ->).
  apply blocks_from_In in Hy as (j & Hj & ->).
  destruct (Z.eq_dec i j) as [->|Hij]; [done|].
  destruct (Z_lt_ge_dec i j); [left|right]; nia.
Qed.

Lemma blocks_from_range start x :
  In x (block_allocator.blocks_from bs L start) -> start <= x /\ x + bs <= start + L * bs.
Proof. intros (k & Hk & ->)%blocks_from_In. nia. Qed.

End blocks_from_facts.

Section allocator_safety.
Context {heap : Type}.
Variable aligned_alloc : heap -> Z -> Z -> Z * heap.
Variable owned : heap -> Z -> Prop.
Variables (thread_count L bs MB : Z).
Implicit Types (a : block_allocator.t heap) (nx : Z -> Z)
  (ll : Z -> block_allocator.thread_list).

Local Abbreviation safe := (block_allocator.safe owned thread_count L bs MB).
Local Abbreviation tidy := (block_allocator.tidy owned bs MB L).
Local Abbreviation other_blocks := (block_allocator.other_blocks thread_count).

Lemma tidy_perm h ba T T' : T ≡ₚ T' -> tidy h ba T -> tidy h ba T'.
Proof.
  intros HT (Hnd & Hap & Hown & Hba & Hcap).
  split; [by apply (Permutation_NoDup HT)|]. split.
  { intros x y Hx Hy. apply Hap; by apply (Permutation_in _ (Permutation_sym HT)). }
  split.
  { intros x q Hx. apply Hown. by apply (Permutation_in _ (Permutation_sym HT)). }
  by rewrite <- (Permutation_length HT).
Qed.

Lemma free_blocks_split a id :
  0 <= id < thread_count ->
  block_allocator.free_blocks thread_count a
  ≡ₚ block_allocator.local_blocks (block_allocator.next a) (block_allocator.local_lists a) id
     ++ other_blocks (block_allocator.next a) (block_allocator.local_lists a) id
     ++ block_allocator.global_blocks (block_allocator.next a) (block_allocator.list_length a)
          (block_allocator.global_stack a).
Proof.
  intros Hid. unfold block_allocator.free_blocks, block_allocator.other_blocks.
  rewrite (seqZ_split thread_count id Hid), !flat_map_app. cbn [flat_map].
  solve_Permutation.
Qed.

Lemma other_blocks_frame nx nx' ll ll' id :
  (forall i, i <> id -> ll' i = ll i) ->
  (forall x, In x (other_blocks nx ll id) -> nx' x = nx x) ->
  other_blocks nx' ll' id = other_blocks nx ll id.
Proof.
  intros Hll Hnx. unfold block_allocator.other_blocks in *. apply flat_map_ext_in.
  intros i Hi. unfold block_allocator.local_blocks. rewrite Hll.
  - apply chain_frame. intros x Hx. apply Hnx, in_flat_map. by exists i.
  - apply in_app_iff in Hi as [Hi|Hi]; apply list_elem_of_In, elem_of_seqZ in Hi; lia.
Qed.

Lemma global_blocks_frame nx nx' K gs :
  (forall x, In x (block_allocator.global_blocks nx K gs) -> nx' x = nx x) ->
  block_allocator.global_blocks nx' K gs = block_allocator.global_blocks nx K gs.
Proof.
  intros Hnx. unfold block_allocator.global_blocks in *. apply flat_map_ext_in.
  intros g Hg. apply chain_frame. intros x Hx. apply Hnx, in_flat_map. by exists g.
Qed.

Lemma In_other_blocks nx ll id i x :
  0 <= i < thread_count -> 0 <= id -> i <> id ->
  In x (block_allocator.local_blocks nx ll i) -> In x (other_blocks nx ll id).
Proof.
  intros Hi Hid Hne Hx. apply in_flat_map. exists i. split; [|done].
  apply in_app_iff.
  destruct (Z_lt_ge_dec i id); [left|right]; apply list_elem_of_In, elem_of_seqZ; lia.
Qed.

Hypothesis HL1 : 1 <= L.
Hypothesis Hbs0 : 0 < bs.
Hypothesis Hfit : MB + L < 2 ^ 64.

(** [new_node->next = head; head = new_node; sz++] *)
Lemma push_safe a live p id :
  safe a live -> 0 <= id < thread_count -> In p live ->
  (block_allocator.sz (block_allocator.local_lists a id) = L + 1 ->
   block_allocator.mid (block_allocator.local_lists a id)
     = block_allocator.head (block_allocator.local_lists a id)) ->
  safe
    (block_allocator.set_local_lists
       (block_allocator.set_next a
          (upd (block_allocator.next a) p
             (block_allocator.head (block_allocator.local_lists a id))))
       (upd (block_allocator.local_lists a) id
          {| block_allocator.sz :=
               wrap64 (block_allocator.sz (block_allocator.local_lists a id) + 1);
             block_allocator.head := p;
             block_allocator.mid :=
               block_allocator.mid (block_allocator.local_lists a id) |}))
    (block_allocator.remove_one p live).
Proof.
  intros (HL & Hbs & HMB & Htidy & Hloc) Hid Hin Hmid.
  pose proof (free_blocks_split a id Hid) as Hsplit. rewrite HL in Hsplit.
  set (ll := block_allocator.local_lists a) in *.
  set (nx := block_allocator.next a) in *.
  set (own := block_allocator.local_blocks nx ll id) in *.
  set (oth := other_blocks nx ll id) in *.
  set (glo := block_allocator.global_blocks nx L (block_allocator.global_stack a)) in *.
  set (rlive := block_allocator.remove_one p live).
  assert (live ++ block_allocator.free_blocks thread_count a ≡ₚ p :: (rlive ++ own ++ oth ++ glo))
    as HT.
  { rewrite Hsplit, (remove_one_perm p live Hin) at 1. done. }
  apply (tidy_perm _ _ _ _ HT) in Htidy. pose proof Htidy as Htidy'.
  destruct Htidy as (Hnd & Hap & Hown & Hba & Hcap & HLMB).
  apply NoDup_cons_iff in Hnd as [Hp Hnd].
  destruct (Hloc id Hid) as [Hs0 HM].
  assert (Z.of_nat (length own) = block_allocator.sz (ll id)) as Hlen.
  { unfold own, block_allocator.local_blocks. rewrite chain_length. lia. }
  assert (block_allocator.sz (ll id) + 1 <= MB) as Hrange.
  { cbn [length] in Hba. rewrite !length_app in Hba. lia. }
  rewrite !in_app_iff in Hp.
  set (nx' := upd nx p (block_allocator.head (ll id))).
  set (ll' := upd ll id _).
  assert (forall x, x <> p -> nx' x = nx x) as Hnx'.
  { intros x Hx. unfold nx'. by apply upd_ne. }
  assert (block_allocator.local_blocks nx' ll' id = p :: own) as Hown'.
  { unfold block_allocator.local_blocks, ll'. rewrite upd_eq.
    cbn [block_allocator.sz block_allocator.head]. rewrite wrap64_id by lia.
    replace (Z.to_nat (block_allocator.sz (ll id) + 1))
      with (S (Z.to_nat (block_allocator.sz (ll id)))) by lia.
    cbn [block_allocator.chain]. f_equal. unfold nx' at 2. rewrite upd_eq.
    apply chain_frame. intros x Hx. apply Hnx'. intros ->. tauto. }
  assert (other_blocks nx' ll' id = oth) as Hoth'.
  { apply other_blocks_frame.
    - intros i Hi. unfold ll'. by apply upd_ne.
    - intros x Hx. apply Hnx'. intros ->. tauto. }
  assert (block_allocator.global_blocks nx' L (block_allocator.global_stack a) = glo) as Hglo'.
  { apply global_blocks_frame. intros x Hx. apply Hnx'. intros ->. tauto. }
  unfold block_allocator.safe.
  cbn [block_allocator.list_length block_allocator.block_size_ block_allocator.max_blocks
       block_allocator.process_heap block_allocator.blocks_allocated
       block_allocator.next block_allocator.local_lists
       block_allocator.set_local_lists block_allocator.set_next].
  fold ll nx nx' ll'.
  split; [done|]. split; [done|]. split; [done|]. split.
  - eapply tidy_perm; [|exact Htidy'].
    rewrite (free_blocks_split _ id Hid).
    cbn [block_allocator.list_length block_allocator.global_stack
         block_allocator.next block_allocator.local_lists
         block_allocator.set_local_lists block_allocator.set_next].
    fold ll nx nx' ll'. rewrite HL, Hown', Hoth', Hglo'. solve_Permutation.
  - intros i Hi. destruct (Z.eq_dec i id) as [->|Hne].
    + unfold ll'. rewrite upd_eq.
      cbn [block_allocator.sz block_allocator.head block_allocator.mid].
      rewrite wrap64_id by lia. split; [lia|]. intros Hbig.
      replace (Z.to_nat (block_allocator.sz (ll id) + 1 - L - 1))
        with (S (Z.to_nat (block_allocator.sz (ll id) - L - 1))) by lia.
      rewrite Nat.iter_succ_r. unfold nx' at 2. rewrite upd_eq.
      rewrite (iter_frame nx nx' (Z.to_nat (block_allocator.sz (ll id)))) by
        (try lia; intros x Hx; apply Hnx'; intros ->; tauto).
      destruct (Z.eq_dec (block_allocator.sz (ll id)) (L + 1)) as [Heq|Hneq].
      * rewrite Hmid by done. rewrite Heq.
        by replace (Z.to_nat (L + 1 - L - 1)) with O by lia.
      * apply HM. lia.
    + unfold ll'. rewrite upd_ne by done. destruct (Hloc i Hi) as [Hsi HMi].
      split; [done|]. intros Hbig. rewrite (HMi Hbig).
      symmetry. apply (iter_frame nx nx' (Z.to_nat (block_allocator.sz (ll i)))); [|lia].
      intros x Hx. apply Hnx'. intros ->.
      apply Hp. right. right. left.
      apply (In_other_blocks nx ll id i); [done|lia|done|done].
Qed.

(** [local_lists[id].mid = local_lists[id].head] *)
Lemma mark_mid_safe a live id :
  safe a live -> block_allocator.sz (block_allocator.local_lists a id) = L + 1 ->
  safe
    (block_allocator.set_local_lists a
       (upd (block_allocator.local_lists a) id
          {| block_allocator.sz := block_allocator.sz (block_allocator.local_lists a id);
             block_allocator.head := block_allocator.head (block_allocator.local_lists a id);
             block_allocator.mid :=
               block_allocator.head (block_allocator.local_lists a id) |}))
    live.
Proof.
  intros (HL & Hbs & HMB & Htidy & Hloc) Hsz. unfold block_allocator.safe.
  set (ll' := upd _ id _).
  assert (forall i, block_allocator.sz (ll' i)
                    = block_allocator.sz (block_allocator.local_lists a i) /\
                    block_allocator.head (ll' i)
                    = block_allocator.head (block_allocator.local_lists a i)) as Hll.
  { intros i. unfold ll', upd. by destruct (Z.eqb_spec i id) as [->|]. }
  assert (block_allocator.free_blocks thread_count (block_allocator.set_local_lists a ll')
          = block_allocator.free_blocks thread_count a) as Hfb.
  { unfold block_allocator.free_blocks. cbn. f_equal. apply flat_map_ext. intros i.
    unfold block_allocator.local_blocks. by destruct (Hll i) as [-> ->]. }
  rewrite Hfb. cbn. do 4 (split; [done|]).
  intros i Hi. destruct (Hll i) as [Hs Hh]. rewrite Hs, Hh.
  destruct (Hloc i Hi) as [Hs0 HM]. split; [done|]. intros Hbig.
  unfold ll', upd in *. destruct (Z.eqb_spec i id) as [->|]; [lia|by apply HM].
Qed.

(** [global_stack.push(mid->next); mid->next = NULL; sz = list_length] *)
Lemma split_safe a live id :
  safe a live -> 0 <= id < thread_count ->
  block_allocator.sz (block_allocator.local_lists a id) = 2 * L ->
  block_allocator.sz (block_allocator.local_lists a id) <> L + 1 ->
  safe
    (block_allocator.set_local_lists
       (block_allocator.set_next
          (block_allocator.set_global_stack a
             (block_allocator.push
                (block_allocator.next a
                   (block_allocator.mid (block_allocator.local_lists a id)))
                (block_allocator.global_stack a)))
          (upd (block_allocator.next a)
             (block_allocator.mid (block_allocator.local_lists a id))
             block_allocator.NULL))
       (upd (block_allocator.local_lists a) id
          {| block_allocator.sz := block_allocator.list_length a;
             block_allocator.head := block_allocator.head (block_allocator.local_lists a id);
             block_allocator.mid :=
               block_allocator.mid (block_allocator.local_lists a id) |}))
    live.
Proof.
  intros (HL & Hbs & HMB & Htidy & Hloc) Hid Hsz Hne.
  pose proof (free_blocks_split a id Hid) as Hsplit. rewrite HL in Hsplit.
  set (ll := block_allocator.local_lists a) in *.
  set (nx := block_allocator.next a) in *.
  set (h := block_allocator.head (ll id)) in *.
  set (md := block_allocator.mid (ll id)) in *.
  set (oth := other_blocks nx ll id) in *.
  set (glo := block_allocator.global_blocks nx L (block_allocator.global_stack a)) in *.
  set (n := Z.to_nat L).
  set (A := block_allocator.chain nx h n).
  set (B := block_allocator.chain nx (nx md) n).
  destruct (Hloc id Hid) as [_ HM]. specialize (HM ltac:(lia)). fold md h in HM.
  assert (md = Nat.iter (n - 1) nx h) as Hmd.
  { rewrite HM. f_equal. lia. }
  assert (nx md = Nat.iter n nx h) as Hg.
  { rewrite Hmd.
    replace (Nat.iter n nx h) with (Nat.iter (S (n - 1)) nx h) by (f_equal; lia).
    done. }
  assert (block_allocator.local_blocks nx ll id = A ++ B) as Hown.
  { unfold block_allocator.local_blocks. fold h. rewrite Hsz.
    replace (Z.to_nat (2 * L)) with (n + n)%nat by lia.
    rewrite chain_app. unfold A, B. by rewrite Hg. }
  rewrite Hown in Hsplit.
  assert (live ++ block_allocator.free_blocks thread_count a ≡ₚ A ++ B ++ live ++ oth ++ glo) as HT.
  { rewrite Hsplit. solve_Permutation. }
  apply (tidy_perm _ _ _ _ HT) in Htidy. pose proof Htidy as Htidy'.
  destruct Htidy as (Hnd & _).
  apply NoDup_app_inv in Hnd as (HndA & Hnd & HA).
  assert (In md A) as HmdA.
  { apply chain_In. exists (n - 1)%nat. split; [lia|done]. }
  pose proof (HA md HmdA) as Hmd'. rewrite !in_app_iff in Hmd'.
  set (nx' := upd nx md block_allocator.NULL).
  set (ll' := upd ll id _).
  assert (forall x, x <> md -> nx' x = nx x) as Hnx'.
  { intros x Hx. unfold nx'. by apply upd_ne. }
  assert (block_allocator.chain nx' h n = A) as HA'.
  { apply chain_ext. intros j Hj. apply Hnx'. rewrite Hmd. intros Heq.
    apply (chain_NoDup_iter nx n h j (n - 1)) in Heq; [lia|done|lia|lia]. }
  assert (block_allocator.chain nx' (nx md) n = B) as HB'.
  { apply chain_frame. intros x Hx. apply Hnx'. intros ->. tauto. }
  assert (other_blocks nx' ll' id = oth) as Hoth'.
  { apply other_blocks_frame.
    - intros i Hi. unfold ll'. by apply upd_ne.
    - intros x Hx. apply Hnx'. intros ->. tauto. }
  assert (block_allocator.global_blocks nx' L (block_allocator.global_stack a) = glo) as Hglo'.
  { apply global_blocks_frame. intros x Hx. apply Hnx'. intros ->. tauto. }
  unfold block_allocator.safe.
  cbn [block_allocator.list_length block_allocator.block_size_ block_allocator.max_blocks
       block_allocator.process_heap block_allocator.blocks_allocated
       block_allocator.next block_allocator.local_lists block_allocator.global_stack
       block_allocator.set_local_lists block_allocator.set_next
       block_allocator.set_global_stack].
  fold ll nx h md nx' ll'.
  split; [done|]. split; [done|]. split; [done|]. split.
  - eapply tidy_perm; [|exact Htidy'].
    rewrite (free_blocks_split _ id Hid).
    cbn [block_allocator.list_length block_allocator.global_stack
         block_allocator.next block_allocator.local_lists
         block_allocator.set_local_lists block_allocator.set_next
         block_allocator.set_global_stack].
    fold ll nx h md nx' ll'. rewrite HL, Hoth'.
    change (block_allocator.global_blocks nx' L
              (block_allocator.push (nx md) (block_allocator.global_stack a)))
      with (block_allocator.chain nx' (nx md) n
            ++ block_allocator.global_blocks nx' L (block_allocator.global_stack a)).
    rewrite HB', Hglo'.
    unfold block_allocator.local_blocks, ll'. rewrite upd_eq.
    cbn [block_allocator.sz block_allocator.head]. rewrite HL. fold n. rewrite HA'.
    solve_Permutation.
  - intros i Hi. destruct (Z.eq_dec i id) as [->|Hnei].
    + unfold ll'. rewrite upd_eq.
      cbn [block_allocator.sz block_allocator.head block_allocator.mid].
      split; lia.
    + unfold ll'. rewrite upd_ne by done. destruct (Hloc i Hi) as [Hsi HMi].
      split; [done|]. intros Hbig. rewrite (HMi Hbig).
      symmetry. apply (iter_frame nx nx' (Z.to_nat (block_allocator.sz (ll i)))); [|lia].
      intros x Hx. apply Hnx'. intros ->.
      apply Hmd'. right. right. left.
      apply (In_other_blocks nx ll id i); [done|lia|done|done].
Qed.

(** [free] keeps the invariant *)
Lemma safe_free a live p id :
  safe a live -> 0 <= id < thread_count -> In p live ->
  safe (block_allocator.free a p id) (block_allocator.remove_one p live).
Proof.
  intros Hsafe Hid Hin. pose proof Hsafe as (HL & Hbs & HMB & Htidy & Hloc).
  destruct Htidy as (_ & _ & _ & Hba & Hcap & HLMB).
  assert (1 <= block_allocator.blocks_allocated a) as Hpos.
  { rewrite Hba, length_app. destruct live; [done|]. cbn [length]. lia. }
  specialize (HLMB ltac:(lia)).
  unfold block_allocator.free. cbv zeta.
  rewrite (wrap64_id (block_allocator.list_length a + 1)),
    (wrap64_id (2 * block_allocator.list_length a)) by lia.
  destruct (Z.eqb_spec (block_allocator.sz (block_allocator.local_lists a id))
              (block_allocator.list_length a + 1)) as [Hsz|Hsz]; cbv iota.
  - match goal with
    | |- safe (block_allocator.set_local_lists (block_allocator.set_next ?a1 _) _) _ =>
        apply (push_safe a1)
    end; [apply mark_mid_safe; [done|lia]|done|done|].
    cbn. by rewrite upd_eq.
  - destruct (Z.eqb_spec (block_allocator.sz (block_allocator.local_lists a id))
                (2 * block_allocator.list_length a)) as [Hsz2|Hsz2]; cbv iota.
    + match goal with
      | |- safe (block_allocator.set_local_lists (block_allocator.set_next ?a1 _) _) _ =>
          apply (push_safe a1)
      end; [|done|done|].
      * apply (split_safe a live id Hsafe Hid); lia.
      * cbn. rewrite upd_eq. cbn. lia.
    + apply (push_safe a); [done|done|done|lia].
Qed.

Lemma safe_sz_le a live id :
  safe a live -> 0 <= id < thread_count ->
  0 <= block_allocator.sz (block_allocator.local_lists a id)
    <= block_allocator.blocks_allocated a /\
  block_allocator.blocks_allocated a <= MB.
Proof.
  intros (HL & Hbs & HMB & Htidy & Hloc) Hid.
  destruct Htidy as (_ & _ & _ & Hba & Hcap & _).
  destruct (Hloc id Hid) as [Hs0 _].
  rewrite (Permutation_length (Permutation_app_head live (free_blocks_split a id Hid)))
    in Hba.
  rewrite !length_app in Hba. unfold block_allocator.local_blocks in Hba.
  rewrite chain_length in Hba. lia.
Qed.

(** [sz--; p = head; head = head->next] *)
Lemma pop_safe a live id :
  safe a live -> 0 <= id < thread_count ->
  1 <= block_allocator.sz (block_allocator.local_lists a id) ->
  safe
    (block_allocator.set_local_lists a
       (upd (block_allocator.local_lists a) id
          {| block_allocator.sz :=
               wrap64 (block_allocator.sz (block_allocator.local_lists a id) - 1);
             block_allocator.head :=
               block_allocator.next a
                 (block_allocator.head (block_allocator.local_lists a id));
             block_allocator.mid :=
               block_allocator.mid (block_allocator.local_lists a id) |}))
    (block_allocator.head (block_allocator.local_lists a id) :: live).
Proof.
  intros Hsafe Hid Hsz. destruct (safe_sz_le a live id Hsafe Hid) as [Hle Hcap'].
  destruct Hsafe as (HL & Hbs & HMB & Htidy & Hloc).
  pose proof (free_blocks_split a id Hid) as Hsplit. rewrite HL in Hsplit.
  set (ll := block_allocator.local_lists a) in *.
  set (nx := block_allocator.next a) in *.
  set (h := block_allocator.head (ll id)) in *.
  set (oth := other_blocks nx ll id) in *.
  set (glo := block_allocator.global_blocks nx L (block_allocator.global_stack a)) in *.
  set (ll' := upd ll id _).
  set (own' := block_allocator.local_blocks nx ll' id).
  assert (block_allocator.local_blocks nx ll id = h :: own') as Hown.
  { unfold own', block_allocator.local_blocks, ll'. rewrite upd_eq.
    cbn [block_allocator.sz block_allocator.head]. rewrite wrap64_id by lia.
    replace (Z.to_nat (block_allocator.sz (ll id)))
      with (S (Z.to_nat (block_allocator.sz (ll id) - 1))) by lia.
    done. }
  assert (other_blocks nx ll' id = oth) as Hoth'.
  { apply other_blocks_frame; [|done]. intros i Hi. unfold ll'. by apply upd_ne. }
  unfold block_allocator.safe.
  cbn [block_allocator.list_length block_allocator.block_size_ block_allocator.max_blocks
       block_allocator.process_heap block_allocator.blocks_allocated
       block_allocator.next block_allocator.local_lists
       block_allocator.set_local_lists].
  fold ll nx ll'.
  split; [done|]. split; [done|]. split; [done|]. split.
  - eapply tidy_perm; [|exact Htidy].
    rewrite Hsplit, Hown. rewrite (free_blocks_split _ id Hid).
    cbn [block_allocator.list_length block_allocator.global_stack
         block_allocator.next block_allocator.local_lists
         block_allocator.set_local_lists].
    fold ll nx ll' own'. rewrite HL, Hoth'. fold glo. solve_Permutation.
  - intros i Hi. destruct (Z.eq_dec i id) as [->|Hnei].
    + destruct (Hloc id Hid) as [_ HM].
      unfold ll'. rewrite upd_eq.
      cbn [block_allocator.sz block_allocator.head block_allocator.mid].
      rewrite wrap64_id by lia. split; [lia|]. intros Hbig.
      rewrite HM by lia. fold h.
      replace (Z.to_nat (block_allocator.sz (ll id) - L - 1))
        with (S (Z.to_nat (block_allocator.sz (ll id) - 1 - L - 1))) by lia.
      by rewrite Nat.iter_succ_r.
    + unfold ll'. rewrite upd_ne by done. by apply Hloc.
Qed.

(** [head = *rem; sz = list_length], with [rem] from the global stack *)
Lemma take_safe a live id g gs :
  safe a live -> 0 <= id < thread_count ->
  block_allocator.sz (block_allocator.local_lists a id) = 0 ->
  block_allocator.global_stack a = g :: gs ->
  safe
    (block_allocator.set_local_lists (block_allocator.set_global_stack a gs)
       (upd (block_allocator.local_lists a) id
          {| block_allocator.sz := block_allocator.list_length a;
             block_allocator.head := g;
             block_allocator.mid :=
               block_allocator.mid (block_allocator.local_lists a id) |}))
    live.
Proof.
  intros (HL & Hbs & HMB & Htidy & Hloc) Hid Hsz Hgs.
  pose proof (free_blocks_split a id Hid) as Hsplit. rewrite HL, Hgs in Hsplit.
  set (ll := block_allocator.local_lists a) in *.
  set (nx := block_allocator.next a) in *.
  set (oth := other_blocks nx ll id) in *.
  set (ll' := upd ll id _).
  assert (block_allocator.local_blocks nx ll id = []) as Hown.
  { unfold block_allocator.local_blocks. by rewrite Hsz. }
  assert (other_blocks nx ll' id = oth) as Hoth'.
  { apply other_blocks_frame; [|done]. intros i Hi. unfold ll'. by apply upd_ne. }
  unfold block_allocator.safe.
  cbn [block_allocator.list_length block_allocator.block_size_ block_allocator.max_blocks
       block_allocator.process_heap block_allocator.blocks_allocated
       block_allocator.next block_allocator.local_lists block_allocator.global_stack
       block_allocator.set_local_lists block_allocator.set_global_stack].
  fold ll nx ll'.
  split; [done|]. split; [done|]. split; [done|]. split.
  - eapply tidy_perm; [|exact Htidy].
    rewrite Hsplit, Hown. rewrite (free_blocks_split _ id Hid).
    cbn [block_allocator.list_length block_allocator.global_stack
         block_allocator.next block_allocator.local_lists
         block_allocator.set_local_lists block_allocator.set_global_stack].
    fold ll nx ll'. rewrite HL, Hoth'.
    unfold block_allocator.local_blocks, ll'. rewrite upd_eq.
    cbn [block_allocator.sz block_allocator.head]. rewrite HL.
    change (block_allocator.global_blocks nx L (g :: gs))
      with (block_allocator.chain nx g (Z.to_nat L) ++ block_allocator.global_blocks nx L gs).
    solve_Permutation.
  - intros i Hi. destruct (Z.eq_dec i id) as [->|Hnei].
    + unfold ll'. rewrite upd_eq.
      cbn [block_allocator.sz block_allocator.head block_allocator.mid].
      split; lia.
    + unfold ll'. rewrite upd_ne by done. by apply Hloc.
Qed.

Hypothesis Hfresh : block_allocator.fresh aligned_alloc owned.

(** the space of an [allocate_blocks] that returns *)
Lemma allocate_blocks_fresh a nb start a1 :
  block_allocator.block_size_ a = bs ->
  0 <= nb * bs -> nb * bs + block_allocator.pad_size < 2 ^ 64 ->
  block_allocator.allocate_blocks aligned_alloc a nb = Returns (start, a1) ->
  (forall q, start <= q < start + nb * bs + block_allocator.pad_size ->
     ~ owned (block_allocator.process_heap a) q) /\
  (forall q, owned (block_allocator.process_heap a) q \/
             start <= q < start + nb * bs + block_allocator.pad_size ->
     owned (block_allocator.process_heap a1) q) /\
  block_allocator.blocks_allocated a1
    = wrap64 (block_allocator.blocks_allocated a + nb) /\
  block_allocator.blocks_allocated a1 <= block_allocator.max_blocks a /\
  block_allocator.next a1 = block_allocator.next a /\
  block_allocator.local_lists a1 = block_allocator.local_lists a /\
  block_allocator.global_stack a1 = block_allocator.global_stack a /\
  block_allocator.list_length a1 = block_allocator.list_length a /\
  block_allocator.max_blocks a1 = block_allocator.max_blocks a /\
  block_allocator.block_size_ a1 = block_allocator.block_size_ a.
Proof.
  intros Hbs Hnb Hsz. unfold block_allocator.allocate_blocks. rewrite Hbs.
  destruct (aligned_alloc _ _ _) as [st h'] eqn:Hal.
  destruct (Z.eqb_spec st block_allocator.NULL) as [|Hnull]; [done|].
  cbn [block_allocator.max_blocks block_allocator.blocks_allocated
       block_allocator.set_blocks_allocated block_allocator.set_process_heap].
  destruct (Z.ltb_spec (block_allocator.max_blocks a)
              (wrap64 (block_allocator.blocks_allocated a + nb))) as [|Hcap]; [done|].
  intros [= <- <-]. cbn.
  unfold block_allocator.pad_size in *.
  rewrite wrap64_id in Hal by lia.
  destruct (Hfresh (block_allocator.process_heap a) 256 (nb * bs + 256) st h'
              ltac:(lia) ltac:(lia) Hal Hnull) as [Hnew Hold].
  split; [intros q Hq; apply Hnew; lia|].
  split; [intros q [Hq|Hq]; apply Hold; [by left|right; lia]|].
  repeat split; try done.
Qed.

(** the list that [initialize_list] builds *)
Lemma initialize_list_blocks a start :
  block_allocator.list_length a = L -> block_allocator.block_size_ a = bs ->
  L < 2 ^ 64 ->
  exists nx',
    block_allocator.initialize_list a start = (block_allocator.set_next a nx', start) /\
    block_allocator.chain nx' start (Z.to_nat L) = block_allocator.blocks_from bs L start /\
    forall q, ~ In q (block_allocator.blocks_from bs L start) -> nx' q = block_allocator.next a q.
Proof.
  intros HL Hbs HL64. unfold block_allocator.initialize_list. rewrite HL, Hbs.
  rewrite wrap64_id by lia.
  destruct (initialize_list_loop_chain (Z.to_nat (L - 1)) bs (block_allocator.next a)
              start Hbs0) as (Hend & Hchain & Hframe).
  destruct (block_allocator.initialize_list_loop _ _ _ _) as [nx1 p1].
  cbn [fst snd] in *. rewrite Z2Nat.id in * by lia. subst p1.
  eexists. split; [reflexivity|]. split.
  - apply chain_blocks. intros j Hj. rewrite upd_ne by nia. by apply Hchain.
  - intros q Hq. rewrite upd_ne.
    + apply Hframe. intros j Hj ->. apply Hq. apply blocks_from_In.
      exists j. split; [lia|done].
    + intros ->. apply Hq. apply blocks_from_In. exists (L - 1). split; [lia|done].
Qed.

Lemma tidy_add h h' ba T B :
  tidy h ba T -> NoDup B -> block_allocator.apart bs B ->
  (forall x y, In x B -> In y T -> x + bs <= y \/ y + bs <= x) ->
  (forall x q, In x (B ++ T) -> x <= q < x + bs -> owned h' q) ->
  ba + Z.of_nat (length B) <= MB -> L <= MB ->
  tidy h' (ba + Z.of_nat (length B)) (B ++ T).
Proof.
  intros (Hnd & Hap & Hown & Hba & Hcap & HLMB) HndB HapB Hsep Hown' Hcap' HLMB'.
  split.
  { apply NoDup_app; [done|done|]. intros x Hx Hy. specialize (Hsep x x Hx Hy). lia. }
  split.
  { intros x y Hx Hy Hne. apply in_app_iff in Hx as [Hx|Hx], Hy as [Hy|Hy].
    - by apply HapB.
    - by apply Hsep.
    - specialize (Hsep y x Hy Hx). lia.
    - by apply Hap. }
  split; [done|]. rewrite length_app. lia.
Qed.

(** [head = initialize_list(allocate_blocks(list_length)); sz = list_length] *)
Lemma fresh_safe a live id start a1 nx' :
  L * bs + block_allocator.pad_size < 2 ^ 64 ->
  safe a live -> 0 <= id < thread_count ->
  block_allocator.sz (block_allocator.local_lists a id) = 0 ->
  block_allocator.allocate_blocks aligned_alloc a (block_allocator.list_length a)
    = Returns (start, a1) ->
  block_allocator.chain nx' start (Z.to_nat L) = block_allocator.blocks_from bs L start ->
  (forall q, ~ In q (block_allocator.blocks_from bs L start) -> nx' q = block_allocator.next a1 q) ->
  safe
    (block_allocator.set_local_lists (block_allocator.set_next a1 nx')
       (upd (block_allocator.local_lists a1) id
          {| block_allocator.sz := block_allocator.list_length a1;
             block_allocator.head := start;
             block_allocator.mid :=
               block_allocator.mid (block_allocator.local_lists a1 id) |}))
    live.
Proof.
  intros Hsize Hsafe Hid Hsz Hab Hchain Hframe.
  destruct (safe_sz_le a live id Hsafe Hid) as [Hle Hcap'].
  destruct Hsafe as (HL & Hbs & HMB & Htidy & Hloc).
  rewrite HL in Hab.
  destruct (allocate_blocks_fresh a L start a1 Hbs ltac:(nia) Hsize Hab)
    as (Hnew & Hold & Hba1 & Hcap1 & Hnx1 & Hll1 & Hgs1 & HL1' & HMB1 & Hbs1).
  rewrite Hnx1 in Hframe. rewrite Hll1, HL1', HL.
  pose proof (free_blocks_split a id Hid) as Hsplit. rewrite HL in Hsplit.
  set (ll := block_allocator.local_lists a) in *.
  set (nx := block_allocator.next a) in *.
  set (oth := other_blocks nx ll id) in *.
  set (glo := block_allocator.global_blocks nx L (block_allocator.global_stack a)) in *.
  set (B := block_allocator.blocks_from bs L start) in *.
  set (ll' := upd ll id _).
  assert (block_allocator.local_blocks nx ll id = []) as Hown.
  { unfold block_allocator.local_blocks. by rewrite Hsz. }
  rewrite Hown in Hsplit. cbn [app] in Hsplit.
  assert (live ++ block_allocator.free_blocks thread_count a ≡ₚ live ++ oth ++ glo) as HT
    by (by rewrite Hsplit).
  apply (tidy_perm _ _ _ _ HT) in Htidy. pose proof Htidy as Htidy'.
  destruct Htidy as (Hnd & Hap & Hown' & Hba & Hcap & HLMB).
  assert (forall x y, In x B -> In y (live ++ oth ++ glo) ->
            x + bs <= y \/ y + bs <= x) as Hsep.
  { intros x y Hx Hy. apply (blocks_from_range bs L Hbs0) in Hx.
    destruct (Z_le_gt_dec (x + bs) y); [by left|].
    destruct (Z_le_gt_dec (y + bs) x); [by right|]. exfalso.
    apply (Hnew (Z.max x y)); [unfold block_allocator.pad_size; lia|].
    apply (Hown' y); [done|lia]. }
  assert (forall x, In x (live ++ oth ++ glo) -> ~ In x B) as Hdisj.
  { intros x Hx HB. specialize (Hsep x x HB Hx). lia. }
  assert (forall x, In x (live ++ oth ++ glo) -> nx' x = nx x) as Hnx'.
  { intros x Hx. apply Hframe. by apply Hdisj. }
  assert (other_blocks nx' ll' id = oth) as Hoth'.
  { apply other_blocks_frame.
    - intros i Hi. unfold ll'. by apply upd_ne.
    - intros x Hx. apply Hnx'. rewrite !in_app_iff. tauto. }
  assert (block_allocator.global_blocks nx' L (block_allocator.global_stack a) = glo) as Hglo'.
  { apply global_blocks_frame. intros x Hx. apply Hnx'. rewrite !in_app_iff. tauto. }
  assert (0 <= block_allocator.blocks_allocated a) as Hba0 by lia.
  rewrite wrap64_id in Hba1 by lia.
  unfold block_allocator.safe.
  cbn [block_allocator.list_length block_allocator.block_size_ block_allocator.max_blocks
       block_allocator.process_heap block_allocator.blocks_allocated
       block_allocator.next block_allocator.local_lists block_allocator.global_stack
       block_allocator.set_local_lists block_allocator.set_next].
  split; [congruence|]. split; [congruence|]. split; [congruence|]. split.
  - apply (tidy_perm _ _ (B ++ live ++ oth ++ glo)).
    + rewrite (free_blocks_split _ id Hid).
      cbn [block_allocator.list_length block_allocator.global_stack
           block_allocator.next block_allocator.local_lists
           block_allocator.set_local_lists block_allocator.set_next].
      rewrite HL1', HL, Hgs1, Hoth', Hglo'.
      unfold block_allocator.local_blocks, ll'. rewrite upd_eq.
      cbn [block_allocator.sz block_allocator.head]. rewrite Hchain.
      solve_Permutation.
    + rewrite Hba1.
      replace L with (Z.of_nat (length B)) at 2
        by (unfold B; rewrite blocks_from_length; lia).
      apply (tidy_add (block_allocator.process_heap a)); try done.
      * by apply blocks_from_NoDup.
      * by apply blocks_from_apart.
      * intros x q Hx Hq. apply Hold. apply in_app_iff in Hx as [Hx|Hx].
        -- right. apply (blocks_from_range bs L Hbs0) in Hx.
           unfold block_allocator.pad_size. lia.
        -- left. by apply (Hown' x).
      * unfold B. rewrite blocks_from_length. lia.
      * lia.
  - intros i Hi. destruct (Z.eq_dec i id) as [->|Hnei].
    + unfold ll'. rewrite upd_eq.
      cbn [block_allocator.sz block_allocator.head block_allocator.mid].
      split; lia.
    + unfold ll'. rewrite upd_ne by done. destruct (Hloc i Hi) as [Hsi HMi].
      split; [done|]. intros Hbig. rewrite (HMi Hbig).
      symmetry. apply (iter_frame nx nx' (Z.to_nat (block_allocator.sz (ll i)))); [|lia].
      intros x Hx. apply Hnx'. rewrite !in_app_iff. right. left.
      apply (In_other_blocks nx ll id i); [done|lia|done|done].
Qed.

(** an [alloc] that returns keeps the invariant *)
Lemma safe_alloc a live id p a' :
  L * bs + block_allocator.pad_size < 2 ^ 64 ->
  safe a live -> 0 <= id < thread_count ->
  block_allocator.alloc aligned_alloc a id = Returns (p, a') ->
  safe a' (p :: live).
Proof.
  intros Hsize Hsafe Hid. pose proof Hsafe as (HL & Hbs & HMB & Htidy & Hloc).
  destruct (safe_sz_le a live id Hsafe Hid) as [Hle Hcap'].
  unfold block_allocator.alloc.
  destruct (Z.eqb_spec (block_allocator.sz (block_allocator.local_lists a id)) 0)
    as [Hsz|Hsz].
  - unfold block_allocator.get_list.
    destruct (block_allocator.global_stack a) as [|g gs] eqn:Hgs;
      cbn [block_allocator.pop].
    + destruct (block_allocator.allocate_blocks aligned_alloc a
                  (block_allocator.list_length a)) as [[start a1]| |] eqn:Hab;
        [|done|done].
      cbn [mbind outcome_bind fst snd].
      pose proof Hab as Hab'. rewrite HL in Hab'.
      destruct (allocate_blocks_fresh a L start a1 Hbs ltac:(nia) Hsize Hab')
        as (_ & _ & _ & _ & _ & _ & _ & HL1' & _ & Hbs1).
      destruct (initialize_list_blocks a1 start ltac:(congruence) ltac:(congruence)
                  ltac:(lia)) as (nx' & -> & Hchain & Hframe).
      cbn [mbind outcome_bind fst snd]. intros [= <- <-].
      pose proof (fresh_safe a live id start a1 nx' Hsize Hsafe Hid Hsz Hab Hchain
                    Hframe) as Hs1.
      apply (pop_safe _ live id Hs1 Hid).
      cbn. rewrite upd_eq. cbn. lia.
    + cbn [mbind outcome_bind fst snd]. intros [= <- <-].
      pose proof (take_safe a live id g gs Hsafe Hid Hsz Hgs) as Hs1.
      apply (pop_safe _ live id Hs1 Hid).
      cbn. rewrite upd_eq. cbn. lia.
  - cbn [mbind outcome_bind]. intros [= <- <-].
    apply (pop_safe a live id Hsafe Hid). lia.
Qed.

(** every sequence of calls keeps the invariant *)
Lemma safe_runs a live ops a' live' :
  L * bs + block_allocator.pad_size < 2 ^ 64 ->
  block_allocator.runs aligned_alloc thread_count a live ops a' live' ->
  safe a live -> safe a' live'.
Proof.
  intros Hsize.
  induction 1 as [a live
                 | a live id p a1 ops a' live' Hid Halloc Hruns IH
                 | a live id p ops a' live' Hid Hin Hruns IH]; intros Hsafe.
  - done.
  - apply IH. by apply (safe_alloc a live id p a1).
  - apply IH. by apply safe_free.
Qed.

(** the lists that the [parallel_for] of [reserve] pushes *)
Lemma reserve_loop_blocks start n : forall a i,
  block_allocator.list_length a = L -> block_allocator.block_size_ a = bs ->
  L < 2 ^ 64 -> 0 <= i ->
  NoDup (block_allocator.global_blocks (block_allocator.next a) L (block_allocator.global_stack a)) ->
  block_allocator.apart bs
    (block_allocator.global_blocks (block_allocator.next a) L (block_allocator.global_stack a)) ->
  (forall x,
     In x (block_allocator.global_blocks (block_allocator.next a) L (block_allocator.global_stack a)) ->
     start <= x /\ x + bs <= start + i * L * bs) ->
  Z.of_nat (length (block_allocator.global_blocks (block_allocator.next a) L
                      (block_allocator.global_stack a))) = i * L ->
  let a' := block_allocator.reserve_loop n a start i in
  let G' := block_allocator.global_blocks (block_allocator.next a') L
              (block_allocator.global_stack a') in
  NoDup G' /\ block_allocator.apart bs G' /\
  (forall x, In x G' -> start <= x /\ x + bs <= start + (i + Z.of_nat n) * L * bs) /\
  Z.of_nat (length G') = (i + Z.of_nat n) * L /\
  block_allocator.list_length a' = L /\ block_allocator.block_size_ a' = bs /\
  block_allocator.max_blocks a' = block_allocator.max_blocks a /\
  block_allocator.blocks_allocated a' = block_allocator.blocks_allocated a /\
  block_allocator.process_heap a' = block_allocator.process_heap a /\
  block_allocator.local_lists a' = block_allocator.local_lists a.
Proof.
  induction n as [|n IH]; intros a i HL Hbs HL64 Hi Hnd Hap Hrange Hlen a' G'.
  - subst a' G'. cbn [block_allocator.reserve_loop].
    replace (i + Z.of_nat 0) with i by lia. done.
  - subst a' G'. cbn [block_allocator.reserve_loop]. rewrite HL, Hbs.
    set (off := start + i * L * bs).
    destruct (initialize_list_blocks a off HL Hbs HL64) as (nx' & -> & Hchain & Hframe).
    set (G := block_allocator.global_blocks (block_allocator.next a) L
                (block_allocator.global_stack a)) in *.
    set (B := block_allocator.blocks_from bs L off) in *.
    assert (forall x y, In x B -> In y G -> x + bs <= y \/ y + bs <= x) as Hsep.
    { intros x y Hx Hy. apply (blocks_from_range bs L Hbs0) in Hx.
      apply Hrange in Hy. unfold off in Hx. lia. }
    assert (block_allocator.global_blocks nx' L (block_allocator.global_stack a) = G) as HG'.
    { apply global_blocks_frame. intros x Hx. apply Hframe. intros HB.
      specialize (Hsep x x HB Hx). lia. }
    match goal with
    | |- context [block_allocator.reserve_loop n ?a1 start (i + 1)] =>
        specialize (IH a1 (i + 1))
    end.
    cbn [block_allocator.list_length block_allocator.block_size_ block_allocator.max_blocks
         block_allocator.process_heap block_allocator.blocks_allocated
         block_allocator.next block_allocator.local_lists block_allocator.global_stack
         block_allocator.set_global_stack block_allocator.set_next] in IH.
    change (block_allocator.global_blocks nx' L
              (block_allocator.push off (block_allocator.global_stack a)))
      with (block_allocator.chain nx' off (Z.to_nat L)
            ++ block_allocator.global_blocks nx' L (block_allocator.global_stack a)) in IH.
    rewrite Hchain, HG' in IH.
    replace (i + Z.of_nat (S n)) with (i + 1 + Z.of_nat n) by lia.
    apply IH; try done; try lia.
    + apply NoDup_app; [by apply blocks_from_NoDup|done|].
      intros x Hx Hy. specialize (Hsep x x Hx Hy). lia.
    + intros x y Hx Hy Hne. apply in_app_iff in Hx as [Hx|Hx], Hy as [Hy|Hy].
      * by apply (blocks_from_apart bs L Hbs0 off).
      * by apply Hsep.
      * specialize (Hsep y x Hy Hx). lia.
      * by apply Hap.
    + intros x Hx. apply in_app_iff in Hx as [Hx|Hx].
      * apply (blocks_from_range bs L Hbs0) in Hx. unfold off in Hx. nia.
      * apply Hrange in Hx. nia.
    + rewrite length_app. unfold B. rewrite blocks_from_length. lia.
Qed.

Lemma flat_map_nil {A B : Type} (l : list A) : flat_map (fun _ => @nil B) l = [].
Proof. by induction l. Qed.

(** the allocator that the constructor returns satisfies the invariant *)
Lemma safe_new (getMemorySize : Z) (num_lists_of : Z -> Z -> Z -> Z)
    blocks_count max_blocks_ h nx a0 :
  0 <= num_lists_of thread_count blocks_count L ->
  L * num_lists_of thread_count blocks_count L * bs + block_allocator.pad_size < 2 ^ 64 ->
  block_allocator.new aligned_alloc getMemorySize thread_count num_lists_of
    bs blocks_count L max_blocks_ h nx = Returns a0 ->
  block_allocator.max_blocks a0 = MB ->
  safe a0 [].
Proof.
  intros HNL Hsize. unfold block_allocator.new, block_allocator.reserve.
  cbn [block_allocator.list_length].
  set (NL := num_lists_of thread_count blocks_count L) in *.
  set (a := {| block_allocator.pool_roots := [] |}).
  assert (0 <= L * NL <= L * NL * bs) as HLNL by nia.
  pose proof Hsize as Hsize'. unfold block_allocator.pad_size in Hsize'.
  rewrite (wrap64_id (L * NL)) by lia.
  destruct (block_allocator.allocate_blocks aligned_alloc a (L * NL))
    as [[start a1]| |] eqn:Hab; [|done|done].
  destruct (allocate_blocks_fresh a (L * NL) start a1 eq_refl ltac:(lia) Hsize Hab)
    as (Hnew & Hold & Hba1 & Hcap1 & Hnx1 & Hll1 & Hgs1 & HL1' & HMB1 & Hbs1).
  cbn [mbind outcome_bind fst snd]. intros [= <-] HMB. subst a.
  cbn [block_allocator.list_length block_allocator.block_size_ block_allocator.max_blocks
       block_allocator.blocks_allocated block_allocator.global_stack
       block_allocator.process_heap block_allocator.next
       block_allocator.local_lists] in *.
  pose proof (reserve_loop_fields (Z.to_nat NL) a1 start 0) as (_ & _ & _ & _ & HMB2').
  cbn [block_allocator.max_blocks block_allocator.set_local_lists] in HMB.
  assert (L < 2 ^ 64) as HL64.
  { pose proof (wrap64_range (0 + L * NL)). rewrite HMB2', HMB1 in HMB. lia. }
  pose proof (reserve_loop_blocks start (Z.to_nat NL) a1 0 HL1' Hbs1 HL64 ltac:(lia))
    as Hloop.
  rewrite Hgs1 in Hloop. cbv zeta in Hloop.
  destruct Hloop as (Hnd & Hap & Hrange & Hlen & HL2 & Hbs2 & HMB2 & Hba2 & Hh2 & Hll2);
    [apply NoDup_nil|by intros x y []|by intros x []|cbn; lia|].
  rewrite Z2Nat.id in Hrange, Hlen by done.
  set (a2 := block_allocator.reserve_loop (Z.to_nat NL) a1 start 0) in *.
  cbn [block_allocator.max_blocks block_allocator.set_local_lists] in HMB.
  rewrite wrap64_id in Hba1 by lia.
  unfold block_allocator.safe, block_allocator.free_blocks.
  cbn [block_allocator.list_length block_allocator.block_size_ block_allocator.max_blocks
       block_allocator.process_heap block_allocator.blocks_allocated
       block_allocator.next block_allocator.local_lists block_allocator.global_stack
       block_allocator.set_local_lists].
  split; [done|]. split; [done|]. split; [done|]. split.
  - unfold block_allocator.local_blocks. cbn [block_allocator.sz].
    change (Z.to_nat 0) with O. cbn [block_allocator.chain].
    rewrite flat_map_nil, HL2. cbn [app].
    split; [done|]. split; [done|]. split.
    { intros x q Hx Hq. rewrite Hh2. apply Hold. right. apply Hrange in Hx.
      unfold block_allocator.pad_size. nia. }
    split; [lia|]. split; [lia|]. intros Hpos.
    assert (1 <= NL) as HNL1 by (rewrite Hba2, Hba1 in Hpos; nia).
    assert (L <= L * NL) by nia. lia.
  - intros i Hi. cbn. split; lia.
Qed.

End allocator_safety.

(** X18. No block is handed out twice.  For blocks of at least the 8 octets
    of their [next] field, lists of at least one block, sizes that fit 64
    bits, and a process allocator whose [aligned_alloc] never returns space
    that overlaps space it returned before: from the allocator that the
    constructor returns, after every sequence of [alloc] and [free] calls
    that return (each by a worker with an id in [0, thread_count), each
    [free] passing a block that an [alloc] returned and that has not been
    freed since), the blocks handed out and not yet freed are pairwise
    different and [block_size] octets apart, so they do not overlap, none of
    them is in a local list or in a list of the global stack, and each lies
    in space that [aligned_alloc] returned. *)
Theorem allocator_live_blocks_disjoint :
  forall (heap : Type) (aligned_alloc : heap -> Z -> Z -> Z * heap)
         (owned : heap -> Z -> Prop)
         (getMemorySize thread_count : Z) (num_lists_of : Z -> Z -> Z -> Z)
         (block_size blocks_count list_length_ max_blocks_ : Z) (h : heap)
         (nx : Z -> Z) (a0 : block_allocator.t heap),
    block_allocator.fresh aligned_alloc owned ->
    8 <= block_size -> 1 <= list_length_ ->
    0 <= num_lists_of thread_count blocks_count list_length_ ->
    list_length_ * num_lists_of thread_count blocks_count list_length_ * block_size
      + block_allocator.pad_size < 2 ^ 64 ->
    list_length_ * block_size + block_allocator.pad_size < 2 ^ 64 ->
    block_allocator.new aligned_alloc getMemorySize thread_count num_lists_of
      block_size blocks_count list_length_ max_blocks_ h nx = Returns a0 ->
    block_allocator.max_blocks a0 + list_length_ < 2 ^ 64 ->
    forall (ops : list block_allocator.op) (a' : block_allocator.t heap)
           (live' : list Z),
      block_allocator.runs aligned_alloc thread_count a0 [] ops a' live' ->
      NoDup live' /\
      block_allocator.apart block_size live' /\
      (forall x, In x live' -> ~ In x (block_allocator.free_blocks thread_count a')) /\
      (forall x q, In x live' -> x <= q < x + block_size ->
         owned (block_allocator.process_heap a') q).
Proof.
  intros heap aligned_alloc owned getMemorySize thread_count num_lists_of
    block_size blocks_count list_length_ max_blocks_ h nx a0
    Hfresh Hbs8 HL HNL Hsize0 Hsize Hnew Hfit ops a' live' Hruns.
  assert (0 < block_size) as Hbs by lia.
  pose proof (safe_new aligned_alloc owned thread_count list_length_ block_size
                (block_allocator.max_blocks a0) HL Hbs Hfit Hfresh getMemorySize
                num_lists_of blocks_count max_blocks_ h nx a0 HNL Hsize0 Hnew eq_refl)
    as Hsafe0.
  pose proof (safe_runs aligned_alloc owned thread_count list_length_ block_size
                (block_allocator.max_blocks a0) HL Hbs Hfit Hfresh _ _ _ _ _ Hsize
                Hruns Hsafe0) as (_ & _ & _ & (Hnd & Hap & Hown & _) & _).
  apply NoDup_app_inv in Hnd as (Hnd & _ & Hdisj).
  split; [done|]. split.
  { intros x y Hx Hy. apply Hap; apply in_app_iff; by left. }
  split; [done|].
  intros x q Hx. apply Hown, in_app_iff. by left.
Qed.

Lemma bump_alloc_fresh :
  block_allocator.fresh block_allocator.bump_alloc (fun h q => q < h).
Proof.
  intros h alignment size p h' Hal Hsz [= <- <-] _.
  assert (h <= (h + alignment - 1) / alignment * alignment) as Hup.
  { pose proof (Z.mul_div_le (h + alignment - 1) alignment Hal).
    pose proof (Z.mod_pos_bound (h + alignment - 1) alignment Hal).
    pose proof (Z.div_mod (h + alignment - 1) alignment ltac:(lia)). lia. }
  split; intros q Hq; lia.
Qed.

Lemma allocator_live_blocks_disjoint_witness :
  exists (a' : block_allocator.t Z) (live' : list Z),
    block_allocator.runs block_allocator.bump_alloc 2
      block_allocator.scenario_allocator []
      [block_allocator.Alloc 0; block_allocator.Alloc 1; block_allocator.Alloc 0;
       block_allocator.Free 1 288; block_allocator.Alloc 1] a' live' /\
    NoDup live' /\
    block_allocator.apart 8 live' /\
    (forall x, In x live' -> ~ In x (block_allocator.free_blocks 2 a')) /\
    (forall x q, In x live' -> x <= q < x + 8 -> q < block_allocator.process_heap a').
Proof.
  eexists _, _.
  match goal with |- ?R /\ _ => assert R as Hruns end.
  { eapply block_allocator.runs_alloc; [lia | vm_compute; reflexivity |].
    eapply block_allocator.runs_alloc; [lia | vm_compute; reflexivity |].
    eapply block_allocator.runs_alloc; [lia | vm_compute; reflexivity |].
    eapply block_allocator.runs_free; [lia | vm_compute; auto |].
    eapply block_allocator.runs_alloc; [lia | vm_compute; reflexivity |].
    vm_compute. apply block_allocator.runs_nil. }
  split; [exact Hruns|].
  apply (allocator_live_blocks_disjoint Z block_allocator.bump_alloc (fun h q => q < h)
           (2 ^ 34) 2 block_allocator.exact_num_lists 8 4 2 0 256
           (fun _ => block_allocator.NULL) block_allocator.scenario_allocator
           bump_alloc_fresh ltac:(lia) ltac:(lia) ltac:(vm_compute; discriminate)
           ltac:(vm_compute; reflexivity) ltac:(vm_compute; reflexivity)
           ltac:(vm_compute; reflexivity) ltac:(vm_compute; reflexivity) _ _ _ Hruns).
Defined.

(** ** [pack] stays inside the encoded list *)

Section pack_extent.
Context {W : Type} {HW : Weight W} {HWok : WeightOk W}.
Implicit Types (es : list (Z * W)) (E : Z -> list (Z * W)).
Variable pred : Z -> Z -> W -> bool.

(** one round of the first loop of [pack] writes inside its block *)
Lemma pack_block_same_on m base src vd addr start E degree k m' ct lo hi :
  frame_at m base src vd addr start E -> 0 <= k < num_blocks_of vd ->
  wrap32 (block_end m base (num_blocks_of vd) degree k - start k)
    = Z.of_nat (length (E k)) ->
  pack_block pred m base src degree (num_blocks_of vd) k = Some (m', ct) ->
  hi <= addr k + 4 \/ addr (k + 1) <= lo ->
  same_on m m' lo hi.
Proof.
  intros Hreg Hk Hdeg.
  pose proof (region_finger _ _ _ _ _ _ _ _ Hreg k Hk) as Hfinger.
  pose proof (region_start _ _ _ _ _ _ _ _ Hreg k Hk) as Hstart.
  assert (Hreg' := Hreg).
  destruct Hreg' as (Hsrc & Hvd & Hload & Ha0 & Hend & Hstep & Hoff & Hblk & Hok).
  destruct (Hblk k Hk) as (_ & Hby & Hcap & Hlen).
  pose proof (Hok k Hk) as Hokk.
  pose proof (keep_length_le pred src (E k)) as Hkl.
  pose proof (chunk_bytes_keep pred src (E k) Hsrc Hokk) as Hsize.
  assert (edges_ok (keep pred src (E k))) as Hokk'
    by (by apply increasing_from_keep).
  unfold pack_block. rewrite Hfinger, Hstart, Hdeg. unfold sizeof_uintE.
  assert ((if 0 <? Z.of_nat (length (E k))
           then
            eatFirstEdge m (addr k + 4) src ≫= λ '(ngh, finger),
              eatWeight m finger ≫= λ '(wgh, finger0),
                pack_filter_rest pred (Z.to_nat (Z.of_nat (length (E k)) - 1)) m src
                  finger0 ngh (if pred src ngh wgh then [(ngh, wgh)] else [])
           else Some []) = Some (keep pred src (E k))) as ->.
  { destruct (E k) as [|[n w] es] eqn:HE; [done|].
    cbn [length]. replace (0 <? _) with true by bool_lia.
    cbn [edges_ok increasing_from chunk_bytes] in Hokk, Hby.
    destruct Hokk as (Hn & Hw & Hi).
    destruct (read_first m (addr k + 4) src n w _ Hsrc ltac:(lia) Hw Hby)
      as (p1 & p2 & He & Hew & Hb' & _).
    rewrite He. cbn [mbind option_bind]. rewrite Hew. cbn [mbind option_bind].
    replace (Z.to_nat _) with (length es) by lia.
    rewrite pack_filter_rest_keep by (lia || done).
    cbn [keep List.filter fst snd]. by destruct (pred src n w). }
  cbn [mbind option_bind].
  replace (PARALLEL_DEGREE <? Z.of_nat (length (keep pred src (E k)))) with false
    by bool_lia.
  intros [= <- <-] Hout.
  destruct ((0 <? Z.of_nat (length (keep pred src (E k))))
            && (Z.of_nat (length (keep pred src (E k))) <? Z.of_nat (length (E k))))
    eqn:Hc; [|apply same_on_refl].
  destruct (keep pred src (E k)) as [|[n w] tmp] eqn:Hkeep; [done|].
  cbn [hd tl fst snd]. cbn [edges_ok increasing_from] in Hokk'.
  destruct Hokk' as (Hn & Hw & Hi). unfold is_uintE in Hsrc.
  rewrite compress_sign_mag by lia.
  rewrite compressWeight_bytes by done.
  rewrite pack_write_rest_bytes by (lia || done). cbn [fst].
  replace (write_bytes _ _ (rest_bytes n tmp))
    with (write_bytes m (addr k + 4) (chunk_bytes src ((n, w) :: tmp)))
    by (cbn [chunk_bytes]; rewrite !write_bytes_app; addr_eq).
  apply same_on_write_bytes. lia.
Qed.

(** the first loop of [pack] writes inside the region *)
Lemma pack_blocks_same_on base src vd addr E degree n lo hi : forall k m cts m' cts',
  degree = start_of E (num_blocks_of vd) -> degree < 2 ^ 32 ->
  Z.of_nat n + k = num_blocks_of vd -> 0 <= k ->
  frame_at m base src vd addr (start_of E)
    (fun i => if i <? k then keep pred src (E i) else E i) ->
  pack_blocks pred n m base src degree (num_blocks_of vd) k cts = Some (m', cts') ->
  hi <= base \/ addr (num_blocks_of vd) <= lo ->
  same_on m m' lo hi.
Proof.
  intros k m cts m' cts' Hdeg Hlt. revert k m cts.
  induction n as [|n IH]; intros k m cts Hn Hk Hfr Hpbs Hout.
  - cbn [pack_blocks] in Hpbs. injection Hpbs as <- <-. apply same_on_refl.
  - cbn [pack_blocks] in Hpbs.
    assert (wrap32 (block_end m base (num_blocks_of vd) degree k - start_of E k)
            = Z.of_nat (length (if k <? k then keep pred src (E k) else E k)))
      as Hdegk.
    { rewrite (region_end _ _ _ _ _ _ _ _ Hfr) by lia.
      rewrite Z.ltb_irrefl.
      assert ((if k =? num_blocks_of vd - 1 then wrap32 degree
               else start_of E (k + 1)) = start_of E (k + 1)) as ->.
      { destruct (Z.eqb_spec k (num_blocks_of vd - 1)) as [->|]; [|done].
        rewrite wrap32_id by (pose proof (start_of_nonneg E (num_blocks_of vd)); lia).
        rewrite Hdeg. f_equal. lia. }
      rewrite start_of_succ by lia.
      pose proof (start_of_mono E (k + 1) (num_blocks_of vd) ltac:(lia)) as Hm.
      rewrite start_of_succ in Hm by lia.
      pose proof (start_of_nonneg E k).
      rewrite wrap32_id by lia. lia. }
    destruct (pack_block_frame pred m base src vd addr (start_of E) _ degree k Hfr
                ltac:(lia) Hdegk) as (m1 & Hpb & Hfr1).
    pose proof (pack_block_same_on m base src vd addr (start_of E) _ degree k m1 _
                  lo hi Hfr ltac:(lia) Hdegk Hpb) as Hs1.
    rewrite Hpb in Hpbs. cbn [mbind option_bind] in Hpbs.
    pose proof (region_addr_mono _ _ _ _ _ _ _ _ Hfr 0 k ltac:(lia) ltac:(lia)) as H0k.
    pose proof (region_addr_mono _ _ _ _ _ _ _ _ Hfr (k + 1) (num_blocks_of vd)
                  ltac:(lia) ltac:(lia)) as HkB.
    destruct Hfr as (_ & _ & _ & Ha0 & _).
    eapply same_on_trans; [apply Hs1; lia|].
    eapply (IH (k + 1) m1); [lia | lia | | exact Hpbs | done].
    eapply frame_ext; [exact Hfr1|]. intros i Hi. cbn beta. split; [|done].
    rewrite Z.ltb_irrefl.
    destruct (Z.eqb_spec i k) as [->|]; [by replace (k <? k + 1) with true by bool_lia|].
    destruct (Z.ltb_spec i k); [by replace (i <? k + 1) with true by bool_lia|].
    by replace (i <? k + 1) with false by bool_lia.
Qed.

(** the second loop of [pack] writes inside the region *)
Lemma pack_write_starts_same_on base src vd addr E scan_cts n lo hi :
  forall k m start,
  (forall i, 0 <= i < num_blocks_of vd -> 0 <= nth (Z.to_nat i) scan_cts 0 < 2 ^ 32) ->
  Z.of_nat n + k = num_blocks_of vd -> 0 <= k ->
  frame_at m base src vd addr start E ->
  hi <= base \/ addr (num_blocks_of vd) <= lo ->
  same_on m (pack_write_starts n m base (num_blocks_of vd) k scan_cts) lo hi.
Proof.
  intros k m start Hscan. revert k m start.
  induction n as [|n IH]; intros k m start Hn Hk Hfr Hout.
  - apply same_on_refl.
  - cbn [pack_write_starts].
    rewrite (region_finger _ _ _ _ _ _ _ _ Hfr) by lia.
    assert (0 <= 0 <= k) as Hr1 by lia.
    assert (k <= num_blocks_of vd) as Hr2 by lia.
    assert (0 <= k + 1 <= num_blocks_of vd) as Hr3 by lia.
    pose proof (region_addr_mono _ _ _ _ _ _ _ _ Hfr 0 k Hr1 Hr2) as H0k.
    pose proof (region_addr_mono _ _ _ _ _ _ _ _ Hfr (k + 1) (num_blocks_of vd)
                  Hr3 ltac:(reflexivity)) as HkB.
    assert (Hfr' := Hfr).
    destruct Hfr' as (_ & _ & _ & Ha0 & _ & Hstep & _).
    specialize (Hstep k ltac:(lia)).
    apply (same_on_trans _ (store32 m (addr k) (nth (Z.to_nat k) scan_cts 0)));
      [apply same_on_store32; lia|].
    eapply (IH (k + 1)); [lia | lia | | done].
    apply frame_set_start; [done | lia | apply Hscan; lia].
Qed.

(** the last loop of [repack] writes inside the new layout *)
Lemma repack_write_blocks_same_on U base src es bytes_imap n lo hi : forall k m,
  let vd := Z.of_nat (length es) in
  let B := 1 + (vd - 1) / PARALLEL_DEGREE in
  let addr := addr_of src (chunk_of es) (base + 4 * B) in
  is_uintE src -> edges_ok es -> holds U 0 es -> 1 <= vd < 2 ^ 32 ->
  (forall i, 0 <= i < B -> nth (Z.to_nat i) bytes_imap 0 = addr i - addr 0) ->
  Z.of_nat n + k = B -> 0 <= k ->
  hi <= base \/ addr B <= lo ->
  same_on m (repack_write_blocks n m base (base + 4 * B) bytes_imap U src vd k) lo hi.
Proof.
  intros k m vd B addr Hsrc Hok Hh Hvd Hmap. revert k m.
  induction n as [|n IH]; intros k m Hn Hk Hout.
  - apply same_on_refl.
  - cbn [repack_write_blocks].
    pose proof (blocks_bound vd k ltac:(lia) ltac:(unfold B in *; lia)) as HkP.
    rewrite (repack_write_block_bytes U m base _ bytes_imap src es k (addr k))
      by (try done; rewrite Hmap by lia; unfold addr; rewrite addr_of_0; lia).
    pose proof (addr_of_mono src (chunk_of es) (base + 4 * B) 0 k ltac:(lia)) as H0k.
    pose proof (addr_of_mono src (chunk_of es) (base + 4 * B) (k + 1) B ltac:(lia)) as HkB.
    pose proof (addr_of_succ src (chunk_of es) (base + 4 * B) k Hk) as Hsucc.
    rewrite addr_of_0 in H0k. fold addr in H0k, HkB, Hsucc.
    eapply same_on_trans; [|apply IH; [lia | lia | done]].
    eapply same_on_trans; [eapply same_on_trans|].
    3: { apply same_on_write_bytes. lia. }
    2: { apply same_on_store32. lia. }
    destruct (0 <? k) eqn:Hk0; [|apply same_on_refl].
    apply same_on_store32. unfold sizeof_uintE. lia.
Qed.

(** [repack] writes inside the new layout *)
Lemma repack_same_on m base src vd addr E par m' lo hi :
  let es := edges_of vd E in
  let d := Z.of_nat (length es) in
  let B' := 1 + (d - 1) / PARALLEL_DEGREE in
  let addr' := addr_of src (chunk_of es) (base + 4 * B') in
  region_at m base src vd addr (start_of E) E -> es <> [] ->
  addr' B' - base < 2 ^ 32 ->
  repack m src d base par = Some m' ->
  hi <= base \/ addr' B' <= lo ->
  same_on m m' lo hi.
Proof.
  intros es d B' addr' Hreg Hne Hfit.
  pose proof (region_degree_lt _ _ _ _ _ _ _ Hreg) as Hdeg.
  assert (Hreg' := Hreg).
  destruct Hreg' as (Hsrc & Hvd & Hload & _ & _ & _ & _ & _ & Hok).
  fold es in Hok.
  assert (d = start_of E (num_blocks_of vd)) as Hd by apply length_edges_of.
  assert (1 <= d) as Hd1 by (unfold d; destruct es; [done|cbn [length]; lia]).
  pose proof (Z.div_pos (d - 1) PARALLEL_DEGREE ltac:(lia) ltac:(done)) as HBpos.
  unfold repack. replace (0 <? d) with true by bool_lia. rewrite Hload.
  destruct (repack_copy_chunks_holds m base src vd addr E (Z.to_nat (num_blocks_of vd))
              0 (fun _ => (0, default_weight)) Hreg ltac:(pose proof (num_blocks_of_pos vd Hvd); lia)
              ltac:(lia) ltac:(apply holds_nil)) as (U & HU & Hh).
  rewrite <- Hd in HU. rewrite HU. cbn [mbind option_bind].
  intros [= <-] Hout.
  rewrite wrap32_id by lia. fold B'.
  assert (forall i j, 0 <= i <= j -> addr' i + 4 * (j - i) <= addr' j) as Hmono
    by (intros; by apply addr_of_mono).
  assert (0 < B') as HB' by (unfold B'; lia).
  pose proof (Hmono 0 B' ltac:(lia)) as H0B. unfold addr' in H0B at 1.
  rewrite addr_of_0 in H0B.
  unfold nghs_start_of, sizeof_uintE.
  replace (base + (B' - 1) * 4 + 4) with (base + 4 * B') by ring.
  apply (same_on_trans _ (store32 m base d)); [apply same_on_store32; lia|].
  fold d B' addr'.
  apply repack_write_blocks_same_on; try done; fold d B' addr'; [|lia].
  intros i Hi. rewrite <- (Z2Nat.id B') at 1 by lia.
  rewrite (map_seqZ_ext _ (fun i => 4 + Z.of_nat (length (chunk_bytes src (chunk_of es i))))
             (Z.to_nat B') 0).
  + unfold scan_add_inplace.
    pose proof (scan_add_cumulative wrap32 (fun j => addr' j - addr' 0)
                  (fun i => 4 + Z.of_nat (length (chunk_bytes src (chunk_of es i))))
                  (Z.to_nat B') 0) as Hscan.
    cbn beta in Hscan. rewrite Z.sub_diag in Hscan.
    rewrite Z2Nat.id in * by lia.
    rewrite Hscan; cbn [fst].
    * by rewrite (nth_map_seqZ (fun j => addr' j - addr' 0)) by lia.
    * intros j Hj. unfold addr'. rewrite addr_of_succ by lia. lia.
    * intros j Hj. apply wrap32_id.
      pose proof (Hmono 0 j ltac:(lia)). pose proof (Hmono j B' ltac:(lia)).
      unfold addr' in *. rewrite addr_of_0 in *. lia.
  + intros j Hj. apply repack_block_bytes_len; try done; [lia|].
    apply blocks_bound; [done|]. fold d B'. lia.
Qed.

(** [pack] writes inside the region, and the region it leaves ends where the
    one it found ends, or before: a list is laid out anew only when it has
    shrunk to less than a tenth, and then ten octets an edge are enough *)
Lemma pack_region_extent m base src vd addr E par :
  let es' := keep pred src (edges_of vd E) in
  let k := Z.of_nat (length es') in
  region_at m base src vd addr (start_of E) E ->
  num_blocks_of vd <> block_cts_stack_size ->
  8 * num_blocks_of vd + vd <= addr (num_blocks_of vd) - base ->
  exists m' vd' addr' E',
    pack pred m base src (Z.of_nat (length (edges_of vd E))) par = Some (m', k) /\
    region_at m' base src vd' addr' (start_of E') E' /\
    edges_of vd' E' = es' /\
    8 * num_blocks_of vd' + vd' <= addr' (num_blocks_of vd') - base /\
    addr' (num_blocks_of vd') <= addr (num_blocks_of vd) /\
    (forall lo hi, hi <= base \/ addr (num_blocks_of vd) <= lo -> same_on m m' lo hi).
Proof.
  intros es' k Hreg H100 Hext.
  pose proof (region_degree_lt _ _ _ _ _ _ _ Hreg) as Hdeg.
  pose proof (region_B _ _ _ _ _ _ _ _ Hreg) as [HBeq HB].
  assert (Hreg' := Hreg).
  destruct Hreg' as (Hsrc & Hvd & Hload & _ & _ & _ & _ & _ & Hok).
  set (E' := fun i => keep pred src (E i)).
  assert (edges_of vd E' = es') as HE'
    by (unfold edges_of, E'; by rewrite flat_keep).
  assert (forall j, 0 <= j <= num_blocks_of vd -> 0 <= start_of E' j < 2 ^ 32) as Hst.
  { intros j Hj. split; [apply start_of_nonneg|].
    pose proof (start_of_mono E' j (num_blocks_of vd) ltac:(lia)).
    pose proof (keep_length_le pred src (flat E (Z.to_nat (num_blocks_of vd)))).
    assert (start_of E' (num_blocks_of vd)
            = Z.of_nat (length (keep pred src (flat E (Z.to_nat (num_blocks_of vd))))))
      as Heq by (unfold start_of, E'; by rewrite flat_keep).
    unfold start_of in Hdeg. lia. }
  unfold pack. rewrite Hload, length_edges_of.
  (* 1. the first loop *)
  assert (frame_at m base src vd addr (start_of E)
            (fun i => if i <? 0 then keep pred src (E i) else E i)) as Hfr0.
  { eapply frame_ext; [exact (region_frame _ _ _ _ _ _ _ Hreg)|].
    intros i Hi. cbn beta. by replace (i <? 0) with false by bool_lia. }
  destruct (pack_blocks_frame pred base src vd addr E (start_of E (num_blocks_of vd))
              (Z.to_nat (num_blocks_of vd)) 0 m [] eq_refl Hdeg ltac:(lia) ltac:(lia)
              Hfr0) as (m1 & Hpb & Hfr1).
  assert (forall lo hi, hi <= base \/ addr (num_blocks_of vd) <= lo -> same_on m m1 lo hi)
    as Hs1.
  { intros lo hi Hout.
    apply (pack_blocks_same_on base src vd addr E (start_of E (num_blocks_of vd))
             (Z.to_nat (num_blocks_of vd)) lo hi 0 m [] m1 _ eq_refl Hdeg
             ltac:(lia) ltac:(lia) Hfr0 Hpb Hout). }
  rewrite Hpb. cbn [mbind option_bind app].
  (* 2. Scan block_cts to get offsets within blocks *)
  replace (num_blocks_of vd =? block_cts_stack_size) with false by bool_lia.
  unfold scan_add_inplace.
  pose proof (scan_add_cumulative wrap64 (start_of E')
                (fun i => Z.of_nat (length (keep pred src (E i))))
                (Z.to_nat (num_blocks_of vd)) 0) as Hscan.
  rewrite start_of_0 in Hscan. rewrite Hscan; clear Hscan.
  2: { intros j Hj. by rewrite start_of_succ by lia. }
  2: { intros j Hj. unfold wrap64. apply Z.mod_small.
       specialize (Hst j ltac:(lia)). lia. }
  rewrite Z2Nat.id by lia. rewrite Z.add_0_l.
  assert (start_of E' (num_blocks_of vd) = k) as Hk.
  { rewrite <- length_edges_of. by rewrite HE'. }
  rewrite Hk.
  assert (forall i, 0 <= i < num_blocks_of vd ->
            nth (Z.to_nat i) (map (start_of E') (seqZ 0 (num_blocks_of vd + 1))) 0
            = start_of E' i /\ 0 <= start_of E' i < 2 ^ 32) as Hnth.
  { intros i Hi. split; [apply nth_map_seqZ; lia | apply Hst; lia]. }
  destruct (pack_write_starts_frame base src vd addr E' (start_of E')
              (map (start_of E') (seqZ 0 (num_blocks_of vd + 1)))
              (Z.to_nat (num_blocks_of vd)) 0 m1 (start_of E) Hnth)
    as (start' & Hfr2 & Hstart'); [lia | lia | exact Hfr1 | intros; lia |].
  assert (forall lo hi, hi <= base \/ addr (num_blocks_of vd) <= lo ->
            same_on m1 (pack_write_starts (Z.to_nat (num_blocks_of vd)) m1 base
                          (num_blocks_of vd) 0
                          (map (start_of E') (seqZ 0 (num_blocks_of vd + 1)))) lo hi)
    as Hs2.
  { intros lo hi Hout.
    apply (pack_write_starts_same_on base src vd addr E' _ _ lo hi 0 m1 (start_of E));
      [|lia|lia|exact Hfr1|done].
    intros i Hi. destruct (Hnth i Hi) as [-> ?]. done. }
  set (m2 := pack_write_starts _ _ _ _ _ _) in *.
  assert (region_at m2 base src vd addr (start_of E') E') as Hreg2.
  { apply frame_region; [|rewrite HE'; by apply increasing_from_keep].
    eapply frame_ext; [exact Hfr2|]. intros i Hi. split; [done|].
    symmetry. by apply Hstart'. }
  assert (0 <= k) as Hk0 by (unfold k; lia).
  assert (forall lo hi, hi <= base \/ addr (num_blocks_of vd) <= lo -> same_on m m2 lo hi)
    as Hs12.
  { intros lo hi Hout. eapply same_on_trans; [by apply Hs1|by apply Hs2]. }
  destruct (Z.ltb_spec k (vd / 10)) as [Hlt|Hge].
  - destruct (Z_lt_ge_dec 0 k) as [Hpos|Hz].
    + (* the region is laid out anew *)
      assert (es' <> []) as Hne by (intros Hnil; unfold k in Hpos; rewrite Hnil in Hpos;
                                    cbn [length] in Hpos; lia).
      assert (edges_ok es') as Hok' by (by apply increasing_from_keep).
      assert (k < 2 ^ 32) as Hk32 by (specialize (Hst (num_blocks_of vd)); lia).
      rewrite wrap32_id by lia.
      set (B' := 1 + (k - 1) / PARALLEL_DEGREE).
      set (addr' := addr_of src (chunk_of es') (base + 4 * B')).
      assert (addr' B' - base < 2 ^ 32) as Hfit
        by (apply (layout_fits base src es' vd); (done || lia)).
      destruct (repack_region m2 base src vd addr E' par Hreg2) as (m3 & Hrp & Hreg3).
      * by rewrite HE'.
      * by rewrite HE'.
      * pose proof (repack_same_on m2 base src vd addr E' par m3) as Hs3.
        cbv zeta in Hs3.
        rewrite HE' in Hrp, Hreg3, Hs3. fold k B' addr' in Hrp, Hreg3, Hs3.
        rewrite Hrp. cbn [mbind option_bind].
        destruct (num_blocks_of_pos k ltac:(lia)) as [HB'eq HB'1].
        change (1 + (k - 1) / 1000) with B' in HB'eq.
        pose proof (start_of_chunk_of_all es' Hne) as Hall. fold k B' in Hall.
        pose proof (addr_of_edges src (base + 4 * B') es' B' Hok' ltac:(lia)) as Hlow.
        pose proof (addr_of_upper src (base + 4 * B') es' B' Hsrc Hok' ltac:(lia)) as Hup.
        fold addr' in Hlow, Hup. rewrite Hall in Hlow, Hup.
        assert (10 * k < vd) as H10 by (Z.to_euclidean_division_equations; lia).
        assert (B' <= num_blocks_of vd) as HBB.
        { rewrite HBeq. unfold B', PARALLEL_DEGREE.
          pose proof (Z.div_le_mono (k - 1) (vd - 1) 1000 ltac:(lia) ltac:(lia)). lia. }
        exists m3, k, addr', (chunk_of es').
        split; [done|]. split; [done|].
        split; [apply edges_of_chunk_of; [done|lia]|].
        rewrite HB'eq.
        split; [lia|]. split; [lia|].
        intros lo hi Hout. eapply same_on_trans; [by apply Hs12|].
        apply Hs3; [done|done|done|done|lia].
    + (* no edge stays: [repack] returns at once *)
      assert (k = 0) as Hk' by lia. rewrite Hk'.
      unfold repack. change (wrap32 0) with 0. rewrite Z.ltb_irrefl.
      cbn [mbind option_bind].
      exists m2, vd, addr, E'. rewrite <- Hk'. do 4 (split; [done|]). split; [lia|done].
  - cbn [mbind option_bind].
    exists m2, vd, addr, E'. do 4 (split; [done|]). split; [lia|done].
Qed.

End pack_extent.

(** a sequence of [pack]s writes inside the region it finds *)
Lemma packs_region_extent {W : Type} {HW : Weight W} {HWok : WeightOk W}
    (base src : Z) (ps : list ((Z -> Z -> W -> bool) * bool)) :
  forall (m : mem) (vd : Z) (addr : Z -> Z) (E : Z -> list (Z * W)) (m' : mem) (k : Z),
    region_at m base src vd addr (start_of E) E ->
    8 * num_blocks_of vd + vd <= addr (num_blocks_of vd) - base ->
    packs ps m base src (Z.of_nat (length (edges_of vd E))) = Some (m', k) ->
    forall lo hi, hi <= base \/ addr (num_blocks_of vd) <= lo -> same_on m m' lo hi.
Proof.
  induction ps as [|[p par] ps IH]; intros m vd addr E m' k Hreg Hext Hpacks lo hi Hout.
  - cbn [packs] in Hpacks. injection Hpacks as <- _. apply same_on_refl.
  - cbn [packs] in Hpacks.
    destruct (pack p m base src (Z.of_nat (length (edges_of vd E))) par)
      as [[m1 k1]|] eqn:Hp; [|done].
    cbn [mbind option_bind] in Hpacks.
    assert (num_blocks_of vd <> block_cts_stack_size) as H100.
    { intros H100. rewrite pack_100_blocks in Hp; [done|].
      destruct Hreg as (_ & _ & -> & _). done. }
    destruct (pack_region_extent p m base src vd addr E par Hreg H100 Hext)
      as (m1' & vd' & addr' & E' & Hp' & Hreg' & HE' & Hext' & Hle & Hsame).
    rewrite Hp in Hp'. injection Hp' as <- ->.
    rewrite <- HE' in Hpacks.
    eapply same_on_trans; [by apply Hsame|].
    apply (IH m1 vd' addr' E' m' k Hreg' Hext' Hpacks). lia.
Qed.

(** a sequence of [pack]s is defined on every region of less than 100
    blocks *)
Lemma packs_region_defined {W : Type} {HW : Weight W} {HWok : WeightOk W}
    (base src : Z) (ps : list ((Z -> Z -> W -> bool) * bool)) :
  forall (m : mem) (vd : Z) (addr : Z -> Z) (E : Z -> list (Z * W)),
    region_at m base src vd addr (start_of E) E ->
    8 * num_blocks_of vd + vd <= addr (num_blocks_of vd) - base ->
    addr (num_blocks_of vd) - base < 800 ->
    exists m' k, packs ps m base src (Z.of_nat (length (edges_of vd E))) = Some (m', k).
Proof.
  induction ps as [|[p par] ps IH]; intros m vd addr E Hreg Hext Hsmall.
  - eexists _, _. reflexivity.
  - cbn [packs].
    assert (num_blocks_of vd <> block_cts_stack_size) as H100.
    { destruct Hreg as (_ & Hvd & _). unfold block_cts_stack_size. lia. }
    destruct (pack_region_extent p m base src vd addr E par Hreg H100 Hext)
      as (m1 & vd' & addr' & E' & -> & Hreg' & HE' & Hext' & Hle & _).
    cbn [mbind option_bind]. rewrite <- HE'.
    apply (IH m1 vd' addr' E' Hreg' Hext'). lia.
Qed.

(** X19. [pack] never writes outside the space the encoder used: for a
    non-empty valid neighbour list that [sequentialCompressEdgeSet] has
    written at [edgeArray] (with an end offset that fits 32 bits), after
    every sequence of [pack]s that complete, each with any predicate and
    with the degree that the one before it returned, every octet before
    [edgeArray] or from the encoder's end offset on is what it was before
    the list was encoded: filtering a block in place never lengthens it,
    and the list is laid out anew only when less than a tenth of its edges
    is left, which then fits. *)
Theorem packs_stay_in_encoded_extent :
  forall (W : Type) (HW : Weight W) (HWok : WeightOk W)
         (m0 : mem) (edgeArray src : Z) (es : list (Z * W))
         (ps : list ((Z -> Z -> W -> bool) * bool)) (m' : mem) (k : Z),
    is_uintE src -> edges_ok es -> es <> [] ->
    let d := Z.of_nat (length es) in
    let r := sequentialCompressEdgeSet m0 edgeArray 0 d src es in
    snd r < 2 ^ 32 ->
    packs ps (fst r) edgeArray src d = Some (m', k) ->
    forall q, q < edgeArray \/ edgeArray + snd r <= q -> load m' q = load m0 q.
Proof.
  intros W HW HWok m0 base src es ps m' k Hsrc Hok Hne d r Hoff Hpacks q Hq.
  destruct (encoder_region m0 base src es (fst r) (snd r) Hsrc Hok Hne
              ltac:(apply surjective_pairing) Hoff) as (Hreg & Hd & Hend).
  fold d in Hreg, Hd, Hend.
  set (B := 1 + (d - 1) / PARALLEL_DEGREE) in *.
  set (addr := addr_of src (chunk_of es) (base + 4 * B)) in *.
  assert (1 <= d) as Hd1 by (unfold d; destruct es; [done|cbn [length]; lia]).
  destruct (num_blocks_of_pos d ltac:(lia)) as [HB HB1].
  change (1 + (d - 1) / 1000) with B in HB.
  pose proof (start_of_chunk_of_all es Hne) as Hall. fold d B in Hall.
  pose proof (addr_of_edges src (base + 4 * B) es B Hok ltac:(lia)) as Hlow.
  fold addr in Hlow. rewrite Hall in Hlow.
  pose proof (edges_of_chunk_of es Hne Hd) as Heo. fold d in Heo.
  assert (packs ps (fst r) base src
            (Z.of_nat (length (edges_of d (chunk_of es)))) = Some (m', k)) as Hpacks'
    by (rewrite Heo; exact Hpacks).
  pose proof (packs_region_extent base src ps (fst r) d addr (chunk_of es) m' k Hreg
                ltac:(rewrite HB; lia) Hpacks' q (q + 1) ltac:(rewrite HB; lia)) as Hs.
  rewrite Hs by lia.
  apply (encoder_same_on m0 base src es q (q + 1) Hsrc Hok Hne); [|lia].
  fold d r. lia.
Qed.

Lemma packs_stay_in_encoded_extent_witness :
  let es := examples.unit_edges 1 50 in
  let d := Z.of_nat (length es) in
  let r := sequentialCompressEdgeSet zero_mem 64 0 d 1 es in
  exists (m' : mem) (k : Z),
    packs [(examples.odd_ngh, true); (examples.below 4, false)] (fst r) 64 1 d
      = Some (m', k) /\
    forall q, q < 64 \/ 64 + snd r <= q -> load m' q = load zero_mem q.
Proof.
  intros es d r.
  assert (is_uintE 1) as Hsrc by (unfold is_uintE; lia).
  assert (edges_ok es) as Hok.
  { apply (increasing_from_weaken _ (1 - 1)); [lia|]. apply increasing_unit_edges; lia. }
  assert (es <> []) as Hne by discriminate.
  assert (snd r < 800) as Hsmall by (vm_compute; reflexivity).
  destruct (encoder_region zero_mem 64 1 es (fst r) (snd r) Hsrc Hok Hne
              ltac:(apply surjective_pairing) ltac:(lia)) as (Hreg & Hd & Hend).
  assert (d = 50) as Hd50 by (vm_compute; reflexivity).
  destruct (num_blocks_of_pos d ltac:(lia)) as [HB HB1].
  change (1 + (d - 1) / 1000) with (1 + (d - 1) / PARALLEL_DEGREE) in HB.
  pose proof (start_of_chunk_of_all es Hne) as Hall.
  pose proof (addr_of_edges 1 (64 + 4 * (1 + (d - 1) / PARALLEL_DEGREE)) es
                (1 + (d - 1) / PARALLEL_DEGREE) Hok ltac:(rewrite <- HB; lia)) as Hlow.
  fold d in Hreg, Hend, Hall. rewrite Hall in Hlow.
  destruct (packs_region_defined 64 1
              [(examples.odd_ngh, true); (examples.below 4, false)] (fst r) d _ _ Hreg
              ltac:(rewrite HB; lia) ltac:(rewrite HB; lia)) as (m' & k & Hpacks).
  pose proof (edges_of_chunk_of es Hne Hd) as Heo. fold d in Heo.
  rewrite Heo in Hpacks.
  exists m', k. split; [exact Hpacks|].
  apply (packs_stay_in_encoded_extent unit _ _ zero_mem 64 1 es
           [(examples.odd_ngh, true); (examples.below 4, false)] m' k Hsrc Hok Hne
           ltac:(fold d r; lia) Hpacks).
Defined.

(** ** BFS: the parents lie on shortest paths *)

Section bfs_levels.
Variable GA : bfs.graph.
Variable src : Z.
Hypothesis Hok : bfs.vertices_ok GA src.

(** a call along an edge of the frontier that changes nothing found a
    parent at its target *)
Lemma edgeMap_call_idle st c rest :
  bfs.bfs_inv GA src st ->
  bfs.Parents (bfs.edgeMap_call GA st c rest) = bfs.Parents st ->
  In (bfs.c_s c) (bfs.Frontier st) ->
  In (bfs.c_d c) (bfs.out_nghs GA (bfs.c_s c)) ->
  bfs.Parents st (bfs.c_d c) <> UINT_E_MAX.
Proof.
  intros (HF & HO & HP) Hsame Hs Hd Hmax.
  destruct Hok as (Hsrc & Hn & Hedges).
  assert (bfs.Parents (bfs.edgeMap_call GA st c rest) <> bfs.Parents st); [|done].
  unfold bfs.edgeMap_call.
  replace (bfs.member (bfs.c_s c) (bfs.Frontier st)) with true
    by (symmetry; by apply member_In).
  replace (bfs.member (bfs.c_d c) (bfs.out_nghs GA (bfs.c_s c))) with true
    by (symmetry; by apply member_In).
  unfold bfs.cond. rewrite Hmax, Z.eqb_refl. cbn [andb].
  unfold bfs.updateAtomic, bfs.atomic_compare_and_swap, bfs.update.
  rewrite Hmax, Z.eqb_refl.
  assert (upd (bfs.Parents st) (bfs.c_d c) (bfs.c_s c) (bfs.c_d c)
          <> bfs.Parents st (bfs.c_d c)) as Hne.
  { rewrite upd_eq, Hmax. pose proof (HF _ Hs). unfold UINT_E_MAX in *. lia. }
  destruct (bfs.c_atomic c); cbn [bfs.Parents]; intros Heq; by rewrite Heq in Hne.
Qed.

Lemma dist_unique d k k' : bfs.dist GA src d k -> bfs.dist GA src d k' -> k = k'.
Proof. intros [Hp Hmin] [Hp' Hmin']. specialize (Hmin _ Hp'). specialize (Hmin' _ Hp). lia. Qed.

Lemma level_start sc rounds :
  (forall sc', In sc' (sc :: rounds) -> bfs.covers GA sc') ->
  bfs.level_inv GA src 0 (bfs.start src (sc :: rounds)).
Proof.
  intros Hcov. destruct Hok as (Hsrc & Hn & Hedges).
  assert (bfs.dist GA src src 0) as Hd0.
  { split; [constructor|lia]. }
  assert (forall x j, bfs.path GA src j x -> (j <= 0)%nat -> x = src) as Hp0.
  { intros x j Hp Hj. destruct Hp; [done|lia]. }
  unfold bfs.level_inv, bfs.start.
  cbn [bfs.later bfs.Frontier bfs.output bfs.Parents bfs.sched hd tl].
  split; [by intros x [<-|[]]|].
  split.
  { intros x. unfold upd. destruct (Z.eqb_spec x src) as [->|]; [|done].
    intros _. left. by exists O. }
  split.
  { intros x j Hp Hj. rewrite (Hp0 x j Hp Hj), upd_eq. unfold UINT_E_MAX in *. lia. }
  split.
  { intros x [Hp _]. left. symmetry. by apply (Hp0 x O). }
  split; [by intros x []|].
  split.
  { intros x. unfold upd. by destruct (Z.eqb_spec x src). }
  split.
  { intros s d [<-|[]] Hd. right. apply (Hcov sc); [by left|done|done]. }
  intros sc' Hin. apply Hcov. by right.
Qed.

Lemma level_step st st' :
  bfs.bfs_inv GA src st ->
  (exists i, bfs.level_inv GA src i st) ->
  bfs.step GA st = Some st' ->
  exists i, bfs.level_inv GA src i st'.
Proof.
  intros Hinv (i & L1 & L2 & L3 & L3' & L4 & L5 & L6 & L7) Hstep.
  pose proof Hinv as (HF & HO & HP).
  destruct Hok as (Hsrc & Hn & Hedges).
  unfold bfs.step in Hstep.
  destruct (bfs.sched st) as [|c rest] eqn:Hsched.
  - (* the round ends *)
    destruct (bfs.output st) as [|x0 out] eqn:Hout; [done|].
    destruct (bfs.later st) as [|sc scs] eqn:Hl; [done|].
    injection Hstep as <-. exists (S i). unfold bfs.level_inv.
    cbn [bfs.later bfs.Frontier bfs.output bfs.Parents bfs.sched].
    assert (forall x j, bfs.path GA src j x -> (j <= S i)%nat ->
              bfs.Parents st x <> UINT_E_MAX) as L3n.
    { intros x j Hp Hj. destruct (Nat.eq_dec j (S i)) as [->|]; [|apply (L3 x j Hp); lia].
      inversion Hp as [|k s d Hps Hd]; subst.
      destruct (L2 s (L3 s i Hps ltac:(lia))) as [(k & Hk & Hds)|([_ Hmin] & _)].
      - destruct (Nat.eq_dec k i) as [->|].
        + destruct (L6 s x (L3' s Hds) Hd) as [?|(c & [] & _)]. done.
        + apply (L3 x (S k)); [|lia]. econstructor; [apply Hds|done].
      - specialize (Hmin i Hps). lia. }
    split; [done|].
    split.
    { intros x Hx. left. destruct (L2 x Hx) as [(k & Hk & Hd)|[Hd _]].
      - exists k. split; [lia|done].
      - by exists (S i). }
    split; [done|].
    split.
    { intros x Hd. destruct (L2 x (L3n x (S i) (proj1 Hd) ltac:(lia)))
        as [(k & Hk & Hd')|[_ Hin]]; [|done].
      pose proof (dist_unique x _ _ Hd Hd'). lia. }
    split; [by intros x []|].
    split; [done|].
    split.
    { intros s d Hs Hd. right. apply (L7 sc); [by left| |done]. by apply HO. }
    intros sc' Hin. apply L7. by right.
  - (* a call *)
    injection Hstep as <-. exists i.
    destruct (edgeMap_call_cases GA st c rest)
      as [(HP' & HO' & HR' & HF')|(Hs & Hd & Hmax & HP' & HO' & HR' & HF')].
    + (* nothing happens *)
      unfold bfs.level_inv. rewrite HO', HF'.
      destruct (edgeMap_call_sched GA st c rest) as [-> ->].
      rewrite HP'.
      do 6 (split; [done|]). split; [|done].
      intros s d Hs Hd. destruct (L6 s d Hs Hd) as [?|(c0 & [<-|Hin] & Hcs & Hcd)];
        [by left| |right; by exists c0].
      left. rewrite <- Hcd. apply (edgeMap_call_idle st c rest Hinv HP');
        [by rewrite Hcs|by rewrite Hcs, Hcd].
    + (* the target gets its parent *)
      set (s := bfs.c_s c) in *. set (d := bfs.c_d c) in *.
      assert (s <> UINT_E_MAX) as Hsne
        by (pose proof (HF _ Hs); unfold UINT_E_MAX in *; lia).
      assert (forall x, bfs.Parents st x <> UINT_E_MAX ->
                upd (bfs.Parents st) d s x <> UINT_E_MAX) as Hkeep.
      { intros x Hx. unfold upd. by destruct (x =? d). }
      assert (bfs.dist GA src d (S i)) as Hdd.
      { split; [econstructor; [apply (L1 s Hs)|done]|].
        intros j Hp. destruct (le_lt_dec (S i) j); [done|].
        destruct (L3 d j Hp ltac:(lia)). done. }
      unfold bfs.level_inv. rewrite HO', HF', HP'.
      destruct (edgeMap_call_sched GA st c rest) as [-> ->].
      split; [done|].
      split.
      { intros x. unfold upd. destruct (Z.eqb_spec x d) as [->|].
        - intros _. right. split; [done|]. apply in_or_app. right. by left.
        - intros Hx. destruct (L2 x Hx) as [?|[? ?]]; [by left|right].
          split; [done|]. apply in_or_app. by left. }
      split; [intros x j Hp Hj; by apply Hkeep, (L3 x j)|].
      split; [done|].
      split.
      { intros x [Hx|[<-|[]]]%in_app_or; [by apply L4|done]. }
      split.
      { intros x. unfold upd. destruct (Z.eqb_spec x d) as [->|].
        - intros _ _. exists i. split; [by apply L1|done].
        - apply L5. }
      split; [|done].
      intros s0 d0 Hs0 Hd0.
      destruct (L6 s0 d0 Hs0 Hd0) as [?|(c0 & [<-|Hin] & Hcs & Hcd)];
        [left; by apply Hkeep| |right; by exists c0].
      left. rewrite <- Hcd. fold d. by rewrite upd_eq.
Qed.

Lemma level_run rounds k :
  (forall sc, In sc rounds -> bfs.covers GA sc) -> rounds <> [] ->
  exists i, bfs.level_inv GA src i (bfs.run GA k (bfs.start src rounds)).
Proof.
  intros Hcov Hne. destruct rounds as [|sc rounds]; [done|].
  apply (run_invariant GA (fun st => exists i, bfs.level_inv GA src i st) src
           (sc :: rounds) Hok).
  - exists O. by apply level_start.
  - apply level_step.
Qed.

End bfs_levels.

(** X20. The parents that BFS assigns lie on shortest paths: when the
    schedule of every round has a call for every edge of the graph (in any
    order, by [update] or [updateAtomic]), then at every point of the run a
    vertex [d] other than [src] with an entry other than [UINT_E_MAX] in
    [Parents] is some [k + 1] edges away from [src], no path from [src] to
    it has fewer edges, and its parent is [k] edges away: following the
    parents from [d] leads to [src] along a shortest path. *)
Theorem BFS_parents_shortest :
  forall (GA : bfs.graph) (src : Z) (rounds : list (list bfs.call)) (fuel : nat) (d : Z),
    bfs.vertices_ok GA src ->
    (forall sc, In sc rounds -> bfs.covers GA sc) ->
    bfs.BFS GA src rounds fuel d <> UINT_E_MAX -> d <> src ->
    exists k, bfs.dist GA src (bfs.BFS GA src rounds fuel d) k /\
              bfs.dist GA src d (S k).
Proof.
  intros GA src rounds fuel d Hok Hcov Hvis Hne. unfold bfs.BFS in *.
  destruct rounds as [|sc rounds].
  - rewrite run_stuck in Hvis by done. cbn in Hvis. unfold upd in Hvis.
    destruct (Z.eqb_spec d src); done.
  - destruct (level_run GA src Hok (sc :: rounds) fuel Hcov ltac:(done))
      as (i & _ & _ & _ & _ & _ & L5 & _).
    by apply L5.
Qed.

Lemma star_round_covers :
  bfs.covers {| bfs.n := 4; bfs.out_nghs := examples.star_nghs |}
    [{| bfs.c_s := 3; bfs.c_d := 0; bfs.c_atomic := false |};
     {| bfs.c_s := 0; bfs.c_d := 1; bfs.c_atomic := true |};
     {| bfs.c_s := 1; bfs.c_d := 0; bfs.c_atomic := false |};
     {| bfs.c_s := 0; bfs.c_d := 3; bfs.c_atomic := true |};
     {| bfs.c_s := 2; bfs.c_d := 0; bfs.c_atomic := true |};
     {| bfs.c_s := 0; bfs.c_d := 2; bfs.c_atomic := false |}].
Proof.
  intros s d Hs Hd. cbn in Hs, Hd. unfold examples.star_nghs in Hd.
  assert (s = 0 \/ s = 1 \/ s = 2 \/ s = 3) as [-> | [-> | [-> | ->]]] by lia;
    cbn in Hd;
    repeat match goal with H : _ \/ _ |- _ => destruct H as [<-|H] end;
    try done;
    match goal with |- exists c, In c ?l /\ _ => pick_call l end.
Qed.

Lemma BFS_parents_shortest_witness :
  let GA := {| bfs.n := 4; bfs.out_nghs := examples.star_nghs |} in
  let round :=
    [{| bfs.c_s := 3; bfs.c_d := 0; bfs.c_atomic := false |};
     {| bfs.c_s := 0; bfs.c_d := 1; bfs.c_atomic := true |};
     {| bfs.c_s := 1; bfs.c_d := 0; bfs.c_atomic := false |};
     {| bfs.c_s := 0; bfs.c_d := 3; bfs.c_atomic := true |};
     {| bfs.c_s := 2; bfs.c_d := 0; bfs.c_atomic := true |};
     {| bfs.c_s := 0; bfs.c_d := 2; bfs.c_atomic := false |}] in
  exists k, bfs.dist GA 0 (bfs.BFS GA 0 [round; round] 14 2) k /\
            bfs.dist GA 0 2 (S k).
Proof.
  intros GA round.
  apply (BFS_parents_shortest GA 0 [round; round] 14 2 star_vertices_ok).
  - intros sc [<-|[<-|[]]]; apply star_round_covers.
  - vm_compute. discriminate.
  - discriminate.
Defined.
